(** * Verification of the per-function WebAssembly-to-JavaScript compiler

    A shallow embedding of [compileCode] (types.ts) and of the opcode
    metadata table (defs.ts).  The compiler is a single closure over
    mutable locals; the embedding threads those locals as one [State]
    record through a state-and-error monad.  JavaScript numbers that the
    code keeps integral are [Z]; the results of the 32-bit bit operators
    are wrapped explicitly. *)

From Stdlib Require Import ZArith List String Ascii Bool Lia DecimalString.
Import ListNotations.
Open Scope string_scope.
Open Scope list_scope.
Open Scope Z_scope.

(** ** JavaScript integer operators *)

Definition toInt32 (v : Z) : Z := (v + 2 ^ 31) mod 2 ^ 32 - 2 ^ 31.
Definition toUint32 (v : Z) : Z := v mod 2 ^ 32.

(** [a | b], [a & b], [a << n], [a >> n], [a >>> n] on numbers. *)
Definition js_or (a b : Z) : Z := toInt32 (Z.lor a b).
Definition js_and (a b : Z) : Z := toInt32 (Z.land a b).
Definition js_shl (a n : Z) : Z := toInt32 (Z.shiftl a (n mod 32)).
Definition js_shr (a n : Z) : Z := Z.shiftr (toInt32 a) (n mod 32).
Definition js_ushr (a n : Z) : Z := Z.shiftr (toUint32 a) (n mod 32).

(** Number to text, as [n + ''] does for an integral number. *)
Definition showZ (z : Z) : string := NilZero.string_of_int (Z.to_int z).

Definition dquote : string := String (ascii_of_nat 34) EmptyString.

Local Infix "+++" := String.append (at level 60, right associativity).

(** [Array.prototype.join]. *)
Definition join (sep : string) (l : list string) : string := String.concat sep l.

(** [array[i]] for a number [i]: [None] stands for [undefined]. *)
Definition lookupZ {A : Type} (l : list A) (i : Z) : option A :=
  if i <? 0 then None else nth_error l (Z.to_nat i).

(** ** defs.ts *)

Module Pack.
Definition OpMask : Z := 255.
Definition ChildCountShift : Z := 8.
Definition ChildCountMask : Z := 0xFFFF.
Definition OutSlotShift : Z := 24.
End Pack.

Module MetaFlag.
Definition PopMask : Z := 3.
Definition Push : Z := Z.shiftl 1 2.
Definition Simple : Z := Z.shiftl 1 3.
Definition HasIndex : Z := Z.shiftl 1 4.
Definition HasAlign : Z := Z.shiftl 1 5.
Definition BoolToInt : Z := Z.shiftl 1 6.
Definition ToU32 : Z := Z.shiftl 1 7.
Definition ToS64 : Z := Z.shiftl 1 8.
Definition Omit : Z := Z.shiftl 1 9.
Definition And63 : Z := Z.shiftl 1 10.
End MetaFlag.

Module Op.
Definition i32_trunc_sat_f32_s : Z := 0x00.
Definition i32_trunc_sat_f32_u : Z := 0x01.
Definition i32_trunc_sat_f64_s : Z := 0x02.
Definition i32_trunc_sat_f64_u : Z := 0x03.
Definition i64_trunc_sat_f32_s : Z := 0x04.
Definition i64_trunc_sat_f32_u : Z := 0x05.
Definition i64_trunc_sat_f64_s : Z := 0x06.
Definition i64_trunc_sat_f64_u : Z := 0x07.
Definition memory_copy : Z := 0x0a.
Definition memory_fill : Z := 0x0b.
Definition unreachable : Z := 0x00.
Definition nop : Z := 0x01.
Definition block : Z := 0x02.
Definition loop : Z := 0x03.
Definition if_ : Z := 0x04.
Definition else_ : Z := 0x05.
Definition end_ : Z := 0x0b.
Definition br : Z := 0x0c.
Definition br_if : Z := 0x0d.
Definition br_table : Z := 0x0e.
Definition return_ : Z := 0x0f.
Definition call : Z := 0x10.
Definition call_indirect : Z := 0x11.
Definition drop : Z := 0x1a.
Definition select : Z := 0x1b.
Definition select_type : Z := 0x1c.
Definition local_get : Z := 0x20.
Definition local_set : Z := 0x21.
Definition local_tee : Z := 0x22.
Definition global_get : Z := 0x23.
Definition global_set : Z := 0x24.
Definition table_get : Z := 0x25.
Definition table_set : Z := 0x26.
Definition i32_load : Z := 0x28.
Definition i64_load : Z := 0x29.
Definition f32_load : Z := 0x2a.
Definition f64_load : Z := 0x2b.
Definition i32_load8_s : Z := 0x2c.
Definition i32_load8_u : Z := 0x2d.
Definition i32_load16_s : Z := 0x2e.
Definition i32_load16_u : Z := 0x2f.
Definition i64_load8_s : Z := 0x30.
Definition i64_load8_u : Z := 0x31.
Definition i64_load16_s : Z := 0x32.
Definition i64_load16_u : Z := 0x33.
Definition i64_load32_s : Z := 0x34.
Definition i64_load32_u : Z := 0x35.
Definition i32_store : Z := 0x36.
Definition i64_store : Z := 0x37.
Definition f32_store : Z := 0x38.
Definition f64_store : Z := 0x39.
Definition i32_store8 : Z := 0x3a.
Definition i32_store16 : Z := 0x3b.
Definition i64_store8 : Z := 0x3c.
Definition i64_store16 : Z := 0x3d.
Definition i64_store32 : Z := 0x3e.
Definition memory_size : Z := 0x3f.
Definition memory_grow : Z := 0x40.
Definition i32_const : Z := 0x41.
Definition i64_const : Z := 0x42.
Definition f32_const : Z := 0x43.
Definition f64_const : Z := 0x44.
Definition i32_eqz : Z := 0x45.
Definition i32_eq : Z := 0x46.
Definition i32_ne : Z := 0x47.
Definition i32_lt_s : Z := 0x48.
Definition i32_lt_u : Z := 0x49.
Definition i32_gt_s : Z := 0x4a.
Definition i32_gt_u : Z := 0x4b.
Definition i32_le_s : Z := 0x4c.
Definition i32_le_u : Z := 0x4d.
Definition i32_ge_s : Z := 0x4e.
Definition i32_ge_u : Z := 0x4f.
Definition i64_eqz : Z := 0x50.
Definition i64_eq : Z := 0x51.
Definition i64_ne : Z := 0x52.
Definition i64_lt_s : Z := 0x53.
Definition i64_lt_u : Z := 0x54.
Definition i64_gt_s : Z := 0x55.
Definition i64_gt_u : Z := 0x56.
Definition i64_le_s : Z := 0x57.
Definition i64_le_u : Z := 0x58.
Definition i64_ge_s : Z := 0x59.
Definition i64_ge_u : Z := 0x5a.
Definition f32_eq : Z := 0x5b.
Definition f32_ne : Z := 0x5c.
Definition f32_lt : Z := 0x5d.
Definition f32_gt : Z := 0x5e.
Definition f32_le : Z := 0x5f.
Definition f32_ge : Z := 0x60.
Definition f64_eq : Z := 0x61.
Definition f64_ne : Z := 0x62.
Definition f64_lt : Z := 0x63.
Definition f64_gt : Z := 0x64.
Definition f64_le : Z := 0x65.
Definition f64_ge : Z := 0x66.
Definition i32_clz : Z := 0x67.
Definition i32_ctz : Z := 0x68.
Definition i32_popcnt : Z := 0x69.
Definition i32_add : Z := 0x6a.
Definition i32_sub : Z := 0x6b.
Definition i32_mul : Z := 0x6c.
Definition i32_div_s : Z := 0x6d.
Definition i32_div_u : Z := 0x6e.
Definition i32_rem_s : Z := 0x6f.
Definition i32_rem_u : Z := 0x70.
Definition i32_and : Z := 0x71.
Definition i32_or : Z := 0x72.
Definition i32_xor : Z := 0x73.
Definition i32_shl : Z := 0x74.
Definition i32_shr_s : Z := 0x75.
Definition i32_shr_u : Z := 0x76.
Definition i32_rotl : Z := 0x77.
Definition i32_rotr : Z := 0x78.
Definition i64_clz : Z := 0x79.
Definition i64_ctz : Z := 0x7a.
Definition i64_popcnt : Z := 0x7b.
Definition i64_add : Z := 0x7c.
Definition i64_sub : Z := 0x7d.
Definition i64_mul : Z := 0x7e.
Definition i64_div_s : Z := 0x7f.
Definition i64_div_u : Z := 0x80.
Definition i64_rem_s : Z := 0x81.
Definition i64_rem_u : Z := 0x82.
Definition i64_and : Z := 0x83.
Definition i64_or : Z := 0x84.
Definition i64_xor : Z := 0x85.
Definition i64_shl : Z := 0x86.
Definition i64_shr_s : Z := 0x87.
Definition i64_shr_u : Z := 0x88.
Definition i64_rotl : Z := 0x89.
Definition i64_rotr : Z := 0x8a.
Definition f32_abs : Z := 0x8b.
Definition f32_neg : Z := 0x8c.
Definition f32_ceil : Z := 0x8d.
Definition f32_floor : Z := 0x8e.
Definition f32_trunc : Z := 0x8f.
Definition f32_nearest : Z := 0x90.
Definition f32_sqrt : Z := 0x91.
Definition f32_add : Z := 0x92.
Definition f32_sub : Z := 0x93.
Definition f32_mul : Z := 0x94.
Definition f32_div : Z := 0x95.
Definition f32_min : Z := 0x96.
Definition f32_max : Z := 0x97.
Definition f32_copysign : Z := 0x98.
Definition f64_abs : Z := 0x99.
Definition f64_neg : Z := 0x9a.
Definition f64_ceil : Z := 0x9b.
Definition f64_floor : Z := 0x9c.
Definition f64_trunc : Z := 0x9d.
Definition f64_nearest : Z := 0x9e.
Definition f64_sqrt : Z := 0x9f.
Definition f64_add : Z := 0xa0.
Definition f64_sub : Z := 0xa1.
Definition f64_mul : Z := 0xa2.
Definition f64_div : Z := 0xa3.
Definition f64_min : Z := 0xa4.
Definition f64_max : Z := 0xa5.
Definition f64_copysign : Z := 0xa6.
Definition i32_wrap_i64 : Z := 0xa7.
Definition i32_trunc_f32_s : Z := 0xa8.
Definition i32_trunc_f32_u : Z := 0xa9.
Definition i32_trunc_f64_s : Z := 0xaa.
Definition i32_trunc_f64_u : Z := 0xab.
Definition i64_extend_i32_s : Z := 0xac.
Definition i64_extend_i32_u : Z := 0xad.
Definition i64_trunc_f32_s : Z := 0xae.
Definition i64_trunc_f32_u : Z := 0xaf.
Definition i64_trunc_f64_s : Z := 0xb0.
Definition i64_trunc_f64_u : Z := 0xb1.
Definition f32_convert_i32_s : Z := 0xb2.
Definition f32_convert_i32_u : Z := 0xb3.
Definition f32_convert_i64_s : Z := 0xb4.
Definition f32_convert_i64_u : Z := 0xb5.
Definition f32_demote_f64 : Z := 0xb6.
Definition f64_convert_i32_s : Z := 0xb7.
Definition f64_convert_i32_u : Z := 0xb8.
Definition f64_convert_i64_s : Z := 0xb9.
Definition f64_convert_i64_u : Z := 0xba.
Definition f64_promote_f32 : Z := 0xbb.
Definition i32_reinterpret_f32 : Z := 0xbc.
Definition i64_reinterpret_f64 : Z := 0xbd.
Definition f32_reinterpret_i32 : Z := 0xbe.
Definition f64_reinterpret_i64 : Z := 0xbf.
Definition i32_extend8_s : Z := 0xc0.
Definition i32_extend16_s : Z := 0xc1.
Definition i64_extend8_s : Z := 0xc2.
Definition i64_extend16_s : Z := 0xc3.
Definition i64_extend32_s : Z := 0xc4.
Definition BOOL : Z := 0xf0.
Definition BOOL_NOT : Z := 0xf1.
Definition BOOL_TO_INT : Z := 0xf2.
Definition TO_U32 : Z := 0xf3.
Definition TO_S64 : Z := 0xf4.
Definition U32_LOAD : Z := 0xf5.
Definition S64_LOAD : Z := 0xf6.
End Op.

Inductive BlockKind := Normal | Loop | IfElse.

Definition BlockKind_eqb (a b : BlockKind) : bool :=
  match a, b with
  | Normal, Normal | Loop, Loop | IfElse, IfElse => true
  | _, _ => false
  end.

Record Block := mkBlock {
  argCount_ : Z;
  isDead_ : bool;
  kind_ : BlockKind;
  labelBreak_ : Z;
  labelContinueOrElse_ : Z;
  parentStackTop_ : Z;
  returnCount_ : Z
}.

(** The metadata table is a [Uint16Array(256)], zero where the source
    assigns nothing; each assigned entry is the bitwise or of its flags. *)
Definition flags (l : list Z) : Z := fold_left Z.lor l 0.

Definition metaTable (op : Z) : Z :=
  let PopMask := MetaFlag.PopMask in
  let Push := MetaFlag.Push in
  let Simple := MetaFlag.Simple in
  let HasIndex := MetaFlag.HasIndex in
  let HasAlign := MetaFlag.HasAlign in
  let BoolToInt := MetaFlag.BoolToInt in
  let ToU32 := MetaFlag.ToU32 in
  let ToS64 := MetaFlag.ToS64 in
  let Omit := MetaFlag.Omit in
  let And63 := MetaFlag.And63 in
  match op with
  | 0x01 (* nop *) => flags [Omit; Simple]
  | 0x1a (* drop *) => flags [1; Omit; Simple]
  | 0x20 (* local_get *) => flags [Push; HasIndex; Simple]
  | 0x21 (* local_set *) => flags [1; HasIndex; Simple]
  | 0x22 (* local_tee *) => flags [1; Push; HasIndex; Simple]
  | 0x23 (* global_get *) => flags [Push; HasIndex; Simple]
  | 0x24 (* global_set *) => flags [1; HasIndex; Simple]
  | 0x28 (* i32_load *) => flags [1; Push; HasAlign; HasIndex; Simple]
  | 0x29 (* i64_load *) => flags [1; Push; HasAlign; HasIndex; Simple]
  | 0x2a (* f32_load *) => flags [1; Push; HasAlign; HasIndex; Simple]
  | 0x2b (* f64_load *) => flags [1; Push; HasAlign; HasIndex; Simple]
  | 0x2c (* i32_load8_s *) => flags [1; Push; HasAlign; HasIndex; Simple]
  | 0x2d (* i32_load8_u *) => flags [1; Push; HasAlign; HasIndex; Simple]
  | 0x2e (* i32_load16_s *) => flags [1; Push; HasAlign; HasIndex; Simple]
  | 0x2f (* i32_load16_u *) => flags [1; Push; HasAlign; HasIndex; Simple]
  | 0x30 (* i64_load8_s *) => flags [1; Push; HasAlign; HasIndex; Simple]
  | 0x31 (* i64_load8_u *) => flags [1; Push; HasAlign; HasIndex; Simple]
  | 0x32 (* i64_load16_s *) => flags [1; Push; HasAlign; HasIndex; Simple]
  | 0x33 (* i64_load16_u *) => flags [1; Push; HasAlign; HasIndex; Simple]
  | 0x34 (* i64_load32_s *) => flags [1; Push; HasAlign; HasIndex; Simple]
  | 0x35 (* i64_load32_u *) => flags [1; Push; HasAlign; HasIndex; Simple]
  | 0x36 (* i32_store *) => flags [2; HasAlign; HasIndex; Simple]
  | 0x37 (* i64_store *) => flags [2; HasAlign; HasIndex; Simple]
  | 0x38 (* f32_store *) => flags [2; HasAlign; HasIndex; Simple]
  | 0x39 (* f64_store *) => flags [2; HasAlign; HasIndex; Simple]
  | 0x3a (* i32_store8 *) => flags [2; HasAlign; HasIndex; Simple]
  | 0x3b (* i32_store16 *) => flags [2; HasAlign; HasIndex; Simple]
  | 0x3c (* i64_store8 *) => flags [2; HasAlign; HasIndex; Simple]
  | 0x3d (* i64_store16 *) => flags [2; HasAlign; HasIndex; Simple]
  | 0x3e (* i64_store32 *) => flags [2; HasAlign; HasIndex; Simple]
  | 0x3f (* memory_size *) => flags [Push; HasIndex; Simple]
  | 0x40 (* memory_grow *) => flags [1; Push; HasIndex; Simple]
  | 0x45 (* i32_eqz *) => flags [1; Push; Simple]
  | 0x46 (* i32_eq *) => flags [2; Push; Simple; BoolToInt]
  | 0x47 (* i32_ne *) => flags [2; Push; Simple; BoolToInt]
  | 0x48 (* i32_lt_s *) => flags [2; Push; Simple; BoolToInt]
  | 0x49 (* i32_lt_u *) => flags [2; Push; Simple; BoolToInt; ToU32]
  | 0x4a (* i32_gt_s *) => flags [2; Push; Simple; BoolToInt]
  | 0x4b (* i32_gt_u *) => flags [2; Push; Simple; BoolToInt; ToU32]
  | 0x4c (* i32_le_s *) => flags [2; Push; Simple; BoolToInt]
  | 0x4d (* i32_le_u *) => flags [2; Push; Simple; BoolToInt; ToU32]
  | 0x4e (* i32_ge_s *) => flags [2; Push; Simple; BoolToInt]
  | 0x4f (* i32_ge_u *) => flags [2; Push; Simple; BoolToInt; ToU32]
  | 0x50 (* i64_eqz *) => flags [1; Push; Simple]
  | 0x51 (* i64_eq *) => flags [2; Push; Simple; BoolToInt]
  | 0x52 (* i64_ne *) => flags [2; Push; Simple; BoolToInt]
  | 0x53 (* i64_lt_s *) => flags [2; Push; Simple; BoolToInt; ToS64]
  | 0x54 (* i64_lt_u *) => flags [2; Push; Simple; BoolToInt]
  | 0x55 (* i64_gt_s *) => flags [2; Push; Simple; BoolToInt; ToS64]
  | 0x56 (* i64_gt_u *) => flags [2; Push; Simple; BoolToInt]
  | 0x57 (* i64_le_s *) => flags [2; Push; Simple; BoolToInt; ToS64]
  | 0x58 (* i64_le_u *) => flags [2; Push; Simple; BoolToInt]
  | 0x59 (* i64_ge_s *) => flags [2; Push; Simple; BoolToInt; ToS64]
  | 0x5a (* i64_ge_u *) => flags [2; Push; Simple; BoolToInt]
  | 0x5b (* f32_eq *) => flags [2; Push; Simple; BoolToInt]
  | 0x5c (* f32_ne *) => flags [2; Push; Simple; BoolToInt]
  | 0x5d (* f32_lt *) => flags [2; Push; Simple; BoolToInt]
  | 0x5e (* f32_gt *) => flags [2; Push; Simple; BoolToInt]
  | 0x5f (* f32_le *) => flags [2; Push; Simple; BoolToInt]
  | 0x60 (* f32_ge *) => flags [2; Push; Simple; BoolToInt]
  | 0x61 (* f64_eq *) => flags [2; Push; Simple; BoolToInt]
  | 0x62 (* f64_ne *) => flags [2; Push; Simple; BoolToInt]
  | 0x63 (* f64_lt *) => flags [2; Push; Simple; BoolToInt]
  | 0x64 (* f64_gt *) => flags [2; Push; Simple; BoolToInt]
  | 0x65 (* f64_le *) => flags [2; Push; Simple; BoolToInt]
  | 0x66 (* f64_ge *) => flags [2; Push; Simple; BoolToInt]
  | 0x67 (* i32_clz *) => flags [1; Push; Simple]
  | 0x68 (* i32_ctz *) => flags [1; Push; Simple]
  | 0x69 (* i32_popcnt *) => flags [1; Push; Simple]
  | 0x6a (* i32_add *) => flags [2; Push; Simple]
  | 0x6b (* i32_sub *) => flags [2; Push; Simple]
  | 0x6c (* i32_mul *) => flags [2; Push; Simple]
  | 0x6d (* i32_div_s *) => flags [2; Push; Simple]
  | 0x6e (* i32_div_u *) => flags [2; Push; Simple; ToU32]
  | 0x6f (* i32_rem_s *) => flags [2; Push; Simple]
  | 0x70 (* i32_rem_u *) => flags [2; Push; Simple; ToU32]
  | 0x71 (* i32_and *) => flags [2; Push; Simple]
  | 0x72 (* i32_or *) => flags [2; Push; Simple]
  | 0x73 (* i32_xor *) => flags [2; Push; Simple]
  | 0x74 (* i32_shl *) => flags [2; Push; Simple]
  | 0x75 (* i32_shr_s *) => flags [2; Push; Simple]
  | 0x76 (* i32_shr_u *) => flags [2; Push; Simple]
  | 0x77 (* i32_rotl *) => flags [2; Push; Simple]
  | 0x78 (* i32_rotr *) => flags [2; Push; Simple]
  | 0x79 (* i64_clz *) => flags [1; Push; Simple]
  | 0x7a (* i64_ctz *) => flags [1; Push; Simple]
  | 0x7b (* i64_popcnt *) => flags [1; Push; Simple]
  | 0x7c (* i64_add *) => flags [2; Push; Simple]
  | 0x7d (* i64_sub *) => flags [2; Push; Simple]
  | 0x7e (* i64_mul *) => flags [2; Push; Simple]
  | 0x7f (* i64_div_s *) => flags [2; Push; Simple; ToS64]
  | 0x80 (* i64_div_u *) => flags [2; Push; Simple]
  | 0x81 (* i64_rem_s *) => flags [2; Push; Simple; ToS64]
  | 0x82 (* i64_rem_u *) => flags [2; Push; Simple]
  | 0x83 (* i64_and *) => flags [2; Push; Simple]
  | 0x84 (* i64_or *) => flags [2; Push; Simple]
  | 0x85 (* i64_xor *) => flags [2; Push; Simple]
  | 0x86 (* i64_shl *) => flags [2; Push; Simple; And63]
  | 0x87 (* i64_shr_s *) => flags [2; Push; Simple; And63]
  | 0x88 (* i64_shr_u *) => flags [2; Push; Simple; And63]
  | 0x89 (* i64_rotl *) => flags [2; Push; Simple; And63]
  | 0x8a (* i64_rotr *) => flags [2; Push; Simple; And63]
  | 0x8b (* f32_abs *) => flags [1; Push; Simple]
  | 0x8c (* f32_neg *) => flags [1; Push; Simple]
  | 0x8d (* f32_ceil *) => flags [1; Push; Simple]
  | 0x8e (* f32_floor *) => flags [1; Push; Simple]
  | 0x8f (* f32_trunc *) => flags [1; Push; Simple]
  | 0x90 (* f32_nearest *) => flags [1; Push; Simple]
  | 0x91 (* f32_sqrt *) => flags [1; Push; Simple]
  | 0x92 (* f32_add *) => flags [2; Push; Simple]
  | 0x93 (* f32_sub *) => flags [2; Push; Simple]
  | 0x94 (* f32_mul *) => flags [2; Push; Simple]
  | 0x95 (* f32_div *) => flags [2; Push; Simple]
  | 0x96 (* f32_min *) => flags [2; Push; Simple]
  | 0x97 (* f32_max *) => flags [2; Push; Simple]
  | 0x98 (* f32_copysign *) => flags [2; Push; Simple]
  | 0x99 (* f64_abs *) => flags [1; Push; Simple]
  | 0x9a (* f64_neg *) => flags [1; Push; Simple]
  | 0x9b (* f64_ceil *) => flags [1; Push; Simple]
  | 0x9c (* f64_floor *) => flags [1; Push; Simple]
  | 0x9d (* f64_trunc *) => flags [1; Push; Simple]
  | 0x9e (* f64_nearest *) => flags [1; Push; Simple]
  | 0x9f (* f64_sqrt *) => flags [1; Push; Simple]
  | 0xa0 (* f64_add *) => flags [2; Push; Simple]
  | 0xa1 (* f64_sub *) => flags [2; Push; Simple]
  | 0xa2 (* f64_mul *) => flags [2; Push; Simple]
  | 0xa3 (* f64_div *) => flags [2; Push; Simple]
  | 0xa4 (* f64_min *) => flags [2; Push; Simple]
  | 0xa5 (* f64_max *) => flags [2; Push; Simple]
  | 0xa6 (* f64_copysign *) => flags [2; Push; Simple]
  | 0xa7 (* i32_wrap_i64 *) => flags [1; Push; Simple]
  | 0xa8 (* i32_trunc_f32_s *) => flags [1; Push; Simple]
  | 0xa9 (* i32_trunc_f32_u *) => flags [1; Push; Simple]
  | 0xaa (* i32_trunc_f64_s *) => flags [1; Push; Simple]
  | 0xab (* i32_trunc_f64_u *) => flags [1; Push; Simple]
  | 0xac (* i64_extend_i32_s *) => flags [1; Push; Simple]
  | 0xad (* i64_extend_i32_u *) => flags [1; Push; Simple]
  | 0xae (* i64_trunc_f32_s *) => flags [1; Push; Simple]
  | 0xaf (* i64_trunc_f32_u *) => flags [1; Push; Simple]
  | 0xb0 (* i64_trunc_f64_s *) => flags [1; Push; Simple]
  | 0xb1 (* i64_trunc_f64_u *) => flags [1; Push; Simple]
  | 0xb2 (* f32_convert_i32_s *) => flags [1; Push; Omit; Simple]
  | 0xb3 (* f32_convert_i32_u *) => flags [1; Push; Omit; Simple; ToU32]
  | 0xb4 (* f32_convert_i64_s *) => flags [1; Push; Simple; ToS64]
  | 0xb5 (* f32_convert_i64_u *) => flags [1; Push; Simple]
  | 0xb6 (* f32_demote_f64 *) => flags [1; Push; Omit; Simple]
  | 0xb7 (* f64_convert_i32_s *) => flags [1; Push; Omit; Simple]
  | 0xb8 (* f64_convert_i32_u *) => flags [1; Push; Omit; Simple; ToU32]
  | 0xb9 (* f64_convert_i64_s *) => flags [1; Push; Simple; ToS64]
  | 0xba (* f64_convert_i64_u *) => flags [1; Push; Simple]
  | 0xbb (* f64_promote_f32 *) => flags [1; Push; Omit; Simple]
  | 0xbc (* i32_reinterpret_f32 *) => flags [1; Push; Simple]
  | 0xbd (* i64_reinterpret_f64 *) => flags [1; Push; Simple]
  | 0xbe (* f32_reinterpret_i32 *) => flags [1; Push; Simple]
  | 0xbf (* f64_reinterpret_i64 *) => flags [1; Push; Simple]
  | 0xc0 (* i32_extend8_s *) => flags [1; Push; Simple]
  | 0xc1 (* i32_extend16_s *) => flags [1; Push; Simple]
  | 0xc2 (* i64_extend8_s *) => flags [1; Push; Simple]
  | 0xc3 (* i64_extend16_s *) => flags [1; Push; Simple]
  | 0xc4 (* i64_extend32_s *) => flags [1; Push; Simple]
  | _ => 0
  end.

Definition hasFlag (fl flag : Z) : bool := negb (Z.land fl flag =? 0).

(** Fields of a packed node header. *)
Definition nodeOp (node : Z) : Z := js_and node Pack.OpMask.
Definition nodeChildCount (node : Z) : Z :=
  js_and (js_shr node Pack.ChildCountShift) Pack.ChildCountMask.
Definition nodeOutSlot (node : Z) : Z := js_ushr node Pack.OutSlotShift.

(** ** Inputs taken from the parser and the instantiation code *)

(** [Type] of parse.ts; only [I64] is told apart by the compiler. *)
Inductive ValType := I32 | I64 | F32 | F64.

Definition FuncType := (list ValType * list ValType)%type.

(** The parsed module.  [bytes_] is the module's [Uint8Array]; the
    [DataView] over it is only used to print floating-point constants,
    so it is kept as the two functions from a byte offset to the text
    that [getFloat32(offset, true) + ''] and [getFloat64] produce. *)
Record WASM := mkWASM {
  bytes_ : list Z;
  dataView_getFloat32 : Z -> string;
  dataView_getFloat64 : Z -> string;
  codeSection_ : list (list (Z * ValType) * Z * Z);
  functionSection_ : list Z;
  nameSection_ : Z -> option string;
  typeSection_ : list FuncType
}.

(** [ContextField] of instantiate.ts: the property names of the instance
    context that the emitted code mentions. *)
Inductive ContextField := CF_Int8Array | CF_Uint8Array | CF_DataView | CF_PageCount | CF_PageGrow.

(** The AST store: an [Int32Array(1 << 16)].  It is one array for the
    whole process, so its content survives from one compilation to the
    next; only the bump pointer is reset. *)
Definition AstStore := Z -> Z.
Definition astCapacity : Z := Z.shiftl 1 16.

Definition upd (a : AstStore) (p v : Z) : AstStore :=
  fun q => if q =? p then v else a q.

(** What the compiler takes from outside this file:
    - [optimizeNode], the peephole optimizer built by
      [compileOptimizations()] of optimize.ts.  It receives the store, the
      constants sidecar, [allocateNode] (that is, the bump pointer) and a
      node pointer, may rewrite the first three and returns a node pointer;
    - the text of each [ContextField];
    - [JSON.stringify] on the function's name. *)
Record Env := mkEnv {
  optimizeNode : AstStore -> list Z -> Z -> Z -> AstStore * list Z * Z * Z;
  contextField : ContextField -> string;
  JSON_stringify : string -> string
}.

(** ** Compilation errors *)

Inductive Error :=
| UnsupportedInstruction (op : Z)       (* 'Unsupported instruction: 0x..' *)
| UnsupportedInstructionFC (op : Z)     (* 'Unsupported instruction: 0xFC..' *)
| UnsupportedTableIndex (tableIndex : Z)(* 'Unsupported table index: ..' *)
| UnsupportedMemoryIndex                (* 'Unsupported non-zero memory index' *)
| DeepStack                             (* 'Deep stacks are not supported' *)
| InternalError                         (* throw 'Internal error' *)
| TypeError                             (* a property of [undefined] is read *)
| AstCapacity                           (* an access outside the AST store *)
| RecursionLimit.                       (* the recursion budget ran out *)

Inductive Res (A : Type) := Ok (a : A) | Err (e : Error).
Arguments Ok {A} a.
Arguments Err {A} e.

(** ** The mutable locals of [compileCode] *)

Record State := mkState {
  ast : AstStore;
  astPtrs : list (option Z);
  astNextPtr : Z;
  constants : list Z;
  stackLimit : Z;
  decls : list string;
  blocks : list Block;
  stackTop : Z;
  bytesPtr : Z;
  nextLabel : Z;
  body : string
}.

Definition set_ast (v : AstStore) (s : State) : State :=
  mkState v (astPtrs s) (astNextPtr s) (constants s) (stackLimit s) (decls s)
          (blocks s) (stackTop s) (bytesPtr s) (nextLabel s) (body s).
Definition set_astPtrs (v : list (option Z)) (s : State) : State :=
  mkState (ast s) v (astNextPtr s) (constants s) (stackLimit s) (decls s)
          (blocks s) (stackTop s) (bytesPtr s) (nextLabel s) (body s).
Definition set_astNextPtr (v : Z) (s : State) : State :=
  mkState (ast s) (astPtrs s) v (constants s) (stackLimit s) (decls s)
          (blocks s) (stackTop s) (bytesPtr s) (nextLabel s) (body s).
Definition set_constants (v : list Z) (s : State) : State :=
  mkState (ast s) (astPtrs s) (astNextPtr s) v (stackLimit s) (decls s)
          (blocks s) (stackTop s) (bytesPtr s) (nextLabel s) (body s).
Definition set_stackLimit (v : Z) (s : State) : State :=
  mkState (ast s) (astPtrs s) (astNextPtr s) (constants s) v (decls s)
          (blocks s) (stackTop s) (bytesPtr s) (nextLabel s) (body s).
Definition set_decls (v : list string) (s : State) : State :=
  mkState (ast s) (astPtrs s) (astNextPtr s) (constants s) (stackLimit s) v
          (blocks s) (stackTop s) (bytesPtr s) (nextLabel s) (body s).
Definition set_blocks (v : list Block) (s : State) : State :=
  mkState (ast s) (astPtrs s) (astNextPtr s) (constants s) (stackLimit s) (decls s)
          v (stackTop s) (bytesPtr s) (nextLabel s) (body s).
Definition set_stackTop (v : Z) (s : State) : State :=
  mkState (ast s) (astPtrs s) (astNextPtr s) (constants s) (stackLimit s) (decls s)
          (blocks s) v (bytesPtr s) (nextLabel s) (body s).
Definition set_bytesPtr (v : Z) (s : State) : State :=
  mkState (ast s) (astPtrs s) (astNextPtr s) (constants s) (stackLimit s) (decls s)
          (blocks s) (stackTop s) v (nextLabel s) (body s).
Definition set_nextLabel (v : Z) (s : State) : State :=
  mkState (ast s) (astPtrs s) (astNextPtr s) (constants s) (stackLimit s) (decls s)
          (blocks s) (stackTop s) (bytesPtr s) v (body s).
Definition set_body (v : string) (s : State) : State :=
  mkState (ast s) (astPtrs s) (astNextPtr s) (constants s) (stackLimit s) (decls s)
          (blocks s) (stackTop s) (bytesPtr s) (nextLabel s) v.

(** ** A state-and-error monad for the closure's body *)

Definition M (A : Type) : Type := State -> Res (A * State).

Definition ret {A : Type} (a : A) : M A := fun s => Ok (a, s).
Definition bind {A B : Type} (c : M A) (k : A -> M B) : M B :=
  fun s => match c s with
           | Ok (a, s') => k a s'
           | Err e => Err e
           end.
Definition throw {A : Type} (e : Error) : M A := fun _ => Err e.
Definition gets {A : Type} (f : State -> A) : M A := fun s => Ok (f s, s).
Definition modify (f : State -> State) : M unit := fun s => Ok (tt, f s).

Declare Scope js_scope.
Delimit Scope js_scope with js.
Notation "x <- c ;; k" := (bind c (fun x => k))
  (at level 61, c at next level, right associativity) : js_scope.
Notation "' pat <- c ;; k" := (bind c (fun x => match x with pat => k end))
  (at level 61, pat pattern, c at next level, right associativity) : js_scope.
Notation "c ;; k" := (bind c (fun _ => k))
  (at level 61, right associativity) : js_scope.
Notation "'when' b 'then' c" := (if b then c else ret tt)
  (at level 61, b at level 9, c at level 61, right associativity) : js_scope.
Open Scope js_scope.

(** [body += text]. *)
Definition emitBody (text : string) : M unit :=
  modify (fun s => set_body (body s +++ text) s).

(** [ast[p]] and [ast[p] = v]; the typed array stores [ToInt32(v)]. *)
Definition astGet (p : Z) : M Z :=
  fun s => if (0 <=? p) && (p <? astCapacity) then Ok (ast s p, s) else Err AstCapacity.
Definition astSet (p v : Z) : M unit :=
  fun s => if (0 <=? p) && (p <? astCapacity)
           then Ok (tt, set_ast (upd (ast s) p (toInt32 v)) s)
           else Err AstCapacity.

(** [ast[astNextPtr++] = v]. *)
Definition pushWord (v : Z) : M unit :=
  p <- gets astNextPtr ;;
  modify (set_astNextPtr (p + 1)) ;;
  astSet p v.

(** [astPtrs.push(astNextPtr)]. *)
Definition pushPtr : M unit :=
  modify (fun s => set_astPtrs (astPtrs s ++ [Some (astNextPtr s)]) s).

(** [blocks[blocks.length - 1]]. *)
Fixpoint topOf (l : list Block) : option Block :=
  match l with
  | [] => None
  | [b] => Some b
  | _ :: rest => topOf rest
  end.
Definition topBlock : M Block :=
  fun s => match topOf (blocks s) with
           | Some b => Ok (b, s)
           | None => Err TypeError
           end.
Definition topIsDead : M bool := b <- topBlock ;; ret (isDead_ b).

(** Assignment to fields of the frame object on top of [blocks]. *)
Fixpoint updTop (f : Block -> Block) (l : list Block) : list Block :=
  match l with
  | [] => []
  | [b] => [f b]
  | b :: rest => b :: updTop f rest
  end.
Definition set_isDead (v : bool) (b : Block) : Block :=
  mkBlock (argCount_ b) v (kind_ b) (labelBreak_ b) (labelContinueOrElse_ b)
          (parentStackTop_ b) (returnCount_ b).
Definition set_kind (v : BlockKind) (b : Block) : Block :=
  mkBlock (argCount_ b) (isDead_ b) v (labelBreak_ b) (labelContinueOrElse_ b)
          (parentStackTop_ b) (returnCount_ b).
Definition set_labelContinueOrElse (v : Z) (b : Block) : Block :=
  mkBlock (argCount_ b) (isDead_ b) (kind_ b) (labelBreak_ b) v
          (parentStackTop_ b) (returnCount_ b).
Definition modifyTop (f : Block -> Block) : M unit :=
  modify (fun s => set_blocks (updTop f (blocks s)) s).

(** ** The code emitter *)

(** The shape of the template literal that [emitUnwrapped] returns for an
    opcode.  The pieces are evaluated from left to right, as the
    substitutions of a template literal are. *)
Inductive piece :=
| Lit (text : string)
| Kid (k : Z)              (* emit(ast[ptr + k]) *)
| Word (k : Z)             (* ast[ptr + k] *)
| Offset (k : Z)           (* offset ? '+' + offset : '' for offset = ast[ptr + k] *)
| Name (k : Z)             (* names[ast[ptr + k]] *)
| Ctx (f : ContextField)   (* the text of a ContextField *)
| Value.                   (* the argument [value] of store and store8 *)

(** [load], [load8], [store] and [store8]. *)
Definition load (get : string) : list piece :=
  [Lit "c."; Ctx CF_DataView; Lit (".get" +++ get +++ "("); Kid 1; Offset 2; Lit ",1)"].
Definition load8 (field : ContextField) : list piece :=
  [Lit "c."; Ctx field; Lit "["; Kid 1; Offset 2; Lit "]"].
Definition store (set : string) : list piece :=
  [Lit "c."; Ctx CF_DataView; Lit (".set" +++ set +++ "("); Kid 1; Offset 3; Lit ","; Value; Lit ",1)"].
Definition store8 (field : ContextField) : list piece :=
  [Lit "c."; Ctx field; Lit "["; Kid 1; Offset 3; Lit "]="; Value].

(** The store cases of [emitUnwrapped]: the argument [value] is evaluated
    before [store] runs, so the value child is emitted before the address
    child.  The first component is the template of [value]. *)
Definition storeTemplate (op : Z) : option (list piece * list piece) :=
  match op with
  | 0x36 (* i32_store *) => Some ([Kid 2], store "Int32")
  | 0x37 (* i64_store *) => Some ([Kid 2], store "BigUint64")
  | 0x38 (* f32_store *) => Some ([Kid 2], store "Float32")
  | 0x39 (* f64_store *) => Some ([Kid 2], store "Float64")
  | 0x3a (* i32_store8 *) => Some ([Kid 2], store8 CF_Uint8Array)
  | 0x3b (* i32_store16 *) => Some ([Kid 2], store "Int16")
  | 0x3c (* i64_store8 *) => Some ([Lit "Number("; Kid 2; Lit "&255n)"], store8 CF_Uint8Array)
  | 0x3d (* i64_store16 *) => Some ([Lit "Number("; Kid 2; Lit "&65535n)"], store "Int16")
  | 0x3e (* i64_store32 *) => Some ([Lit "Number("; Kid 2; Lit "&0xFFFFFFFFn)"], store "Int32")
  | _ => None
  end.

(** The cases of [emitUnwrapped] that return one template literal. *)
Definition template (op : Z) : option (list piece) :=
  match op with
  | 0x00 (* i32_trunc_sat_f32_s *) =>
      Some [Lit "l.i32_trunc_sat_s_("; Kid 1; Lit ")"]
  | 0x01 (* i32_trunc_sat_f32_u *) =>
      Some [Lit "l.i32_trunc_sat_u_("; Kid 1; Lit ")"]
  | 0x02 (* i32_trunc_sat_f64_s *) =>
      Some [Lit "l.i32_trunc_sat_s_("; Kid 1; Lit ")"]
  | 0x03 (* i32_trunc_sat_f64_u *) =>
      Some [Lit "l.i32_trunc_sat_u_("; Kid 1; Lit ")"]
  | 0x04 (* i64_trunc_sat_f32_s *) =>
      Some [Lit "l.i64_trunc_sat_s_("; Kid 1; Lit ")"]
  | 0x05 (* i64_trunc_sat_f32_u *) =>
      Some [Lit "l.i64_trunc_sat_u_("; Kid 1; Lit ")"]
  | 0x06 (* i64_trunc_sat_f64_s *) =>
      Some [Lit "l.i64_trunc_sat_s_("; Kid 1; Lit ")"]
  | 0x07 (* i64_trunc_sat_f64_u *) =>
      Some [Lit "l.i64_trunc_sat_u_("; Kid 1; Lit ")"]
  | 0x1b (* select *) =>
      Some [Kid 1; Lit "?"; Kid 2; Lit ":"; Kid 3]
  | 0xf0 (* BOOL *) =>
      Some [Kid 1]
  | 0xf1 (* BOOL_NOT *) =>
      Some [Lit "!"; Kid 1]
  | 0xf2 (* BOOL_TO_INT *) =>
      Some [Kid 1; Lit "?1:0"]
  | 0xf3 (* TO_U32 *) =>
      Some [Kid 1; Lit ">>>0"]
  | 0xf4 (* TO_S64 *) =>
      Some [Lit "l.u64_to_s64_("; Kid 1; Lit ")"]
  | 0x45 | 0x50 (* i32_eqz i64_eqz *) =>
      Some [Kid 1; Lit "?0:1"]
  | 0x46 | 0x51 | 0x5b | 0x61 (* i32_eq i64_eq f32_eq f64_eq *) =>
      Some [Kid 1; Lit "==="; Kid 2]
  | 0x47 | 0x52 | 0x5c | 0x62 (* i32_ne i64_ne f32_ne f64_ne *) =>
      Some [Kid 1; Lit "!=="; Kid 2]
  | 0x48 | 0x49 | 0x53 | 0x54 | 0x5d | 0x63 (* i32_lt_s i32_lt_u i64_lt_s i64_lt_u f32_lt f64_lt *) =>
      Some [Kid 1; Lit "<"; Kid 2]
  | 0x4a | 0x4b | 0x55 | 0x56 | 0x5e | 0x64 (* i32_gt_s i32_gt_u i64_gt_s i64_gt_u f32_gt f64_gt *) =>
      Some [Kid 1; Lit ">"; Kid 2]
  | 0x4c | 0x4d | 0x57 | 0x58 | 0x5f | 0x65 (* i32_le_s i32_le_u i64_le_s i64_le_u f32_le f64_le *) =>
      Some [Kid 1; Lit "<="; Kid 2]
  | 0x4e | 0x4f | 0x59 | 0x5a | 0x60 | 0x66 (* i32_ge_s i32_ge_u i64_ge_s i64_ge_u f32_ge f64_ge *) =>
      Some [Kid 1; Lit ">="; Kid 2]
  | 0x67 (* i32_clz *) =>
      Some [Lit "Math.clz32("; Kid 1; Lit ")"]
  | 0x68 (* i32_ctz *) =>
      Some [Lit "l.i32_ctz_("; Kid 1; Lit ")"]
  | 0x69 (* i32_popcnt *) =>
      Some [Lit "l.i32_popcnt_("; Kid 1; Lit ")"]
  | 0x6a (* i32_add *) =>
      Some [Kid 1; Lit "+"; Kid 2; Lit "|0"]
  | 0x6b (* i32_sub *) =>
      Some [Kid 1; Lit "-"; Kid 2; Lit "|0"]
  | 0x6c (* i32_mul *) =>
      Some [Lit "Math.imul("; Kid 1; Lit ","; Kid 2; Lit ")"]
  | 0x6e | 0x6d (* i32_div_u i32_div_s *) =>
      Some [Kid 1; Lit "/"; Kid 2; Lit "|0"]
  | 0x70 | 0x6f (* i32_rem_u i32_rem_s *) =>
      Some [Kid 1; Lit "%"; Kid 2; Lit "|0"]
  | 0x71 (* i32_and *) =>
      Some [Kid 1; Lit "&"; Kid 2]
  | 0x72 (* i32_or *) =>
      Some [Kid 1; Lit "|"; Kid 2]
  | 0x73 (* i32_xor *) =>
      Some [Kid 1; Lit "^"; Kid 2]
  | 0x74 (* i32_shl *) =>
      Some [Kid 1; Lit "<<"; Kid 2]
  | 0x75 (* i32_shr_s *) =>
      Some [Kid 1; Lit ">>"; Kid 2]
  | 0x76 (* i32_shr_u *) =>
      Some [Kid 1; Lit ">>>"; Kid 2; Lit "|0"]
  | 0x77 (* i32_rotl *) =>
      Some [Lit "l.i32_rotl_("; Kid 1; Lit ","; Kid 2; Lit ")"]
  | 0x78 (* i32_rotr *) =>
      Some [Lit "l.i32_rotr_("; Kid 1; Lit ","; Kid 2; Lit ")"]
  | 0x79 (* i64_clz *) =>
      Some [Lit "l.i64_clz_("; Kid 1; Lit ")"]
  | 0x7a (* i64_ctz *) =>
      Some [Lit "l.i64_ctz_("; Kid 1; Lit ")"]
  | 0x7b (* i64_popcnt *) =>
      Some [Lit "l.i64_popcnt_("; Kid 1; Lit ")"]
  | 0x7c (* i64_add *) =>
      Some [Lit "("; Kid 1; Lit "+"; Kid 2; Lit ")&0xFFFFFFFFFFFFFFFFn"]
  | 0x7d (* i64_sub *) =>
      Some [Lit "("; Kid 1; Lit "-"; Kid 2; Lit ")&0xFFFFFFFFFFFFFFFFn"]
  | 0x7e (* i64_mul *) =>
      Some [Lit "("; Kid 1; Lit "*"; Kid 2; Lit ")&0xFFFFFFFFFFFFFFFFn"]
  | 0x7f (* i64_div_s *) =>
      Some [Kid 1; Lit "/"; Kid 2; Lit "&0xFFFFFFFFFFFFFFFFn"]
  | 0x80 (* i64_div_u *) =>
      Some [Kid 1; Lit "/"; Kid 2]
  | 0x81 (* i64_rem_s *) =>
      Some [Kid 1; Lit "%"; Kid 2; Lit "&0xFFFFFFFFFFFFFFFFn"]
  | 0x82 (* i64_rem_u *) =>
      Some [Kid 1; Lit "%"; Kid 2]
  | 0x83 (* i64_and *) =>
      Some [Kid 1; Lit "&"; Kid 2]
  | 0x84 (* i64_or *) =>
      Some [Kid 1; Lit "|"; Kid 2]
  | 0x85 (* i64_xor *) =>
      Some [Kid 1; Lit "^"; Kid 2]
  | 0x86 (* i64_shl *) =>
      Some [Kid 1; Lit "<<"; Kid 2; Lit "&0xFFFFFFFFFFFFFFFFn"]
  | 0x87 (* i64_shr_s *) =>
      Some [Lit "l.u64_to_s64_("; Kid 1; Lit ")>>"; Kid 2; Lit "&0xFFFFFFFFFFFFFFFFn"]
  | 0x88 (* i64_shr_u *) =>
      Some [Kid 1; Lit ">>"; Kid 2]
  | 0x89 (* i64_rotl *) =>
      Some [Lit "l.i64_rotl_("; Kid 1; Lit ","; Kid 2; Lit ")"]
  | 0x8a (* i64_rotr *) =>
      Some [Lit "l.i64_rotr_("; Kid 1; Lit ","; Kid 2; Lit ")"]
  | 0x8b | 0x99 (* f32_abs f64_abs *) =>
      Some [Lit "Math.abs("; Kid 1; Lit ")"]
  | 0x8c | 0x9a (* f32_neg f64_neg *) =>
      Some [Lit "-"; Kid 1]
  | 0x8d | 0x9b (* f32_ceil f64_ceil *) =>
      Some [Lit "Math.ceil("; Kid 1; Lit ")"]
  | 0x8e | 0x9c (* f32_floor f64_floor *) =>
      Some [Lit "Math.floor("; Kid 1; Lit ")"]
  | 0x8f | 0x9d (* f32_trunc f64_trunc *) =>
      Some [Lit "Math.trunc("; Kid 1; Lit ")"]
  | 0x90 | 0x9e (* f32_nearest f64_nearest *) =>
      Some [Lit "l.nearest_("; Kid 1; Lit ")"]
  | 0x91 | 0x9f (* f32_sqrt f64_sqrt *) =>
      Some [Lit "Math.sqrt("; Kid 1; Lit ")"]
  | 0x92 | 0xa0 (* f32_add f64_add *) =>
      Some [Kid 1; Lit "+"; Kid 2]
  | 0x93 | 0xa1 (* f32_sub f64_sub *) =>
      Some [Kid 1; Lit "-"; Kid 2]
  | 0x94 | 0xa2 (* f32_mul f64_mul *) =>
      Some [Kid 1; Lit "*"; Kid 2]
  | 0x95 | 0xa3 (* f32_div f64_div *) =>
      Some [Kid 1; Lit "/"; Kid 2]
  | 0x96 | 0xa4 (* f32_min f64_min *) =>
      Some [Lit "Math.min("; Kid 1; Lit ","; Kid 2; Lit ")"]
  | 0x97 | 0xa5 (* f32_max f64_max *) =>
      Some [Lit "Math.max("; Kid 1; Lit ","; Kid 2; Lit ")"]
  | 0x98 | 0xa6 (* f32_copysign f64_copysign *) =>
      Some [Lit "l.copysign_("; Kid 1; Lit ","; Kid 2; Lit ")"]
  | 0xa7 (* i32_wrap_i64 *) =>
      Some [Lit "Number("; Kid 1; Lit "&0xFFFFFFFFn)|0"]
  | 0xa8 | 0xa9 | 0xaa | 0xab (* i32_trunc_f32_s i32_trunc_f32_u i32_trunc_f64_s i32_trunc_f64_u *) =>
      Some [Lit "Math.trunc("; Kid 1; Lit ")|0"]
  | 0xac (* i64_extend_i32_s *) =>
      Some [Lit "BigInt("; Kid 1; Lit ")"]
  | 0xad (* i64_extend_i32_u *) =>
      Some [Lit "BigInt("; Kid 1; Lit ">>>0)"]
  | 0xae | 0xaf | 0xb0 | 0xb1 (* i64_trunc_f32_s i64_trunc_f32_u i64_trunc_f64_s i64_trunc_f64_u *) =>
      Some [Lit "BigInt(Math.trunc("; Kid 1; Lit "))&0xFFFFFFFFFFFFFFFFn"]
  | 0xb4 | 0xb5 | 0xba | 0xb9 (* f32_convert_i64_s f32_convert_i64_u f64_convert_i64_u f64_convert_i64_s *) =>
      Some [Lit "Number("; Kid 1; Lit ")"]
  | 0xbc (* i32_reinterpret_f32 *) =>
      Some [Lit "l.i32_reinterpret_f32_("; Kid 1; Lit ")"]
  | 0xbd (* i64_reinterpret_f64 *) =>
      Some [Lit "l.i64_reinterpret_f64_("; Kid 1; Lit ")"]
  | 0xbe (* f32_reinterpret_i32 *) =>
      Some [Lit "l.f32_reinterpret_i32_("; Kid 1; Lit ")"]
  | 0xbf (* f64_reinterpret_i64 *) =>
      Some [Lit "l.f64_reinterpret_i64_("; Kid 1; Lit ")"]
  | 0xc0 (* i32_extend8_s *) =>
      Some [Kid 1; Lit "<<24>>24"]
  | 0xc1 (* i32_extend16_s *) =>
      Some [Kid 1; Lit "<<16>>16"]
  | 0xc2 (* i64_extend8_s *) =>
      Some [Lit "l.i64_extend8_s_("; Kid 1; Lit ")"]
  | 0xc3 (* i64_extend16_s *) =>
      Some [Lit "l.i64_extend16_s_("; Kid 1; Lit ")"]
  | 0xc4 (* i64_extend32_s *) =>
      Some [Lit "l.i64_extend32_s_("; Kid 1; Lit ")"]
  | 0x0a (* memory_copy *) =>
      Some [Lit "c."; Ctx CF_Uint8Array; Lit ".copyWithin("; Kid 1; Lit ",T="; Kid 2; Lit ",T+"; Kid 3; Lit ")"]
  | 0x0b (* memory_fill *) =>
      Some [Lit "c."; Ctx CF_Uint8Array; Lit ".fill("; Kid 1; Lit ",T="; Kid 2; Lit ",T+"; Kid 3; Lit ")"]
  | 0x20 (* local_get *) => Some [Name 1]
  | 0x21 | 0x22 (* local_set local_tee *) => Some [Name 2; Lit "="; Kid 1]
  | 0x23 (* global_get *) => Some [Lit "g["; Word 1; Lit "]"]
  | 0x24 (* global_set *) => Some [Lit "g["; Word 2; Lit "]="; Kid 1]
  | 0x28 (* i32_load *) => Some (load "Int32")
  | 0xf5 (* U32_LOAD *) => Some (load "Uint32")
  | 0x29 (* i64_load *) => Some (load "BigUint64")
  | 0xf6 (* S64_LOAD *) => Some (load "BigInt64")
  | 0x2a (* f32_load *) => Some (load "Float32")
  | 0x2b (* f64_load *) => Some (load "Float64")
  | 0x2c (* i32_load8_s *) => Some (load8 CF_Int8Array)
  | 0x2d (* i32_load8_u *) => Some (load8 CF_Uint8Array)
  | 0x2e (* i32_load16_s *) => Some (load "Int16")
  | 0x2f (* i32_load16_u *) => Some (load "Uint16")
  | 0x30 (* i64_load8_s *) => Some ([Lit "BigInt("] ++ load8 CF_Int8Array ++ [Lit ")&0xFFFFFFFFFFFFFFFFn"])
  | 0x31 (* i64_load8_u *) => Some ([Lit "BigInt("] ++ load8 CF_Uint8Array ++ [Lit ")"])
  | 0x32 (* i64_load16_s *) => Some ([Lit "BigInt("] ++ load "Int16" ++ [Lit ")&0xFFFFFFFFFFFFFFFFn"])
  | 0x33 (* i64_load16_u *) => Some ([Lit "BigInt("] ++ load "Uint16" ++ [Lit ")"])
  | 0x34 (* i64_load32_s *) => Some ([Lit "BigInt("] ++ load "Int32" ++ [Lit ")&0xFFFFFFFFFFFFFFFFn"])
  | 0x35 (* i64_load32_u *) => Some ([Lit "BigInt("] ++ load "Uint32" ++ [Lit ")"])
  | _ => None
  end.

Section Emitter.

Variable env : Env.
Variable wasm : WASM.
Variable funcTypes : list FuncType.
Variable names : list string.

(** [stackSlotName]: declare every slot up to [stackSlot], then name it. *)
Definition stackSlotName (stackSlot : Z) : M string :=
  fun s =>
    let fresh := map (fun k => "s" +++ showZ (stackLimit s + Z.of_nat k))
                     (seq 1 (Z.to_nat (stackSlot - stackLimit s))) in
    Ok ("s" +++ showZ stackSlot,
        set_decls (decls s ++ fresh) (set_stackLimit (Z.max (stackLimit s) stackSlot) s)).

Fixpoint emitPieces (emit : Z -> M string) (ptr : Z) (value : string)
         (ps : list piece) : M string :=
  match ps with
  | [] => ret EmptyString
  | p :: rest =>
    t <- match p with
         | Lit text => ret text
         | Kid k => w <- astGet (ptr + k) ;; emit w
         | Word k => w <- astGet (ptr + k) ;; ret (showZ w)
         | Offset k => w <- astGet (ptr + k) ;;
                       ret (if w =? 0 then EmptyString else "+" +++ showZ w)
         | Name k => w <- astGet (ptr + k) ;;
                     ret (match lookupZ names w with Some n => n | None => "undefined" end)
         | Ctx f => ret (contextField env f)
         | Value => ret value
         end ;;
    r <- emitPieces emit ptr value rest ;;
    ret (t +++ r)
  end.

(** [for (i = 0; i < n; i++) list.push(emit(ast[base + i]))]. *)
Fixpoint emitKids (emit : Z -> M string) (base : Z) (n : nat) : M (list string) :=
  match n with
  | O => ret []
  | S n' =>
    w <- astGet base ;;
    t <- emit w ;;
    r <- emitKids emit (base + 1) n' ;;
    ret (t :: r)
  end.

(** [for (i = 0; i < n; i++) returns.push(stackSlotName(slot + i))]. *)
Fixpoint slotNames (slot : Z) (n : nat) : M (list string) :=
  match n with
  | O => ret []
  | S n' =>
    t <- stackSlotName slot ;;
    r <- slotNames (slot + 1) n' ;;
    ret (t :: r)
  end.

(** The tail shared by [call] and [call_indirect]. *)
Definition callResult (code : string) (returnTypes : list ValType) (slotAt : Z) : M string :=
  if Z.of_nat (List.length returnTypes) <? 2 then ret code
  else
    slot <- astGet slotAt ;;
    returns <- slotNames slot (List.length returnTypes) ;;
    ret ("[" +++ join "," returns +++ "]=" +++ code).

(** [emitUnwrapped], with [emit] as its local companion.  [fuel] bounds
    the depth of the recursion through inlined children. *)
Fixpoint emitUnwrapped (fuel : nat) (ptr : Z) : M string :=
  match fuel with
  | O => throw RecursionLimit
  | S fuel' =>
    let emit := fun p : Z =>
      if p <? 0 then stackSlotName (- p)
      else (t <- emitUnwrapped fuel' p ;; ret ("(" +++ t +++ ")")) in
    node <- astGet ptr ;;
    let op := nodeOp node in
    let childCount := nodeChildCount node in
    if op =? Op.call then
      funcIndex <- astGet (ptr + childCount + 1) ;;
      match lookupZ funcTypes funcIndex with
      | None => throw TypeError
      | Some (_, returnTypes) =>
        args <- emitKids emit (ptr + 1) (Z.to_nat childCount) ;;
        callResult ("f[" +++ showZ funcIndex +++ "](" +++ join "," args +++ ")")
                   returnTypes (ptr + childCount + 2)
      end
    else if op =? Op.call_indirect then
      typeIndex <- astGet (ptr + childCount + 2) ;;
      match lookupZ (typeSection_ wasm) typeIndex with
      | None => throw TypeError
      | Some (_, returnTypes) =>
        w <- astGet (ptr + 1) ;;
        func <- emit w ;;
        args <- emitKids emit (ptr + 2) (Z.to_nat childCount) ;;
        callResult ("t[" +++ func +++ "](" +++ join "," args +++ ")")
                   returnTypes (ptr + childCount + 3)
      end
    else if op =? Op.memory_size then
      w <- astGet (ptr + 1) ;;
      if w =? 0 then ret ("c." +++ contextField env CF_PageCount)
      else throw UnsupportedMemoryIndex
    else if op =? Op.memory_grow then
      w <- astGet (ptr + 2) ;;
      if w =? 0 then
        a <- astGet (ptr + 1) ;;
        t <- emit a ;;
        ret ("c." +++ contextField env CF_PageGrow +++ "(" +++ t +++ ")")
      else throw UnsupportedMemoryIndex
    else if op =? Op.i32_const then
      w <- astGet (ptr + 1) ;; ret (showZ w)
    else if op =? Op.i64_const then
      w <- astGet (ptr + 1) ;;
      cs <- gets constants ;;
      match lookupZ cs w with
      | None => throw TypeError
      | Some c => ret (showZ (Z.land c 0xFFFFFFFFFFFFFFFF) +++ "n")
      end
    else if op =? Op.f32_const then
      w <- astGet (ptr + 1) ;; ret (dataView_getFloat32 wasm w)
    else if op =? Op.f64_const then
      w <- astGet (ptr + 1) ;; ret (dataView_getFloat64 wasm w)
    else
      match storeTemplate op with
      | Some (valueTemplate, storeText) =>
        value <- emitPieces emit ptr EmptyString valueTemplate ;;
        emitPieces emit ptr value storeText
      | None =>
        match template op with
        | Some t => emitPieces emit ptr EmptyString t
        | None => throw InternalError
        end
      end
  end.

End Emitter.

(** ** The compiler proper *)

Definition blockDepthLimit : Z := 256.

(** [l[k] = v] for an index inside the array. *)
Fixpoint replaceNth {A : Type} (k : nat) (v : A) (l : list A) : list A :=
  match l, k with
  | [], _ => []
  | _ :: rest, O => v :: rest
  | x :: rest, S k' => x :: replaceNth k' v rest
  end.

(** The do-while loop shared by the three LEB readers, run over the bytes
    from [bytesPtr] on.  A byte past the end of the array is [undefined],
    which [&] turns into 0, so the loop stops there.  The result is the
    value, the final [shift], the last [byte] and the bytes consumed. *)
Fixpoint lebLoop (accumulate : Z -> Z -> Z -> Z) (bs : list Z)
         (value shift count : Z) : Z * Z * Z * Z :=
  match bs with
  | [] => (accumulate value 0 shift, shift + 7, 0, count + 1)
  | byte :: rest =>
    let value' := accumulate value (js_and byte 0x7F) shift in
    if js_and byte 0x80 =? 0 then (value', shift + 7, byte, count + 1)
    else lebLoop accumulate rest value' (shift + 7) (count + 1)
  end.

(** [value |= (byte & 0x7F) << shift] on numbers and on BigInts. *)
Definition accumulate32 (value low7 shift : Z) : Z := js_or value (js_shl low7 shift).
Definition accumulate64 (value low7 shift : Z) : Z := Z.lor value (Z.shiftl low7 shift).

(** The inner scan of [optimizeChildrenAndSelf]: the loop over [k] that
    looks for the producer of [stackSlot] among the top-level nodes at
    indices below [n].  [Stop] is a [break] or the end of the loop,
    [Found k prevPtr didSkip] the entry to the inlining branch. *)
Inductive Scan := Stop | Found (k : Z) (prevPtr : Z) (didSkip : bool).

Definition inStore (p : Z) : bool := (0 <=? p) && (p <? astCapacity).

Definition usesTypedArraysOf (op : Z) : bool :=
  ((Op.i32_load <=? op) && (op <=? Op.i64_store32))
  || (op =? Op.memory_copy) || (op =? Op.memory_fill).

Fixpoint scanProducer (a : AstStore) (ptrs : list (option Z)) (usesTypedArrays : bool)
         (stackSlot : Z) (n : nat) (didSkip : bool) : Res Scan :=
  match n with
  | O => Ok Stop
  | S k =>
    match nth_error ptrs k with
    | None => Err TypeError
    | Some None => scanProducer a ptrs usesTypedArrays stackSlot k didSkip
    | Some (Some prevPtr) =>
      if inStore prevPtr then
        let prevNode := a prevPtr in
        let prevOp := nodeOp prevNode in
        if usesTypedArrays
           && ((prevOp <? Op.i32_const) || (prevOp >? Op.i64_const))
           && negb (prevOp =? Op.local_get)
        then Ok Stop
        else if nodeOutSlot prevNode =? stackSlot
        then Ok (Found (Z.of_nat k) prevPtr didSkip)
        else if negb (prevOp =? Op.TO_U32) && negb (prevOp =? Op.TO_S64)
        then Ok Stop
        else scanProducer a ptrs usesTypedArrays stackSlot k true
      else Err AstCapacity
    end
  end.

Section Compiler.

Variable env : Env.
Variable wasm : WASM.
Variable funcTypes : list FuncType.
Variable names : list string.
(** The budget for the recursion of the optimizer and of the emitter. *)
Variable fuel : nat.

(** *** Reading the bytecode *)

Definition bytesFrom (p : Z) : list Z := skipn (Z.to_nat p) (bytes_ wasm).

Definition readLEB (accumulate : Z -> Z -> Z -> Z) : M (Z * Z * Z) :=
  fun s =>
    let '(value, shift, byte, count) := lebLoop accumulate (bytesFrom (bytesPtr s)) 0 0 0 in
    Ok ((value, shift, byte), set_bytesPtr (bytesPtr s + count) s).

Definition readU32LEB : M Z :=
  '(value, _, _) <- readLEB accumulate32 ;;
  ret (toUint32 value).

Definition readI32LEB : M Z :=
  '(value, shift, byte) <- readLEB accumulate32 ;;
  ret (if (shift <? 32) && negb (js_and byte 0x40 =? 0)
       then js_or value (js_shl (-1) shift) else value).

Definition readI64LEB : M Z :=
  '(value, shift, byte) <- readLEB accumulate64 ;;
  ret (if (shift <? 64) && negb (js_and byte 0x40 =? 0)
       then Z.lor value (Z.shiftl (-1) shift) else value).

(** [bytes[bytesPtr++]] where the byte is used as a number in a test:
    [undefined] is falsy. *)
Definition readByteOrZero : M Z :=
  fun s =>
    Ok (match lookupZ (bytes_ wasm) (bytesPtr s) with Some b => b | None => 0 end,
        set_bytesPtr (bytesPtr s + 1) s).

Definition skipBytes (n : Z) : M unit :=
  modify (fun s => set_bytesPtr (bytesPtr s + n) s).

Definition typeAt (typeIndex : Z) : M FuncType :=
  match lookupZ (typeSection_ wasm) typeIndex with
  | Some t => ret t
  | None => throw TypeError
  end.

Definition readBlockType : M (Z * Z) :=
  p <- gets bytesPtr ;;
  let byte := match lookupZ (bytes_ wasm) p with Some b => b | None => 0 end in
  if byte =? 0x40 then skipBytes 1 ;; ret (0, 0)
  else if negb (js_and byte 0x40 =? 0) then skipBytes 1 ;; ret (0, 1)
  else
    typeIndex <- readU32LEB ;;
    '(argTypes, returnTypes) <- typeAt typeIndex ;;
    ret (Z.of_nat (List.length argTypes), Z.of_nat (List.length returnTypes)).

(** *** Building nodes *)

(** [for (k = from; k < from + n; k++) f(k)]. *)
Fixpoint forRange (from : Z) (n : nat) (f : Z -> M unit) : M unit :=
  match n with
  | O => ret tt
  | S n' => f from ;; forRange (from + 1) n' f
  end.

Definition header (op childCount outSlot : Z) : Z :=
  js_or (js_or op (js_shl childCount Pack.ChildCountShift))
        (js_shl outSlot Pack.OutSlotShift).

Definition pushUnary (op stackSlot : Z) : M unit :=
  pushPtr ;;
  pushWord (header op 1 stackSlot) ;;
  pushWord (- stackSlot).

(** *** finalizeBasicBlock *)

(** The loop of [optimizeChildrenAndSelf] over the children of the node
    at [ptr], "Inline and optimize the children first":
    [for (j = childCount - 1; i >= 0 && j >= 0; j--)], with [j = n - 1].
    [optimizeChild] is the recursive call of [optimizeChildrenAndSelf],
    [usesTypedArrays] its local of that name. *)
Fixpoint optimizeChildren (optimizeChild : Z -> Z -> M (Z * Z)) (ptr : Z)
         (usesTypedArrays : bool) (n : nat) (i : Z) : M Z :=
  match n with
  | O => ret i
  | S j =>
    if i <? 0 then ret i
    else
      w <- astGet (ptr + Z.of_nat j + 1) ;;
      let stackSlot := - w in
      a <- gets ast ;;
      ptrs <- gets astPtrs ;;
      match scanProducer a ptrs usesTypedArrays stackSlot (Z.to_nat (i + 1)) false with
      | Err e => throw e
      | Ok Stop => optimizeChildren optimizeChild ptr usesTypedArrays j i
      | Ok (Found k prevPtr didSkip) =>
        modify (set_astPtrs (replaceNth (Z.to_nat k) None ptrs)) ;;
        let i1 := if didSkip then i else k - 1 in
        '(inlined, i2) <- optimizeChild prevPtr i1 ;;
        astSet (ptr + Z.of_nat j + 1) inlined ;;
        optimizeChildren optimizeChild ptr usesTypedArrays j i2
      end
  end.

(** [optimizeChildrenAndSelf].  The closure variable [i] of
    [finalizeBasicBlock] is passed in and handed back next to the
    returned pointer. *)
Fixpoint optimizeChildrenAndSelf (budget : nat) (ptr i : Z) : M (Z * Z) :=
  match budget with
  | O => throw RecursionLimit
  | S budget' =>
    node <- astGet ptr ;;
    let op := nodeOp node in
    let childCount := nodeChildCount node in
    let usesTypedArrays := usesTypedArraysOf op in
    i' <- optimizeChildren (optimizeChildrenAndSelf budget') ptr usesTypedArrays
                           (Z.to_nat childCount) i ;;
    s <- gets (fun s => s) ;;
    let '(a, cs, next, ptr') := optimizeNode env (ast s) (constants s) (astNextPtr s) ptr in
    modify (fun s => set_ast a (set_constants cs (set_astNextPtr next s))) ;;
    ret (ptr', i')
  end.

(** The loop "Optimize nodes in reverse"; [n] bounds its iterations by
    the length of [astPtrs]. *)
Fixpoint optimizeAll (n : nat) (i : Z) : M unit :=
  if i <? 0 then ret tt
  else
    match n with
    | O => throw RecursionLimit
    | S n' =>
      ptrs <- gets astPtrs ;;
      match lookupZ ptrs i with
      | None => throw TypeError
      | Some None => optimizeAll n' (i - 1)
      | Some (Some ptr) =>
        '(ptr', i') <- optimizeChildrenAndSelf fuel ptr (i - 1) ;;
        modify (fun s => set_astPtrs (replaceNth (Z.to_nat i) (Some ptr') (astPtrs s)) s) ;;
        optimizeAll n' i'
      end
    end.

(** The loop "Emit nodes in reverse" over the entries it visits, last
    entry first; the result is [parts] in the order of the pushes. *)
Fixpoint emitStatements (entries : list (option Z)) : M (list string) :=
  match entries with
  | [] => ret []
  | None :: rest => emitStatements rest
  | Some ptr :: rest =>
    node <- astGet ptr ;;
    let stackSlot := nodeOutSlot node in
    target <- (if stackSlot =? 0 then ret EmptyString
               else (name <- stackSlotName stackSlot ;; ret (name +++ "="))) ;;
    text <- emitUnwrapped env wasm funcTypes names fuel ptr ;;
    parts <- emitStatements rest ;;
    ret ((target +++ text +++ ";") :: parts)
  end.

Definition finalizeBasicBlock (popStackTop : bool) : M (option string) :=
  len <- gets (fun s => Z.of_nat (List.length (astPtrs s))) ;;
  optimizeAll (Z.to_nat len) (len - 1) ;;
  ptrs <- gets astPtrs ;;
  '(result, i) <-
    (if popStackTop then
       top <- gets stackTop ;;
       r <- match lookupZ ptrs (len - 1) with
            | Some (Some ptr) =>
              node <- astGet ptr ;;
              if nodeOutSlot node =? top
              then (text <- emitUnwrapped env wasm funcTypes names fuel ptr ;;
                    ret (Some text, len - 2))
              else ret (Some ("s" +++ showZ top), len - 1)
            | _ => ret (Some ("s" +++ showZ top), len - 1)
            end ;;
       modify (set_stackTop (top - 1)) ;;
       ret r
     else ret (None, len - 1)) ;;
  parts <- emitStatements (rev (firstn (Z.to_nat (i + 1)) ptrs)) ;;
  emitBody (join EmptyString (rev parts)) ;;
  modify (fun s => set_astNextPtr 0 (set_astPtrs [] (set_constants [] s))) ;;
  ret result.

(** The text of a condition: [finalizeBasicBlock(true)] inside a
    template literal. *)
Definition finalizeTest : M string :=
  r <- finalizeBasicBlock true ;;
  ret (match r with Some t => t | None => "undefined" end).

(** *** Blocks and jumps *)

Definition pushBlock (kind : BlockKind) : M Z :=
  depth <- gets (fun s => Z.of_nat (List.length (blocks s))) ;;
  let isBelowLimit := depth <? blockDepthLimit in
  (if isBelowLimit then emitBody ("b" +++ showZ depth +++ ":")
   else if depth =? blockDepthLimit then
     emitBody ("L=1;b" +++ showZ depth +++ ":for(;;){switch(L){case 1:") ;;
     modify (set_nextLabel 2)
   else ret tt) ;;
  labelBreak <-
    (if isBelowLimit then ret (-1)
     else (l <- gets nextLabel ;; modify (set_nextLabel (l + 1)) ;; ret l)) ;;
  labelContinueOrElse <-
    (if isBelowLimit then ret (-1)
     else if negb (BlockKind_eqb kind Normal)
          then (l <- gets nextLabel ;; modify (set_nextLabel (l + 1)) ;; ret l)
          else ret 0) ;;
  '(argCount, returnCount) <- readBlockType ;;
  modify (fun s => set_blocks
    (blocks s ++ [mkBlock argCount false kind labelBreak labelContinueOrElse
                          (stackTop s - argCount) returnCount]) s) ;;
  ret labelContinueOrElse.

(** The text of [return s1;], [return[s1,s2];] or [return;]. *)
Definition returnText (returnCount top : Z) : string :=
  if returnCount =? 1 then "return s" +++ showZ top +++ ";"
  else if returnCount >? 1 then
    "return[" +++
    join "," (map (fun k => "s" +++ showZ (top - (returnCount - 1) + Z.of_nat k))
                  (seq 0 (Z.to_nat returnCount))) +++ "];"
  else "return;".

(** [for (i = 1; i <= count; i++) body += `s${parent + i}=s${top - count + i};`]. *)
Definition copySlots (parent top count : Z) : M unit :=
  forRange 1 (Z.to_nat count) (fun i =>
    emitBody ("s" +++ showZ (parent + i) +++ "=s" +++ showZ (top - count + i) +++ ";")).

Definition jump (index : Z) : M unit :=
  dead <- topIsDead ;;
  if dead then ret tt
  else
    bs <- gets blocks ;;
    top <- gets stackTop ;;
    match lookupZ bs index with
    | None => throw TypeError
    | Some block =>
      if index =? 0 then emitBody (returnText (returnCount_ block) top)
      else if BlockKind_eqb (kind_ block) Loop then
        (when (top >? parentStackTop_ block + argCount_ block)
         then copySlots (parentStackTop_ block) top (argCount_ block)) ;;
        emitBody (if index <? blockDepthLimit
                  then "continue b" +++ showZ index +++ ";"
                  else "L=" +++ showZ (labelContinueOrElse_ block) +++ ";continue;")
      else
        (when (top >? parentStackTop_ block + returnCount_ block)
         then copySlots (parentStackTop_ block) top (returnCount_ block)) ;;
        emitBody (if index <=? blockDepthLimit
                  then "break b" +++ showZ index +++ ";"
                  else "L=" +++ showZ (labelBreak_ block) +++ ";continue;")
    end.

(** [jump()]: the default argument [blocks.length - readU32LEB() - 1]
    is evaluated before the body runs. *)
Definition jumpRelative : M unit :=
  depth <- readU32LEB ;;
  len <- gets (fun s => Z.of_nat (List.length (blocks s))) ;;
  jump (len - depth - 1).

(** *** The decoder *)

(** The table-driven path of the loop body, for a live block. *)
Definition decodeSimple (op flags : Z) : M unit :=
  let childCount := js_and flags MetaFlag.PopMask in
  (when (hasFlag flags MetaFlag.And63) then
     top <- gets stackTop ;;
     pushPtr ;;
     pushWord (js_or Op.i64_const (js_shl (top + 1) Pack.OutSlotShift)) ;;
     cs <- gets constants ;;
     pushWord (Z.of_nat (List.length cs)) ;;
     modify (set_constants (cs ++ [63])) ;;
     pushPtr ;;
     pushWord (header Op.i64_and 2 top) ;;
     pushWord (- top) ;;
     pushWord (- (top + 1))) ;;
  modify (fun s => set_stackTop (stackTop s - childCount) s) ;;
  (when (hasFlag flags (Z.lor MetaFlag.ToU32 MetaFlag.ToS64)) then
     top <- gets stackTop ;;
     forRange 0 (Z.to_nat childCount) (fun i =>
       pushUnary (if hasFlag flags MetaFlag.ToU32 then Op.TO_U32 else Op.TO_S64)
                 (top + i + 1))) ;;
  (when (negb (hasFlag flags MetaFlag.Omit)) then
     (when (hasFlag flags MetaFlag.HasAlign) then skipBytes 1) ;;
     pushPtr ;;
     top <- gets stackTop ;;
     let op' := if hasFlag flags MetaFlag.Push
                then js_or op (js_shl (top + 1) Pack.OutSlotShift) else op in
     pushWord (js_or op' (js_shl childCount Pack.ChildCountShift)) ;;
     forRange 1 (Z.to_nat childCount) (fun i => pushWord (- (top + i))) ;;
     (when (hasFlag flags MetaFlag.HasIndex) then
        index <- readU32LEB ;; pushWord index)) ;;
  (when (hasFlag flags MetaFlag.Push) then
     modify (fun s => set_stackTop (stackTop s + 1) s)) ;;
  (when (hasFlag flags MetaFlag.BoolToInt) then
     top <- gets stackTop ;; pushUnary Op.BOOL_TO_INT top).

(** The table-driven path for a dead block. *)
Definition skipSimple (flags : Z) : M unit :=
  (when (hasFlag flags MetaFlag.HasAlign) then skipBytes 1) ;;
  (when (hasFlag flags MetaFlag.HasIndex) then (_ <- readU32LEB ;; ret tt)).

(** [++stackTop] followed by a node [op | (stackTop << 24)] and one payload word. *)
Definition pushConst (op : Z) (payload : M Z) : M unit :=
  pushPtr ;;
  modify (fun s => set_stackTop (stackTop s + 1) s) ;;
  top <- gets stackTop ;;
  pushWord (js_or op (js_shl top Pack.OutSlotShift)) ;;
  w <- payload ;;
  pushWord w.

(** The node of [call] and [call_indirect] after the arguments are popped. *)
Definition pushCall (op : Z) (argCount returnCount : Z) (funcPtr : bool)
           (index : Z) : M unit :=
  top <- gets stackTop ;;
  pushPtr ;;
  let op' := if returnCount =? 1
             then js_or op (js_shl (top + 1) Pack.OutSlotShift) else op in
  pushWord (js_or op' (js_shl argCount Pack.ChildCountShift)) ;;
  (when funcPtr then pushWord (- (top + argCount + 1))) ;;
  forRange 1 (Z.to_nat argCount) (fun i => pushWord (- (top + i))) ;;
  pushWord index ;;
  (when (returnCount >? 1) then pushWord (top + 1)) ;;
  modify (fun s => set_stackTop (stackTop s + returnCount) s).

(** The node of [select], [memory_copy] and [memory_fill]: three
    children at the given distances above the new [stackTop]. *)
Definition pushTernary (op : Z) (c1 c2 c3 : Z) : M unit :=
  modify (fun s => set_stackTop (stackTop s - 2) s) ;;
  top <- gets stackTop ;;
  pushPtr ;;
  pushWord (header op 3 top) ;;
  pushWord (- (top + c1)) ;;
  pushWord (- (top + c2)) ;;
  pushWord (- (top + c3)).

Definition decodeFC : M unit :=
  p <- gets bytesPtr ;;
  skipBytes 1 ;;
  match lookupZ (bytes_ wasm) p with
  | None => throw TypeError
  | Some op =>
    if op <=? Op.i64_trunc_sat_f64_u then
      dead <- topIsDead ;;
      when (negb dead) then (top <- gets stackTop ;; pushUnary op top)
    else if op =? Op.memory_copy then
      src <- readByteOrZero ;;
      (if src =? 0 then
         dst <- readByteOrZero ;;
         if dst =? 0 then ret tt else throw UnsupportedMemoryIndex
       else throw UnsupportedMemoryIndex) ;;
      dead <- topIsDead ;;
      when (negb dead) then pushTernary op 0 1 2
    else if op =? Op.memory_fill then
      dst <- readByteOrZero ;;
      (if dst =? 0 then ret tt else throw UnsupportedMemoryIndex) ;;
      dead <- topIsDead ;;
      when (negb dead) then pushTernary op 1 0 2
    else throw (UnsupportedInstructionFC op)
  end.

(** The opcodes with a case of their own in the [switch]. *)
Definition decodeSpecial (op : Z) : M unit :=
  if op =? Op.unreachable then
    finalizeBasicBlock false ;;
    block <- topBlock ;;
    when (negb (isDead_ block)) then
      (emitBody (dquote +++ "unreachable" +++ dquote +++ "();") ;;
       modifyTop (set_isDead true))
  else if op =? Op.block then
    finalizeBasicBlock false ;;
    label <- pushBlock Normal ;;
    when (label <? 0) then emitBody "{"
  else if op =? Op.loop then
    finalizeBasicBlock false ;;
    label <- pushBlock Loop ;;
    emitBody (if label <? 0 then "for(;;){" else "case " +++ showZ label +++ ":")
  else if op =? Op.if_ then
    dead <- topIsDead ;;
    (when (negb dead) then
       depth <- gets (fun s => Z.of_nat (List.length (blocks s))) ;;
       top <- gets stackTop ;;
       pushUnary (if depth <? blockDepthLimit then Op.BOOL else Op.BOOL_NOT) top) ;;
    test <- finalizeTest ;;
    label <- pushBlock IfElse ;;
    emitBody (if label <? 0 then "if(" +++ test +++ "){"
              else "if(" +++ test +++ "){L=" +++ showZ label +++ ";continue}")
  else if op =? Op.else_ then
    finalizeBasicBlock false ;;
    index <- gets (fun s => Z.of_nat (List.length (blocks s)) - 1) ;;
    block <- topBlock ;;
    jump index ;;
    emitBody (if index <? blockDepthLimit then "}else{"
              else "case " +++ showZ (labelContinueOrElse_ block) +++ ":") ;;
    modifyTop (set_kind Normal) ;;
    modify (set_stackTop (parentStackTop_ block + argCount_ block)) ;;
    modifyTop (set_isDead false)
  else if op =? Op.end_ then
    finalizeBasicBlock false ;;
    index <- gets (fun s => Z.of_nat (List.length (blocks s)) - 1) ;;
    old <- topBlock ;;
    (when (negb (BlockKind_eqb (kind_ old) IfElse)) then
       modifyTop (set_labelContinueOrElse 0)) ;;
    modifyTop (set_kind Normal) ;;
    jump index ;;
    block <- topBlock ;;
    (if index <? blockDepthLimit then emitBody "}"
     else
       (when (negb (labelContinueOrElse_ block =? 0)) then
          emitBody ("case " +++ showZ (labelContinueOrElse_ block) +++ ":")) ;;
       emitBody ("case " +++ showZ (labelBreak_ block) +++ ":") ;;
       (when (index =? blockDepthLimit) then emitBody "}break}")) ;;
    modify (set_stackTop (parentStackTop_ block + returnCount_ block)) ;;
    modify (fun s => set_blocks (removelast (blocks s)) s)
  else if op =? Op.br then
    finalizeBasicBlock false ;;
    jumpRelative ;;
    topBlock ;;
    modifyTop (set_isDead true)
  else if op =? Op.br_if then
    dead <- topIsDead ;;
    (when (negb dead) then (top <- gets stackTop ;; pushUnary Op.BOOL top)) ;;
    test <- finalizeTest ;;
    emitBody ("if(" +++ test +++ "){") ;;
    jumpRelative ;;
    emitBody "}"
  else if op =? Op.br_table then
    test <- finalizeTest ;;
    emitBody ("switch(" +++ test +++ "){") ;;
    tableCount <- readU32LEB ;;
    forRange 0 (Z.to_nat tableCount) (fun i =>
      emitBody ("case " +++ showZ i +++ ":") ;; jumpRelative) ;;
    emitBody "default:" ;;
    jumpRelative ;;
    emitBody "}" ;;
    topBlock ;;
    modifyTop (set_isDead true)
  else if op =? Op.return_ then
    finalizeBasicBlock false ;;
    jump 0 ;;
    topBlock ;;
    modifyTop (set_isDead true)
  else if op =? Op.call then
    funcIndex <- readU32LEB ;;
    dead <- topIsDead ;;
    when (negb dead) then
      match lookupZ funcTypes funcIndex with
      | None => throw TypeError
      | Some (argTypes, returnTypes) =>
        let argCount := Z.of_nat (List.length argTypes) in
        modify (fun s => set_stackTop (stackTop s - argCount) s) ;;
        pushCall op argCount (Z.of_nat (List.length returnTypes)) false funcIndex
      end
  else if op =? Op.call_indirect then
    typeIndex <- readU32LEB ;;
    tableIndex <- readU32LEB ;;
    if negb (tableIndex =? 0) then throw (UnsupportedTableIndex tableIndex)
    else
      dead <- topIsDead ;;
      when (negb dead) then
        ('(argTypes, returnTypes) <- typeAt typeIndex ;;
         let argCount := Z.of_nat (List.length argTypes) in
         modify (fun s => set_stackTop (stackTop s - (argCount + 1)) s) ;;
         pushCall op argCount (Z.of_nat (List.length returnTypes)) true typeIndex)
  else if op =? Op.select then
    dead <- topIsDead ;;
    when (negb dead) then
      (top <- gets stackTop ;;
       pushUnary Op.BOOL top ;;
       pushTernary op 2 0 1)
  else if op =? Op.i32_const then
    dead <- topIsDead ;;
    if dead then (_ <- readI32LEB ;; ret tt)
    else pushConst op readI32LEB
  else if op =? Op.i64_const then
    dead <- topIsDead ;;
    if dead then (_ <- readI64LEB ;; ret tt)
    else pushConst op (cs <- gets constants ;;
                       v <- readI64LEB ;;
                       modify (fun s => set_constants (constants s ++ [v]) s) ;;
                       ret (Z.of_nat (List.length cs)))
  else if op =? Op.f32_const then
    dead <- topIsDead ;;
    (when (negb dead) then pushConst op (gets bytesPtr)) ;;
    skipBytes 4
  else if op =? Op.f64_const then
    dead <- topIsDead ;;
    (when (negb dead) then pushConst op (gets bytesPtr)) ;;
    skipBytes 8
  else if op =? 0xFC then decodeFC
  else throw (UnsupportedInstruction op).

(** One iteration of the loop [while (bytesPtr < codeEnd)]. *)
Definition step : M unit :=
  p <- gets bytesPtr ;;
  skipBytes 1 ;;
  match lookupZ (bytes_ wasm) p with
  | None => throw TypeError
  | Some op =>
    let flags := metaTable op in
    if hasFlag flags MetaFlag.Simple then
      dead <- topIsDead ;;
      if dead then skipSimple flags else decodeSimple op flags
    else decodeSpecial op
  end.

(** The loop itself.  Every iteration consumes a byte, so
    [codeEnd - bytesPtr] iterations are enough; [n] is that bound. *)
Fixpoint decode (n : nat) (codeEnd : Z) : M unit :=
  p <- gets bytesPtr ;;
  if p <? codeEnd then
    match n with
    | O => throw RecursionLimit
    | S n' => step ;; decode n' codeEnd
    end
  else ret tt.

End Compiler.

(** ** compileCode *)

(** The names of the arguments: [a0], [a1], ... *)
Definition argNames (argCount : nat) : list string :=
  map (fun i => "a" +++ showZ (Z.of_nat i)) (seq 0 argCount).

(** The loops that name and declare the locals. *)
Fixpoint declareGroup (count : nat) (type : ValType) (names decls : list string)
  : list string * list string :=
  match count with
  | O => (names, decls)
  | S count' =>
    let name := "t" +++ showZ (Z.of_nat (List.length decls)) in
    declareGroup count' type (names ++ [name])
                 (decls ++ [name +++ match type with I64 => "=0n" | _ => "=0" end])
  end.

Fixpoint declareLocals (locals : list (Z * ValType)) (names decls : list string)
  : list string * list string :=
  match locals with
  | [] => (names, decls)
  | (count, type) :: rest =>
    let '(names', decls') := declareGroup (Z.to_nat count) type names decls in
    declareLocals rest names' decls'
  end.

Definition initialState (a : AstStore) (decls : list string) (returnCount codeStart : Z) : State :=
  mkState a [] 0 [] 0 decls
          [mkBlock 0 false Normal (-1) (-1) 0 returnCount]
          0 codeStart 0 "b0:{".

(** The text given to [new Function] at the end. *)
Definition wrapBody (env : Env) (wasm : WASM) (codeIndex funcIndex : Z)
           (names : list string) (argCount : nat) (s : State) : string :=
  let fallback := "function[" +++ showZ codeIndex +++ "]" in
  let name := JSON_stringify env
                ("wasm:" +++ match nameSection_ wasm funcIndex with
                             | Some n => if String.eqb n EmptyString then fallback else n
                             | None => fallback
                             end) in
  "return{" +++ name +++ "(" +++ join "," (firstn argCount names) +++ "){var "
    +++ join "," (decls s) +++ ";" +++ body s +++ "}}[" +++ name +++ "]".

(** The state in which the decoding loop of [compileCode] ends, or the
    error that stopped it. *)
Definition decodeFunction (env : Env) (funcTypes : list FuncType) (wasm : WASM)
           (codeIndex : Z) (fuel : nat) (store : AstStore) : Res (list string * nat * State) :=
  match lookupZ (functionSection_ wasm) codeIndex with
  | None => Err TypeError
  | Some typeIndex =>
    match lookupZ (typeSection_ wasm) typeIndex, lookupZ (codeSection_ wasm) codeIndex with
    | Some (argTypes, returnTypes), Some (locals, codeStart, codeEnd) =>
      let argCount := List.length argTypes in
      let '(names, decls) := declareLocals locals (argNames argCount) ["L"; "T"] in
      let s0 := initialState store decls (Z.of_nat (List.length returnTypes)) codeStart in
      match decode env wasm funcTypes names fuel (Z.to_nat (codeEnd - codeStart)) codeEnd s0 with
      | Err e => Err e
      | Ok (_, s) => Ok (names, argCount, s)
      end
    | _, _ => Err TypeError
    end
  end.

(** [compileCode].  The linked values [funcs], [table], [globals],
    [library] and [context] are only bound as the parameters [f], [t],
    [g], [l] and [c] of the produced function, so they are left out; the
    result is the source text of that function, together with the AST
    store as this compilation leaves it for the next one. *)
Definition compileCode (env : Env) (funcTypes : list FuncType) (wasm : WASM)
           (codeIndex funcIndex : Z) (fuel : nat) (store : AstStore)
  : Res (string * AstStore) :=
  match decodeFunction env funcTypes wasm codeIndex fuel store with
  | Err e => Err e
  | Ok (names, argCount, s) =>
    if stackLimit s >? 255 then Err DeepStack
    else Ok (wrapBody env wasm codeIndex funcIndex names argCount s, ast s)
  end.

(** ** Instances used to run the compiler on concrete functions *)

(** The optimizer with no rewriting rule: every node is returned as it is. *)
Definition noRules : AstStore -> list Z -> Z -> Z -> AstStore * list Z * Z * Z :=
  fun a cs next ptr => (a, cs, next, ptr).

Definition fieldText (f : ContextField) : string :=
  match f with
  | CF_Int8Array => "i8"
  | CF_Uint8Array => "u8"
  | CF_DataView => "dv"
  | CF_PageCount => "pc"
  | CF_PageGrow => "pg"
  end.

Definition plainEnv : Env :=
  mkEnv noRules fieldText (fun name => dquote +++ name +++ dquote).

(** A fresh AST store, as [new Int32Array] leaves it. *)
Definition freshStore : AstStore := fun _ => 0.

(** A module with one type and one function whose body is [code]. *)
Definition oneFunction (type : FuncType) (locals : list (Z * ValType)) (code : list Z) : WASM :=
  mkWASM code (fun _ => "0") (fun _ => "0")
         [(locals, 0, Z.of_nat (List.length code))] [0] (fun _ => None) [type].

(** * Properties *)

(** ** Reasoning about monadic code *)

Lemma bind_Ok {A B : Type} (c : M A) (k : A -> M B) s r :
  bind c k s = Ok r -> exists a s', c s = Ok (a, s') /\ k a s' = Ok r.
Proof.
  unfold bind. destruct (c s) as [[a s']|e]; intro H; [eauto | discriminate].
Qed.

Lemma bind_Err {A B : Type} (c : M A) (k : A -> M B) s e :
  c s = Err e -> bind c k s = Err e.
Proof. unfold bind. intros ->. reflexivity. Qed.

Lemma bind_step {A B : Type} (c : M A) (k : A -> M B) s a s' :
  c s = Ok (a, s') -> bind c k s = k a s'.
Proof. unfold bind. intros ->. reflexivity. Qed.

(** [keeps f c]: a successful run of [c] leaves the component [f] of the
    state as it was. *)
Definition keeps {X A : Type} (f : State -> X) (c : M A) : Prop :=
  forall s a s', c s = Ok (a, s') -> f s' = f s.

Section Keeps.
Context {X : Type} (f : State -> X).

Lemma keeps_ret {A} (a : A) : keeps f (ret a).
Proof. intros s a' s' H. inversion H. reflexivity. Qed.

Lemma keeps_throw {A} e : keeps f (@throw A e).
Proof. intros s a s' H. discriminate. Qed.

Lemma keeps_gets {A} (g : State -> A) : keeps f (gets g).
Proof. intros s a s' H. inversion H. reflexivity. Qed.

Lemma keeps_modify g : (forall s, f (g s) = f s) -> keeps f (modify g).
Proof. intros Hg s a s' H. inversion H. apply Hg. Qed.

Lemma keeps_bind {A B} (c : M A) (k : A -> M B) :
  keeps f c -> (forall a, keeps f (k a)) -> keeps f (bind c k).
Proof.
  intros Hc Hk s b s' H. apply bind_Ok in H. destruct H as (a & s1 & H1 & H2).
  rewrite (Hk _ _ _ _ H2). eapply Hc; eauto.
Qed.
End Keeps.

Create HintDb keeps.

Ltac keeps_step :=
  match goal with
  | |- keeps _ (bind _ _) => apply keeps_bind; [| intros]
  | |- keeps _ (ret _) => apply keeps_ret
  | |- keeps _ (throw _) => apply keeps_throw
  | |- keeps _ (gets _) => apply keeps_gets
  | |- keeps _ (modify _) => apply keeps_modify; intros; reflexivity
  | |- keeps _ (if ?b then _ else _) => destruct b
  | |- keeps _ (match ?x with _ => _ end) => destruct x
  | |- keeps _ _ => solve [auto with keeps]
  end.

Ltac keeps_auto := repeat keeps_step.

Section Frames.
Variable env : Env.
Variable wasm : WASM.
Variable funcTypes : list FuncType.
Variable names : list string.
Variable fuel : nat.

Context {X : Type} (f : State -> X).

(** [f] does not look at the named component. *)
Definition ignores_ast := forall v s, f (set_ast v s) = f s.
Definition ignores_astPtrs := forall v s, f (set_astPtrs v s) = f s.
Definition ignores_astNextPtr := forall v s, f (set_astNextPtr v s) = f s.
Definition ignores_constants := forall v s, f (set_constants v s) = f s.
Definition ignores_slots :=
  forall l d s, f (set_decls d (set_stackLimit l s)) = f s.
Definition ignores_body := forall v s, f (set_body v s) = f s.
Definition ignores_stackTop := forall v s, f (set_stackTop v s) = f s.

Lemma keeps_astGet p : keeps f (astGet p).
Proof.
  intros s a s' H. unfold astGet in H.
  destruct ((0 <=? p) && (p <? astCapacity)); inversion H; reflexivity.
Qed.

Lemma keeps_astSet p v : ignores_ast -> keeps f (astSet p v).
Proof.
  intros Hf s a s' H. unfold astSet in H.
  destruct ((0 <=? p) && (p <? astCapacity)); inversion H; apply Hf.
Qed.

Lemma keeps_stackSlotName k : ignores_slots -> keeps f (stackSlotName k).
Proof. intros Hf s a s' H. unfold stackSlotName in H. inversion H. apply Hf. Qed.

Lemma keeps_emitBody t : ignores_body -> keeps f (emitBody t).
Proof. intros Hf. unfold emitBody. apply keeps_modify. intros. apply Hf. Qed.

Hint Resolve keeps_astGet keeps_astSet keeps_stackSlotName keeps_emitBody : keeps.

Lemma keeps_emitPieces emit ptr value ps :
  (forall p, keeps f (emit p)) -> keeps f (emitPieces env names emit ptr value ps).
Proof.
  intros He. induction ps as [|p ps IH]; simpl; keeps_auto.
Qed.

Lemma keeps_emitKids emit base n :
  (forall p, keeps f (emit p)) -> keeps f (emitKids emit base n).
Proof.
  intros He. revert base. induction n as [|n IH]; intros base; simpl; keeps_auto.
Qed.

Lemma keeps_slotNames slot n : ignores_slots -> keeps f (slotNames slot n).
Proof.
  intros Hf. revert slot. induction n as [|n IH]; intros slot; simpl; keeps_auto.
Qed.

Hint Resolve keeps_emitPieces keeps_emitKids keeps_slotNames : keeps.

Lemma keeps_callResult code returnTypes slotAt :
  ignores_slots -> keeps f (callResult code returnTypes slotAt).
Proof. intros Hf. unfold callResult. keeps_auto. Qed.

Hint Resolve keeps_callResult : keeps.

(** The emitter only declares stack slots. *)
Lemma keeps_emitUnwrapped budget ptr :
  ignores_slots -> keeps f (emitUnwrapped env wasm funcTypes names budget ptr).
Proof.
  intros Hf. revert ptr. induction budget as [|budget IH]; intros ptr.
  - simpl. keeps_auto.
  - assert (He : forall p, keeps f (if p <? 0 then stackSlotName (- p)
             else (t <- emitUnwrapped env wasm funcTypes names budget p ;;
                   ret ("(" +++ t +++ ")")))).
    { intros p. keeps_auto. }
    simpl. keeps_auto.
Qed.

(** The optimizer only touches the AST store, the list of top-level
    nodes, the bump pointer and the constants. *)
Definition ignores_tree :=
  ignores_ast /\ ignores_astPtrs /\ ignores_astNextPtr /\ ignores_constants.

Ltac use_ignores :=
  intros;
  repeat match goal with
         | H : ignores_tree |- _ => destruct H as (? & ? & ? & ?)
         | H : ignores_ast |- _ => rewrite !H
         | H : ignores_astPtrs |- _ => rewrite !H
         | H : ignores_astNextPtr |- _ => rewrite !H
         | H : ignores_constants |- _ => rewrite !H
         | H : ignores_slots |- _ => rewrite !H
         | H : ignores_body |- _ => rewrite !H
         | H : ignores_stackTop |- _ => rewrite !H
         end;
  try reflexivity.

Lemma keeps_optimizeChildrenAndSelf budget ptr i :
  ignores_tree -> keeps f (optimizeChildrenAndSelf env budget ptr i).
Proof.
  intros Hf. pose proof Hf as (Ha & Hp & Hn & Hc).
  revert ptr i. induction budget as [|budget IH]; intros ptr i.
  - simpl. keeps_auto.
  - simpl. apply keeps_bind; [auto with keeps|]. intros node.
    apply keeps_bind.
    + generalize (Z.to_nat (nodeChildCount node)). intros n. revert i.
      induction n as [|j IHj]; intros i; cbn [optimizeChildren]; [keeps_auto|].
      destruct (i <? 0); [keeps_auto|].
      apply keeps_bind; [auto with keeps|]. intros w.
      apply keeps_bind; [keeps_auto|]. intros a.
      apply keeps_bind; [keeps_auto|]. intros ptrs.
      destruct (scanProducer _ _ _ _ _ _) as [[|k prevPtr didSkip]|e]; [apply IHj| |keeps_auto].
      apply keeps_bind; [apply keeps_modify; intros; apply Hp|]. intros _.
      apply keeps_bind; [apply IH|]. intros [inlined i2].
      apply keeps_bind; [auto with keeps|]. intros _. apply IHj.
    + intros i'. apply keeps_bind; [keeps_auto|]. intros s.
      destruct (optimizeNode env _ _ _ _) as [[[a cs] next] ptr'].
      apply keeps_bind; [|intros; keeps_auto].
      apply keeps_modify. intros s0. rewrite Ha, Hc, Hn. reflexivity.
Qed.

Lemma keeps_optimizeAll n i :
  ignores_tree -> keeps f (optimizeAll env fuel n i).
Proof.
  intros Hf. pose proof Hf as (Ha & Hp & Hn & Hc).
  revert i. induction n as [|n IH]; intros i; simpl.
  - keeps_auto.
  - destruct (i <? 0); [keeps_auto|].
    apply keeps_bind; [keeps_auto|]. intros ptrs.
    destruct (lookupZ ptrs i) as [[ptr|]|]; [| apply IH | keeps_auto].
    apply keeps_bind; [apply keeps_optimizeChildrenAndSelf; exact Hf|]. intros [ptr' i'].
    apply keeps_bind; [apply keeps_modify; intros; apply Hp | intros; apply IH].
Qed.

Lemma keeps_emitStatements entries :
  ignores_slots -> keeps f (emitStatements env wasm funcTypes names fuel entries).
Proof.
  intros Hf. induction entries as [|[ptr|] rest IH]; cbn [emitStatements]; [keeps_auto| |exact IH].
  apply keeps_bind; [auto with keeps|]. intros node.
  apply keeps_bind; [keeps_auto|]. intros target.
  apply keeps_bind; [apply keeps_emitUnwrapped; exact Hf|]. intros text.
  apply keeps_bind; [exact IH|]. intros; keeps_auto.
Qed.

(** [finalizeBasicBlock] leaves alone whatever is not the AST, the stack
    slots, the body or [stackTop]. *)
Lemma keeps_finalizeBasicBlock popStackTop :
  ignores_tree -> ignores_slots -> ignores_body -> ignores_stackTop ->
  keeps f (finalizeBasicBlock env wasm funcTypes names fuel popStackTop).
Proof.
  intros Ht Hs Hb Hst. pose proof Ht as (Ha & Hp & Hn & Hc).
  unfold finalizeBasicBlock.
  apply keeps_bind; [keeps_auto|]. intros len.
  apply keeps_bind; [apply keeps_optimizeAll; exact Ht|]. intros _.
  apply keeps_bind; [keeps_auto|]. intros ptrs.
  apply keeps_bind.
  - destruct popStackTop; [|keeps_auto].
    apply keeps_bind; [keeps_auto|]. intros top.
    apply keeps_bind.
    + destruct (lookupZ ptrs (len - 1)) as [[ptr|]|]; [|keeps_auto|keeps_auto].
      apply keeps_bind; [auto with keeps|]. intros node.
      destruct (nodeOutSlot node =? top); [|keeps_auto].
      apply keeps_bind; [apply keeps_emitUnwrapped; exact Hs|]. intros; keeps_auto.
    + intros r. apply keeps_bind; [apply keeps_modify; intros; apply Hst|].
      intros; keeps_auto.
  - intros [result i].
    apply keeps_bind; [apply keeps_emitStatements; exact Hs|]. intros parts.
    apply keeps_bind; [apply keeps_emitBody; exact Hb|]. intros _.
    apply keeps_bind; [|intros; keeps_auto].
    apply keeps_modify. intros s. rewrite Hn, Hp, Hc. reflexivity.
Qed.

End Frames.

Tactic Notation "inv_bind" hyp(H) "as" ident(a) ident(s) ident(H1) :=
  apply bind_Ok in H; destruct H as (a & s & H1 & H).

(** Side conditions "the projection ignores these fields". *)
Ltac ign :=
  unfold ignores_tree, ignores_ast, ignores_astPtrs, ignores_astNextPtr,
    ignores_constants, ignores_slots, ignores_body, ignores_stackTop;
  repeat split; intros; reflexivity.

(** [kept L H]: from a run [H : c s = Ok (a, s')] and a frame lemma
    [L : keeps f c], the equation [f s' = f s]. *)
Ltac kept L H :=
  let E := fresh "E" in
  pose proof (L _ _ _ H) as E; cbv beta in E.

(** A run of [ret], [gets] or [modify]: name the result and the state
    after it by the state before. *)
Ltac inv_ret H :=
  unfold emitBody, modifyTop, pushPtr, ret, gets, modify in H;
  cbv beta in H;
  match type of H with
  | Ok (_, _) = Ok (?a', ?s') =>
    injection H; clear H; intros;
    try (is_var s'; subst s'); try (is_var a'; subst a')
  end.

(** ** Finalizing a basic block *)

Section BlockFinalization.

Variable env : Env.
Variable wasm : WASM.
Variable funcTypes : list FuncType.
Variable names : list string.
Variable fuel : nat.

Let finalize := finalizeBasicBlock env wasm funcTypes names fuel.

(** The three resets at the end of [finalizeBasicBlock] are its last
    writes to the bump pointer, the node list and the constants. *)
Lemma finalize_clears_block (popStackTop : bool) (s s' : State) (r : option string) :
  finalize popStackTop s = Ok (r, s') ->
  astNextPtr s' = 0 /\ astPtrs s' = [] /\ constants s' = [].
Proof.
  unfold finalize, finalizeBasicBlock. intros H.
  inv_bind H as len s1 H1. inv_bind H as u2 s2 H2. inv_bind H as ptrs s3 H3.
  inv_bind H as x s4 H4. destruct x as [result i].
  inv_bind H as parts s5 H5. inv_bind H as u6 s6 H6. inv_bind H as u7 s7 H7.
  inv_ret H. inv_ret H7. repeat split.
Qed.

(** C7.  When [finalizeBasicBlock] returns, whatever its flag and
    whatever the block held, the bump pointer of the AST store is 0
    again and both the list of top-level nodes and the list of 64-bit
    constants are empty. *)
Theorem finalizeBasicBlock_resets (popStackTop : bool) (s s' : State) (r : option string) :
  finalize popStackTop s = Ok (r, s') ->
  astNextPtr s' = 0 /\ astPtrs s' = [] /\ constants s' = [].
Proof.
  intros H. exact (finalize_clears_block popStackTop s s' r H).
Qed.



End BlockFinalization.

(** ** Returning from the function *)

(** The names [s(first)], ..., [s(first + count - 1)]. *)
Definition slotRange (first : Z) (count : nat) : list string :=
  map (fun k => "s" +++ showZ (first + Z.of_nat k)) (seq 0 count).

Lemma slotRange_nth first count k :
  (k < count)%nat -> nth k (slotRange first count) "" = "s" +++ showZ (first + Z.of_nat k).
Proof.
  intros Hk. unfold slotRange.
  set (f := fun k => "s" +++ showZ (first + Z.of_nat k)).
  rewrite nth_indep with (d' := f 0%nat) by (rewrite length_map, length_seq; exact Hk).
  rewrite map_nth, seq_nth by exact Hk. reflexivity.
Qed.

(** ** The memory-aliasing barrier of the optimizer *)

(** The producers that may be inlined into a node that reads or writes
    memory through the typed-array views. *)
Definition trivialProducer (op : Z) : Prop :=
  op = Op.i32_const \/ op = Op.i64_const \/ op = Op.local_get.

Lemma usesTypedArraysOf_spec (op : Z) :
  usesTypedArraysOf op = true <->
  (Op.i32_load <= op <= Op.i64_store32) \/ op = Op.memory_copy \/ op = Op.memory_fill.
Proof.
  unfold usesTypedArraysOf.
  rewrite !orb_true_iff, andb_true_iff, !Z.leb_le, !Z.eqb_eq. tauto.
Qed.

(** The backward scan for the producer of a child of a node that uses
    the typed-array views looks at the nearest top-level node that is
    still in the list and at nothing else: it finds that node only if
    it is an [i32_const], an [i64_const] or a [local_get] writing the
    wanted slot, and any other opcode there ends the scan. *)
Lemma scanProducer_barrier
        (a : AstStore) (ptrs : list (option Z)) (parentOp stackSlot : Z) (n : nat) (didSkip : bool) :
  usesTypedArraysOf parentOp = true ->
  (forall k prevPtr skipped,
     scanProducer a ptrs (usesTypedArraysOf parentOp) stackSlot n didSkip
       = Ok (Found k prevPtr skipped) ->
     trivialProducer (nodeOp (a prevPtr))
     /\ nodeOutSlot (a prevPtr) = stackSlot
     /\ nth_error ptrs (Z.to_nat k) = Some (Some prevPtr)
     /\ 0 <= k < Z.of_nat n
     /\ (forall j, (Z.to_nat k < j < n)%nat -> nth_error ptrs j = Some None)
     /\ skipped = didSkip)
  /\ (forall k prevPtr,
        nth_error ptrs k = Some (Some prevPtr) ->
        (k < n)%nat ->
        (forall j, (k < j < n)%nat -> nth_error ptrs j = Some None) ->
        inStore prevPtr = true ->
        ~ trivialProducer (nodeOp (a prevPtr)) ->
        scanProducer a ptrs (usesTypedArraysOf parentOp) stackSlot n didSkip = Ok Stop).
Proof.
  intros ->. split.
  - induction n as [|m IH]; intros k prevPtr skipped H; cbn [scanProducer] in H; [discriminate|].
    destruct (nth_error ptrs m) as [[p|]|] eqn:Em; [| |discriminate].
    + destruct (inStore p); [|discriminate].
      destruct (_ && _) eqn:Eb in H; [discriminate|].
      destruct (nodeOutSlot (a p) =? stackSlot) eqn:Es.
      * inversion H; subst. apply Z.eqb_eq in Es.
        rewrite Nat2Z.id. repeat split; try assumption; try lia.
        unfold trivialProducer.
        cbn [andb] in Eb. apply andb_false_iff in Eb.
        rewrite orb_false_iff, negb_false_iff, Z.eqb_eq, Z.ltb_ge in Eb.
        rewrite Z.gtb_ltb, Z.ltb_ge in Eb.
        unfold Op.i32_const, Op.i64_const, Op.local_get in *. lia.
      * exfalso.
        cbn [andb] in Eb. apply andb_false_iff in Eb.
        rewrite orb_false_iff, negb_false_iff, Z.eqb_eq, Z.ltb_ge in Eb.
        rewrite Z.gtb_ltb, Z.ltb_ge in Eb.
        destruct (_ && _) eqn:Et in H; [discriminate|].
        apply andb_false_iff in Et. rewrite !negb_false_iff, !Z.eqb_eq in Et.
        unfold Op.i32_const, Op.i64_const, Op.local_get, Op.TO_U32, Op.TO_S64 in *. lia.
    + specialize (IH _ _ _ H). destruct IH as (H1 & H2 & H3 & H4 & H5 & H6).
      repeat split; try assumption; try lia.
      intros j Hj. destruct (Nat.eq_dec j m) as [->|]; [assumption|]. apply H5. lia.
  - induction n as [|m IH]; intros k prevPtr Hk Hlt Hnull Hin Hnt; [lia|].
    cbn [scanProducer]. destruct (Nat.eq_dec k m) as [->|Hne].
    + rewrite Hk, Hin.
      destruct (_ && _) eqn:Eb; [reflexivity|]. exfalso. apply Hnt.
      cbn [andb] in Eb. apply andb_false_iff in Eb.
      rewrite orb_false_iff, negb_false_iff, Z.eqb_eq, Z.ltb_ge in Eb.
      rewrite Z.gtb_ltb, Z.ltb_ge in Eb.
      unfold trivialProducer, Op.i32_const, Op.i64_const, Op.local_get in *. lia.
    + rewrite (Hnull m) by lia. apply (IH k prevPtr); try assumption; try lia.
      intros j Hj. apply Hnull. lia.
Qed.

(** C1.  Let the node at [ptr] be a load or a store ([i32_load] to
    [i64_store32]), a [memory_copy] or a [memory_fill].
    [optimizeChildrenAndSelf] then runs the loop over its children with
    the barrier on, and hands the node to [optimizeNode] afterwards.
    In every round of that loop the scan either stops, and nothing is
    inlined into the child, or it finds a top-level node that writes
    the child's stack slot and is an [i32_const], an [i64_const] or a
    [local_get]: this node is taken off the list, optimized and written
    into the child's cell.  In particular, when the nearest top-level
    node still in the list is none of the three, the call inlines
    nothing at all: the list stays as it is and the node goes to
    [optimizeNode] unchanged. *)
Theorem typed_array_parent_inlines_only_trivial (env : Env) (budget : nat) (ptr : Z) :
  (forall i s r s',
     usesTypedArraysOf (nodeOp (ast s ptr)) = true ->
     optimizeChildrenAndSelf env (S budget) ptr i s = Ok (r, s') ->
     exists s1,
       optimizeChildren (optimizeChildrenAndSelf env budget) ptr true
                        (Z.to_nat (nodeChildCount (ast s ptr))) i s = Ok (snd r, s1)
       /\ optimizeNode env (ast s1) (constants s1) (astNextPtr s1) ptr
          = (ast s', constants s', astNextPtr s', fst r)
       /\ astPtrs s' = astPtrs s1)
  /\ (forall optimizeChild j i s r s',
        0 <= i ->
        optimizeChildren optimizeChild ptr true (S j) i s = Ok (r, s') ->
        let cell := ptr + Z.of_nat j + 1 in
        match scanProducer (ast s) (astPtrs s) true (- ast s cell) (Z.to_nat (i + 1)) false with
        | Ok Stop => optimizeChildren optimizeChild ptr true j i s = Ok (r, s')
        | Ok (Found k prevPtr didSkip) =>
          trivialProducer (nodeOp (ast s prevPtr))
          /\ nodeOutSlot (ast s prevPtr) = - ast s cell
          /\ nth_error (astPtrs s) (Z.to_nat k) = Some (Some prevPtr)
          /\ exists inlined i2 s1 s2,
               optimizeChild prevPtr (if didSkip then i else k - 1)
                             (set_astPtrs (replaceNth (Z.to_nat k) None (astPtrs s)) s)
               = Ok ((inlined, i2), s1)
               /\ astSet cell inlined s1 = Ok (tt, s2)
               /\ optimizeChildren optimizeChild ptr true j i2 s2 = Ok (r, s')
        | Err _ => False
        end)
  /\ (forall i s r s' k prevPtr,
        usesTypedArraysOf (nodeOp (ast s ptr)) = true ->
        nth_error (astPtrs s) k = Some (Some prevPtr) ->
        Z.of_nat k <= i ->
        (forall j, (k < j)%nat -> Z.of_nat j <= i -> nth_error (astPtrs s) j = Some None) ->
        inStore prevPtr = true ->
        ~ trivialProducer (nodeOp (ast s prevPtr)) ->
        optimizeChildrenAndSelf env (S budget) ptr i s = Ok (r, s') ->
        astPtrs s' = astPtrs s /\ snd r = i
        /\ optimizeNode env (ast s) (constants s) (astNextPtr s) ptr
           = (ast s', constants s', astNextPtr s', fst r)).
Proof.
  assert (Hself : forall i s r s',
             usesTypedArraysOf (nodeOp (ast s ptr)) = true ->
             optimizeChildrenAndSelf env (S budget) ptr i s = Ok (r, s') ->
             exists s1,
               optimizeChildren (optimizeChildrenAndSelf env budget) ptr true
                                (Z.to_nat (nodeChildCount (ast s ptr))) i s = Ok (snd r, s1)
               /\ optimizeNode env (ast s1) (constants s1) (astNextPtr s1) ptr
                  = (ast s', constants s', astNextPtr s', fst r)
               /\ astPtrs s' = astPtrs s1).
  { intros i s r s' Hflag H. cbn [optimizeChildrenAndSelf] in H.
    inv_bind H as node s0 Hget. unfold astGet in Hget.
    destruct ((0 <=? ptr) && (ptr <? astCapacity)); [|discriminate Hget].
    injection Hget as <- <-. cbv zeta in H. rewrite Hflag in H.
    inv_bind H as i' s1 Hloop. inv_bind H as sx s2 Hsx. inv_ret Hsx.
    destruct (optimizeNode env (ast s1) (constants s1) (astNextPtr s1) ptr)
      as [[[a cs] next] ptr'] eqn:Enode.
    inv_bind H as u s3 Hm. inv_ret Hm. inv_ret H.
    exists s1. split; [exact Hloop|]. split; [rewrite Enode; reflexivity | reflexivity]. }
  split; [exact Hself|]. split.
  - intros optimizeChild j i s r s' Hi H. cbv zeta. cbn [optimizeChildren] in H.
    destruct (Z.ltb_spec i 0); [lia|].
    inv_bind H as w s0 Hget. unfold astGet in Hget.
    destruct ((0 <=? ptr + Z.of_nat j + 1) && (ptr + Z.of_nat j + 1 <? astCapacity));
      [|discriminate Hget].
    injection Hget as <- <-.
    inv_bind H as a s1 Ha. inv_ret Ha. inv_bind H as ptrs s2 Hp. inv_ret Hp.
    destruct (scanProducer (ast s) (astPtrs s) true (- ast s (ptr + Z.of_nat j + 1))
                           (Z.to_nat (i + 1)) false)
      as [[|k prevPtr didSkip]|e] eqn:Escan; [exact H| |discriminate H].
    destruct (proj1 (scanProducer_barrier (ast s) (astPtrs s) Op.i32_load
                       (- ast s (ptr + Z.of_nat j + 1)) (Z.to_nat (i + 1)) false eq_refl)
                    k prevPtr didSkip Escan) as (H1 & H2 & H3 & _).
    split; [exact H1|]. split; [exact H2|]. split; [exact H3|].
    inv_bind H as u s3 Hm. inv_ret Hm.
    inv_bind H as x s4 Hchild. destruct x as [inlined i2].
    inv_bind H as u5 s5 Hset. destruct u5.
    exists inlined, i2, s4, s5. split; [exact Hchild|]. split; [exact Hset | exact H].
  - intros i s r s' k prevPtr Hflag Hk Hki Hnull Hin Hnt H.
    destruct (Hself i s r s' Hflag H) as (s1 & Hloop & Hnode & Hptrs).
    assert (Hstay : forall n i' s2,
               optimizeChildren (optimizeChildrenAndSelf env budget) ptr true n i s
               = Ok (i', s2) -> i' = i /\ s2 = s).
    { induction n as [|j IHj]; intros i' s2 Hrun; cbn [optimizeChildren] in Hrun.
      - inv_ret Hrun. split; reflexivity.
      - destruct (Z.ltb_spec i 0); [lia|].
        inv_bind Hrun as w s0 Hget. unfold astGet in Hget.
        destruct ((0 <=? ptr + Z.of_nat j + 1) && (ptr + Z.of_nat j + 1 <? astCapacity));
          [|discriminate Hget].
        injection Hget as <- <-.
        inv_bind Hrun as a s3 Ha. inv_ret Ha. inv_bind Hrun as ptrs s4 Hp. inv_ret Hp.
        pose proof (proj2 (scanProducer_barrier (ast s) (astPtrs s) Op.i32_load
                             (- ast s (ptr + Z.of_nat j + 1)) (Z.to_nat (i + 1)) false eq_refl)
                          k prevPtr Hk ltac:(lia)) as Hstop.
        change (usesTypedArraysOf Op.i32_load) with true in Hstop.
        rewrite Hstop in Hrun.
        + apply IHj. exact Hrun.
        + intros j0 Hj0. apply Hnull; lia.
        + exact Hin.
        + exact Hnt. }
    destruct (Hstay _ _ _ Hloop) as [Ei Es]. subst s1.
    split; [exact Hptrs|]. split; [exact Ei | exact Hnode].
Qed.

(** ** Unsupported table and memory indices *)

Section UnsupportedIndices.

Variable env : Env.
Variable wasm : WASM.
Variable funcTypes : list FuncType.
Variable names : list string.
Variable fuel : nat.

Local Abbreviation stepHere := (step env wasm funcTypes names fuel).
Local Abbreviation decodeHere := (decodeSpecial env wasm funcTypes names fuel).

(** The byte at [p], with [undefined] read as 0. *)
Definition byteOrZero (p : Z) : Z :=
  match lookupZ (bytes_ wasm) p with Some b => b | None => 0 end.

(** The value and the end of the unsigned LEB128 number at [p]. *)
Definition u32At (p : Z) : Z * Z :=
  let '(value, _, _, count) := lebLoop accumulate32 (bytesFrom wasm p) 0 0 0 in
  (toUint32 value, p + count).

Lemma readU32LEB_run (s : State) :
  readU32LEB wasm s
  = Ok (fst (u32At (bytesPtr s)), set_bytesPtr (snd (u32At (bytesPtr s))) s).
Proof.
  unfold readU32LEB, readLEB, u32At, bind, ret.
  destruct (lebLoop accumulate32 (bytesFrom wasm (bytesPtr s)) 0 0 0) as [[[v sh] b] c].
  reflexivity.
Qed.

(** An opcode without the [Simple] flag goes to the [switch]. *)
Lemma step_special (s : State) (op : Z) :
  lookupZ (bytes_ wasm) (bytesPtr s) = Some op ->
  hasFlag (metaTable op) MetaFlag.Simple = false ->
  stepHere s = decodeHere op (set_bytesPtr (bytesPtr s + 1) s).
Proof.
  intros Hop Hfl. unfold step, bind, gets, skipBytes, modify.
  rewrite Hop, Hfl. reflexivity.
Qed.

Lemma step_simple (s : State) (op : Z) :
  lookupZ (bytes_ wasm) (bytesPtr s) = Some op ->
  hasFlag (metaTable op) MetaFlag.Simple = true ->
  stepHere s = (dead <- topIsDead ;;
            if dead then skipSimple wasm (metaTable op)
            else decodeSimple wasm op (metaTable op))
           (set_bytesPtr (bytesPtr s + 1) s).
Proof.
  intros Hop Hfl. unfold step, bind, gets, skipBytes, modify.
  rewrite Hop, Hfl. reflexivity.
Qed.

(** [call_indirect] with a table index other than 0 is refused as soon
    as it is decoded, in a live block and in a dead one. *)
Lemma call_indirect_table_index (s : State) :
  let p := bytesPtr s in
  let '(typeIndex, q) := u32At (p + 1) in
  let '(tableIndex, _) := u32At q in
  lookupZ (bytes_ wasm) p = Some Op.call_indirect ->
  tableIndex <> 0 ->
  stepHere s = Err (UnsupportedTableIndex tableIndex).
Proof.
  cbv zeta. destruct (u32At (bytesPtr s + 1)) as [typeIndex q] eqn:E1.
  destruct (u32At q) as [tableIndex r] eqn:E2.
  intros Hop Hne. rewrite (step_special s _ Hop) by reflexivity.
  change (decodeHere Op.call_indirect) with
    (typeIndex <- readU32LEB wasm ;;
     tableIndex <- readU32LEB wasm ;;
     if negb (tableIndex =? 0) then throw (UnsupportedTableIndex tableIndex)
     else
       dead <- topIsDead ;;
       when (negb dead) then
         ('(argTypes, returnTypes) <- typeAt wasm typeIndex ;;
          let argCount := Z.of_nat (List.length argTypes) in
          modify (fun s => set_stackTop (stackTop s - (argCount + 1)) s) ;;
          pushCall Op.call_indirect argCount (Z.of_nat (List.length returnTypes)) true typeIndex)).
  unfold bind at 1. rewrite readU32LEB_run. cbn [bytesPtr set_bytesPtr].
  rewrite E1. cbn [fst snd].
  unfold bind at 1. rewrite readU32LEB_run. cbn [bytesPtr set_bytesPtr].
  rewrite E2. cbn [fst snd].
  destruct (tableIndex =? 0) eqn:E0; [apply Z.eqb_eq in E0; contradiction|].
  reflexivity.
Qed.

Lemma decodeFC_run (s : State) (sub : Z) :
  lookupZ (bytes_ wasm) (bytesPtr s) = Some 0xFC ->
  lookupZ (bytes_ wasm) (bytesPtr s + 1) = Some sub ->
  stepHere s =
  (if sub <=? Op.i64_trunc_sat_f64_u then
     dead <- topIsDead ;;
     when (negb dead) then (top <- gets stackTop ;; pushUnary sub top)
   else if sub =? Op.memory_copy then
     src <- readByteOrZero wasm ;;
     (if src =? 0 then
        dst <- readByteOrZero wasm ;;
        if dst =? 0 then ret tt else throw UnsupportedMemoryIndex
      else throw UnsupportedMemoryIndex) ;;
     dead <- topIsDead ;;
     when (negb dead) then pushTernary sub 0 1 2
   else if sub =? Op.memory_fill then
     dst <- readByteOrZero wasm ;;
     (if dst =? 0 then ret tt else throw UnsupportedMemoryIndex) ;;
     dead <- topIsDead ;;
     when (negb dead) then pushTernary sub 1 0 2
   else throw (UnsupportedInstructionFC sub))
  (set_bytesPtr (bytesPtr s + 2) s).
Proof.
  intros Hop Hsub. rewrite (step_special s _ Hop) by reflexivity.
  change (decodeHere 0xFC) with (decodeFC wasm).
  unfold decodeFC, bind at 1, gets. unfold bind at 1, skipBytes, modify.
  cbn [bytesPtr set_bytesPtr]. rewrite Hsub.
  replace (bytesPtr s + 1 + 1) with (bytesPtr s + 2) by lia. reflexivity.
Qed.

(** [memory_copy] and [memory_fill] with a memory index other than 0 are
    refused as soon as they are decoded, in a live block and in a dead one. *)
Lemma memory_copy_memory_index (s : State) :
  let p := bytesPtr s in
  lookupZ (bytes_ wasm) p = Some 0xFC ->
  lookupZ (bytes_ wasm) (p + 1) = Some Op.memory_copy ->
  byteOrZero (p + 2) <> 0 \/ byteOrZero (p + 3) <> 0 ->
  stepHere s = Err UnsupportedMemoryIndex.
Proof.
  cbv zeta. intros Hop Hsub Hne. rewrite (decodeFC_run s _ Hop Hsub).
  change (Op.memory_copy <=? Op.i64_trunc_sat_f64_u) with false.
  change (Op.memory_copy =? Op.memory_copy) with true. cbv iota.
  unfold bind at 1. unfold bind at 1. unfold readByteOrZero at 1.
  cbn [bytesPtr set_bytesPtr]. fold (byteOrZero (bytesPtr s + 2)).
  destruct (byteOrZero (bytesPtr s + 2) =? 0) eqn:E2; [|reflexivity].
  unfold bind at 1. unfold readByteOrZero at 1. cbn [bytesPtr set_bytesPtr].
  replace (bytesPtr s + 2 + 1) with (bytesPtr s + 3) by lia.
  fold (byteOrZero (bytesPtr s + 3)).
  destruct (byteOrZero (bytesPtr s + 3) =? 0) eqn:E3; [|reflexivity].
  apply Z.eqb_eq in E2, E3. destruct Hne; contradiction.
Qed.

Lemma memory_fill_memory_index (s : State) :
  let p := bytesPtr s in
  lookupZ (bytes_ wasm) p = Some 0xFC ->
  lookupZ (bytes_ wasm) (p + 1) = Some Op.memory_fill ->
  byteOrZero (p + 2) <> 0 ->
  stepHere s = Err UnsupportedMemoryIndex.
Proof.
  cbv zeta. intros Hop Hsub Hne. rewrite (decodeFC_run s _ Hop Hsub).
  change (Op.memory_fill <=? Op.i64_trunc_sat_f64_u) with false.
  change (Op.memory_fill =? Op.memory_copy) with false.
  change (Op.memory_fill =? Op.memory_fill) with true. cbv iota.
  unfold bind at 1. unfold bind at 1. unfold readByteOrZero at 1.
  cbn [bytesPtr set_bytesPtr]. fold (byteOrZero (bytesPtr s + 2)).
  destruct (byteOrZero (bytesPtr s + 2) =? 0) eqn:E2; [|reflexivity].
  apply Z.eqb_eq in E2. contradiction.
Qed.

(** [memory_size] and [memory_grow] are decoded by the table-driven
    path, which keeps the index as the payload of the node; the index
    is only looked at when the node is emitted. *)
Lemma emit_memory_size_index (budget : nat) (ptr : Z) (s : State) :
  inStore ptr = true -> inStore (ptr + 1) = true ->
  nodeOp (ast s ptr) = Op.memory_size ->
  ast s (ptr + 1) <> 0 ->
  emitUnwrapped env wasm funcTypes names (S budget) ptr s = Err UnsupportedMemoryIndex.
Proof.
  intros H0 H1 Hop Hne. cbn [emitUnwrapped].
  unfold bind at 1. unfold astGet at 1. fold (inStore ptr). rewrite H0, Hop.
  change (Op.memory_size =? Op.call) with false.
  change (Op.memory_size =? Op.call_indirect) with false.
  change (Op.memory_size =? Op.memory_size) with true. cbv iota.
  unfold bind, astGet. fold (inStore (ptr + 1)). rewrite H1.
  destruct (ast s (ptr + 1) =? 0) eqn:E; [apply Z.eqb_eq in E; contradiction|].
  reflexivity.
Qed.

Lemma emit_memory_grow_index (budget : nat) (ptr : Z) (s : State) :
  inStore ptr = true -> inStore (ptr + 2) = true ->
  nodeOp (ast s ptr) = Op.memory_grow ->
  ast s (ptr + 2) <> 0 ->
  emitUnwrapped env wasm funcTypes names (S budget) ptr s = Err UnsupportedMemoryIndex.
Proof.
  intros H0 H1 Hop Hne. cbn [emitUnwrapped].
  unfold bind at 1. unfold astGet at 1. fold (inStore ptr). rewrite H0, Hop.
  change (Op.memory_grow =? Op.call) with false.
  change (Op.memory_grow =? Op.call_indirect) with false.
  change (Op.memory_grow =? Op.memory_size) with false.
  change (Op.memory_grow =? Op.memory_grow) with true. cbv iota.
  unfold bind at 1. unfold astGet at 1. fold (inStore (ptr + 2)). rewrite H1.
  destruct (ast s (ptr + 2) =? 0) eqn:E; [apply Z.eqb_eq in E; contradiction|].
  reflexivity.
Qed.

(** In a dead block the table-driven path only skips the immediates, so
    the memory index of [memory_size] and [memory_grow] is never seen. *)
Lemma memory_size_grow_dead (s : State) (op : Z) (current : Block) :
  lookupZ (bytes_ wasm) (bytesPtr s) = Some op ->
  op = Op.memory_size \/ op = Op.memory_grow ->
  topOf (blocks s) = Some current -> isDead_ current = true ->
  stepHere s = Ok (tt, set_bytesPtr (snd (u32At (bytesPtr s + 1))) s).
Proof.
  intros Hop Hcase Htop Hdead.
  rewrite (step_simple s _ Hop) by (destruct Hcase; subst op; reflexivity).
  unfold bind at 1. unfold topIsDead, topBlock, bind at 1.
  cbn [blocks set_bytesPtr]. rewrite Htop. unfold ret at 1. rewrite Hdead.
  assert (Hskip : skipSimple wasm (metaTable op) = (_ <- readU32LEB wasm ;; ret tt)).
  { destruct Hcase; subst op; reflexivity. }
  rewrite Hskip. unfold bind. rewrite readU32LEB_run.
  cbn [bytesPtr set_bytesPtr]. reflexivity.
Qed.

(** C8, as the code has it.  A non-zero table index of [call_indirect]
    and a non-zero memory index of [memory_copy] or [memory_fill] stop
    the compilation at the instruction, whether the current block is
    live or dead.  The memory index of [memory_size] and [memory_grow]
    stops it when the node of the instruction is emitted; in a dead
    block no node is made and the instruction is skipped, whatever its
    index. *)
Theorem unsupported_indices (s : State) :
  let p := bytesPtr s in
  (lookupZ (bytes_ wasm) p = Some Op.call_indirect ->
   fst (u32At (snd (u32At (p + 1)))) <> 0 ->
   stepHere s = Err (UnsupportedTableIndex (fst (u32At (snd (u32At (p + 1)))))))
  /\ (lookupZ (bytes_ wasm) p = Some 0xFC ->
      lookupZ (bytes_ wasm) (p + 1) = Some Op.memory_copy ->
      byteOrZero (p + 2) <> 0 \/ byteOrZero (p + 3) <> 0 ->
      stepHere s = Err UnsupportedMemoryIndex)
  /\ (lookupZ (bytes_ wasm) p = Some 0xFC ->
      lookupZ (bytes_ wasm) (p + 1) = Some Op.memory_fill ->
      byteOrZero (p + 2) <> 0 ->
      stepHere s = Err UnsupportedMemoryIndex)
  /\ (forall budget ptr,
        inStore ptr = true -> inStore (ptr + 2) = true ->
        (nodeOp (ast s ptr) = Op.memory_size /\ ast s (ptr + 1) <> 0)
        \/ (nodeOp (ast s ptr) = Op.memory_grow /\ ast s (ptr + 2) <> 0) ->
        emitUnwrapped env wasm funcTypes names (S budget) ptr s
        = Err UnsupportedMemoryIndex)
  /\ (forall op current,
        lookupZ (bytes_ wasm) p = Some op ->
        op = Op.memory_size \/ op = Op.memory_grow ->
        topOf (blocks s) = Some current -> isDead_ current = true ->
        stepHere s = Ok (tt, set_bytesPtr (snd (u32At (p + 1))) s)).
Proof.
  cbv zeta. repeat split.
  - intros Hop Hne. pose proof (call_indirect_table_index s) as H. cbv zeta in H.
    destruct (u32At (bytesPtr s + 1)) as [typeIndex q].
    cbn [snd] in *. destruct (u32At q) as [tableIndex r]. cbn [fst] in *. auto.
  - apply memory_copy_memory_index.
  - apply memory_fill_memory_index.
  - intros budget ptr H0 H2 [[Hop Hne]|[Hop Hne]].
    + apply emit_memory_size_index; try assumption.
      unfold inStore in *. apply andb_true_iff in H0, H2.
      rewrite Z.leb_le, Z.ltb_lt in *. apply andb_true_iff. rewrite Z.leb_le, Z.ltb_lt. lia.
    + apply emit_memory_grow_index; assumption.
  - intros op current. apply memory_size_grow_dead.
Qed.

End UnsupportedIndices.

(** ** Jumps to block 0 *)

Section ReturnFromFunction.

Variable env : Env.
Variable wasm : WASM.
Variable funcTypes : list FuncType.
Variable names : list string.
Variable fuel : nat.

(** [finalizeBasicBlock] leaves the block stack and [bytesPtr] alone
    and lowers [stackTop] by one exactly when it is asked to. *)
Lemma finalize_height (pop : bool) (s s' : State) (r : option string) :
  finalizeBasicBlock env wasm funcTypes names fuel pop s = Ok (r, s') ->
  stackTop s' = stackTop s - (if pop then 1 else 0)
  /\ blocks s' = blocks s /\ bytesPtr s' = bytesPtr s.
Proof.
  intros H. split.
  - unfold finalizeBasicBlock in H.
    inv_bind H as len s1 H1. inv_ret H1.
    inv_bind H as u2 s2 H2.
    assert (E2 : stackTop s2 = stackTop s).
    { refine (keeps_optimizeAll env fuel stackTop _ _ _ _ _ _ H2). ign. }
    inv_bind H as ptrs s3 H3. inv_ret H3.
    inv_bind H as x s4 H4. destruct x as [result i].
    assert (E4 : stackTop s4 = stackTop s2 - (if pop then 1 else 0)).
    { destruct pop.
      - inv_bind H4 as top s5 H5. inv_ret H5.
        inv_bind H4 as x s6 H6.
        assert (Hr : stackTop s6 = stackTop s2).
        { destruct (lookupZ (astPtrs s2) (Z.of_nat (List.length (astPtrs s)) - 1))
            as [[ptr|]|].
          - inv_bind H6 as node s7 H7. unfold astGet in H7.
            destruct ((0 <=? ptr) && (ptr <? astCapacity)); [|discriminate].
            inversion H7; subst; clear H7.
            destruct (nodeOutSlot (ast s7 ptr) =? stackTop s7).
            + inv_bind H6 as text s8 H8. inv_ret H6.
              refine (keeps_emitUnwrapped env wasm funcTypes names stackTop _ _ _ _ _ _ H8).
              ign.
            + inv_ret H6. reflexivity.
          - inv_ret H6. reflexivity.
          - inv_ret H6. reflexivity. }
        inv_bind H4 as u8 s8 H8. inv_ret H8. unfold ret in H4. injection H4 as _ <-.
        reflexivity.
      - inv_ret H4. lia. }
    inv_bind H as parts s9 H9.
    assert (E9 : stackTop s9 = stackTop s4).
    { refine (keeps_emitStatements env wasm funcTypes names fuel stackTop _ _ _ _ _ H9). ign. }
    inv_bind H as u10 s10 H10. inv_bind H as u11 s11 H11.
    inv_ret H. inv_ret H11. inv_ret H10. cbn. rewrite E9, E4, E2. reflexivity.
  - pose proof (keeps_finalizeBasicBlock env wasm funcTypes names fuel
                  (fun s => (blocks s, bytesPtr s)) pop
                  ltac:(ign) ltac:(ign) ltac:(ign) ltac:(ign) _ _ _ H) as E.
    cbv beta in E. injection E as -> ->. split; reflexivity.
Qed.

Lemma jump_0_run (s : State) (outer current : Block) :
  lookupZ (blocks s) 0 = Some outer ->
  topOf (blocks s) = Some current ->
  jump 0 s
  = Ok (tt, if isDead_ current then s
            else set_body (body s +++ returnText (returnCount_ outer) (stackTop s)) s).
Proof.
  intros Houter Htop.
  unfold jump, topIsDead, topBlock, bind, gets, emitBody, modify, ret.
  rewrite Htop. destruct (isDead_ current); [reflexivity|].
  cbv beta iota. rewrite Houter. reflexivity.
Qed.

(** C6, as the code has it.  A jump to block index 0 appends a return
    statement to the body only while the current block is live; in a
    dead block it emits nothing.  The statement is a bare [return;] for
    arity 0, [return sN;] with N the current top of the stack for arity
    1, and for an arity of 2 or more [return[...];] with the names of
    the topmost arity slots, the deepest one first.  The opcode
    [return] finalizes the basic block and makes this jump; so does the
    [end] of the outermost block, which then closes the block with a
    brace.  [outer] is the frame of the function, [current] the frame
    on top. *)
Theorem jump_to_block_0_returns (s : State) (outer current : Block) :
  lookupZ (blocks s) 0 = Some outer ->
  topOf (blocks s) = Some current ->
  jump 0 s
  = Ok (tt, if isDead_ current then s
            else set_body (body s +++ returnText (returnCount_ outer) (stackTop s)) s)
  /\ (forall top,
        (returnCount_ outer = 0 -> returnText (returnCount_ outer) top = "return;")
        /\ (returnCount_ outer = 1 ->
            returnText (returnCount_ outer) top = "return s" +++ showZ top +++ ";")
        /\ (returnCount_ outer >= 2 ->
            let arity := Z.to_nat (returnCount_ outer) in
            let slots := slotRange (top - (returnCount_ outer - 1)) arity in
            returnText (returnCount_ outer) top = "return[" +++ join "," slots +++ "];"
            /\ List.length slots = arity
            /\ nth 0 slots "" = "s" +++ showZ (top - (returnCount_ outer - 1))
            /\ nth (arity - 1) slots "" = "s" +++ showZ top))
  /\ (forall s',
        lookupZ (bytes_ wasm) (bytesPtr s) = Some Op.return_ ->
        step env wasm funcTypes names fuel s = Ok (tt, s') ->
        exists r s1,
          finalizeBasicBlock env wasm funcTypes names fuel false
                             (set_bytesPtr (bytesPtr s + 1) s) = Ok (r, s1)
          /\ body s'
             = (if isDead_ current then body s1
                else body s1 +++ returnText (returnCount_ outer) (stackTop s)))
  /\ (forall s',
        blocks s = [outer] ->
        lookupZ (bytes_ wasm) (bytesPtr s) = Some Op.end_ ->
        step env wasm funcTypes names fuel s = Ok (tt, s') ->
        exists r s1,
          finalizeBasicBlock env wasm funcTypes names fuel false
                             (set_bytesPtr (bytesPtr s + 1) s) = Ok (r, s1)
          /\ body s'
             = (if isDead_ outer then body s1 +++ "}"
                else (body s1 +++ returnText (returnCount_ outer) (stackTop s)) +++ "}")).
Proof.
  intros Houter Htop.
  split; [apply jump_0_run; assumption|]. split; [|split].
  - intros top. unfold returnText. repeat split.
    + intros ->. reflexivity.
    + intros ->. reflexivity.
    + destruct (returnCount_ outer =? 1) eqn:E1; [apply Z.eqb_eq in E1; lia|].
      destruct (returnCount_ outer >? 1) eqn:E2; [reflexivity|].
      rewrite Z.gtb_ltb in E2. apply Z.ltb_ge in E2. lia.
    + unfold slotRange. rewrite length_map, length_seq. reflexivity.
    + rewrite slotRange_nth by lia. f_equal. f_equal. simpl. lia.
    + rewrite slotRange_nth by lia. f_equal. f_equal.
      rewrite Nat2Z.inj_sub by lia. rewrite Z2Nat.id by lia. simpl. lia.
  - intros s' Hop Hrun.
    rewrite (step_special env wasm funcTypes names fuel s _ Hop eq_refl) in Hrun.
    change (decodeSpecial env wasm funcTypes names fuel Op.return_)
      with (finalizeBasicBlock env wasm funcTypes names fuel false ;;
            jump 0 ;; topBlock ;; modifyTop (set_isDead true)) in Hrun.
    inv_bind Hrun as r s1 H1. exists r, s1. split; [exact H1|].
    destruct (finalize_height _ _ _ _ H1) as (Ht1 & Hb1 & _).
    cbn [stackTop blocks set_bytesPtr] in Ht1, Hb1.
    inv_bind Hrun as u2 s2 H2.
    rewrite (jump_0_run s1 outer current) in H2 by (rewrite Hb1; assumption).
    injection H2 as _ Hs2.
    inv_bind Hrun as b3 s3 H3. unfold topBlock in H3.
    destruct (topOf (blocks s2)); [|discriminate]. injection H3 as _ <-.
    inv_ret Hrun. cbn [body set_blocks]. rewrite <- Hs2, Ht1, Z.sub_0_r.
    destruct (isDead_ current); reflexivity.
  - intros s' Hone Hop Hrun.
    rewrite (step_special env wasm funcTypes names fuel s _ Hop eq_refl) in Hrun.
    rewrite Hone in Htop. cbn [topOf] in Htop. injection Htop as E. subst current.
    change (decodeSpecial env wasm funcTypes names fuel Op.end_)
      with (finalizeBasicBlock env wasm funcTypes names fuel false ;;
            index <- gets (fun s => Z.of_nat (List.length (blocks s)) - 1) ;;
            old <- topBlock ;;
            (when (negb (BlockKind_eqb (kind_ old) IfElse)) then
               modifyTop (set_labelContinueOrElse 0)) ;;
            modifyTop (set_kind Normal) ;;
            jump index ;;
            block <- topBlock ;;
            (if index <? blockDepthLimit then emitBody "}"
             else
               (when (negb (labelContinueOrElse_ block =? 0)) then
                  emitBody ("case " +++ showZ (labelContinueOrElse_ block) +++ ":")) ;;
               emitBody ("case " +++ showZ (labelBreak_ block) +++ ":") ;;
               (when (index =? blockDepthLimit) then emitBody "}break}")) ;;
            modify (set_stackTop (parentStackTop_ block + returnCount_ block)) ;;
            modify (fun s => set_blocks (removelast (blocks s)) s)) in Hrun.
    inv_bind Hrun as r s1 H1. exists r, s1. split; [exact H1|].
    destruct (finalize_height _ _ _ _ H1) as (Ht1 & Hb1 & _).
    cbn [stackTop blocks set_bytesPtr] in Ht1, Hb1. rewrite Z.sub_0_r in Ht1.
    rewrite Hone in Hb1.
    inv_bind Hrun as index s2 H2. inv_ret H2. rewrite Hb1 in Hrun.
    change (Z.of_nat (List.length [outer]) - 1) with 0 in Hrun.
    inv_bind Hrun as old s3 H3. unfold topBlock in H3. rewrite Hb1 in H3.
    cbn [topOf] in H3. injection H3 as <- <-.
    inv_bind Hrun as u4 s4 H4.
    assert (E4 : exists g, blocks s4 = [g outer]
                           /\ isDead_ (g outer) = isDead_ outer
                           /\ returnCount_ (g outer) = returnCount_ outer
                           /\ body s4 = body s1 /\ stackTop s4 = stackTop s1).
    { destruct (negb (BlockKind_eqb (kind_ outer) IfElse)); inv_ret H4.
      - exists (set_labelContinueOrElse 0). cbn [blocks set_blocks body stackTop].
        rewrite Hb1. repeat split.
      - exists (fun b => b). repeat split. exact Hb1. }
    destruct E4 as (g & Eb4 & Edead & Ecount & Ebody & Etop).
    inv_bind Hrun as u5 s5 H5. inv_ret H5.
    inv_bind Hrun as u6 s6 H6.
    rewrite (jump_0_run _ (set_kind Normal (g outer)) (set_kind Normal (g outer))) in H6
      by (cbn [blocks set_blocks]; rewrite Eb4; reflexivity).
    cbn [isDead_ returnCount_ set_kind body stackTop set_blocks] in H6.
    rewrite Edead, Ecount, Ebody, Etop, Ht1 in H6. injection H6 as _ Hs6.
    inv_bind Hrun as block s7 H7. unfold topBlock in H7.
    destruct (topOf (blocks s6)); [|discriminate]. injection H7 as _ <-.
    change (0 <? blockDepthLimit) with true in Hrun. cbv iota in Hrun.
    inv_bind Hrun as u8 s8 H8. inv_ret H8.
    inv_bind Hrun as u9 s9 H9. inv_ret H9. inv_ret Hrun.
    cbn [body set_blocks set_stackTop set_body]. rewrite <- Hs6.
    destruct (isDead_ outer); cbn [body set_blocks set_body]; rewrite ?Ebody; reflexivity.
Qed.

End ReturnFromFunction.

(** A function [unreachable; memory.size 1; end]: the memory index is 1,
    the instruction is dead, and the function compiles. *)
Definition deadMemorySize : WASM := oneFunction ([], []) [] [0x00; 0x3F; 0x01; 0x0B].

Definition textOf (r : Res (string * AstStore)) : Res string :=
  match r with Ok (text, _) => Ok text | Err e => Err e end.

Lemma compile_dead_memory_size :
  textOf (compileCode plainEnv [] deadMemorySize 0 0 100 freshStore)
  = Ok ("return{" +++ dquote +++ "wasm:function[0]" +++ dquote
        +++ "(){var L,T;b0:{" +++ dquote +++ "unreachable" +++ dquote
        +++ "();}}}[" +++ dquote +++ "wasm:function[0]" +++ dquote +++ "]").
Proof. vm_compute. reflexivity. Qed.

(** The same instruction in a live block stops the compilation. *)
Example compile_live_memory_size :
  textOf (compileCode plainEnv [] (oneFunction ([], []) [] [0x3F; 0x01; 0x1A; 0x0B])
                      0 0 100 freshStore)
  = Err UnsupportedMemoryIndex.
Proof. vm_compute. reflexivity. Qed.

(** ** The AND with 63 on 64-bit shift counts *)

Definition isShiftOrRotate64 (op : Z) : bool :=
  (op =? Op.i64_shl) || (op =? Op.i64_shr_s) || (op =? Op.i64_shr_u)
  || (op =? Op.i64_rotl) || (op =? Op.i64_rotr).

(** A property of all byte values, checked value by value. *)
Lemma forall_bytes (P : Z -> bool) :
  forallb P (map Z.of_nat (seq 0 256)) = true ->
  forall op, 0 <= op < 256 -> P op = true.
Proof.
  intros H op Hop. rewrite forallb_forall in H. apply H.
  apply in_map_iff. exists (Z.to_nat op). split; [lia|].
  apply in_seq. lia.
Qed.

Lemma And63_ops (op : Z) :
  0 <= op < 256 ->
  hasFlag (metaTable op) MetaFlag.And63 = isShiftOrRotate64 op.
Proof.
  intros Hop.
  apply (forall_bytes (fun op => Bool.eqb (hasFlag (metaTable op) MetaFlag.And63)
                                         (isShiftOrRotate64 op))) in Hop.
  - apply Bool.eqb_prop in Hop. exact Hop.
  - vm_compute. reflexivity.
Qed.

Lemma shiftOrRotate64_flags (op : Z) :
  isShiftOrRotate64 op = true ->
  metaTable op = flags [2; MetaFlag.Push; MetaFlag.Simple; MetaFlag.And63].
Proof.
  unfold isShiftOrRotate64. rewrite !orb_true_iff, !Z.eqb_eq.
  intros [[[[->| ->]| ->]| ->]| ->]; reflexivity.
Qed.

(** Running the node-building primitives. *)
Lemma pushWord_run (v : Z) (s : State) :
  inStore (astNextPtr s) = true ->
  pushWord v s = Ok (tt, set_ast (upd (ast s) (astNextPtr s) (toInt32 v))
                                  (set_astNextPtr (astNextPtr s + 1) s)).
Proof.
  intros H. unfold pushWord, bind, gets, modify, astSet.
  cbn [astNextPtr set_astNextPtr ast]. fold (inStore (astNextPtr s)). rewrite H. reflexivity.
Qed.

Lemma inStore_range (p : Z) : inStore p = true <-> 0 <= p < astCapacity.
Proof. unfold inStore. rewrite andb_true_iff, Z.leb_le, Z.ltb_lt. tauto. Qed.

Lemma upd_same (a : AstStore) (p v : Z) : upd a p v p = v.
Proof. unfold upd. rewrite Z.eqb_refl. reflexivity. Qed.

Lemma upd_other (a : AstStore) (p v q : Z) : q <> p -> upd a p v q = a q.
Proof. intros H. unfold upd. apply Z.eqb_neq in H. rewrite H. reflexivity. Qed.

Lemma bind_assoc {A B C : Type} (c : M A) (k : A -> M B) (k' : B -> M C) (s : State) :
  bind (bind c k) k' s = bind c (fun a => bind (k a) k') s.
Proof. unfold bind. destruct (c s) as [[a s']|e]; reflexivity. Qed.

(** Projections out of updated states. *)
Tactic Notation "norm_state" :=
  cbv beta iota delta
      [ast astPtrs astNextPtr constants stackLimit decls blocks stackTop bytesPtr
       nextLabel body set_ast set_astPtrs set_astNextPtr set_constants set_stackLimit
       set_decls set_blocks set_stackTop set_bytesPtr set_nextLabel set_body].
Tactic Notation "norm_state" "in" hyp(H) :=
  cbv beta iota delta
      [ast astPtrs astNextPtr constants stackLimit decls blocks stackTop bytesPtr
       nextLabel body set_ast set_astPtrs set_astNextPtr set_constants set_stackLimit
       set_decls set_blocks set_stackTop set_bytesPtr set_nextLabel set_body] in H.

(** One step of a monadic run whose first command is known. *)
Ltac run_pushWord :=
  rewrite ?bind_assoc;
  eapply eq_trans;
  [ apply bind_step; apply pushWord_run; apply inStore_range; norm_state; lia
  | cbv beta; norm_state ].

Ltac run_pure :=
  rewrite ?bind_assoc;
  eapply eq_trans; [ apply bind_step; reflexivity | cbv beta; norm_state ].

Ltac run :=
  repeat (rewrite ?bind_assoc;
          lazymatch goal with
          | |- bind (pushWord _) _ _ = _ => run_pushWord
          | |- bind (gets _) _ _ = _ => run_pure
          | |- bind (modify _) _ _ = _ => run_pure
          | |- bind (ret _) _ _ = _ => run_pure
          end).

Section And63.

Variable wasm : WASM.

(** The state after [decodeSimple] on a 64-bit shift or rotate. *)
Definition afterShift64 (op : Z) (s : State) : State :=
  let p := astNextPtr s in
  let top := stackTop s in
  let a1 := upd (ast s) p (toInt32 (js_or Op.i64_const (js_shl (top + 1) Pack.OutSlotShift))) in
  let a2 := upd a1 (p + 1) (toInt32 (Z.of_nat (List.length (constants s)))) in
  let a3 := upd a2 (p + 2) (toInt32 (header Op.i64_and 2 top)) in
  let a4 := upd a3 (p + 3) (toInt32 (- top)) in
  let a5 := upd a4 (p + 4) (toInt32 (- (top + 1))) in
  let a6 := upd a5 (p + 5) (toInt32 (js_or (js_or op (js_shl (top - 2 + 1) Pack.OutSlotShift))
                                           (js_shl 2 Pack.ChildCountShift))) in
  let a7 := upd a6 (p + 6) (toInt32 (- (top - 2 + 1))) in
  let a8 := upd a7 (p + 7) (toInt32 (- (top - 2 + 2))) in
  mkState a8 (astPtrs s ++ [Some p; Some (p + 2); Some (p + 5)]) (p + 8)
          (constants s ++ [63]) (stackLimit s) (decls s) (blocks s)
          (top - 2 + 1) (bytesPtr s) (nextLabel s) (body s).

Lemma decodeSimple_shift64 (op : Z) (s : State) :
  isShiftOrRotate64 op = true ->
  0 <= astNextPtr s -> astNextPtr s + 8 <= astCapacity ->
  decodeSimple wasm op (metaTable op) s = Ok (tt, afterShift64 op s).
Proof.
  intros Hop H0 H8. rewrite (shiftOrRotate64_flags op Hop).
  destruct s as [a ptrs next cs lim ds bs top bp nl bd]. norm_state in H0. norm_state in H8.
  unfold decodeSimple, pushPtr.
  change (hasFlag (flags [2; MetaFlag.Push; MetaFlag.Simple; MetaFlag.And63]) MetaFlag.And63)
    with true.
  change (hasFlag (flags [2; MetaFlag.Push; MetaFlag.Simple; MetaFlag.And63])
                  (Z.lor MetaFlag.ToU32 MetaFlag.ToS64)) with false.
  change (hasFlag (flags [2; MetaFlag.Push; MetaFlag.Simple; MetaFlag.And63]) MetaFlag.Omit)
    with false.
  change (hasFlag (flags [2; MetaFlag.Push; MetaFlag.Simple; MetaFlag.And63]) MetaFlag.HasAlign)
    with false.
  change (hasFlag (flags [2; MetaFlag.Push; MetaFlag.Simple; MetaFlag.And63]) MetaFlag.HasIndex)
    with false.
  change (hasFlag (flags [2; MetaFlag.Push; MetaFlag.Simple; MetaFlag.And63]) MetaFlag.Push)
    with true.
  change (hasFlag (flags [2; MetaFlag.Push; MetaFlag.Simple; MetaFlag.And63]) MetaFlag.BoolToInt)
    with false.
  change (js_and (flags [2; MetaFlag.Push; MetaFlag.Simple; MetaFlag.And63]) MetaFlag.PopMask)
    with 2.
  change (Z.to_nat 2) with 2%nat.
  cbv iota. cbn [negb forRange].
  run.
  unfold ret, afterShift64. norm_state.
  rewrite <- !app_assoc. cbn [app].
  rewrite <- !Z.add_assoc. cbn [Z.add Pos.add Pos.succ].
  reflexivity.
Qed.

End And63.

(** *** What the emitted text of [rotl64] computes *)

(** The two-argument helpers of library.ts that the emitted text can
    call.  Their source is not part of this development: a helper is
    any function of its two arguments. *)
Record Library := mkLibrary {
  i64_rotl_ : Z -> Z -> Z;
  i64_rotr_ : Z -> Z -> Z
}.

Definition helperOf (lib : Library) (f : string) : option (Z -> Z -> Z) :=
  if String.eqb f "l.i64_rotl_" then Some (i64_rotl_ lib)
  else if String.eqb f "l.i64_rotr_" then Some (i64_rotr_ lib)
  else None.

(** The JavaScript expressions that the text of [rotl64] is made of: a
    variable, a BigInt literal, an expression in parentheses, the
    bitwise AND of two BigInts and the call of a helper with two
    arguments. *)
Inductive JsExpr :=
| JsVar (name : string)
| JsBigInt (n : Z)
| JsParen (e : JsExpr)
| JsAnd (a b : JsExpr)
| JsCall (f : string) (a b : JsExpr).

(** The text of an expression. *)
Fixpoint printJs (e : JsExpr) : string :=
  match e with
  | JsVar name => name
  | JsBigInt n => showZ n +++ "n"
  | JsParen e => "(" +++ printJs e +++ ")"
  | JsAnd a b => printJs a +++ "&" +++ printJs b
  | JsCall f a b => f +++ "(" +++ printJs a +++ "," +++ printJs b +++ ")"
  end.

(** The value of an expression in JavaScript, the variables holding
    BigInts: [&] on BigInts is the AND of the two's complements. *)
Fixpoint evalJs (lib : Library) (vars : list (string * Z)) (e : JsExpr) : option Z :=
  match e with
  | JsVar name =>
    option_map snd (find (fun x => String.eqb (fst x) name) vars)
  | JsBigInt n => Some n
  | JsParen e => evalJs lib vars e
  | JsAnd a b =>
    match evalJs lib vars a, evalJs lib vars b with
    | Some x, Some y => Some (Z.land x y)
    | _, _ => None
    end
  | JsCall f a b =>
    match helperOf lib f, evalJs lib vars a, evalJs lib vars b with
    | Some h, Some x, Some y => Some (h x y)
    | _, _, _ => None
    end
  end.

(** [rotl64(x: i64, k: i64) -> i64] is [local.get 0; local.get 1;
    i64.rotl; end]. *)
Definition rotl64 : WASM :=
  oneFunction ([I64; I64], [I64]) [] [0x20; 0x00; 0x20; 0x01; 0x89; 0x0B].

Lemma rotl64_text :
  textOf (compileCode plainEnv [] rotl64 0 0 100 freshStore)
  = Ok ("return{" +++ dquote +++ "wasm:function[0]" +++ dquote
        +++ "(a0,a1){var L,T,s1;b0:{s1=l.i64_rotl_((a0),((a1)&(63n)));return s1;}}}["
        +++ dquote +++ "wasm:function[0]" +++ dquote +++ "]").
Proof. vm_compute. reflexivity. Qed.

(** C5.  The five 64-bit shift and rotate opcodes, and no other opcode,
    carry the [And63] flag.  In a live block the decoder answers each of
    them with three nodes: the constant 63 in the slot above the stack,
    an [i64_and] of the second operand with it, written back to the
    second operand's slot, and then the operation itself.  The text
    that [compileCode] produces for [rotl64] is a function of [a0] and
    [a1] whose body assigns one expression to [s1] and returns [s1];
    the expression hands [a0] and [a1 & 63n] to the rotate helper.  So
    whatever the helper and [x] are, [k = 68] and [k = 4] give the same
    result, that of rotating by 4. *)
Theorem shift_count_is_masked_with_63 :
  (forall op, 0 <= op < 256 ->
     hasFlag (metaTable op) MetaFlag.And63 = true <->
     op = Op.i64_shl \/ op = Op.i64_shr_s \/ op = Op.i64_shr_u
     \/ op = Op.i64_rotl \/ op = Op.i64_rotr)
  /\ (forall env wasm funcTypes names fuel s op current,
        lookupZ (bytes_ wasm) (bytesPtr s) = Some op ->
        isShiftOrRotate64 op = true ->
        topOf (blocks s) = Some current -> isDead_ current = false ->
        0 <= astNextPtr s -> astNextPtr s + 8 <= astCapacity ->
        step env wasm funcTypes names fuel s
        = Ok (tt, afterShift64 op (set_bytesPtr (bytesPtr s + 1) s)))
  /\ (exists e,
        textOf (compileCode plainEnv [] rotl64 0 0 100 freshStore)
        = Ok ("return{" +++ dquote +++ "wasm:function[0]" +++ dquote
              +++ "(a0,a1){var L,T,s1;b0:{s1=" +++ printJs e +++ ";return s1;}}}["
              +++ dquote +++ "wasm:function[0]" +++ dquote +++ "]")
        /\ forall lib x,
             evalJs lib [("a0", x); ("a1", 68)] e = Some (i64_rotl_ lib x 4)
             /\ evalJs lib [("a0", x); ("a1", 4)] e = Some (i64_rotl_ lib x 4)).
Proof.
  split; [|split].
  - intros op Hop. rewrite (And63_ops op Hop). unfold isShiftOrRotate64.
    rewrite !orb_true_iff, !Z.eqb_eq. tauto.
  - intros env wasm funcTypes names fuel s op current Hop Hshift Htop Hlive H0 H8.
    rewrite (step_simple env wasm funcTypes names fuel s op Hop)
      by (rewrite (shiftOrRotate64_flags op Hshift); reflexivity).
    unfold bind at 1. unfold topIsDead, topBlock, bind at 1.
    cbn [blocks set_bytesPtr]. rewrite Htop. unfold ret at 1. rewrite Hlive.
    apply decodeSimple_shift64; assumption.
  - exists (JsCall "l.i64_rotl_" (JsParen (JsVar "a0"))
                   (JsParen (JsAnd (JsParen (JsVar "a1")) (JsParen (JsBigInt 63))))).
    split; [vm_compute; reflexivity|].
    intros lib x. split; reflexivity.
Qed.

(** ** What the decoder leaves alone *)

Section DecoderFrames.

Variable env : Env.
Variable wasm : WASM.
Variable funcTypes : list FuncType.
Variable names : list string.
Variable fuel : nat.

Context {X : Type} (f : State -> X).

(** [f] is a view of the block stack and of the label counter at most. *)
Hypothesis f_ast : forall v s, f (set_ast v s) = f s.
Hypothesis f_astPtrs : forall v s, f (set_astPtrs v s) = f s.
Hypothesis f_astNextPtr : forall v s, f (set_astNextPtr v s) = f s.
Hypothesis f_constants : forall v s, f (set_constants v s) = f s.
Hypothesis f_slots : forall l d s, f (set_decls d (set_stackLimit l s)) = f s.
Hypothesis f_body : forall v s, f (set_body v s) = f s.
Hypothesis f_stackTop : forall v s, f (set_stackTop v s) = f s.
Hypothesis f_bytesPtr : forall v s, f (set_bytesPtr v s) = f s.

Ltac frame :=
  intros;
  rewrite ?f_ast, ?f_astPtrs, ?f_astNextPtr, ?f_constants, ?f_slots, ?f_body,
    ?f_stackTop, ?f_bytesPtr;
  reflexivity.

Ltac frames_step :=
  match goal with
  | |- keeps _ (bind _ _) => apply keeps_bind; [| intros]
  | |- keeps _ (ret _) => apply keeps_ret
  | |- keeps _ (throw _) => apply keeps_throw
  | |- keeps _ (gets _) => apply keeps_gets
  | |- keeps _ (modify _) => apply keeps_modify; frame
  | |- keeps _ (if ?b then _ else _) => destruct b
  | |- keeps _ (match ?x with _ => _ end) => destruct x
  | |- keeps _ _ => solve [auto with keeps]
  end.

Ltac frames := repeat frames_step.

Lemma keeps_skipBytes n : keeps f (skipBytes n).
Proof. unfold skipBytes. frames. Qed.

Lemma keeps_d_emitBody t : keeps f (emitBody t).
Proof. unfold emitBody. frames. Qed.

Lemma keeps_d_astSet p v : keeps f (astSet p v).
Proof. apply keeps_astSet. exact f_ast. Qed.

Lemma keeps_readLEB acc : keeps f (readLEB wasm acc).
Proof.
  intros s a s' H. unfold readLEB in H.
  destruct (lebLoop acc (bytesFrom wasm (bytesPtr s)) 0 0 0) as [[[v sh] b] c].
  inversion H. apply f_bytesPtr.
Qed.

Hint Resolve keeps_skipBytes keeps_d_emitBody keeps_d_astSet keeps_readLEB : keeps.

Lemma keeps_readU32LEB : keeps f (readU32LEB wasm).
Proof. unfold readU32LEB. frames. Qed.

Lemma keeps_readI32LEB : keeps f (readI32LEB wasm).
Proof. unfold readI32LEB. frames. Qed.

Lemma keeps_readI64LEB : keeps f (readI64LEB wasm).
Proof. unfold readI64LEB. frames. Qed.

Lemma keeps_readByteOrZero : keeps f (readByteOrZero wasm).
Proof. intros s a s' H. unfold readByteOrZero in H. inversion H. apply f_bytesPtr. Qed.

Lemma keeps_typeAt i : keeps f (typeAt wasm i).
Proof. unfold typeAt. frames. Qed.

Lemma keeps_topBlock : keeps f topBlock.
Proof.
  intros s a s' H. unfold topBlock in H.
  destruct (topOf (blocks s)); inversion H. reflexivity.
Qed.

Hint Resolve keeps_readU32LEB keeps_readI32LEB keeps_readI64LEB keeps_readByteOrZero
     keeps_typeAt keeps_topBlock : keeps.

Lemma keeps_topIsDead : keeps f topIsDead.
Proof. unfold topIsDead. frames. Qed.

Lemma keeps_readBlockType : keeps f (readBlockType wasm).
Proof. unfold readBlockType. frames. Qed.

Lemma keeps_pushWord v : keeps f (pushWord v).
Proof. unfold pushWord. frames. Qed.

Lemma keeps_pushPtr : keeps f pushPtr.
Proof. unfold pushPtr. frames. Qed.

Hint Resolve keeps_topIsDead keeps_readBlockType keeps_pushWord keeps_pushPtr : keeps.

Lemma keeps_forRange from n (g : Z -> M unit) :
  (forall k, keeps f (g k)) -> keeps f (forRange from n g).
Proof.
  intros Hg. revert from. induction n as [|n IH]; intros from; cbn [forRange]; frames.
Qed.

Lemma keeps_pushUnary op slot : keeps f (pushUnary op slot).
Proof. unfold pushUnary. frames. Qed.

Hint Resolve keeps_pushUnary : keeps.

Lemma keeps_decodeSimple op fl : keeps f (decodeSimple wasm op fl).
Proof.
  unfold decodeSimple. frames; apply keeps_forRange; intros; frames.
Qed.

Lemma keeps_skipSimple fl : keeps f (skipSimple wasm fl).
Proof. unfold skipSimple. frames. Qed.

Lemma keeps_pushConst op payload : keeps f payload -> keeps f (pushConst op payload).
Proof. intros Hp. unfold pushConst. frames. Qed.

Lemma keeps_pushCall op argCount returnCount funcPtr index :
  keeps f (pushCall op argCount returnCount funcPtr index).
Proof. unfold pushCall. frames; apply keeps_forRange; intros; frames. Qed.

Lemma keeps_pushTernary op c1 c2 c3 : keeps f (pushTernary op c1 c2 c3).
Proof. unfold pushTernary. frames. Qed.

Hint Resolve keeps_decodeSimple keeps_skipSimple keeps_pushCall keeps_pushTernary : keeps.

Lemma keeps_decodeFC : keeps f (decodeFC wasm).
Proof. unfold decodeFC. frames. Qed.

Lemma keeps_copySlots parent top count : keeps f (copySlots parent top count).
Proof. unfold copySlots. apply keeps_forRange. intros. frames. Qed.

Hint Resolve keeps_decodeFC keeps_copySlots : keeps.

Lemma keeps_jump index : keeps f (jump index).
Proof. unfold jump. frames. Qed.

Hint Resolve keeps_jump : keeps.

Lemma keeps_jumpRelative : keeps f (jumpRelative wasm).
Proof. unfold jumpRelative. frames. Qed.

Lemma keeps_d_finalizeBasicBlock pop :
  keeps f (finalizeBasicBlock env wasm funcTypes names fuel pop).
Proof.
  apply keeps_finalizeBasicBlock.
  - repeat split; intros ? ?; auto.
  - intros ? ? ?; auto.
  - intros ? ?; auto.
  - intros ? ?; auto.
Qed.

Hint Resolve keeps_jumpRelative keeps_d_finalizeBasicBlock : keeps.

Lemma keeps_finalizeTest : keeps f (finalizeTest env wasm funcTypes names fuel).
Proof. unfold finalizeTest. frames. Qed.

End DecoderFrames.

Create HintDb decoder.
#[export] Hint Resolve keeps_skipBytes keeps_d_emitBody keeps_readU32LEB keeps_readI32LEB
  keeps_readI64LEB keeps_readByteOrZero keeps_typeAt keeps_topBlock keeps_topIsDead
  keeps_readBlockType keeps_pushWord keeps_pushPtr keeps_pushUnary keeps_decodeSimple
  keeps_skipSimple keeps_pushConst keeps_pushCall keeps_pushTernary keeps_decodeFC
  keeps_copySlots keeps_jump keeps_jumpRelative keeps_d_finalizeBasicBlock
  keeps_finalizeTest keeps_gets keeps_ret keeps_throw : decoder.
#[export] Hint Extern 1 (_ = _) => reflexivity : decoder.

(** [pres P c]: a successful run of [c] preserves the invariant [P]. *)
Definition pres {A : Type} (P : State -> Prop) (c : M A) : Prop :=
  forall s a s', c s = Ok (a, s') -> P s -> P s'.

Lemma pres_bind {A B : Type} (P : State -> Prop) (c : M A) (k : A -> M B) :
  pres P c -> (forall a, pres P (k a)) -> pres P (bind c k).
Proof.
  intros Hc Hk s b s' H HP. apply bind_Ok in H. destruct H as (a & s1 & H1 & H2).
  eapply Hk; eauto.
Qed.

Lemma pres_of_keeps {A X : Type} (f : State -> X) (Q : X -> Prop) (c : M A) :
  keeps f c -> pres (fun s => Q (f s)) c.
Proof. intros Hc s a s' H HP. cbv beta. rewrite (Hc _ _ _ H). exact HP. Qed.

(** Take apart a run of commands that cannot fail. *)
Ltac pure_inv H :=
  unfold emitBody, modifyTop, pushPtr, skipBytes in H;
  lazymatch type of H with
  | bind _ _ _ = Ok _ =>
    let a := fresh "a" in
    let s := fresh "s" in
    let H1 := fresh "H" in
    apply bind_Ok in H; destruct H as (a & s & H1 & H); pure_inv H1; pure_inv H
  | ret _ _ = Ok _ => inv_ret H
  | gets _ _ = Ok _ => inv_ret H
  | modify _ _ = Ok _ => inv_ret H
  | _ => idtac
  end.

(** ** The block depth limit *)

(** The break labels of the frames, outermost first, and the label counter. *)
Definition labelsOf (s : State) : list Z * Z :=
  (map labelBreak_ (blocks s), nextLabel s).

(** Frames below the depth limit use a native label, written -1; the
    frames from the limit on carry a case label of the dispatch loop,
    which is at least 2 and below the counter. *)
Definition labelsOk (l : list Z * Z) : Prop :=
  forall i lb, nth_error (fst l) i = Some lb ->
    ((i < 256)%nat -> lb = -1) /\ ((256 <= i)%nat -> 2 <= lb < snd l).

Definition depthInvariant (s : State) : Prop := labelsOk (labelsOf s).

Lemma String_append_empty (t : string) : t +++ "" = t.
Proof. induction t as [|c t IH]; cbn; [reflexivity | rewrite IH; reflexivity]. Qed.

Lemma map_updTop {A : Type} (g : Block -> Block) (h : Block -> A) (l : list Block) :
  (forall b, h (g b) = h b) -> map h (updTop g l) = map h l.
Proof.
  intros Hg. induction l as [|b [|b' rest] IH]; cbn [updTop map]; [reflexivity| |].
  - rewrite Hg. reflexivity.
  - f_equal. exact IH.
Qed.

Lemma keeps_labels_modifyTop (g : Block -> Block) :
  (forall b, labelBreak_ (g b) = labelBreak_ b) -> keeps labelsOf (modifyTop g).
Proof.
  intros Hg. unfold modifyTop. apply keeps_modify. intros s. unfold labelsOf.
  cbn [blocks nextLabel set_blocks]. rewrite (map_updTop g labelBreak_ _ Hg). reflexivity.
Qed.

Lemma nth_error_map_removelast {A B : Type} (h : A -> B) (l : list A) (i : nat) (x : B) :
  nth_error (map h (removelast l)) i = Some x -> nth_error (map h l) i = Some x.
Proof.
  revert i. induction l as [|a [|b rest] IH]; intros i H.
  - destruct i; discriminate.
  - destruct i; discriminate.
  - destruct i as [|i]; [exact H|]. cbn [nth_error map]. apply IH. exact H.
Qed.

Section DepthLimit.

Variable env : Env.
Variable wasm : WASM.
Variable funcTypes : list FuncType.
Variable names : list string.
Variable fuel : nat.

Local Abbreviation stepHere := (step env wasm funcTypes names fuel).

(** The states that decoding passes through, instruction by instruction. *)
Inductive reaches : State -> State -> Prop :=
| reaches_here (s : State) : reaches s s
| reaches_next (s s1 s2 : State) :
    stepHere s = Ok (tt, s1) -> reaches s1 s2 -> reaches s s2.

Lemma readBlockType_state (s s' : State) (r : Z * Z) :
  readBlockType wasm s = Ok (r, s') -> s' = set_bytesPtr (bytesPtr s') s.
Proof.
  unfold readBlockType. intros H.
  inv_bind H as p s1 H1. inv_ret H1.
  destruct (_ =? 0x40).
  { inv_bind H as u s2 H2. unfold skipBytes in H2. inv_ret H2. inv_ret H.
    destruct s; reflexivity. }
  destruct (negb _).
  { inv_bind H as u s2 H2. unfold skipBytes in H2. inv_ret H2. inv_ret H.
    destruct s; reflexivity. }
  inv_bind H as typeIndex s2 H2. rewrite readU32LEB_run in H2.
  injection H2 as Hi Hs. subst s2.
  inv_bind H as x s3 H3. unfold typeAt in H3.
  destruct (lookupZ _ _) as [t|]; [|discriminate]. inv_ret H3.
  destruct t as [argTypes returnTypes]. inv_ret H. destruct s; reflexivity.
Qed.

(** What [pushBlock] does to the body, to the block stack and to the
    label counter, by the depth at which the block is pushed. *)
Lemma pushBlock_run (kind : BlockKind) (s s' : State) (label : Z) :
  pushBlock wasm kind s = Ok (label, s') ->
  let depth := Z.of_nat (List.length (blocks s)) in
  let labeled := negb (BlockKind_eqb kind Normal) in
  exists argCount returnCount labelBreak,
    blocks s' = blocks s ++ [mkBlock argCount false kind labelBreak label
                                     (stackTop s - argCount) returnCount]
    /\ (depth < blockDepthLimit ->
        body s' = body s +++ "b" +++ showZ depth +++ ":"
        /\ labelBreak = -1 /\ label = -1 /\ nextLabel s' = nextLabel s)
    /\ (depth = blockDepthLimit ->
        body s' = body s +++ "L=1;b" +++ showZ depth +++ ":for(;;){switch(L){case 1:"
        /\ labelBreak = 2 /\ label = (if labeled then 3 else 0)
        /\ nextLabel s' = (if labeled then 4 else 3))
    /\ (depth > blockDepthLimit ->
        body s' = body s
        /\ labelBreak = nextLabel s
        /\ label = (if labeled then nextLabel s + 1 else 0)
        /\ nextLabel s' = nextLabel s + (if labeled then 2 else 1)).
Proof.
  intros H. cbv zeta. unfold pushBlock in H.
  inv_bind H as depth s1 H1. inv_ret H1.
  assert (Hcases :
    (Z.of_nat (List.length (blocks s)) <? blockDepthLimit) = true
    /\ Z.of_nat (List.length (blocks s)) < blockDepthLimit
    \/ (Z.of_nat (List.length (blocks s)) <? blockDepthLimit) = false
       /\ (Z.of_nat (List.length (blocks s)) =? blockDepthLimit) = true
       /\ Z.of_nat (List.length (blocks s)) = blockDepthLimit
    \/ (Z.of_nat (List.length (blocks s)) <? blockDepthLimit) = false
       /\ (Z.of_nat (List.length (blocks s)) =? blockDepthLimit) = false
       /\ Z.of_nat (List.length (blocks s)) > blockDepthLimit).
  { destruct (Z.ltb_spec (Z.of_nat (List.length (blocks s))) blockDepthLimit);
      [left; split; [reflexivity|assumption]|].
    destruct (Z.eqb_spec (Z.of_nat (List.length (blocks s))) blockDepthLimit);
      [right; left; repeat split; assumption | right; right; repeat split; lia]. }
  destruct Hcases as [(Eb & Hd)|[(Eb & Ee & Hd)|(Eb & Ee & Hd)]];
    rewrite Eb in H; try rewrite Ee in H;
    destruct (negb (BlockKind_eqb kind Normal)) eqn:Ek;
    pure_inv H;
    match goal with
    | Hr : readBlockType _ _ = Ok (?x, ?s5) |- _ =>
      pose proof (readBlockType_state _ _ _ Hr) as E; destruct x as [argCount returnCount];
      clear Hr; generalize dependent s5; intros s5 Hrest E; pure_inv Hrest; rewrite E
    end;
    destruct s as [a ptrs next cs lim ds bs top bp nl bd]; norm_state; norm_state in Hd;
    eexists; eexists; eexists; (split; [reflexivity|]);
    repeat split; try reflexivity; intros; try lia;
    try (rewrite String_append_empty; reflexivity).
Qed.

Lemma pres_pushBlock (kind : BlockKind) : pres depthInvariant (pushBlock wasm kind).
Proof.
  intros s label s' H Hinv.
  destruct (pushBlock_run kind s s' label H) as (ac & rc & lb & Hb & Hlt & Heq & Hgt).
  unfold depthInvariant, labelsOk, labelsOf in *. cbn [fst snd] in *.
  rewrite Hb, map_app. cbn [map labelBreak_].
  intros i l Hi.
  assert (Hlen : List.length (map labelBreak_ (blocks s)) = List.length (blocks s))
    by apply length_map.
  destruct (Nat.lt_ge_cases i (List.length (blocks s))) as [Hin|Hout].
  - rewrite nth_error_app1 in Hi by lia.
    destruct (Hinv i l Hi) as [H1 H2]. split; [exact H1|].
    intros Hge. specialize (H2 Hge).
    assert (Z.of_nat (List.length (blocks s)) > blockDepthLimit)
      by (unfold blockDepthLimit; lia).
    destruct (Hgt H0) as (_ & _ & _ & Hn). rewrite Hn.
    destruct (negb _); lia.
  - rewrite nth_error_app2 in Hi by lia. rewrite Hlen in Hi.
    destruct (i - List.length (blocks s))%nat as [|k] eqn:Ek;
      [|destruct k; discriminate].
    cbn [nth_error] in Hi. injection Hi as <-.
    assert (i = List.length (blocks s)) by lia. subst i.
    split; intros Hi.
    + apply Hlt. unfold blockDepthLimit. lia.
    + destruct (Nat.eq_dec (List.length (blocks s)) 256) as [E|E].
      * assert (Hd : Z.of_nat (List.length (blocks s)) = blockDepthLimit)
          by (unfold blockDepthLimit; lia).
        destruct (Heq Hd) as (_ & -> & _ & ->). destruct (negb _); lia.
      * assert (Hd : Z.of_nat (List.length (blocks s)) > blockDepthLimit)
          by (unfold blockDepthLimit; lia).
        destruct (Hgt Hd) as (_ & -> & _ & ->).
        destruct (nth_error (map labelBreak_ (blocks s)) 256) as [l256|] eqn:E256.
        -- destruct (Hinv _ _ E256) as [_ H2]. specialize (H2 (le_n _)).
           destruct (negb _); lia.
        -- apply nth_error_None in E256. lia.
Qed.

Lemma pres_pop :
  pres depthInvariant (modify (fun s => set_blocks (removelast (blocks s)) s)).
Proof.
  intros s u s' H Hinv. inv_ret H.
  unfold depthInvariant, labelsOk, labelsOf in *. cbn [fst snd blocks nextLabel set_blocks] in *.
  intros i l Hi. apply Hinv. apply nth_error_map_removelast. exact Hi.
Qed.

Lemma pres_labels_modifyTop (g : Block -> Block) :
  (forall b, labelBreak_ (g b) = labelBreak_ b) -> pres depthInvariant (modifyTop g).
Proof.
  intros Hg. apply (pres_of_keeps labelsOf labelsOk). apply keeps_labels_modifyTop. exact Hg.
Qed.

Ltac keeps_solve :=
  repeat first
    [ solve [auto with decoder]
    | apply keeps_modify; intros; reflexivity
    | apply keeps_forRange; intros
    | apply keeps_pushConst; try (intros; reflexivity)
    | apply keeps_bind; [| intros] ].

Ltac pres_leaf := apply (pres_of_keeps labelsOf labelsOk); keeps_solve.

Ltac pres_step :=
  match goal with
  | |- pres _ (bind _ _) => apply pres_bind; [| intros]
  | |- pres _ (if ?b then _ else _) => destruct b
  | |- pres _ (match ?x with _ => _ end) => destruct x
  | |- pres _ (pushBlock _ _) => apply pres_pushBlock
  | |- pres _ (modifyTop _) => apply pres_labels_modifyTop; intros []; reflexivity
  | |- pres _ (modify (fun s => set_blocks (removelast _) _)) => apply pres_pop
  | |- pres _ _ => pres_leaf
  end.

Lemma pres_decodeSpecial (op : Z) :
  pres depthInvariant (decodeSpecial env wasm funcTypes names fuel op).
Proof. unfold decodeSpecial. repeat pres_step. Qed.

Lemma pres_stepHere : pres depthInvariant stepHere.
Proof.
  unfold step.
  apply pres_bind; [pres_leaf|]. intros p.
  apply pres_bind; [pres_leaf|]. intros _.
  destruct (lookupZ (bytes_ wasm) p) as [op|]; [|pres_leaf].
  cbv zeta. destruct (hasFlag (metaTable op) MetaFlag.Simple).
  - repeat pres_step.
  - apply pres_decodeSpecial.
Qed.

(** The invariant holds in every state that decoding passes through. *)
Lemma depthInvariant_reaches (s0 s : State) :
  reaches s0 s -> depthInvariant s0 -> depthInvariant s.
Proof.
  induction 1 as [s|s s1 s2 Hstep Hrest IH]; intros Hinv; [exact Hinv|].
  apply IH. exact (pres_stepHere _ _ _ Hstep Hinv).
Qed.

Lemma decode_reaches (n : nat) (codeEnd : Z) (s s' : State) :
  decode env wasm funcTypes names fuel n codeEnd s = Ok (tt, s') -> reaches s s'.
Proof.
  revert s. induction n as [|n IH]; intros s H; cbn [decode] in H.
  - inv_bind H as p s1 H1. inv_ret H1.
    destruct (bytesPtr s <? codeEnd); [discriminate|]. inv_ret H. constructor.
  - inv_bind H as p s1 H1. inv_ret H1.
    destruct (bytesPtr s <? codeEnd); [|inv_ret H; constructor].
    inv_bind H as u s2 H2. destruct u.
    apply reaches_next with (s1 := s2); [exact H2 | apply IH; exact H].
Qed.

Lemma depthInvariant_initial (store : AstStore) (decls : list string) (returnCount codeStart : Z) :
  depthInvariant (initialState store decls returnCount codeStart).
Proof.
  intros i lb H. cbn in H. destruct i as [|[|i]]; [|discriminate|discriminate].
  injection H as <-. split; [reflexivity | lia].
Qed.

(** A live jump to a frame below the depth limit, other than the
    function's own frame, ends in a labeled [continue] for a loop and
    in a labeled [break] otherwise. *)
Lemma jump_labeled (index : Z) (s s' : State) (current target : Block) :
  topOf (blocks s) = Some current -> isDead_ current = false ->
  lookupZ (blocks s) index = Some target ->
  0 < index < blockDepthLimit ->
  jump index s = Ok (tt, s') ->
  exists prefix,
    body s' = prefix +++ (if BlockKind_eqb (kind_ target) Loop then "continue b" else "break b")
                     +++ showZ index +++ ";".
Proof.
  intros Htop Hlive Htarget Hidx H. unfold jump in H.
  inv_bind H as dead s1 H1. unfold topIsDead, topBlock, bind in H1.
  rewrite Htop in H1. inv_ret H1. rewrite Hlive in H.
  inv_bind H as bs s2 H2. inv_ret H2. inv_bind H as top s3 H3. inv_ret H3.
  rewrite Htarget in H.
  destruct (index =? 0) eqn:E0; [apply Z.eqb_eq in E0; lia|].
  assert (Elt : (index <? blockDepthLimit) = true) by (apply Z.ltb_lt; lia).
  assert (Ele : (index <=? blockDepthLimit) = true) by (apply Z.leb_le; lia).
  rewrite Elt, Ele in H.
  destruct (BlockKind_eqb (kind_ target) Loop);
    inv_bind H as u s4 H4; unfold emitBody in H; inv_ret H;
    exists (body s4); reflexivity.
Qed.

End DepthLimit.

(** C3.  Count the depth of nesting in frames of the block stack, the
    function's own frame included.  In every state that decoding goes
    through, the frames at indices below 256 are in nested-label form
    (break label -1) and the frames from index 256 on are in dispatch
    form (a case label of at least 2, below the counter).  Hence a
    function that nests 256 frames deep has every block in nested-label
    form, and at 257 frames exactly the innermost one is in dispatch form.
    A block pushed below the limit opens with its label [bN:]; the block
    pushed at depth 256 opens the dispatch loop and restarts the counter;
    deeper blocks emit no opener and take their labels from the counter,
    which only grows.  A live jump to a frame below the limit is a
    labeled [break] or [continue]. *)
Theorem block_depth_limit (env : Env) (wasm : WASM) (funcTypes : list FuncType)
        (names : list string) (fuel : nat) :
  (forall store decls returnCount codeStart s,
     reaches env wasm funcTypes names fuel
             (initialState store decls returnCount codeStart) s ->
     (forall i b, nth_error (blocks s) i = Some b ->
        ((i < 256)%nat -> labelBreak_ b = -1)
        /\ ((256 <= i)%nat -> 2 <= labelBreak_ b < nextLabel s))
     /\ ((List.length (blocks s) <= 256)%nat ->
         Forall (fun b => labelBreak_ b = -1) (blocks s))
     /\ (List.length (blocks s) = 257%nat ->
         exists outer inner,
           blocks s = outer ++ [inner]
           /\ Forall (fun b => labelBreak_ b = -1) outer
           /\ 2 <= labelBreak_ inner))
  /\ (forall kind s label s',
        pushBlock wasm kind s = Ok (label, s') ->
        let depth := Z.of_nat (List.length (blocks s)) in
        let labeled := negb (BlockKind_eqb kind Normal) in
        exists argCount returnCount labelBreak,
          blocks s' = blocks s ++ [mkBlock argCount false kind labelBreak label
                                           (stackTop s - argCount) returnCount]
          /\ (depth < blockDepthLimit ->
              body s' = body s +++ "b" +++ showZ depth +++ ":"
              /\ labelBreak = -1 /\ label = -1 /\ nextLabel s' = nextLabel s)
          /\ (depth = blockDepthLimit ->
              body s' = body s +++ "L=1;b" +++ showZ depth +++ ":for(;;){switch(L){case 1:"
              /\ labelBreak = 2 /\ label = (if labeled then 3 else 0)
              /\ nextLabel s' = (if labeled then 4 else 3))
          /\ (depth > blockDepthLimit ->
              body s' = body s
              /\ labelBreak = nextLabel s
              /\ label = (if labeled then nextLabel s + 1 else 0)
              /\ nextLabel s' = nextLabel s + (if labeled then 2 else 1)))
  /\ (forall index s s' current target,
        topOf (blocks s) = Some current -> isDead_ current = false ->
        lookupZ (blocks s) index = Some target ->
        0 < index < blockDepthLimit ->
        jump index s = Ok (tt, s') ->
        exists prefix,
          body s' = prefix
                    +++ (if BlockKind_eqb (kind_ target) Loop then "continue b" else "break b")
                    +++ showZ index +++ ";").
Proof.
  split; [|split].
  - intros store decls returnCount codeStart s Hreach.
    assert (Hinv : depthInvariant s).
    { eapply depthInvariant_reaches; [exact Hreach | apply depthInvariant_initial]. }
    assert (Hframes : forall i b, nth_error (blocks s) i = Some b ->
              ((i < 256)%nat -> labelBreak_ b = -1)
              /\ ((256 <= i)%nat -> 2 <= labelBreak_ b < nextLabel s)).
    { intros i b Hb. apply (Hinv i (labelBreak_ b)). unfold labelsOf. cbn [fst].
      apply map_nth_error. exact Hb. }
    split; [exact Hframes|]. split.
    + intros Hlen. apply Forall_forall. intros b Hb.
      apply In_nth_error in Hb. destruct Hb as [i Hi].
      apply (Hframes i b Hi).
      assert (i < List.length (blocks s))%nat by (apply nth_error_Some; rewrite Hi; discriminate).
      lia.
    + intros Hlen.
      destruct (exists_last (l := blocks s)) as (outer & inner & E);
        [intros E; rewrite E in Hlen; discriminate|].
      exists outer, inner. split; [exact E|].
      rewrite E in Hlen. rewrite length_app in Hlen. cbn [List.length] in Hlen.
      split.
      * apply Forall_forall. intros b Hb.
        apply In_nth_error in Hb. destruct Hb as [i Hi].
        assert (i < List.length outer)%nat by (apply nth_error_Some; rewrite Hi; discriminate).
        apply (Hframes i b); [|lia]. rewrite E. rewrite nth_error_app1 by lia. exact Hi.
      * assert (Hi : nth_error (blocks s) 256 = Some inner).
        { rewrite E. rewrite nth_error_app2 by lia.
          replace (256 - List.length outer)%nat with 0%nat by lia. reflexivity. }
        apply (Hframes 256%nat inner Hi). lia.
  - intros kind s label s' H. exact (pushBlock_run wasm kind s s' label H).
  - intros index s s' current target. apply jump_labeled.
Qed.

(** ** Instructions in a dead block *)

Section DeadCode.

Variable env : Env.
Variable wasm : WASM.
Variable funcTypes : list FuncType.
Variable names : list string.
Variable fuel : nat.

Local Abbreviation stepHere := (step env wasm funcTypes names fuel).
Let finalize := finalizeBasicBlock env wasm funcTypes names fuel.

(** *** The extent of an instruction in the bytecode *)

(** The end of the LEB128 number that starts at [p]. *)
Definition lebEnd (p : Z) : Z := snd (u32At wasm p).

Fixpoint lebEnds (n : nat) (p : Z) : Z :=
  match n with
  | O => p
  | S n' => lebEnds n' (lebEnd p)
  end.




(** *** The immediates in the binary format *)

(** A block type is the byte 0x40, the byte of a value type, or a type
    index written as a signed LEB128 number of 33 bits.  Each of the
    three ends with the first byte whose bit 7 is clear. *)
Definition blockTypeEnd (p : Z) : Z := lebEnd p.

Definition opensBlock (op : Z) : bool :=
  (op =? Op.block) || (op =? Op.loop) || (op =? Op.if_).

(** The end of the immediates of the instruction with opcode [op],
    where [q] is the position after the opcode: by the flags of the
    metadata table for the opcodes it describes, and by the binary
    format for the others. *)
Definition immediatesEnd (op q : Z) : Z :=
  let fl := metaTable op in
  if hasFlag fl MetaFlag.Simple then
    let q1 := if hasFlag fl MetaFlag.HasAlign then q + 1 else q in
    if hasFlag fl MetaFlag.HasIndex then lebEnd q1 else q1
  else if opensBlock op then blockTypeEnd q
  else if (op =? Op.br) || (op =? Op.br_if) || (op =? Op.call)
          || (op =? Op.i32_const) || (op =? Op.i64_const) then lebEnd q
  else if op =? Op.br_table then lebEnds (S (Z.to_nat (fst (u32At wasm q)))) (lebEnd q)
  else if op =? Op.call_indirect then lebEnd (lebEnd q)
  else if op =? Op.f32_const then q + 4
  else if op =? Op.f64_const then q + 8
  else if op =? 0xFC then
    let sub := byteOrZero wasm q in
    if sub =? Op.memory_copy then q + 3
    else if sub =? Op.memory_fill then q + 2
    else q + 1
  else q.

(** The block types that [readBlockType] takes for a value type
    although they are type indices: the first byte has bit 6 set, which
    is all that [readBlockType] looks at, and bit 7 as well, so the
    number goes on.  These are the type indices 64 to 127 modulo 128;
    index 64 is written C0 00. *)
Definition misreadsBlockType (q : Z) : bool :=
  let byte := byteOrZero wasm q in
  negb (js_and byte 0x80 =? 0) && negb (js_and byte 0x40 =? 0).

Lemma skipn_nth_error {A : Type} (l : list A) :
  forall n, skipn n l = match nth_error l n with
                        | Some x => x :: skipn (S n) l
                        | None => []
                        end.
Proof.
  induction l as [|x l IH]; intros [|n]; cbn [skipn nth_error]; try reflexivity.
  rewrite IH. destruct l; reflexivity.
Qed.

Lemma bytesFrom_head (p : Z) :
  0 <= p ->
  bytesFrom wasm p = match lookupZ (bytes_ wasm) p with
                     | Some b => b :: bytesFrom wasm (p + 1)
                     | None => []
                     end.
Proof.
  intros Hp. unfold bytesFrom, lookupZ. destruct (Z.ltb_spec p 0); [lia|].
  rewrite skipn_nth_error. replace (Z.to_nat (p + 1)) with (S (Z.to_nat p)) by lia.
  reflexivity.
Qed.








(** *** Running in a dead block *)










































(** *** A dead block has no pending node *)












End DeadCode.

(** The function [br 0; br_if 0; end]: [br_if] is decoded in a dead
    block, with [stackTop] at 0 before it and at -1 after it. *)
Definition deadBrIf : WASM := oneFunction ([], []) [] [0x0C; 0x00; 0x0D; 0x00; 0x0B].


(** The function [br 0; block (type 64); end; end]: the type index 64
    is written C0 00.  The dead [block] at offset 2 is left at offset
    4, before the second byte of the number, which is decoded next as
    the opcode of [unreachable]. *)
Definition deadBlock64 : WASM :=
  oneFunction ([], []) [] [0x0C; 0x00; 0x02; 0xC0; 0x00; 0x0B; 0x0B].

Lemma dead_block_type_is_misread :
  exists s1 s2,
    decode plainEnv deadBlock64 [] [] 100 1 2 (initialState freshStore ["L"; "T"] 0 0)
    = Ok (tt, s1)
    /\ lookupZ (bytes_ deadBlock64) (bytesPtr s1) = Some Op.block
    /\ step plainEnv deadBlock64 [] [] 100 s1 = Ok (tt, s2)
    /\ bytesPtr s2 = 4
    /\ immediatesEnd deadBlock64 Op.block (bytesPtr s1 + 1) = 5
    /\ lookupZ (bytes_ deadBlock64) (bytesPtr s2) = Some Op.unreachable.
Proof.
  eexists. eexists.
  split; [vm_compute; reflexivity|].
  split; [reflexivity|].
  split; [vm_compute; reflexivity|].
  split; [reflexivity|].
  split; vm_compute; reflexivity.
Qed.

(** ** The properties at concrete functions *)

(** [n] copies of [l], one after the other. *)
Definition rep {A : Type} (n : nat) (l : list A) : list A := List.concat (repeat l n).

(** The state in which decoding the first [n] instructions of the only
    function of [w] ends ([codeEnd] is the offset after them). *)
Definition decoded (w : WASM) (names : list string) (returnCount : Z) (n : nat) (codeEnd : Z)
  : State :=
  let s0 := initialState freshStore ["L"; "T"] returnCount 0 in
  match decode plainEnv w [] names 100 n codeEnd s0 with
  | Ok (_, s) => s
  | Err _ => s0
  end.

(** [local.get 0; local.get 1; i32.add; i32.load]: the address of the
    load is a sum.  When the block is finalized the sum is the nearest
    node in the list below the load, so nothing is inlined into the
    load, and the text computes the sum in a statement of its own. *)
Definition loadSum : WASM :=
  oneFunction ([I32; I32], [I32]) []
              [0x20; 0x00; 0x20; 0x01; 0x6A; 0x28; 0x02; 0x00; 0x0B].

Definition beforeLoadEnd : State := decoded loadSum ["a0"; "a1"] 1 4 8.

Lemma loadSum_text :
  astPtrs beforeLoadEnd = [Some 0; Some 2; Some 4; Some 7]
  /\ nodeOp (ast beforeLoadEnd 7) = Op.i32_load
  /\ nodeOp (ast beforeLoadEnd 4) = Op.i32_add
  /\ textOf (compileCode plainEnv [] loadSum 0 0 100 freshStore)
     = Ok ("return{" +++ dquote +++ "wasm:function[0]" +++ dquote
           +++ "(a0,a1){var L,T,s1;b0:{s1=(a0)+(a1)|0;s1=c.dv.getInt32(s1,1);return s1;}}}["
           +++ dquote +++ "wasm:function[0]" +++ dquote +++ "]").
Proof. repeat split; vm_compute; reflexivity. Qed.

Lemma typed_array_parent_witness :
  exists r s',
    optimizeChildrenAndSelf plainEnv 100 7 2 beforeLoadEnd = Ok (r, s')
    /\ astPtrs s' = astPtrs beforeLoadEnd /\ snd r = 2
    /\ optimizeNode plainEnv (ast beforeLoadEnd) (constants beforeLoadEnd)
                    (astNextPtr beforeLoadEnd) 7
       = (ast s', constants s', astNextPtr s', fst r).
Proof.
  destruct (optimizeChildrenAndSelf plainEnv 100 7 2 beforeLoadEnd) as [[r s']|e] eqn:Hrun;
    [|vm_compute in Hrun; discriminate].
  exists r, s'. split; [reflexivity|].
  refine (proj2 (proj2 (typed_array_parent_inlines_only_trivial plainEnv 99 7))
                2 beforeLoadEnd r s' 2%nat 4 _ _ _ _ _ _ Hrun).
  - reflexivity.
  - reflexivity.
  - lia.
  - intros j Hj Hle. lia.
  - reflexivity.
  - unfold trivialProducer. vm_compute. intros [H | [H | H]]; discriminate.
Defined.

(** [n] blocks, each inside the one before, and their [end]s. *)
Definition nestedBlocks (n : nat) : WASM :=
  oneFunction ([], []) [] (rep n [0x02; 0x40] ++ rep n [0x0B] ++ [0x0B]).

(** Inside the 256th block of [nestedBlocks 256]: 257 frames. *)
Definition inside256 : State := decoded (nestedBlocks 256) [] 0 256 512.

Lemma block_depth_limit_witness :
  List.length (blocks inside256) = 257%nat
  /\ exists outer inner,
       blocks inside256 = outer ++ [inner]
       /\ Forall (fun b => labelBreak_ b = -1) outer
       /\ 2 <= labelBreak_ inner.
Proof.
  assert (Hlen : List.length (blocks inside256) = 257%nat) by (vm_compute; reflexivity).
  assert (Hrun : decode plainEnv (nestedBlocks 256) [] [] 100 256 512
                        (initialState freshStore ["L"; "T"] 0 0) = Ok (tt, inside256))
    by (vm_compute; reflexivity).
  split; [exact Hlen|].
  exact (proj2 (proj2 (proj1 (block_depth_limit plainEnv (nestedBlocks 256) [] [] 100)
                         freshStore ["L"; "T"] 0 0 inside256
                         (decode_reaches _ _ _ _ _ _ _ _ _ Hrun))) Hlen).
Defined.



(** [rotl64] after its two [local.get]: the rotate is next. *)
Definition beforeRotl : State := decoded rotl64 ["a0"; "a1"] 1 2 4.

Lemma shift_count_witness :
  lookupZ (bytes_ rotl64) (bytesPtr beforeRotl) = Some Op.i64_rotl
  /\ step plainEnv rotl64 [] ["a0"; "a1"] 100 beforeRotl
     = Ok (tt, afterShift64 Op.i64_rotl (set_bytesPtr (bytesPtr beforeRotl + 1) beforeRotl)).
Proof.
  assert (Hop : lookupZ (bytes_ rotl64) (bytesPtr beforeRotl) = Some Op.i64_rotl)
    by reflexivity.
  split; [exact Hop|].
  refine (proj1 (proj2 shift_count_is_masked_with_63)
                plainEnv rotl64 [] ["a0"; "a1"] 100%nat beforeRotl Op.i64_rotl
                (mkBlock 0 false Normal (-1) (-1) 0 1) Hop _ _ _ _ _).
  - reflexivity.
  - reflexivity.
  - reflexivity.
  - vm_compute. discriminate.
  - vm_compute. discriminate.
Defined.

(** The end of a function with two results and two values on the stack. *)
Definition twoResults : State := set_stackTop 2 (initialState freshStore ["L"; "T"] 2 0).

Lemma jump_to_block_0_witness :
  jump 0 twoResults = Ok (tt, set_body (body twoResults +++ "return[s1,s2];") twoResults).
Proof.
  exact (proj1 (jump_to_block_0_returns plainEnv rotl64 [] [] 100 twoResults
                  (mkBlock 0 false Normal (-1) (-1) 0 2) (mkBlock 0 false Normal (-1) (-1) 0 2)
                  eq_refl eq_refl)).
Defined.

(** The function [unreachable; return; end] with one result: the
    [return] and the [end] of the outermost block are decoded in a dead
    block, and the text has no return statement. *)
Definition deadReturn : WASM := oneFunction ([], [I32]) [] [0x00; 0x0F; 0x0B].

Lemma dead_jump_emits_no_return :
  textOf (compileCode plainEnv [] deadReturn 0 0 100 freshStore)
  = Ok ("return{" +++ dquote +++ "wasm:function[0]" +++ dquote
        +++ "(){var L,T;b0:{" +++ dquote +++ "unreachable" +++ dquote +++ "();}}}["
        +++ dquote +++ "wasm:function[0]" +++ dquote +++ "]").
Proof. vm_compute. reflexivity. Qed.

(** A basic block of one node: [i32.const 0] at the start of a function. *)
Definition oneConst : WASM := oneFunction ([], []) [] [0x41; 0x00; 0x1A; 0x0B].

Definition afterConst : State := decoded oneConst [] 0 1 2.

Lemma finalizeBasicBlock_resets_witness :
  astPtrs afterConst = [Some 0]
  /\ exists r s',
       finalizeBasicBlock plainEnv oneConst [] [] 100 false afterConst = Ok (r, s')
       /\ astNextPtr s' = 0 /\ astPtrs s' = [] /\ constants s' = [].
Proof.
  split; [reflexivity|].
  destruct (finalizeBasicBlock plainEnv oneConst [] [] 100 false afterConst)
    as [[r s']|e] eqn:Hrun; [|vm_compute in Hrun; discriminate].
  exists r, s'. split; [reflexivity|].
  exact (finalizeBasicBlock_resets plainEnv oneConst [] [] 100 false afterConst s' r Hrun).
Defined.


(** [call_indirect] with type index 0 and table index 1. *)
Definition callTable1 : WASM := oneFunction ([], []) [] [0x11; 0x00; 0x01; 0x0B].

Lemma unsupported_indices_witness :
  lookupZ (bytes_ callTable1) 0 = Some Op.call_indirect
  /\ step plainEnv callTable1 [([], [])] [] 100 (initialState freshStore ["L"; "T"] 0 0)
     = Err (UnsupportedTableIndex 1).
Proof.
  assert (Hop : lookupZ (bytes_ callTable1) 0 = Some Op.call_indirect) by reflexivity.
  split; [exact Hop|].
  refine (proj1 (unsupported_indices plainEnv callTable1 [([], [])] [] 100
                   (initialState freshStore ["L"; "T"] 0 0)) Hop _).
  vm_compute. discriminate.
Defined.



(** The dispatch loop in the compiled text: absent with 255 nested
    blocks (256 frames with the function's own), opened once with 256. *)
Fixpoint occurrences (pattern text : string) : nat :=
  match text with
  | EmptyString => 0
  | String _ rest =>
    (if String.prefix pattern text then 1 else 0) + occurrences pattern rest
  end.

Definition dispatchLoops (r : Res (string * AstStore)) : option nat :=
  match r with
  | Ok (text, _) => Some (occurrences "switch(L)" text)
  | Err _ => None
  end.

Example nested_255_blocks_are_labeled :
  dispatchLoops (compileCode plainEnv [] (nestedBlocks 255) 0 0 100 freshStore) = Some 0%nat.
Proof. vm_compute. reflexivity. Qed.

Example nested_256_blocks_open_one_dispatch_loop :
  dispatchLoops (compileCode plainEnv [] (nestedBlocks 256) 0 0 100 freshStore) = Some 1%nat.
Proof. vm_compute. reflexivity. Qed.

(** ** The limit on the depth of the stack *)

(** The greatest value that [stackTop] takes while the decoding loop
    runs: the most stack slots that are live at once. *)
Fixpoint highWater (env : Env) (wasm : WASM) (funcTypes : list FuncType) (names : list string)
         (fuel n : nat) (codeEnd : Z) (s : State) (top : Z) : Res Z :=
  match n with
  | O => Ok top
  | S n' =>
    if bytesPtr s <? codeEnd then
      match step env wasm funcTypes names fuel s with
      | Err e => Err e
      | Ok (_, s') =>
        highWater env wasm funcTypes names fuel n' codeEnd s' (Z.max top (stackTop s'))
      end
    else Ok top
  end.

(** [highWater] for the only function of a module without arguments. *)
Definition liveSlots (w : WASM) : Res Z :=
  let codeEnd := Z.of_nat (List.length (bytes_ w)) in
  highWater plainEnv w [] [] 100 (Z.to_nat codeEnd) codeEnd
            (initialState freshStore ["L"; "T"] 0 0) 0.

(** [n] times [i32.const 0], then [n] times [drop]. *)
Definition constsThenDrops (n : nat) : WASM :=
  oneFunction ([], []) [] (rep n [0x41; 0x00] ++ rep n [0x1A] ++ [0x0B]).

(** [i32.const 7], 256 times [i32.const 9], 256 times [drop]: the
    function returns the 7 in slot 1, under 256 other slots. *)
Definition deepSeven : WASM :=
  oneFunction ([], [I32]) [] ([0x41; 0x07] ++ rep 256 [0x41; 0x09] ++ rep 256 [0x1A] ++ [0x0B]).

(** 256 times [i32.const 0], then [local.set 0]: slot 256 is read. *)
Definition deepLocalSet : WASM :=
  oneFunction ([], []) [(1, I32)] (rep 256 [0x41; 0x00] ++ [0x21; 0x00] ++ rep 255 [0x1A] ++ [0x0B]).

Definition compiles (w : WASM) : Res unit :=
  match compileCode plainEnv [] w 0 0 100 freshStore with
  | Ok _ => Ok tt
  | Err e => Err e
  end.

(** The statements that the compiled text has for its last basic block:
    what follows [from] in it. *)
Fixpoint after (from text : string) : option string :=
  match text with
  | EmptyString => None
  | String _ rest =>
    if String.prefix from text
    then Some (String.substring (String.length from) (String.length text) text)
    else after from rest
  end.

Definition tailOf (from : string) (r : Res (string * AstStore)) : option string :=
  match r with
  | Ok (text, _) => after from text
  | Err _ => None
  end.

(** C2.  The check [stackLimit > 255] at the end of [compileCode] sees
    the slots that were named, not the slots that were live.  With 255
    live slots the function compiles.  With 256 live slots it compiles
    too when slot 256 is only written: the node's slot is packed into 8
    bits, so the node is emitted as a bare expression and no name [s256]
    is made.  With 257 live slots, the node of slot 257 is emitted as an
    assignment to [s1], and the function returns the wrong value.  The
    error is raised only when a slot above 255 is named, as it is when
    an instruction reads slot 256. *)
Theorem deep_stack_check_counts_named_slots :
  (liveSlots (constsThenDrops 255) = Ok 255 /\ compiles (constsThenDrops 255) = Ok tt)
  /\ (liveSlots (constsThenDrops 256) = Ok 256 /\ compiles (constsThenDrops 256) = Ok tt)
  /\ (liveSlots deepSeven = Ok 257
      /\ tailOf "s254=9;"
                (compileCode plainEnv [] deepSeven 0 0 100 freshStore)
         = Some ("s255=9;9;s1=9;return s1;}}}[" +++ dquote +++ "wasm:function[0]" +++ dquote +++ "]"))
  /\ (liveSlots deepLocalSet = Ok 256 /\ compiles deepLocalSet = Err DeepStack).
Proof.
  split; [split; vm_compute; reflexivity|].
  split; [split; vm_compute; reflexivity|].
  split; [split; vm_compute; reflexivity|].
  split; vm_compute; reflexivity.
Qed.

(** ** Independence from what the shared AST store holds *)

(** The cells below [n] are the same in both stores. *)
Definition agree (n : Z) (a b : AstStore) : Prop := forall i, 0 <= i < n -> a i = b i.

Lemma agree_upd (n : Z) (a b : AstStore) (p v : Z) :
  agree n a b -> agree n (upd a p v) (upd b p v).
Proof. intros H i Hi. unfold upd. destruct (i =? p); [reflexivity | apply H; exact Hi]. Qed.

Lemma agree_push (n : Z) (a b : AstStore) (v : Z) :
  agree n a b -> agree (n + 1) (upd a n v) (upd b n v).
Proof.
  intros H i Hi. unfold upd. destruct (Z.eqb_spec i n); [reflexivity | apply H; lia].
Qed.

Lemma agree_le (n m : Z) (a b : AstStore) : m <= n -> agree n a b -> agree m a b.
Proof. intros Hle H i Hi. apply H. lia. Qed.

(** [reader a n c]: run where the store is [a] and the bump pointer
    [n], the computation [c] leaves both alone, and it does the same
    when the cells from [n] on hold anything else. *)
Definition reader {A : Type} (a : AstStore) (n : Z) (c : M A) : Prop :=
  forall s b, ast s = a -> astNextPtr s = n -> agree n a b ->
    match c s with
    | Ok (x, s') => ast s' = a /\ astNextPtr s' = n /\ c (set_ast b s) = Ok (x, set_ast b s')
    | Err e => c (set_ast b s) = Err e
    end.

Section Reader.

Variable a : AstStore.
Variable n : Z.

Lemma reader_ret {A : Type} (x : A) : reader a n (ret x).
Proof. intros s b Ha Hn Hag. cbn. auto. Qed.

Lemma reader_throw {A : Type} (e : Error) : reader a n (@throw A e).
Proof. intros s b Ha Hn Hag. reflexivity. Qed.

Lemma reader_bind {A B : Type} (c : M A) (k : A -> M B) :
  reader a n c -> (forall x, reader a n (k x)) -> reader a n (bind c k).
Proof.
  intros Hc Hk s b Ha Hn Hag. unfold bind. specialize (Hc s b Ha Hn Hag).
  destruct (c s) as [[x s']|e].
  - destruct Hc as (Ha' & Hn' & Hrun). rewrite Hrun. apply (Hk x s' b Ha' Hn' Hag).
  - rewrite Hc. reflexivity.
Qed.

Lemma reader_gets {A : Type} (f : State -> A) :
  (forall s b, f (set_ast b s) = f s) -> reader a n (gets f).
Proof. intros Hf s b Ha Hn Hag. unfold gets. rewrite Hf. auto. Qed.

Lemma reader_modify (g : State -> State) :
  (forall s b, g (set_ast b s) = set_ast b (g s)) ->
  (forall s, ast (g s) = ast s) -> (forall s, astNextPtr (g s) = astNextPtr s) ->
  reader a n (modify g).
Proof.
  intros Hg H1 H2 s b Ha Hn Hag. unfold modify. rewrite Hg, H1, H2. auto.
Qed.

Lemma reader_astGet (p : Z) : 0 <= p < n -> reader a n (astGet p).
Proof.
  intros Hp s b Ha Hn Hag. unfold astGet.
  change (ast (set_ast b s)) with b.
  destruct ((0 <=? p) && (p <? astCapacity)); [|reflexivity].
  rewrite Ha, (Hag p Hp). auto.
Qed.

(** A read whose value the rest depends on. *)
Lemma reader_astGet_bind {A : Type} (p : Z) (k : Z -> M A) :
  0 <= p < n -> reader a n (k (a p)) -> reader a n (bind (astGet p) k).
Proof.
  intros Hp Hk s b Ha Hn Hag. unfold bind, astGet.
  change (ast (set_ast b s)) with b.
  destruct ((0 <=? p) && (p <? astCapacity)); [|reflexivity].
  rewrite Ha, <- (Hag p Hp). apply (Hk s b Ha Hn Hag).
Qed.

Lemma reader_stackSlotName (k : Z) : reader a n (stackSlotName k).
Proof. intros s b Ha Hn Hag. unfold stackSlotName. cbn. auto. Qed.

Lemma reader_if {A : Type} (t : bool) (c1 c2 : M A) :
  reader a n c1 -> reader a n c2 -> reader a n (if t then c1 else c2).
Proof. destruct t; auto. Qed.

End Reader.

(** *** Nodes that stay inside the written part of the store *)

Section Layout.

Variable env : Env.
Variable wasm : WASM.
Variable funcTypes : list FuncType.
Variable names : list string.

(** What [emitUnwrapped] reads for one piece of a template of the node
    at [p], whose cells end before [e]: the cell is the node's own, and
    a child is a stack slot or a node of [N]. *)
Definition pieceOk (a : AstStore) (N : Z -> Prop) (e p : Z) (x : piece) : Prop :=
  match x with
  | Kid k => 1 <= k /\ p + k < e /\ (a (p + k) < 0 \/ N (a (p + k)))
  | Word k | Offset k | Name k => 1 <= k /\ p + k < e
  | _ => True
  end.

Definition kidsOk (a : AstStore) (N : Z -> Prop) (e p from count : Z) : Prop :=
  forall j, from <= j < from + count -> p + j < e /\ (a (p + j) < 0 \/ N (a (p + j))).

(** The same for the whole of [emitUnwrapped], case by case. *)
Definition emitOk (a : AstStore) (N : Z -> Prop) (e p : Z) : Prop :=
  let node := a p in
  let op := nodeOp node in
  let childCount := nodeChildCount node in
  if op =? Op.call then
    p + childCount + 1 < e
    /\ kidsOk a N e p 1 childCount
    /\ match lookupZ funcTypes (a (p + childCount + 1)) with
       | Some (_, returnTypes) =>
         (Z.of_nat (List.length returnTypes) <? 2) = false -> p + childCount + 2 < e
       | None => True
       end
  else if op =? Op.call_indirect then
    p + childCount + 2 < e
    /\ kidsOk a N e p 1 (childCount + 1)
    /\ match lookupZ (typeSection_ wasm) (a (p + childCount + 2)) with
       | Some (_, returnTypes) =>
         (Z.of_nat (List.length returnTypes) <? 2) = false -> p + childCount + 3 < e
       | None => True
       end
  else if op =? Op.memory_size then p + 1 < e
  else if op =? Op.memory_grow then p + 2 < e /\ kidsOk a N e p 1 1
  else if op =? Op.i32_const then p + 1 < e
  else if op =? Op.i64_const then p + 1 < e
  else if op =? Op.f32_const then p + 1 < e
  else if op =? Op.f64_const then p + 1 < e
  else
    match storeTemplate op with
    | Some (valueTemplate, storeText) =>
      Forall (pieceOk a N e p) valueTemplate /\ Forall (pieceOk a N e p) storeText
    | None =>
      match template op with
      | Some t => Forall (pieceOk a N e p) t
      | None => True
      end
    end.

(** A node at [p] whose cells end before [e]: the optimizer reads its
    header and its children, the emitter what [emitOk] says. *)
Definition okNode (a : AstStore) (N : Z -> Prop) (e p : Z) : Prop :=
  0 <= p < e /\ p < astCapacity
  /\ (forall j, 1 <= j <= nodeChildCount (a p) -> p + j < e)
  /\ emitOk a N e p.

(** The nodes of a basic block, each with the end of its cells: they lie
    below the bump pointer and do not overlap. *)
Definition Layout := list (Z * Z).

Definition isNode (L : Layout) (p : Z) : Prop := exists e, In (p, e) L.

Definition wfLayout (a : AstStore) (next : Z) (L : Layout) : Prop :=
  (forall p e, In (p, e) L -> e <= next /\ okNode a (isNode L) e p)
  /\ (forall p e p' e', In (p, e) L -> In (p', e') L ->
        (p, e) = (p', e') \/ e <= p' \/ e' <= p).

Section Emit.

Variable a : AstStore.
Variable next : Z.
Variable L : Layout.
Hypothesis wf : wfLayout a next L.

Lemma isNode_ok (p : Z) : isNode L p -> exists e, e <= next /\ okNode a (isNode L) e p.
Proof. intros [e He]. exists e. apply (proj1 wf). exact He. Qed.

Section Pieces.

Variable emit : Z -> M string.
Hypothesis reader_emit : forall w, w < 0 \/ isNode L w -> reader a next (emit w).

Lemma reader_emitPieces (e p : Z) (value : string) (ps : list piece) :
  0 <= p -> e <= next -> Forall (pieceOk a (isNode L) e p) ps ->
  reader a next (emitPieces env names emit p value ps).
Proof.
  intros Hp He Hps. induction Hps as [|x ps Hx Hps IH]; cbn [emitPieces].
  - apply reader_ret.
  - apply reader_bind; [|intros t; apply reader_bind; [exact IH | intros r; apply reader_ret]].
    destruct x; cbn [pieceOk] in Hx; try apply reader_ret.
    + destruct Hx as (Hk & Hlt & Hkid).
      apply reader_astGet_bind; [lia | apply reader_emit; exact Hkid].
    + apply reader_bind; [apply reader_astGet; lia | intros w; apply reader_ret].
    + apply reader_bind; [apply reader_astGet; lia | intros w; apply reader_ret].
    + apply reader_bind; [apply reader_astGet; lia | intros w; apply reader_ret].
Qed.

Lemma reader_emitKids (e p from : Z) (count : nat) :
  0 <= p -> 1 <= from -> e <= next ->
  kidsOk a (isNode L) e p from (Z.of_nat count) ->
  reader a next (emitKids emit (p + from) count).
Proof.
  intros Hp Hfrom He. revert from Hfrom.
  induction count as [|count IH]; intros from Hfrom Hkids; cbn [emitKids].
  - apply reader_ret.
  - destruct (Hkids from ltac:(lia)) as [Hlt Hkid].
    apply reader_astGet_bind; [lia|].
    apply reader_bind; [apply reader_emit; exact Hkid|].
    intros t. apply reader_bind; [|intros r; apply reader_ret].
    replace (p + from + 1) with (p + (from + 1)) by lia.
    apply IH; [lia|]. intros j Hj. apply Hkids. lia.
Qed.

End Pieces.

Lemma reader_slotNames (slot : Z) (count : nat) : reader a next (slotNames slot count).
Proof.
  revert slot. induction count as [|count IH]; intros slot; cbn [slotNames].
  - apply reader_ret.
  - apply reader_bind; [apply reader_stackSlotName|]. intros t.
    apply reader_bind; [apply IH | intros r; apply reader_ret].
Qed.

Lemma reader_callResult (code : string) (returnTypes : list ValType) (slotAt : Z) :
  ((Z.of_nat (List.length returnTypes) <? 2) = false -> 0 <= slotAt < next) ->
  reader a next (callResult code returnTypes slotAt).
Proof.
  intros H. unfold callResult.
  destruct (Z.of_nat (List.length returnTypes) <? 2); [apply reader_ret|].
  apply reader_bind; [apply reader_astGet; auto|]. intros slot.
  apply reader_bind; [apply reader_slotNames | intros r; apply reader_ret].
Qed.

Lemma nodeChildCount_range (node : Z) : 0 <= nodeChildCount node <= 65535.
Proof.
  unfold nodeChildCount, js_and, Pack.ChildCountMask.
  set (x := js_shr node Pack.ChildCountShift).
  assert (H : 0 <= Z.land x 65535 <= 65535).
  { split; [apply Z.land_nonneg; lia|].
    assert (H16 : Z.land x 65535 = x mod 2 ^ 16) by (apply (Z.land_ones x 16); lia).
    rewrite H16. change (2 ^ 16) with 65536.
    pose proof (Z.mod_pos_bound x 65536 ltac:(lia)). lia. }
  unfold toInt32.
  change (2 ^ 31) with 2147483648. change (2 ^ 32) with 4294967296.
  rewrite Z.mod_small by lia. lia.
Qed.

Lemma reader_emitUnwrapped (fuel : nat) (p : Z) :
  isNode L p -> reader a next (emitUnwrapped env wasm funcTypes names fuel p).
Proof.
  revert p. induction fuel as [|fuel IH]; intros p Hnode; cbn [emitUnwrapped].
  - apply reader_throw.
  - set (emit := fun w : Z =>
                   if w <? 0 then stackSlotName (- w)
                   else (t <- emitUnwrapped env wasm funcTypes names fuel w ;;
                         ret ("(" +++ t +++ ")"))).
    assert (Hemit : forall w, w < 0 \/ isNode L w -> reader a next (emit w)).
    { intros w Hw. unfold emit. destruct (Z.ltb_spec w 0) as [Hneg|Hpos].
      - apply reader_stackSlotName.
      - destruct Hw as [Hw|Hw]; [lia|].
        apply reader_bind; [apply IH; exact Hw | intros t; apply reader_ret]. }
    destruct (isNode_ok p Hnode) as (e & He & (Hp & Hcap & Hkids & Hok)).
    pose proof (nodeChildCount_range (a p)) as Hcc.
    apply reader_astGet_bind; [lia|]. cbv zeta.
    unfold emitOk in Hok. cbv zeta in Hok.
    destruct (nodeOp (a p) =? Op.call).
    { destruct Hok as (H1 & H2 & H3).
      apply reader_astGet_bind; [lia|].
      destruct (lookupZ funcTypes (a (p + nodeChildCount (a p) + 1))) as [[argTypes returnTypes]|];
        [|apply reader_throw].
      apply reader_bind.
      - apply (reader_emitKids emit Hemit e p 1); try lia.
        rewrite Z2Nat.id by lia. exact H2.
      - intros args. apply reader_callResult. intros Hr. specialize (H3 Hr). lia. }
    destruct (nodeOp (a p) =? Op.call_indirect).
    { destruct Hok as (H1 & H2 & H3).
      apply reader_astGet_bind; [lia|].
      destruct (lookupZ (typeSection_ wasm) (a (p + nodeChildCount (a p) + 2)))
        as [[argTypes returnTypes]|]; [|apply reader_throw].
      destruct (H2 1 ltac:(lia)) as [Hlt Hkid].
      apply reader_astGet_bind; [lia|].
      apply reader_bind; [apply Hemit; exact Hkid|]. intros func.
      apply reader_bind.
      - apply (reader_emitKids emit Hemit e p 2); try lia.
        rewrite Z2Nat.id by lia. intros j Hj. apply H2. lia.
      - intros args. apply reader_callResult. intros Hr. specialize (H3 Hr). lia. }
    destruct (nodeOp (a p) =? Op.memory_size).
    { apply reader_astGet_bind; [lia|].
      destruct (a (p + 1) =? 0); [apply reader_ret | apply reader_throw]. }
    destruct (nodeOp (a p) =? Op.memory_grow).
    { destruct Hok as (H1 & H2). destruct (H2 1 ltac:(lia)) as [Hlt Hkid].
      apply reader_astGet_bind; [lia|].
      destruct (a (p + 2) =? 0); [|apply reader_throw].
      apply reader_astGet_bind; [lia|].
      apply reader_bind; [apply Hemit; exact Hkid | intros t; apply reader_ret]. }
    destruct (nodeOp (a p) =? Op.i32_const).
    { apply reader_astGet_bind; [lia | apply reader_ret]. }
    destruct (nodeOp (a p) =? Op.i64_const).
    { apply reader_astGet_bind; [lia|].
      apply reader_bind; [apply reader_gets; reflexivity|]. intros cs.
      destruct (lookupZ cs (a (p + 1))); [apply reader_ret | apply reader_throw]. }
    destruct (nodeOp (a p) =? Op.f32_const).
    { apply reader_astGet_bind; [lia | apply reader_ret]. }
    destruct (nodeOp (a p) =? Op.f64_const).
    { apply reader_astGet_bind; [lia | apply reader_ret]. }
    destruct (storeTemplate (nodeOp (a p))) as [[valueTemplate storeText]|].
    { destruct Hok as [H1 H2].
      apply reader_bind; [apply (reader_emitPieces emit Hemit e); auto; lia|].
      intros value. apply (reader_emitPieces emit Hemit e); auto; lia. }
    destruct (template (nodeOp (a p))) as [t|]; [|apply reader_throw].
    apply (reader_emitPieces emit Hemit e); auto; lia.
Qed.

End Emit.

End Layout.

(** *** The two runs of a computation that writes to the store *)

(** [rel P c Q]: from a state with [P], [c] ends in a state with [Q],
    and it ends the same way, with the same result and with stores that
    agree below the bump pointer, when the store it starts from is
    replaced by one that agrees with it below the bump pointer. *)
Definition rel {A : Type} (P : State -> Prop) (c : M A) (Q : A -> State -> Prop) : Prop :=
  forall s b, P s -> agree (astNextPtr s) (ast s) b ->
    match c s with
    | Ok (x, s') =>
      Q x s' /\ exists b', c (set_ast b s) = Ok (x, set_ast b' s')
                           /\ agree (astNextPtr s') (ast s') b'
    | Err e => c (set_ast b s) = Err e
    end.

Lemma rel_bind {A B : Type} (P : State -> Prop) (Q : A -> State -> Prop)
      (R : B -> State -> Prop) (c : M A) (k : A -> M B) :
  rel P c Q -> (forall x, rel (Q x) (k x) R) -> rel P (bind c k) R.
Proof.
  intros Hc Hk s b HP Hag. unfold bind. specialize (Hc s b HP Hag).
  destruct (c s) as [[x s']|e].
  - destruct Hc as (HQ & b' & Hrun & Hag'). rewrite Hrun. apply (Hk x s' b' HQ Hag').
  - rewrite Hc. reflexivity.
Qed.

Lemma rel_conseq {A : Type} (P P' : State -> Prop) (Q Q' : A -> State -> Prop) (c : M A) :
  (forall s, P' s -> P s) -> (forall x s, Q x s -> Q' x s) -> rel P c Q -> rel P' c Q'.
Proof.
  intros HP HQ Hc s b HP' Hag. specialize (Hc s b (HP s HP') Hag).
  destruct (c s) as [[x s']|e]; [|exact Hc].
  destruct Hc as (Hq & Hrest). split; [apply HQ; exact Hq | exact Hrest].
Qed.

Lemma rel_ret {A : Type} (P : State -> Prop) (x : A) : rel P (ret x) (fun y s => y = x /\ P s).
Proof. intros s b HP Hag. cbn. split; [auto|]. exists b. auto. Qed.

Lemma rel_throw {A : Type} (P : State -> Prop) (Q : A -> State -> Prop) (e : Error) :
  rel P (throw e) Q.
Proof. intros s b HP Hag. reflexivity. Qed.

Lemma rel_gets {A : Type} (P : State -> Prop) (f : State -> A) :
  (forall s b, f (set_ast b s) = f s) -> rel P (gets f) (fun x s => x = f s /\ P s).
Proof. intros Hf s b HP Hag. unfold gets. rewrite Hf. split; [auto|]. exists b. auto. Qed.

Lemma rel_modify (P : State -> Prop) (g : State -> State) :
  (forall s b, g (set_ast b s) = set_ast b (g s)) ->
  (forall s, ast (g s) = ast s) -> (forall s, astNextPtr (g s) <= astNextPtr s) ->
  rel P (modify g) (fun _ s' => exists s, s' = g s /\ P s).
Proof.
  intros Hg H1 H2 s b HP Hag. unfold modify. split; [eauto|].
  exists b. rewrite Hg, H1. split; [reflexivity|].
  apply (agree_le (astNextPtr s)); [apply H2 | exact Hag].
Qed.

Lemma rel_astGet (P : State -> Prop) (p : Z) :
  (forall s, P s -> 0 <= p < astNextPtr s) ->
  rel P (astGet p) (fun x s => x = ast s p /\ P s).
Proof.
  intros Hp s b HP Hag. unfold astGet. change (ast (set_ast b s)) with b.
  destruct ((0 <=? p) && (p <? astCapacity)); [|reflexivity].
  split; [auto|]. exists b. rewrite (Hag p (Hp s HP)). auto.
Qed.

Lemma rel_astSet (P : State -> Prop) (p v : Z) :
  rel P (astSet p v)
      (fun _ s' => exists s, s' = set_ast (upd (ast s) p (toInt32 v)) s
                             /\ 0 <= p < astCapacity /\ P s).
Proof.
  intros s b HP Hag. unfold astSet. change (ast (set_ast b s)) with b.
  destruct ((0 <=? p) && (p <? astCapacity)) eqn:E; [|reflexivity].
  split.
  - exists s. split; [reflexivity|]. split; [lia | exact HP].
  - exists (upd b p (toInt32 v)). split; [reflexivity|]. apply agree_upd. exact Hag.
Qed.

Lemma rel_pushWord (P : State -> Prop) (v : Z) :
  rel P (pushWord v)
      (fun _ s' => exists s,
           s' = set_ast (upd (ast s) (astNextPtr s) (toInt32 v))
                        (set_astNextPtr (astNextPtr s + 1) s)
           /\ 0 <= astNextPtr s < astCapacity /\ P s).
Proof.
  intros s b HP Hag. unfold pushWord, bind, gets, modify, astSet.
  cbn [astNextPtr set_astNextPtr set_ast ast].
  destruct ((0 <=? astNextPtr s) && (astNextPtr s <? astCapacity)) eqn:E; [|reflexivity].
  split.
  - exists s. split; [reflexivity|]. split; [lia | exact HP].
  - exists (upd b (astNextPtr s) (toInt32 v)). split; [reflexivity|].
    cbn [astNextPtr set_astNextPtr set_ast ast]. apply agree_push. exact Hag.
Qed.

(** A computation that reads the store without writing to it. *)
Lemma rel_reader {A : Type} (a : AstStore) (n : Z) (P : State -> Prop) (c : M A) :
  reader a n c ->
  (forall s x s', P s -> c s = Ok (x, s') -> ast s' = ast s -> astNextPtr s' = astNextPtr s -> P s') ->
  rel (fun s => ast s = a /\ astNextPtr s = n /\ P s) c
      (fun _ s' => ast s' = a /\ astNextPtr s' = n /\ P s').
Proof.
  intros Hc HP s b (Ha & Hn & Hp) Hag.
  assert (Hag' : agree n a b) by (rewrite <- Ha, <- Hn; exact Hag).
  specialize (Hc s b Ha Hn Hag').
  destruct (c s) as [[x s']|e] eqn:E; [|exact Hc].
  destruct Hc as (Ha' & Hn' & Hrun).
  split.
  - split; [exact Ha'|]. split; [exact Hn'|].
    apply (HP s x s' Hp E); congruence.
  - exists b. split; [exact Hrun|]. rewrite Ha', Hn'. exact Hag'.
Qed.

Lemma rel_pin {A : Type} (P : State -> Prop) (c : M A) (Q : A -> State -> Prop) :
  (forall s0, rel (fun s => s = s0 /\ P s) c Q) -> rel P c Q.
Proof. intros H s b HP Hag. apply (H s s b); auto. Qed.

Lemma rel_false {A : Type} (P : State -> Prop) (c : M A) (Q : A -> State -> Prop) :
  (forall s, ~ P s) -> rel P c Q.
Proof. intros H s b HP. destruct (H s HP). Qed.

(** *** The list of top-level nodes *)

Lemma length_replaceNth {A : Type} (k : nat) (v : A) (l : list A) :
  List.length (replaceNth k v l) = List.length l.
Proof.
  revert k. induction l as [|x l IH]; intros k; [destruct k; reflexivity|].
  destruct k; cbn; [reflexivity | rewrite IH; reflexivity].
Qed.

Lemma nth_error_replaceNth {A : Type} (k j : nat) (v : A) (l : list A) :
  nth_error (replaceNth k v l) j
  = if Nat.eqb j k then (if Nat.ltb k (List.length l) then Some v else None)
    else nth_error l j.
Proof.
  revert k j. induction l as [|x l IH]; intros k j.
  - destruct k, j; cbn; try reflexivity. destruct (Nat.eqb j k); reflexivity.
  - destruct k, j; cbn [replaceNth nth_error Nat.eqb]; try reflexivity.
    rewrite IH. cbn [List.length]. destruct (Nat.eqb j k); [|reflexivity].
    change (S k <? S (List.length l))%nat with (k <? List.length l)%nat. reflexivity.
Qed.

(** The entry is among the first [i + 1]. *)
Definition inPrefix (ptrs : list (option Z)) (i p : Z) : Prop :=
  exists k : nat, Z.of_nat k <= i /\ nth_error ptrs k = Some (Some p).

(** Entries are only ever replaced by [null]. *)
Definition shrinks (ptrs ptrs' : list (option Z)) : Prop :=
  List.length ptrs' = List.length ptrs
  /\ forall k p, nth_error ptrs' k = Some (Some p) -> nth_error ptrs k = Some (Some p).

Definition distinctPrefix (ptrs : list (option Z)) (i : Z) : Prop :=
  forall k k' p, Z.of_nat k <= i -> Z.of_nat k' <= i ->
    nth_error ptrs k = Some (Some p) -> nth_error ptrs k' = Some (Some p) -> k = k'.

Lemma shrinks_refl ptrs : shrinks ptrs ptrs.
Proof. split; auto. Qed.

Lemma shrinks_trans p1 p2 p3 : shrinks p1 p2 -> shrinks p2 p3 -> shrinks p1 p3.
Proof. intros [H1 H2] [H3 H4]. split; [congruence | auto]. Qed.

Lemma shrinks_null (k : nat) ptrs : shrinks ptrs (replaceNth k None ptrs).
Proof.
  split; [apply length_replaceNth|]. intros j p. rewrite nth_error_replaceNth.
  destruct (Nat.eqb j k); [|auto]. destruct (Nat.ltb k (List.length ptrs)); discriminate.
Qed.

Lemma inPrefix_shrinks ptrs ptrs' i i' p :
  shrinks ptrs ptrs' -> i' <= i -> inPrefix ptrs' i' p -> inPrefix ptrs i p.
Proof. intros [_ H] Hi (k & Hk & Hn). exists k. split; [lia | auto]. Qed.

Lemma distinctPrefix_shrinks ptrs ptrs' i i' :
  shrinks ptrs ptrs' -> i' <= i -> distinctPrefix ptrs i -> distinctPrefix ptrs' i'.
Proof.
  intros [_ H] Hi Hd k k' p Hk Hk' Hn Hn'. apply (Hd k k' p); auto; lia.
Qed.

(** *** What the backward scan reads *)

Lemma scanProducer_agree (a b : AstStore) (next : Z) (ptrs : list (option Z))
      (u : bool) (slot : Z) (n : nat) (d : bool) :
  agree next a b ->
  (forall k p, (k < n)%nat -> nth_error ptrs k = Some (Some p) -> 0 <= p < next) ->
  scanProducer b ptrs u slot n d = scanProducer a ptrs u slot n d.
Proof.
  intros Hag. revert d. induction n as [|n IH]; intros d Hin; cbn [scanProducer]; [reflexivity|].
  destruct (nth_error ptrs n) as [[p|]|] eqn:E; [| |reflexivity].
  - rewrite <- (Hag p (Hin n p ltac:(lia) E)).
    rewrite !IH by (intros k q Hk; apply Hin; lia). reflexivity.
  - apply IH. intros k q Hk. apply Hin. lia.
Qed.

Lemma scanProducer_found (a : AstStore) (ptrs : list (option Z)) (u : bool) (slot : Z)
      (n : nat) (d : bool) (k p : Z) (d' : bool) :
  scanProducer a ptrs u slot n d = Ok (Found k p d') ->
  0 <= k < Z.of_nat n /\ nth_error ptrs (Z.to_nat k) = Some (Some p).
Proof.
  revert d. induction n as [|n IH]; intros d H; cbn [scanProducer] in H; [discriminate|].
  destruct (nth_error ptrs n) as [[q|]|] eqn:E; [| |discriminate].
  - destruct (inStore q); [|discriminate].
    destruct (_ && _) in H; [discriminate|].
    destruct (nodeOutSlot (a q) =? slot).
    + inversion H; subst. rewrite Nat2Z.id. split; [lia | exact E].
    + destruct (_ && _) in H; [discriminate|].
      destruct (IH _ H) as [H1 H2]. split; [lia | exact H2].
  - destruct (IH _ H) as [H1 H2]. split; [lia | exact H2].
Qed.

(** *** Writing a child into a node *)

Lemma toInt32_small (v : Z) : - 2 ^ 31 <= v < 2 ^ 31 -> toInt32 v = v.
Proof.
  intros H. unfold toInt32. change (2 ^ 31) with 2147483648 in *.
  change (2 ^ 32) with 4294967296. rewrite Z.mod_small by lia. lia.
Qed.

Lemma upd_eq (a : AstStore) (x v : Z) : upd a x v x = v.
Proof. unfold upd. rewrite Z.eqb_refl. reflexivity. Qed.

Lemma upd_neq (a : AstStore) (x v y : Z) : y <> x -> upd a x v y = a y.
Proof. intros H. unfold upd. destruct (Z.eqb_spec y x); [contradiction | reflexivity]. Qed.

Section LayoutUpdate.

Variable wasm : WASM.
Variable funcTypes : list FuncType.
Variable a : AstStore.
Variable N : Z -> Prop.
Variables x v : Z.
Hypothesis child : v < 0 \/ N v.

Lemma upd_child (y : Z) : a y < 0 \/ N (a y) -> upd a x v y < 0 \/ N (upd a x v y).
Proof.
  intros H. unfold upd. destruct (y =? x); [exact child | exact H].
Qed.

Lemma pieceOk_upd (e p : Z) (y : piece) :
  pieceOk a N e p y -> pieceOk (upd a x v) N e p y.
Proof.
  destruct y; cbn [pieceOk]; auto.
  intros (H1 & H2 & H3). split; [exact H1|]. split; [exact H2|]. apply upd_child. exact H3.
Qed.

Lemma kidsOk_upd (e p from count : Z) :
  kidsOk a N e p from count -> kidsOk (upd a x v) N e p from count.
Proof.
  intros H j Hj. destruct (H j Hj) as [H1 H2]. split; [exact H1 | apply upd_child; exact H2].
Qed.

Lemma okNode_upd (e p : Z) :
  okNode wasm funcTypes a N e p ->
  x <> p ->
  ((nodeOp (a p) =? Op.call) = true -> x <> p + nodeChildCount (a p) + 1) ->
  ((nodeOp (a p) =? Op.call_indirect) = true -> x <> p + nodeChildCount (a p) + 2) ->
  okNode wasm funcTypes (upd a x v) N e p.
Proof.
  intros (Hp & Hcap & Hkids & Hok) Hx Hcall Hind.
  unfold okNode. rewrite (upd_neq a x v p) by auto.
  split; [exact Hp|]. split; [exact Hcap|]. split; [exact Hkids|].
  unfold emitOk in *. cbv zeta in *. rewrite (upd_neq a x v p) by auto.
  destruct (nodeOp (a p) =? Op.call).
  { destruct Hok as (H1 & H2 & H3). split; [exact H1|]. split; [apply kidsOk_upd; exact H2|].
    rewrite upd_neq by (intros E; apply (Hcall eq_refl); symmetry; exact E). exact H3. }
  destruct (nodeOp (a p) =? Op.call_indirect).
  { destruct Hok as (H1 & H2 & H3). split; [exact H1|]. split; [apply kidsOk_upd; exact H2|].
    rewrite upd_neq by (intros E; apply (Hind eq_refl); symmetry; exact E). exact H3. }
  destruct (nodeOp (a p) =? Op.memory_size); [exact Hok|].
  destruct (nodeOp (a p) =? Op.memory_grow).
  { destruct Hok as (H1 & H2). split; [exact H1 | apply kidsOk_upd; exact H2]. }
  destruct (nodeOp (a p) =? Op.i32_const); [exact Hok|].
  destruct (nodeOp (a p) =? Op.i64_const); [exact Hok|].
  destruct (nodeOp (a p) =? Op.f32_const); [exact Hok|].
  destruct (nodeOp (a p) =? Op.f64_const); [exact Hok|].
  destruct (storeTemplate (nodeOp (a p))) as [[valueTemplate storeText]|].
  { destruct Hok as [H1 H2].
    split; (eapply Forall_impl; [intros y; apply pieceOk_upd | assumption]). }
  destruct (template (nodeOp (a p))); [|exact I].
  eapply Forall_impl; [intros y; apply pieceOk_upd | assumption].
Qed.

End LayoutUpdate.

(** The cells that decide how far the emitter reads lie inside the node. *)
Lemma okNode_payload (wasm : WASM) (funcTypes : list FuncType) (a : AstStore)
      (N : Z -> Prop) (e p : Z) :
  okNode wasm funcTypes a N e p ->
  ((nodeOp (a p) =? Op.call) = true -> p + nodeChildCount (a p) + 1 < e)
  /\ ((nodeOp (a p) =? Op.call_indirect) = true -> p + nodeChildCount (a p) + 2 < e).
Proof.
  intros (Hp & Hcap & Hkids & Hok). unfold emitOk in Hok. cbv zeta in Hok.
  destruct (Z.eqb_spec (nodeOp (a p)) Op.call) as [Ecall|_].
  { split; [intros _; apply Hok|]. rewrite Ecall. discriminate. }
  destruct (nodeOp (a p) =? Op.call_indirect).
  { split; [discriminate | intros _; apply Hok]. }
  split; discriminate.
Qed.

Lemma wfLayout_set_kid (wasm : WASM) (funcTypes : list FuncType) (a : AstStore)
      (next : Z) (L : Layout) (p e k v : Z) :
  wfLayout wasm funcTypes a next L -> In (p, e) L ->
  1 <= k <= nodeChildCount (a p) -> isNode L v ->
  wfLayout wasm funcTypes (upd a (p + k) (toInt32 v)) next L.
Proof.
  intros [Hok Hdis] Hin Hk Hv.
  assert (Hv' : toInt32 v = v).
  { destruct Hv as [ev Hev]. destruct (Hok v ev Hev) as [_ (Hr & Hcap & _)].
    apply toInt32_small. unfold astCapacity in Hcap. cbn in Hcap. lia. }
  rewrite Hv'.
  destruct (Hok p e Hin) as [He Hnode].
  assert (Hlt : p + k < e) by (apply Hnode; exact Hk).
  split; [|exact Hdis].
  intros q eq Hq. destruct (Hok q eq Hq) as [Heq Hqnode].
  split; [exact Heq|].
  pose proof (nodeChildCount_range (a q)) as Hcc.
  destruct (okNode_payload _ _ _ _ _ _ Hqnode) as [Hcall Hind].
  assert (Hrange : 0 <= q < eq) by apply Hqnode.
  apply okNode_upd; [right; exact Hv | exact Hqnode | | |].
  - destruct (Hdis p e q eq Hin Hq) as [Heq'|[Hd|Hd]]; [inversion Heq'; subst; lia | lia | lia].
  - intros Hop. specialize (Hcall Hop).
    destruct (Hdis p e q eq Hin Hq) as [Heq'|[Hd|Hd]]; [inversion Heq'; subst; lia | lia | lia].
  - intros Hop. specialize (Hind Hop).
    destruct (Hdis p e q eq Hin Hq) as [Heq'|[Hd|Hd]]; [inversion Heq'; subst; lia | lia | lia].
Qed.

Lemma rel_at {A : Type} (P : State -> Prop) (c : M A) (Q : A -> State -> Prop) :
  (forall s0, P s0 -> rel (fun s => s = s0) c Q) -> rel P c Q.
Proof. intros H s b HP Hag. apply (H s HP s b); auto. Qed.

(** The scan reads the store that [gets ast] returns; its result is all
    that the rest depends on. *)
Lemma rel_scan {A : Type} (P : State -> Prop) (Q : A -> State -> Prop)
      (u : bool) (slot : Z) (n : nat) (d : bool)
      (K : Res Scan -> list (option Z) -> M A) :
  (forall s, P s -> forall j p, (j < n)%nat ->
     nth_error (astPtrs s) j = Some (Some p) -> 0 <= p < astNextPtr s) ->
  (forall s0, P s0 ->
     rel (fun s => s = s0) (K (scanProducer (ast s0) (astPtrs s0) u slot n d) (astPtrs s0)) Q) ->
  rel P (a <- gets ast ;; ptrs <- gets astPtrs ;; K (scanProducer a ptrs u slot n d) ptrs) Q.
Proof.
  intros Hin HK s b HP Hag. unfold bind, gets. cbv beta iota.
  change (ast (set_ast b s)) with b. change (astPtrs (set_ast b s)) with (astPtrs s).
  rewrite (scanProducer_agree (ast s) b (astNextPtr s)) by (auto; apply Hin; exact HP).
  apply (HK s HP s b); auto.
Qed.

Section Optimizer.

Variable env : Env.
Variable wasm : WASM.
Variable funcTypes : list FuncType.

(** What is asked of [optimizeNode], whose source is not part of this
    development: it reads the store below the bump pointer only, it
    writes to the cells of the node it is given and to cells from the
    bump pointer on, and it leaves the nodes of the block well-formed. *)
Definition confined : Prop :=
  forall a b cs next ptr e L,
    wfLayout wasm funcTypes a next L -> In (ptr, e) L -> agree next a b ->
    exists a' b' cs' next' ptr' L',
      optimizeNode env a cs next ptr = (a', cs', next', ptr')
      /\ optimizeNode env b cs next ptr = (b', cs', next', ptr')
      /\ agree next' a' b' /\ next <= next'
      /\ incl L L' /\ wfLayout wasm funcTypes a' next' L' /\ isNode L' ptr'
      /\ (forall x, 0 <= x < next -> ~ (ptr <= x < e) -> a' x = a x).

Hypothesis optimizer_confined : confined.

(** The cells of the nodes that are neither the one being optimized nor
    candidates for inlining stay as they are. *)
Definition framed (L0 : Layout) (ptr : Z) (ptrs0 : list (option Z)) (i0 : Z)
           (a0 a' : AstStore) : Prop :=
  forall q eq, In (q, eq) L0 -> q <> ptr -> ~ inPrefix ptrs0 i0 q ->
    forall x, q <= x < eq -> a' x = a0 x.

Definition optPre (s0 : State) (L0 : Layout) (ptr i0 : Z) : Prop :=
  wfLayout wasm funcTypes (ast s0) (astNextPtr s0) L0 /\ isNode L0 ptr
  /\ (forall p, inPrefix (astPtrs s0) i0 p -> isNode L0 p)
  /\ ~ inPrefix (astPtrs s0) i0 ptr
  /\ distinctPrefix (astPtrs s0) i0.

Definition optPost (s0 : State) (L0 : Layout) (ptr i0 : Z) (r : Z * Z) (s' : State) : Prop :=
  exists L', incl L0 L' /\ wfLayout wasm funcTypes (ast s') (astNextPtr s') L'
    /\ isNode L' (fst r)
    /\ shrinks (astPtrs s0) (astPtrs s') /\ snd r <= i0
    /\ astNextPtr s0 <= astNextPtr s'
    /\ framed L0 ptr (astPtrs s0) i0 (ast s0) (ast s').

(** The state of the loop over the children of [ptr], whose header was
    [node] when the loop started from [s0]. *)
Definition childrenInv (s0 : State) (L0 : Layout) (ptr i0 node : Z) (i : Z) (s : State)
  : Prop :=
  exists L, incl L0 L /\ wfLayout wasm funcTypes (ast s) (astNextPtr s) L
    /\ ast s ptr = node
    /\ shrinks (astPtrs s0) (astPtrs s) /\ i <= i0
    /\ astNextPtr s0 <= astNextPtr s
    /\ framed L0 ptr (astPtrs s0) i0 (ast s0) (ast s).

Lemma rel_optimizeNode (s0 : State) (L : Layout) (ptr e i' : Z) :
  wfLayout wasm funcTypes (ast s0) (astNextPtr s0) L -> In (ptr, e) L ->
  rel (fun s => s = s0)
      (s <- gets (fun s => s) ;;
       let '(a, cs, next, ptr') :=
         optimizeNode env (ast s) (constants s) (astNextPtr s) ptr in
       modify (fun s => set_ast a (set_constants cs (set_astNextPtr next s))) ;;
       ret (ptr', i'))
      (fun r s' =>
         snd r = i' /\ astPtrs s' = astPtrs s0 /\ astNextPtr s0 <= astNextPtr s'
         /\ (forall x, 0 <= x < astNextPtr s0 -> ~ (ptr <= x < e) -> ast s' x = ast s0 x)
         /\ exists L', incl L L' /\ wfLayout wasm funcTypes (ast s') (astNextPtr s') L'
                       /\ isNode L' (fst r)).
Proof.
  intros Hwf Hin s b -> Hag.
  destruct (optimizer_confined (ast s0) b (constants s0) (astNextPtr s0) ptr e L Hwf Hin Hag)
    as (a' & b' & cs' & next' & ptr' & L' & Ea & Eb & Hag' & Hle & Hincl & Hwf' & Hnode & Hframe).
  unfold bind, gets, modify, ret.
  change (ast (set_ast b s0)) with b.
  change (constants (set_ast b s0)) with (constants s0).
  change (astNextPtr (set_ast b s0)) with (astNextPtr s0).
  rewrite Ea, Eb. cbn [fst snd ast astPtrs astNextPtr set_ast set_constants set_astNextPtr].
  split.
  - split; [reflexivity|]. split; [reflexivity|]. split; [exact Hle|]. split; [exact Hframe|].
    exists L'. auto.
  - exists b'. split; [reflexivity | exact Hag'].
Qed.

Lemma rel_optimizeChildrenAndSelf (budget : nat) :
  forall ptr i0 s0 L0,
    optPre s0 L0 ptr i0 ->
    rel (fun s => s = s0) (optimizeChildrenAndSelf env budget ptr i0) (optPost s0 L0 ptr i0).
Proof.
  induction budget as [|budget IH]; intros ptr i0 s0 L0 Hpre; cbn [optimizeChildrenAndSelf].
  - apply rel_throw.
  - destruct Hpre as (Hwf & [e He] & Hprefix & Hfresh & Hdistinct).
    destruct (proj1 Hwf ptr e He) as [Hle0 Hnode0].
    eapply rel_bind.
    { apply rel_astGet. intros s ->. destruct Hnode0 as (Hr & _). lia. }
    intros node. apply rel_at. intros s1 [-> ->]. cbv zeta.
    match goal with
    | |- rel _ (bind (?f _ _) _) _ => set (children := f)
    end.
    assert (Hloop : forall n i,
               Z.of_nat n <= nodeChildCount (ast s0 ptr) ->
               rel (childrenInv s0 L0 ptr i0 (ast s0 ptr) i) (children n i)
                   (fun i' s' => childrenInv s0 L0 ptr i0 (ast s0 ptr) i' s')).
    { induction n as [|j IHj]; intros i Hn.
      - eapply rel_conseq; [| |apply rel_ret]; [intros s H; exact H|].
        intros x s [-> H]. exact H.
      - unfold children at 1. cbn [optimizeChildren]. fold children.
        destruct (Z.ltb_spec i 0) as [Hneg|Hpos].
        { eapply rel_conseq; [| |apply rel_ret]; [intros s H; exact H|].
          intros x s [-> H]. exact H. }
        apply rel_at. intros s1 HI.
        pose proof HI as (L & Hincl & Hwf1 & Hhead & Hshr & Hi & Hnext & Hframe).
        assert (Hin1 : In (ptr, e) L) by (apply Hincl; exact He).
        destruct (proj1 Hwf1 ptr e Hin1) as [Hle1 Hnode1].
        assert (Hcell : ptr + Z.of_nat j + 1 < e).
        { destruct Hnode0 as (_ & _ & Hk & _).
          specialize (Hk (Z.of_nat j + 1) ltac:(lia)). lia. }
        assert (Hptr : 0 <= ptr) by (destruct Hnode0 as (Hr & _); lia).
        assert (Hdistinct1 : distinctPrefix (astPtrs s1) i)
          by (apply (distinctPrefix_shrinks _ _ _ _ Hshr Hi Hdistinct)).
        eapply rel_bind.
        { apply rel_astGet. intros s ->. lia. }
        intros w. apply rel_at. intros s [-> ->].
        apply (rel_scan _ _ (usesTypedArraysOf (nodeOp (ast s0 ptr)))
                 (- ast s1 (ptr + Z.of_nat j + 1)) (Z.to_nat (i + 1)) false
                 (fun r ptrs =>
                    match r with
                    | Ok Stop => children j i
                    | Ok (Found k prevPtr didSkip) =>
                      modify (set_astPtrs (replaceNth (Z.to_nat k) None ptrs)) ;;
                      x <- optimizeChildrenAndSelf env budget prevPtr
                             (if didSkip then i else k - 1) ;;
                      (let (inlined, i2) := x in
                       astSet (ptr + Z.of_nat j + 1) inlined ;; children j i2)
                    | Err e => throw e
                    end)).
        { intros s -> k p Hk Hnth.
          assert (Hp0 : inPrefix (astPtrs s0) i0 p).
          { apply (inPrefix_shrinks _ _ _ i _ Hshr Hi). exists k. split; [lia | exact Hnth]. }
          destruct (Hprefix p Hp0) as [ep Hep].
          destruct (proj1 Hwf1 p ep (Hincl _ Hep)) as [Hle (Hr & _)]. lia. }
        intros s ->.
        destruct (scanProducer (ast s1) (astPtrs s1) (usesTypedArraysOf (nodeOp (ast s0 ptr)))
                               (- ast s1 (ptr + Z.of_nat j + 1)) (Z.to_nat (i + 1)) false)
          as [[|k prevPtr didSkip]|err] eqn:Escan; [| |apply rel_throw].
        { eapply rel_conseq; [| |apply (IHj i ltac:(lia))]; [intros s ->; exact HI | auto]. }
        destruct (scanProducer_found _ _ _ _ _ _ _ _ _ Escan) as [Hk Hnth].
        rewrite Z2Nat.id in Hk by lia.
        set (i1 := if didSkip then i else k - 1).
        assert (Hi1 : i1 <= i) by (unfold i1; destruct didSkip; lia).
        assert (Hprev1 : inPrefix (astPtrs s1) i prevPtr).
        { exists (Z.to_nat k). split; [lia | exact Hnth]. }
        assert (Hprev0 : inPrefix (astPtrs s0) i0 prevPtr)
          by (apply (inPrefix_shrinks _ _ _ i _ Hshr Hi Hprev1)).
        assert (Hne : prevPtr <> ptr) by (intros ->; exact (Hfresh Hprev0)).
        eapply rel_bind.
        { apply rel_modify; [reflexivity | reflexivity | intros s; cbn; lia]. }
        intros []. apply rel_at. intros s2 (s & -> & ->).
        set (s2 := set_astPtrs (replaceNth (Z.to_nat k) None (astPtrs s1)) s1).
        assert (Hshr2 : shrinks (astPtrs s1) (astPtrs s2)) by apply shrinks_null.
        assert (Hpre2 : optPre s2 L prevPtr i1).
        { split; [exact Hwf1|]. split.
          { destruct (Hprefix _ Hprev0) as [ep Hep]. exists ep. apply Hincl. exact Hep. }
          split.
          { intros p Hp. destruct (Hprefix p) as [ep Hep].
            - apply (inPrefix_shrinks _ _ _ i _ Hshr Hi).
              apply (inPrefix_shrinks _ _ _ i1 _ Hshr2 Hi1 Hp).
            - exists ep. apply Hincl. exact Hep. }
          split.
          { intros (k' & Hk' & Hn'). unfold s2 in Hn'. cbn [astPtrs set_astPtrs] in Hn'.
            rewrite nth_error_replaceNth in Hn'.
            destruct (Nat.eqb_spec k' (Z.to_nat k)) as [->|Hneq].
            - destruct (Nat.ltb (Z.to_nat k) (List.length (astPtrs s1))); discriminate.
            - apply Hneq. apply (Hdistinct1 k' (Z.to_nat k) prevPtr); auto; lia. }
          apply (distinctPrefix_shrinks _ _ _ _ Hshr2 Hi1 Hdistinct1). }
        eapply rel_bind; [apply (IH prevPtr i1 s2 L Hpre2)|].
        intros [inlined i2]. apply rel_at. intros s3 Hpost.
        destruct Hpost as (L2 & Hincl2 & Hwf3 & Hnode3 & Hshr3 & Hi2 & Hnext3 & Hframe3).
        cbn [fst snd] in Hnode3, Hi2.
        assert (Hfresh2 : forall q, ~ inPrefix (astPtrs s0) i0 q -> ~ inPrefix (astPtrs s2) i1 q).
        { intros q Hq Hq2. apply Hq. apply (inPrefix_shrinks _ _ _ i _ Hshr Hi).
          apply (inPrefix_shrinks _ _ _ i1 _ Hshr2 Hi1 Hq2). }
        assert (Hhead3 : ast s3 ptr = ast s0 ptr).
        { rewrite (Hframe3 ptr e Hin1 (not_eq_sym Hne) (Hfresh2 _ Hfresh) ptr ltac:(lia)).
          exact Hhead. }
        eapply rel_bind; [apply rel_astSet|].
        intros []. apply rel_at. intros s4 (s & -> & Hcap & ->).
        eapply rel_conseq; [| |apply (IHj i2 ltac:(lia))]; [|auto].
        intros s ->. exists L2.
        cbn [ast astPtrs astNextPtr set_ast].
        split; [intros x Hx; apply Hincl2, Hincl, Hx|].
        split.
        { replace (ptr + Z.of_nat j + 1) with (ptr + (Z.of_nat j + 1)) by lia.
          apply (wfLayout_set_kid wasm funcTypes (ast s3) (astNextPtr s3) L2 ptr e);
            [exact Hwf3 | apply Hincl2; exact Hin1 | rewrite Hhead3; lia | exact Hnode3]. }
        split; [rewrite upd_neq by lia; exact Hhead3|].
        split; [exact (shrinks_trans _ _ _ Hshr (shrinks_trans _ _ _ Hshr2 Hshr3))|].
        split; [lia|].
        split; [unfold s2 in Hnext3; cbn [astNextPtr set_astPtrs] in Hnext3; lia|].
        intros q eq Hq Hqne Hqfresh x Hx.
        assert (Hxne : x <> ptr + Z.of_nat j + 1).
        { destruct (proj2 Hwf ptr e q eq He Hq) as [Heq|[Hd|Hd]];
            [inversion Heq; subst; contradiction | lia | lia]. }
        rewrite upd_neq by exact Hxne.
        rewrite (Hframe3 q eq (Hincl _ Hq)); [apply (Hframe q eq Hq Hqne Hqfresh x Hx) | | | exact Hx].
        + intros ->. exact (Hqfresh Hprev0).
        + apply Hfresh2. exact Hqfresh. }
    eapply rel_bind.
    { eapply rel_conseq; [| |apply (Hloop (Z.to_nat (nodeChildCount (ast s0 ptr))) i0)].
      - intros s ->. exists L0. split; [apply incl_refl|]. split; [exact Hwf|].
        split; [reflexivity|]. split; [apply shrinks_refl|]. split; [lia|]. split; [lia|].
        intros q eq _ _ _ x _. reflexivity.
      - intros x s H. exact H.
      - pose proof (nodeChildCount_range (ast s0 ptr)). lia. }
    intros i'. apply rel_at. intros s5 (L & Hincl & Hwf5 & Hhead & Hshr & Hi & Hnext & Hframe).
    eapply rel_conseq; [| |apply (rel_optimizeNode s5 L ptr e i' Hwf5 (Hincl _ He))];
      [intros s H; exact H|].
    intros [ptr' i''] s' (Hi' & Hptrs & Hnext' & Hkeep & (L' & Hincl' & Hwf' & Hnode')).
    cbn [fst snd] in *. subst i''.
    exists L'. cbn [fst snd].
    split; [intros x Hx; apply Hincl', Hincl, Hx|].
    split; [exact Hwf'|]. split; [exact Hnode'|].
    split; [rewrite Hptrs; exact Hshr|]. split; [exact Hi|]. split; [lia|].
    intros q eq Hq Hqne Hqfresh x Hx.
    destruct (proj1 Hwf q eq Hq) as [Hqle (Hqr & _)].
    rewrite Hkeep; [apply (Hframe q eq Hq Hqne Hqfresh x Hx) | lia |].
    destruct (proj2 Hwf ptr e q eq He Hq) as [Heq|[Hd|Hd]];
      [inversion Heq; subst; contradiction | lia | lia].
Qed.

End Optimizer.

(** *** A basic block at the time it is finalized *)

Definition allNodes (L : Layout) (ptrs : list (option Z)) : Prop :=
  forall p, In (Some p) ptrs -> isNode L p.

Definition distinct (ptrs : list (option Z)) : Prop :=
  forall k k' p, nth_error ptrs k = Some (Some p) -> nth_error ptrs k' = Some (Some p) -> k = k'.

Lemma distinct_prefix ptrs i : distinct ptrs -> distinctPrefix ptrs i.
Proof. intros H k k' p _ _. apply H. Qed.

Lemma allNodes_prefix L ptrs i p : allNodes L ptrs -> inPrefix ptrs i p -> isNode L p.
Proof. intros H (k & _ & Hk). apply H. apply (nth_error_In _ _ Hk). Qed.

Lemma in_firstn {A : Type} (n : nat) (l : list A) (x : A) : In x (firstn n l) -> In x l.
Proof.
  revert l. induction n as [|n IH]; intros [|y l] H; cbn in H; try contradiction.
  destruct H as [->|H]; [left; reflexivity | right; apply IH; exact H].
Qed.

Lemma lookupZ_nth {A : Type} (l : list A) (i : Z) (x : A) :
  lookupZ l i = Some x -> 0 <= i /\ nth_error l (Z.to_nat i) = Some x.
Proof.
  unfold lookupZ. destruct (Z.ltb_spec i 0) as [Hlt|Hge]; [discriminate|]. intros H. split; [lia | exact H].
Qed.

Lemma rel_reset {A : Type} (P : State -> Prop) (x : A) :
  rel P (modify (fun s => set_astNextPtr 0 (set_astPtrs [] (set_constants [] s))) ;; ret x)
      (fun _ s' => astNextPtr s' = 0 /\ astPtrs s' = []).
Proof.
  intros s b HP Hag. unfold bind, modify, ret. split; [split; reflexivity|].
  exists b. split; [reflexivity|]. intros i Hi. cbn in Hi. lia.
Qed.

Section Finalize.

Variable env : Env.
Variable wasm : WASM.
Variable funcTypes : list FuncType.
Variable names : list string.
Variable fuel : nat.

Hypothesis optimizer_confined : confined env wasm funcTypes.

(** The nodes that wait for [finalizeBasicBlock]: they are laid out
    below the bump pointer, and no node is listed twice. *)
Definition pending (s : State) : Prop :=
  0 <= astNextPtr s
  /\ exists L, wfLayout wasm funcTypes (ast s) (astNextPtr s) L
               /\ allNodes L (astPtrs s) /\ distinct (astPtrs s).

Lemma rel_optimizeAll (n : nat) :
  forall i,
    rel (fun s => exists L, wfLayout wasm funcTypes (ast s) (astNextPtr s) L
                            /\ allNodes L (astPtrs s) /\ distinctPrefix (astPtrs s) i)
        (optimizeAll env fuel n i)
        (fun _ s' => exists L, wfLayout wasm funcTypes (ast s') (astNextPtr s') L
                               /\ allNodes L (astPtrs s')).
Proof.
  induction n as [|n IH]; intros i.
  - cbn [optimizeAll]. destruct (i <? 0); [|apply rel_throw].
    eapply rel_conseq; [| |apply rel_ret]; [intros s H; exact H|].
    intros x s [_ (L & H1 & H2 & _)]. exists L. auto.
  - cbn [optimizeAll]. destruct (Z.ltb_spec i 0) as [Hneg|Hpos].
    { eapply rel_conseq; [| |apply rel_ret]; [intros s H; exact H|].
      intros x s [_ (L & H1 & H2 & _)]. exists L. auto. }
    eapply rel_bind; [apply rel_gets; reflexivity|].
    intros ptrs. apply rel_at. intros s0 [-> (L & Hwf & Hall & Hdis)].
    destruct (lookupZ (astPtrs s0) i) as [[ptr|]|] eqn:Elook; [| |apply rel_throw].
    2:{ eapply rel_conseq; [| |apply (IH (i - 1))]; [|auto].
        intros s ->. exists L. split; [exact Hwf|]. split; [exact Hall|].
        apply (distinctPrefix_shrinks (astPtrs s0) (astPtrs s0) i); [apply shrinks_refl | lia | exact Hdis]. }
    destruct (lookupZ_nth _ _ _ Elook) as [_ Hnth].
    assert (Hpre : optPre wasm funcTypes s0 L ptr (i - 1)).
    { split; [exact Hwf|]. split; [apply Hall; apply (nth_error_In _ _ Hnth)|].
      split; [intros p Hp; apply (allNodes_prefix L _ _ _ Hall Hp)|].
      split.
      - intros (k & Hk & Hk'). assert (k = Z.to_nat i) by (apply (Hdis k _ ptr); auto; lia). lia.
      - apply (distinctPrefix_shrinks (astPtrs s0) (astPtrs s0) i); [apply shrinks_refl | lia | exact Hdis]. }
    eapply rel_bind;
      [apply (rel_optimizeChildrenAndSelf env wasm funcTypes optimizer_confined fuel
                                          ptr (i - 1) s0 L Hpre)|].
    intros [ptr' i']. apply rel_at.
    intros s1 (L' & Hincl & Hwf' & Hnode' & Hshr & Hi' & Hnext & _). cbn [fst snd] in *.
    eapply rel_bind.
    { apply rel_modify; [reflexivity | reflexivity | intros s; cbn; lia]. }
    intros []. eapply rel_conseq; [| |apply (IH i')]; [|auto].
    intros s2 (s & -> & ->). cbn [ast astNextPtr astPtrs set_astPtrs].
    exists L'. split; [exact Hwf'|]. split.
    + intros p Hp. apply In_nth_error in Hp. destruct Hp as [k Hk].
      rewrite nth_error_replaceNth in Hk. destruct (Nat.eqb k (Z.to_nat i)).
      * destruct (Nat.ltb _ _); [|discriminate]. inversion Hk; subst. exact Hnode'.
      * destruct (Hall p) as [e He]; [|exists e; apply Hincl; exact He].
        apply (nth_error_In _ k). apply (proj2 Hshr). exact Hk.
    + intros k k' p Hk Hk' Hn Hn'. rewrite nth_error_replaceNth in Hn, Hn'.
      destruct (Nat.eqb_spec k (Z.to_nat i)); [lia|].
      destruct (Nat.eqb_spec k' (Z.to_nat i)); [lia|].
      apply (Hdis k k' p); try lia; apply (proj2 Hshr); assumption.
Qed.

Section Emit.

Variable a : AstStore.
Variable next : Z.
Variable L : Layout.
Hypothesis wf : wfLayout wasm funcTypes a next L.

Lemma reader_emitStatements (entries : list (option Z)) :
  allNodes L entries ->
  reader a next (emitStatements env wasm funcTypes names fuel entries).
Proof.
  induction entries as [|[ptr|] rest IH]; intros Hall; cbn [emitStatements].
  - apply reader_ret.
  - destruct (isNode_ok wasm funcTypes a next L wf ptr (Hall ptr (or_introl eq_refl)))
      as (e & He & (Hr & _)).
    apply reader_astGet_bind; [lia|].
    apply reader_bind.
    { destruct (_ =? 0); [apply reader_ret|].
      apply reader_bind; [apply reader_stackSlotName | intros name; apply reader_ret]. }
    intros target. apply reader_bind.
    { apply (reader_emitUnwrapped env wasm funcTypes names a next L wf).
      apply Hall. left. reflexivity. }
    intros text. apply reader_bind; [|intros parts; apply reader_ret].
    apply IH. intros p Hp. apply Hall. right. exact Hp.
  - apply IH. intros p Hp. apply Hall. right. exact Hp.
Qed.

End Emit.

Lemma rel_finalizeBasicBlock (popStackTop : bool) :
  rel pending (finalizeBasicBlock env wasm funcTypes names fuel popStackTop)
      (fun _ s' => astNextPtr s' = 0 /\ astPtrs s' = []).
Proof.
  unfold finalizeBasicBlock.
  eapply rel_bind; [apply rel_gets; reflexivity|].
  intros len. apply rel_at. intros s0 [-> (_ & L0 & Hwf0 & Hall0 & Hdis0)].
  eapply rel_bind.
  { eapply rel_conseq; [| |apply rel_optimizeAll]; [|intros x s H; exact H].
    intros s ->. exists L0. split; [exact Hwf0|]. split; [exact Hall0|].
    apply distinct_prefix. exact Hdis0. }
  intros []. apply rel_at. intros s1 (L & Hwf & Hall).
  eapply rel_bind; [apply rel_gets; reflexivity|].
  intros ptrs. apply rel_at. intros s [-> ->].
  eapply rel_bind.
  { eapply rel_conseq;
      [| |apply (rel_reader (ast s1) (astNextPtr s1) (fun _ => True))].
    - intros s ->. auto.
    - intros x s H. exact H.
    - destruct popStackTop; [|apply reader_ret].
      apply reader_bind; [apply reader_gets; reflexivity|]. intros top.
      apply reader_bind; [|intros r; apply reader_bind;
                           [apply reader_modify; reflexivity | intros; apply reader_ret]].
      destruct (lookupZ (astPtrs s1) _) as [[ptr|]|] eqn:Elook; try apply reader_ret.
      destruct (lookupZ_nth _ _ _ Elook) as [_ Hnth].
      assert (Hnode : isNode L ptr) by (apply Hall; apply (nth_error_In _ _ Hnth)).
      destruct (isNode_ok wasm funcTypes _ _ L Hwf ptr Hnode) as (e & He & (Hr & _)).
      apply reader_astGet_bind; [lia|].
      destruct (_ =? top); [|apply reader_ret].
      apply reader_bind; [|intros; apply reader_ret].
      apply (reader_emitUnwrapped env wasm funcTypes names _ _ L Hwf). exact Hnode.
    - auto. }
  intros [result i].
  eapply rel_bind.
  { eapply rel_conseq;
      [| |apply (rel_reader (ast s1) (astNextPtr s1) (fun _ => True))].
    - intros s H. exact H.
    - intros x s H. exact H.
    - apply (reader_emitStatements _ _ L Hwf).
      intros p Hp. apply Hall. apply in_rev in Hp. apply (in_firstn _ _ _ Hp).
    - auto. }
  intros parts.
  eapply rel_bind.
  { apply rel_modify; [reflexivity | reflexivity | intros s; cbn; lia]. }
  intros []. apply rel_reset.
Qed.

End Finalize.

(** *** The decoder does not read the store *)

(** [blind c]: [c] does the same whatever the store holds above the bump
    pointer, and its writes are the same. *)
Definition blind {A : Type} (c : M A) : Prop := rel (fun _ => True) c (fun _ _ => True).

Lemma blind_bind {A B : Type} (c : M A) (k : A -> M B) :
  blind c -> (forall x, blind (k x)) -> blind (bind c k).
Proof. intros Hc Hk. apply (rel_bind _ (fun _ _ => True)); assumption. Qed.

Lemma blind_ret {A : Type} (x : A) : blind (ret x).
Proof. eapply rel_conseq; [| |apply (rel_ret (fun _ => True))]; auto. Qed.

Lemma blind_throw {A : Type} (e : Error) : blind (@throw A e).
Proof. apply rel_throw. Qed.

Lemma blind_gets {A : Type} (f : State -> A) :
  (forall s b, f (set_ast b s) = f s) -> blind (gets f).
Proof. intros Hf. eapply rel_conseq; [| |apply (rel_gets (fun _ => True)); exact Hf]; auto. Qed.

Lemma blind_modify (g : State -> State) :
  (forall s b, g (set_ast b s) = set_ast b (g s)) ->
  (forall s, ast (g s) = ast s) -> (forall s, astNextPtr (g s) <= astNextPtr s) ->
  blind (modify g).
Proof.
  intros H1 H2 H3.
  eapply rel_conseq; [| |apply (rel_modify (fun _ => True)); eassumption]; auto.
Qed.

Lemma blind_pushWord (v : Z) : blind (pushWord v).
Proof. eapply rel_conseq; [| |apply (rel_pushWord (fun _ => True))]; auto. Qed.

(** A computation given by what it returns and what it does to the
    state, neither of which looks at the store. *)
Lemma blind_fun {A : Type} (f : State -> A) (g : State -> State) :
  (forall s b, f (set_ast b s) = f s) ->
  (forall s b, g (set_ast b s) = set_ast b (g s)) ->
  (forall s, ast (g s) = ast s) -> (forall s, astNextPtr (g s) <= astNextPtr s) ->
  blind (fun s => Ok (f s, g s)).
Proof.
  intros Hf Hg H1 H2 s b _ Hag. split; [exact I|]. exists b.
  rewrite Hf, Hg, H1. split; [reflexivity|].
  apply (agree_le (astNextPtr s)); [apply H2 | exact Hag].
Qed.

Ltac blind_step :=
  lazymatch goal with
  | |- blind (ret _) => apply blind_ret
  | |- blind (throw _) => apply blind_throw
  | |- blind (pushWord _) => apply blind_pushWord
  | |- blind (gets _) => apply blind_gets; intros [] ?; norm_state; reflexivity
  | |- blind (modify _) =>
    apply blind_modify;
    [ intros [] ?; norm_state; reflexivity
    | intros []; norm_state; reflexivity
    | intros []; norm_state; apply Z.le_refl ]
  | |- blind (bind _ _) => apply blind_bind; [|intros]
  | |- blind (if ?t then _ else _) => destruct t
  | |- blind (match ?x with _ => _ end) => destruct x
  | |- blind _ => assumption
  end.

Ltac blind_auto := repeat blind_step.

Section BlindDecoder.

Variable wasm : WASM.

Lemma blind_emitBody (text : string) : blind (emitBody text).
Proof. unfold emitBody. blind_auto. Qed.

Lemma blind_skipBytes (n : Z) : blind (skipBytes n).
Proof. unfold skipBytes. blind_auto. Qed.

Lemma blind_readLEB (accumulate : Z -> Z -> Z -> Z) : blind (readLEB wasm accumulate).
Proof.
  intros s b _ Hag. unfold readLEB. cbn [bytesPtr set_ast].
  destruct (lebLoop accumulate (bytesFrom wasm (bytesPtr s)) 0 0 0) as [[[value shift] byte] count].
  split; [exact I|]. exists b. split; [reflexivity | exact Hag].
Qed.

Lemma blind_readU32LEB : blind (readU32LEB wasm).
Proof. unfold readU32LEB. apply blind_bind; [apply blind_readLEB|]. intros. blind_auto. Qed.

Lemma blind_readI32LEB : blind (readI32LEB wasm).
Proof. unfold readI32LEB. apply blind_bind; [apply blind_readLEB|]. intros. blind_auto. Qed.

Lemma blind_readI64LEB : blind (readI64LEB wasm).
Proof. unfold readI64LEB. apply blind_bind; [apply blind_readLEB|]. intros. blind_auto. Qed.

Lemma blind_readByteOrZero : blind (readByteOrZero wasm).
Proof.
  unfold readByteOrZero.
  apply (blind_fun (fun s => match lookupZ (bytes_ wasm) (bytesPtr s) with
                             | Some b => b | None => 0 end)
                   (fun s => set_bytesPtr (bytesPtr s + 1) s));
    try reflexivity; intros; cbn; lia.
Qed.

Lemma blind_typeAt (typeIndex : Z) : blind (typeAt wasm typeIndex).
Proof. unfold typeAt. blind_auto. Qed.

Lemma blind_topBlock : blind topBlock.
Proof.
  intros s b _ Hag. unfold topBlock. cbn [blocks set_ast].
  destruct (topOf (blocks s)); [|reflexivity].
  split; [exact I|]. exists b. split; [reflexivity | exact Hag].
Qed.

Lemma blind_topIsDead : blind topIsDead.
Proof. unfold topIsDead. apply blind_bind; [apply blind_topBlock|]. intros. blind_auto. Qed.

Lemma blind_modifyTop (f : Block -> Block) : blind (modifyTop f).
Proof. unfold modifyTop. blind_auto. Qed.

Lemma blind_readBlockType : blind (readBlockType wasm).
Proof.
  unfold readBlockType.
  repeat lazymatch goal with
         | |- blind (readU32LEB _) => apply blind_readU32LEB
         | |- blind (skipBytes _) => apply blind_skipBytes
         | |- blind (typeAt _ _) => apply blind_typeAt
         | |- _ => blind_step
         end.
Qed.

Lemma blind_pushPtr : blind pushPtr.
Proof. unfold pushPtr. blind_auto. Qed.

Lemma blind_pushUnary (op slot : Z) : blind (pushUnary op slot).
Proof.
  unfold pushUnary.
  repeat lazymatch goal with
         | |- blind pushPtr => apply blind_pushPtr
         | |- _ => blind_step
         end.
Qed.

Lemma blind_forRange (from : Z) (n : nat) (f : Z -> M unit) :
  (forall k, blind (f k)) -> blind (forRange from n f).
Proof.
  intros Hf. revert from. induction n as [|n IH]; intros from; cbn [forRange].
  - blind_auto.
  - apply blind_bind; [apply Hf | intros; apply IH].
Qed.

Ltac blind_node :=
  lazymatch goal with
  | |- blind (forRange _ _ _) => apply blind_forRange; intros
  | |- blind (pushUnary _ _) => apply blind_pushUnary
  | |- blind pushPtr => apply blind_pushPtr
  | |- blind (readU32LEB _) => apply blind_readU32LEB
  | |- blind (readI32LEB _) => apply blind_readI32LEB
  | |- blind (readI64LEB _) => apply blind_readI64LEB
  | |- blind (readByteOrZero _) => apply blind_readByteOrZero
  | |- blind (skipBytes _) => apply blind_skipBytes
  | |- blind (emitBody _) => apply blind_emitBody
  | |- blind topIsDead => apply blind_topIsDead
  | |- blind topBlock => apply blind_topBlock
  | |- blind (modifyTop _) => apply blind_modifyTop
  | |- blind (typeAt _ _) => apply blind_typeAt
  | |- blind (readBlockType _) => apply blind_readBlockType
  | |- _ => blind_step
  end.

Lemma blind_decodeSimple (op flags : Z) : blind (decodeSimple wasm op flags).
Proof. unfold decodeSimple. repeat blind_node. Qed.

Lemma blind_skipSimple (flags : Z) : blind (skipSimple wasm flags).
Proof. unfold skipSimple. repeat blind_node. Qed.

Lemma blind_pushConst (op : Z) (payload : M Z) : blind payload -> blind (pushConst op payload).
Proof. intros Hp. unfold pushConst. repeat blind_node. Qed.

Lemma blind_pushCall (op argCount returnCount : Z) (funcPtr : bool) (index : Z) :
  blind (pushCall op argCount returnCount funcPtr index).
Proof. unfold pushCall. repeat blind_node. Qed.

Lemma blind_pushTernary (op c1 c2 c3 : Z) : blind (pushTernary op c1 c2 c3).
Proof. unfold pushTernary. repeat blind_node. Qed.

Lemma blind_copySlots (parent top count : Z) : blind (copySlots parent top count).
Proof. unfold copySlots. repeat blind_node. Qed.

Lemma blind_jump (index : Z) : blind (jump index).
Proof.
  unfold jump.
  repeat lazymatch goal with
         | |- blind (copySlots _ _ _) => apply blind_copySlots
         | |- _ => blind_node
         end.
Qed.

Lemma blind_jumpRelative : blind (jumpRelative wasm).
Proof.
  unfold jumpRelative.
  repeat lazymatch goal with
         | |- blind (jump _) => apply blind_jump
         | |- _ => blind_node
         end.
Qed.

Lemma blind_decodeFC : blind (decodeFC wasm).
Proof.
  unfold decodeFC.
  repeat lazymatch goal with
         | |- blind (pushTernary _ _ _ _) => apply blind_pushTernary
         | |- _ => blind_node
         end.
Qed.

Lemma blind_pushBlock (kind : BlockKind) : blind (pushBlock wasm kind).
Proof. unfold pushBlock. repeat blind_node. Qed.

End BlindDecoder.

(** *** The fields of a header word *)

(** The low byte and the child-count field of a word, as [nodeOp] and
    [nodeChildCount] read them. *)
Definition opField (x : Z) : Z := Z.land x 255.
Definition countField (x : Z) : Z := Z.land (Z.shiftr x 8) 65535.

Lemma toInt32_mod (x : Z) : toInt32 x mod 2 ^ 32 = x mod 2 ^ 32.
Proof.
  unfold toInt32.
  rewrite <- Zminus_mod_idemp_l, Z.mod_mod by lia.
  rewrite Zminus_mod_idemp_l. f_equal. lia.
Qed.

Lemma testbit_toInt32 (x n : Z) : 0 <= n < 32 -> Z.testbit (toInt32 x) n = Z.testbit x n.
Proof.
  intros Hn.
  rewrite <- (Z.mod_pow2_bits_low (toInt32 x) 32 n) by lia.
  rewrite toInt32_mod. apply Z.mod_pow2_bits_low. lia.
Qed.

Lemma toInt32_range (x : Z) : - 2 ^ 31 <= toInt32 x < 2 ^ 31.
Proof.
  unfold toInt32. change (2 ^ 31) with 2147483648. change (2 ^ 32) with 4294967296.
  pose proof (Z.mod_pos_bound (x + 2147483648) 4294967296 ltac:(lia)). lia.
Qed.

Lemma opField_range (x : Z) : 0 <= opField x < 256.
Proof.
  unfold opField. change 255 with (Z.ones 8). rewrite Z.land_ones by lia.
  change (2 ^ 8) with 256. apply Z.mod_pos_bound. lia.
Qed.

Lemma countField_range (x : Z) : 0 <= countField x < 65536.
Proof.
  unfold countField. change 65535 with (Z.ones 16). rewrite Z.land_ones by lia.
  change (2 ^ 16) with 65536. apply Z.mod_pos_bound. lia.
Qed.

Lemma nodeOp_field (x : Z) : nodeOp x = opField x.
Proof.
  unfold nodeOp, js_and, Pack.OpMask. apply toInt32_small.
  pose proof (opField_range x) as H.
  change (2 ^ 31) with 2147483648. lia.
Qed.

Lemma nodeChildCount_field (x : Z) : nodeChildCount (toInt32 x) = countField x.
Proof.
  unfold nodeChildCount, js_and, js_shr, Pack.ChildCountMask, Pack.ChildCountShift.
  change (8 mod 32) with 8.
  assert (E : Z.land (Z.shiftr (toInt32 (toInt32 x)) 8) 65535 = countField x).
  { unfold countField. apply Z.bits_inj'. intros n Hn.
    rewrite !Z.land_spec, !Z.shiftr_spec by lia.
    change 65535 with (Z.ones 16).
    destruct (Z.ltb_spec n 16) as [Hlt|Hge].
    - rewrite !testbit_toInt32 by lia. reflexivity.
    - rewrite Z.ones_spec_high by lia. rewrite !andb_false_r. reflexivity. }
  rewrite E. apply toInt32_small. pose proof (countField_range x).
  change (2 ^ 31) with 2147483648. lia.
Qed.

Lemma opField_toInt32 (x : Z) : opField (toInt32 x) = opField x.
Proof.
  unfold opField. apply Z.bits_inj'. intros n Hn. rewrite !Z.land_spec.
  change 255 with (Z.ones 8).
  destruct (Z.ltb_spec n 8) as [Hlt|Hge].
  - rewrite testbit_toInt32 by lia. reflexivity.
  - rewrite Z.ones_spec_high by lia. rewrite !andb_false_r. reflexivity.
Qed.

Lemma countField_toInt32 (x : Z) : countField (toInt32 x) = countField x.
Proof.
  unfold countField. apply Z.bits_inj'. intros n Hn.
  rewrite !Z.land_spec, !Z.shiftr_spec by lia. change 65535 with (Z.ones 16).
  destruct (Z.ltb_spec n 16) as [Hlt|Hge].
  - rewrite testbit_toInt32 by lia. reflexivity.
  - rewrite Z.ones_spec_high by lia. rewrite !andb_false_r. reflexivity.
Qed.

Lemma opField_lor (x y : Z) : opField (Z.lor x y) = Z.lor (opField x) (opField y).
Proof. unfold opField. apply Z.land_lor_distr_l. Qed.

Lemma countField_lor (x y : Z) : countField (Z.lor x y) = Z.lor (countField x) (countField y).
Proof. unfold countField. rewrite Z.shiftr_lor. apply Z.land_lor_distr_l. Qed.

Lemma opField_js_or (x y : Z) : opField (js_or x y) = Z.lor (opField x) (opField y).
Proof. unfold js_or. rewrite opField_toInt32. apply opField_lor. Qed.

Lemma countField_js_or (x y : Z) : countField (js_or x y) = Z.lor (countField x) (countField y).
Proof. unfold js_or. rewrite countField_toInt32. apply countField_lor. Qed.

Lemma opField_small (op : Z) : 0 <= op < 256 -> opField op = op.
Proof.
  intros H. unfold opField. change 255 with (Z.ones 8). rewrite Z.land_ones by lia.
  apply Z.mod_small. change (2 ^ 8) with 256. lia.
Qed.

Lemma countField_small (op : Z) : 0 <= op < 256 -> countField op = 0.
Proof.
  intros H. unfold countField. rewrite Z.shiftr_div_pow2 by lia.
  change (2 ^ 8) with 256. rewrite Z.div_small by lia. reflexivity.
Qed.

Lemma opField_shl8 (x : Z) : opField (js_shl x Pack.ChildCountShift) = 0.
Proof.
  unfold js_shl, Pack.ChildCountShift. change (8 mod 32) with 8.
  rewrite opField_toInt32. unfold opField. apply Z.bits_inj'. intros n Hn.
  rewrite Z.land_spec, Z.bits_0. change 255 with (Z.ones 8).
  destruct (Z.ltb_spec n 8) as [Hlt|Hge].
  - rewrite Z.shiftl_spec_low by lia. reflexivity.
  - rewrite Z.ones_spec_high by lia. apply andb_false_r.
Qed.

Lemma opField_shl24 (x : Z) : opField (js_shl x Pack.OutSlotShift) = 0.
Proof.
  unfold js_shl, Pack.OutSlotShift. change (24 mod 32) with 24.
  rewrite opField_toInt32. unfold opField. apply Z.bits_inj'. intros n Hn.
  rewrite Z.land_spec, Z.bits_0. change 255 with (Z.ones 8).
  destruct (Z.ltb_spec n 8) as [Hlt|Hge].
  - rewrite Z.shiftl_spec_low by lia. reflexivity.
  - rewrite Z.ones_spec_high by lia. apply andb_false_r.
Qed.

Lemma countField_shl24 (x : Z) : countField (js_shl x Pack.OutSlotShift) = 0.
Proof.
  unfold js_shl, Pack.OutSlotShift. change (24 mod 32) with 24.
  rewrite countField_toInt32. unfold countField. apply Z.bits_inj'. intros n Hn.
  rewrite Z.land_spec, Z.bits_0, Z.shiftr_spec by lia. change 65535 with (Z.ones 16).
  destruct (Z.ltb_spec n 16) as [Hlt|Hge].
  - rewrite Z.shiftl_spec_low by lia. reflexivity.
  - rewrite Z.ones_spec_high by lia. apply andb_false_r.
Qed.

Lemma countField_shl8 (x : Z) :
  0 <= x < 65536 -> countField (js_shl x Pack.ChildCountShift) = x.
Proof.
  intros Hx. unfold js_shl, Pack.ChildCountShift. change (8 mod 32) with 8.
  rewrite countField_toInt32. unfold countField.
  rewrite Z.shiftr_shiftl_l by lia. change (8 - 8) with 0. rewrite Z.shiftl_0_r.
  change 65535 with (Z.ones 16). rewrite Z.land_ones by lia.
  apply Z.mod_small. change (2 ^ 16) with 65536. lia.
Qed.

(** *** The nodes that the decoder writes *)

Section Nodes.

Variable wasm : WASM.
Variable funcTypes : list FuncType.

Lemma okNode_ext (a a' : AstStore) (N N' : Z -> Prop) (e p : Z) :
  (forall x, 0 <= x < e -> a' x = a x) -> (forall v, N v -> N' v) ->
  okNode wasm funcTypes a N e p -> okNode wasm funcTypes a' N' e p.
Proof.
  intros Ha HN (Hp & Hcap & Hkids & Hok).
  assert (Hkid : forall k, 1 <= k -> p + k < e ->
                   a (p + k) < 0 \/ N (a (p + k)) -> a' (p + k) < 0 \/ N' (a' (p + k))).
  { intros k Hk Hlt H. rewrite Ha by lia. destruct H; [left | right; apply HN]; assumption. }
  assert (Hkids' : forall from count, 1 <= from ->
                     kidsOk a N e p from count -> kidsOk a' N' e p from count).
  { intros from count Hfrom H j Hj. destruct (H j Hj) as [H1 H2].
    split; [exact H1 | apply Hkid; [lia | exact H1 | exact H2]]. }
  assert (Hpieces : forall ps, Forall (pieceOk a N e p) ps -> Forall (pieceOk a' N' e p) ps).
  { intros ps H. eapply Forall_impl; [|exact H]. intros x Hx.
    destruct x; cbn [pieceOk] in *; auto.
    destruct Hx as (H1 & H2 & H3). split; [exact H1|]. split; [exact H2|]. apply Hkid; auto. }
  pose proof (nodeChildCount_range (a p)) as Hcc.
  unfold okNode. rewrite (Ha p) by lia.
  split; [exact Hp|]. split; [exact Hcap|]. split; [exact Hkids|].
  unfold emitOk in *. cbv zeta in *. rewrite (Ha p) by lia.
  destruct (nodeOp (a p) =? Op.call).
  { destruct Hok as (H1 & H2 & H3). split; [exact H1|]. split; [apply Hkids'; [lia | exact H2]|].
    rewrite Ha by lia. exact H3. }
  destruct (nodeOp (a p) =? Op.call_indirect).
  { destruct Hok as (H1 & H2 & H3). split; [exact H1|]. split; [apply Hkids'; [lia | exact H2]|].
    rewrite Ha by lia. exact H3. }
  destruct (nodeOp (a p) =? Op.memory_size); [exact Hok|].
  destruct (nodeOp (a p) =? Op.memory_grow).
  { destruct Hok as (H1 & H2). split; [exact H1 | apply Hkids'; [lia | exact H2]]. }
  destruct (nodeOp (a p) =? Op.i32_const); [exact Hok|].
  destruct (nodeOp (a p) =? Op.i64_const); [exact Hok|].
  destruct (nodeOp (a p) =? Op.f32_const); [exact Hok|].
  destruct (nodeOp (a p) =? Op.f64_const); [exact Hok|].
  destruct (storeTemplate (nodeOp (a p))) as [[valueTemplate storeText]|].
  { destruct Hok as [H1 H2]. split; apply Hpieces; assumption. }
  destruct (template (nodeOp (a p))); [|exact I].
  apply Hpieces. exact Hok.
Qed.

(** Whether the emitter's template for [op] stays inside a node of
    [size] cells with [cc] children. *)
Definition pieceFits (cc size : Z) (x : piece) : bool :=
  match x with
  | Kid k => (1 <=? k) && (k <=? cc) && (k <? size)
  | Word k | Offset k | Name k => (1 <=? k) && (k <? size)
  | _ => true
  end.

Definition fits (op cc size : Z) : bool :=
  if op =? Op.call then false
  else if op =? Op.call_indirect then false
  else if op =? Op.memory_size then 1 <? size
  else if op =? Op.memory_grow then (2 <? size) && (1 <=? cc)
  else if op =? Op.i32_const then 1 <? size
  else if op =? Op.i64_const then 1 <? size
  else if op =? Op.f32_const then 1 <? size
  else if op =? Op.f64_const then 1 <? size
  else
    match storeTemplate op with
    | Some (valueTemplate, storeText) =>
      forallb (pieceFits cc size) valueTemplate && forallb (pieceFits cc size) storeText
    | None =>
      match template op with
      | Some t => forallb (pieceFits cc size) t
      | None => true
      end
    end.

Lemma fits_emitOk (a : AstStore) (N : Z -> Prop) (p size : Z) :
  fits (nodeOp (a p)) (nodeChildCount (a p)) size = true ->
  (forall k, 1 <= k <= nodeChildCount (a p) -> a (p + k) < 0) ->
  emitOk wasm funcTypes a N (p + size) p.
Proof.
  intros Hfits Hneg.
  assert (Hpieces : forall ps, forallb (pieceFits (nodeChildCount (a p)) size) ps = true ->
                               Forall (pieceOk a N (p + size) p) ps).
  { intros ps H. apply Forall_forall. intros x Hx.
    rewrite forallb_forall in H. specialize (H x Hx).
    destruct x; cbn [pieceFits pieceOk] in *; auto;
      rewrite ?andb_true_iff, ?Z.leb_le, ?Z.ltb_lt in H.
    - destruct H as [[H1 H2] H3]. split; [exact H1|]. split; [lia|]. left. apply Hneg. lia.
    - split; lia.
    - split; lia.
    - split; lia. }
  unfold emitOk, fits in *. cbv zeta.
  destruct (nodeOp (a p) =? Op.call); [discriminate|].
  destruct (nodeOp (a p) =? Op.call_indirect); [discriminate|].
  destruct (nodeOp (a p) =? Op.memory_size); [apply Z.ltb_lt in Hfits; lia|].
  destruct (nodeOp (a p) =? Op.memory_grow).
  { apply andb_true_iff in Hfits. destruct Hfits as [H1 H2].
    apply Z.ltb_lt in H1. apply Z.leb_le in H2. split; [lia|].
    intros j Hj. split; [lia|]. left. apply Hneg. lia. }
  destruct (nodeOp (a p) =? Op.i32_const); [apply Z.ltb_lt in Hfits; lia|].
  destruct (nodeOp (a p) =? Op.i64_const); [apply Z.ltb_lt in Hfits; lia|].
  destruct (nodeOp (a p) =? Op.f32_const); [apply Z.ltb_lt in Hfits; lia|].
  destruct (nodeOp (a p) =? Op.f64_const); [apply Z.ltb_lt in Hfits; lia|].
  destruct (storeTemplate (nodeOp (a p))) as [[valueTemplate storeText]|].
  { apply andb_true_iff in Hfits. destruct Hfits. split; apply Hpieces; assumption. }
  destruct (template (nodeOp (a p))); [|exact I].
  apply Hpieces. exact Hfits.
Qed.

(** The words [ws] are in the store from [p] on. *)
Definition holds (a : AstStore) (p : Z) (ws : list Z) : Prop :=
  forall k, (k < List.length ws)%nat -> a (p + Z.of_nat k) = nth k ws 0.

(** The words of a node that the emitter and the optimizer can handle
    wherever it is put. *)
Definition wordsOk (ws : list Z) : Prop :=
  forall a N p, 0 <= p < astCapacity -> holds a p ws ->
    okNode wasm funcTypes a N (p + Z.of_nat (List.length ws)) p.

Lemma holds_head (a : AstStore) (p h : Z) (rest : list Z) :
  holds a p (h :: rest) -> a p = h.
Proof. intros H. specialize (H 0%nat). cbn in H. rewrite Z.add_0_r in H. apply H. lia. Qed.

Lemma holds_rest (a : AstStore) (p h : Z) (rest : list Z) (k : Z) :
  holds a p (h :: rest) -> 1 <= k <= Z.of_nat (List.length rest) ->
  a (p + k) = nth (Z.to_nat (k - 1)) rest 0.
Proof.
  intros H Hk. specialize (H (S (Z.to_nat (k - 1)))). cbn [nth List.length] in H.
  rewrite <- H by lia. f_equal. lia.
Qed.

(** A node whose emitter follows a template. *)
Lemma wordsOk_template (v : Z) (rest : list Z) :
  fits (opField v) (countField v) (1 + Z.of_nat (List.length rest)) = true ->
  countField v <= Z.of_nat (List.length rest) ->
  (forall k, 1 <= k <= countField v -> nth (Z.to_nat (k - 1)) rest 0 < 0) ->
  wordsOk (toInt32 v :: rest).
Proof.
  intros Hfits Hcount Hneg a N p Hp Hholds.
  pose proof (holds_head _ _ _ _ Hholds) as Hhead.
  assert (Hop : nodeOp (a p) = opField v) by (rewrite Hhead, nodeOp_field; apply opField_toInt32).
  assert (Hcc : nodeChildCount (a p) = countField v)
    by (rewrite Hhead; apply nodeChildCount_field).
  pose proof (countField_range v) as Hrange.
  cbn [List.length]. rewrite Nat2Z.inj_succ.
  split; [lia|]. split; [lia|]. split; [rewrite Hcc; intros j Hj; lia|].
  replace (Z.succ (Z.of_nat (List.length rest))) with (1 + Z.of_nat (List.length rest)) by lia.
  apply fits_emitOk; [rewrite Hop, Hcc; exact Hfits | rewrite Hcc].
  intros k Hk. rewrite (holds_rest _ _ _ _ k Hholds) by lia. apply Hneg. exact Hk.
Qed.

End Nodes.

Section CallNodes.

Variable wasm : WASM.
Variable funcTypes : list FuncType.

Lemma wordsOk_call (v : Z) (rest : list Z) :
  opField v = Op.call ->
  countField v + 1 <= Z.of_nat (List.length rest) ->
  (forall k, 1 <= k <= countField v -> nth (Z.to_nat (k - 1)) rest 0 < 0) ->
  match lookupZ funcTypes (nth (Z.to_nat (countField v)) rest 0) with
  | Some (_, returnTypes) =>
    (Z.of_nat (List.length returnTypes) <? 2) = false ->
    countField v + 2 <= Z.of_nat (List.length rest)
  | None => True
  end ->
  wordsOk wasm funcTypes (toInt32 v :: rest).
Proof.
  intros Hcall Hcount Hneg Hslot a N p Hp Hholds.
  pose proof (holds_head _ _ _ _ Hholds) as Hhead.
  assert (Hop : nodeOp (a p) = Op.call)
    by (rewrite Hhead, nodeOp_field, opField_toInt32; exact Hcall).
  assert (Hcc : nodeChildCount (a p) = countField v)
    by (rewrite Hhead; apply nodeChildCount_field).
  pose proof (countField_range v) as Hrange.
  cbn [List.length]. rewrite Nat2Z.inj_succ.
  split; [lia|]. split; [lia|]. split; [rewrite Hcc; intros j Hj; lia|].
  unfold emitOk. cbv zeta. rewrite Hop, Hcc. change (Op.call =? Op.call) with true. cbv iota.
  split; [lia|]. split.
  - intros j Hj. split; [lia|]. left.
    rewrite (holds_rest _ _ _ _ j Hholds) by lia. apply Hneg. lia.
  - replace (p + countField v + 1) with (p + (countField v + 1)) by lia.
    rewrite (holds_rest _ _ _ _ (countField v + 1) Hholds) by lia.
    replace (countField v + 1 - 1) with (countField v) by lia.
    destruct (lookupZ funcTypes _) as [[argTypes returnTypes]|]; [|exact I].
    intros Hr. specialize (Hslot Hr). lia.
Qed.

Lemma wordsOk_call_indirect (v : Z) (rest : list Z) :
  opField v = Op.call_indirect ->
  countField v + 2 <= Z.of_nat (List.length rest) ->
  (forall k, 1 <= k <= countField v + 1 -> nth (Z.to_nat (k - 1)) rest 0 < 0) ->
  match lookupZ (typeSection_ wasm) (nth (Z.to_nat (countField v + 1)) rest 0) with
  | Some (_, returnTypes) =>
    (Z.of_nat (List.length returnTypes) <? 2) = false ->
    countField v + 3 <= Z.of_nat (List.length rest)
  | None => True
  end ->
  wordsOk wasm funcTypes (toInt32 v :: rest).
Proof.
  intros Hcall Hcount Hneg Hslot a N p Hp Hholds.
  pose proof (holds_head _ _ _ _ Hholds) as Hhead.
  assert (Hop : nodeOp (a p) = Op.call_indirect)
    by (rewrite Hhead, nodeOp_field, opField_toInt32; exact Hcall).
  assert (Hcc : nodeChildCount (a p) = countField v)
    by (rewrite Hhead; apply nodeChildCount_field).
  pose proof (countField_range v) as Hrange.
  cbn [List.length]. rewrite Nat2Z.inj_succ.
  split; [lia|]. split; [lia|]. split; [rewrite Hcc; intros j Hj; lia|].
  unfold emitOk. cbv zeta. rewrite Hop, Hcc.
  change (Op.call_indirect =? Op.call) with false.
  change (Op.call_indirect =? Op.call_indirect) with true. cbv iota.
  split; [lia|]. split.
  - intros j Hj. split; [lia|]. left.
    rewrite (holds_rest _ _ _ _ j Hholds) by lia. apply Hneg. lia.
  - replace (p + countField v + 2) with (p + (countField v + 2)) by lia.
    rewrite (holds_rest _ _ _ _ (countField v + 2) Hholds) by lia.
    replace (countField v + 2 - 1) with (countField v + 1) by lia.
    destruct (lookupZ (typeSection_ wasm) _) as [[argTypes returnTypes]|]; [|exact I].
    intros Hr. specialize (Hslot Hr). lia.
Qed.

(** *** A node that is being written *)

(** The words [ws] of a node have been pushed after the pending nodes,
    and the node is already listed. *)
Definition building (ws : list Z) (s : State) : Prop :=
  exists L ptrs p a0,
    wfLayout wasm funcTypes a0 p L /\ allNodes L ptrs /\ distinct ptrs /\ 0 <= p
    /\ (forall x, 0 <= x < p -> ast s x = a0 x)
    /\ astPtrs s = ptrs ++ [Some p]
    /\ astNextPtr s = p + Z.of_nat (List.length ws)
    /\ holds (ast s) p ws
    /\ (ws <> [] -> p < astCapacity).

Lemma building_open (s : State) :
  pending wasm funcTypes s ->
  building [] (set_astPtrs (astPtrs s ++ [Some (astNextPtr s)]) s).
Proof.
  intros (Hnext & L & Hwf & Hall & Hdis).
  exists L, (astPtrs s), (astNextPtr s), (ast s).
  cbn [ast astPtrs astNextPtr set_astPtrs List.length Z.of_nat].
  split; [exact Hwf|]. split; [exact Hall|]. split; [exact Hdis|]. split; [exact Hnext|].
  split; [reflexivity|]. split; [reflexivity|]. split; [lia|].
  split; [intros k Hk; cbn in Hk; lia|].
  intros H. contradiction.
Qed.

Lemma building_push (ws : list Z) (s : State) (v : Z) :
  building ws s -> 0 <= astNextPtr s < astCapacity ->
  building (ws ++ [toInt32 v])
           (set_ast (upd (ast s) (astNextPtr s) (toInt32 v))
                    (set_astNextPtr (astNextPtr s + 1) s)).
Proof.
  intros (L & ptrs & p & a0 & Hwf & Hall & Hdis & Hp & Hlow & Hptrs & Hnext & Hws & Hcap) Hin.
  exists L, ptrs, p, a0.
  cbn [ast astPtrs astNextPtr set_ast set_astNextPtr].
  split; [exact Hwf|]. split; [exact Hall|]. split; [exact Hdis|]. split; [exact Hp|].
  split; [intros x Hx; rewrite upd_neq by lia; apply Hlow; exact Hx|].
  split; [exact Hptrs|].
  split; [rewrite length_app, Nat2Z.inj_add; cbn; lia|].
  split.
  - intros k Hk. rewrite length_app in Hk. cbn in Hk.
    destruct (Nat.eq_dec k (List.length ws)) as [->|Hne].
    + rewrite <- Hnext, upd_eq, nth_middle. reflexivity.
    + rewrite upd_neq by lia. rewrite app_nth1 by lia. apply Hws. lia.
  - intros _. lia.
Qed.

Lemma building_keep (ws : list Z) (s s' : State) :
  building ws s ->
  ast s' = ast s -> astPtrs s' = astPtrs s -> astNextPtr s' = astNextPtr s ->
  building ws s'.
Proof.
  intros (L & ptrs & p & a0 & H) Ha Hp Hn. exists L, ptrs, p, a0.
  rewrite Ha, Hp, Hn. exact H.
Qed.

Lemma pending_keep (s s' : State) :
  pending wasm funcTypes s ->
  ast s' = ast s -> astPtrs s' = astPtrs s -> astNextPtr s' = astNextPtr s ->
  pending wasm funcTypes s'.
Proof. intros H Ha Hp Hn. unfold pending. rewrite Ha, Hp, Hn. exact H. Qed.

Lemma building_close (ws : list Z) (s : State) :
  building ws s -> ws <> [] -> wordsOk wasm funcTypes ws -> pending wasm funcTypes s.
Proof.
  intros (L & ptrs & p & a0 & Hwf & Hall & Hdis & Hp & Hlow & Hptrs & Hnext & Hws & Hcap)
         Hne Hok.
  specialize (Hcap Hne).
  assert (Hlen : 0 < Z.of_nat (List.length ws)) by (destruct ws; [contradiction | cbn; lia]).
  set (e := p + Z.of_nat (List.length ws)) in *.
  split; [lia|].
  exists (L ++ [(p, e)]).
  assert (HN : forall v, isNode L v -> isNode (L ++ [(p, e)]) v).
  { intros v [ev Hv]. exists ev. apply in_or_app. left. exact Hv. }
  split; [split|split].
  - intros q eq Hq. apply in_app_or in Hq. destruct Hq as [Hq|[Hq|[]]].
    + destruct (proj1 Hwf q eq Hq) as [Hle Hnode]. split; [lia|].
      apply (okNode_ext wasm funcTypes a0 (ast s) (isNode L)); [|exact HN|exact Hnode].
      intros x Hx. apply Hlow. lia.
    + inversion Hq; subst q eq. split; [lia|].
      apply Hok; [lia | exact Hws].
  - intros q eq q' eq' Hq Hq'. apply in_app_or in Hq, Hq'.
    destruct Hq as [Hq|[Hq|[]]], Hq' as [Hq'|[Hq'|[]]].
    + apply (proj2 Hwf q eq q' eq' Hq Hq').
    + inversion Hq'; subst q' eq'. destruct (proj1 Hwf q eq Hq) as [Hle _]. right. left. exact Hle.
    + inversion Hq; subst q eq. destruct (proj1 Hwf q' eq' Hq') as [Hle _]. right. right. exact Hle.
    + left. congruence.
  - rewrite Hptrs. intros q Hq. apply in_app_or in Hq. destruct Hq as [Hq|[Hq|[]]].
    + apply HN, Hall, Hq.
    + inversion Hq; subst q. exists e. apply in_or_app. right. left. reflexivity.
  - rewrite Hptrs.
    assert (Hold : forall k q, nth_error ptrs k = Some (Some q) -> q < p).
    { intros k q Hk. destruct (Hall q (nth_error_In _ _ Hk)) as [eq Heq].
      destruct (proj1 Hwf q eq Heq) as [Hle (Hr & _)]. lia. }
    assert (Hcases : forall k q, nth_error (ptrs ++ [Some p]) k = Some (Some q) ->
                       (k < List.length ptrs)%nat /\ nth_error ptrs k = Some (Some q)
                       \/ k = List.length ptrs /\ q = p).
    { intros k q Hk. destruct (Nat.lt_ge_cases k (List.length ptrs)) as [Hlt|Hge].
      - left. rewrite nth_error_app1 in Hk by exact Hlt. auto.
      - right. rewrite nth_error_app2 in Hk by exact Hge.
        destruct (k - List.length ptrs)%nat as [|m] eqn:E; cbn in Hk.
        + inversion Hk. split; [lia | reflexivity].
        + destruct m; discriminate. }
    intros k k' q Hk Hk'.
    destruct (Hcases k q Hk) as [[Hlt Hn]|[E1 E2]], (Hcases k' q Hk') as [[Hlt' Hn']|[E3 E4]].
    + apply (Hdis k k' q Hn Hn').
    + subst. specialize (Hold k p Hn). lia.
    + subst. specialize (Hold k' p Hn'). lia.
    + subst. reflexivity.
Qed.

End CallNodes.

(** *** Triples *)

Definition triple {A : Type} (P : State -> Prop) (c : M A) (Q : A -> State -> Prop) : Prop :=
  forall s x s', P s -> c s = Ok (x, s') -> Q x s'.

Lemma triple_bind {A B : Type} (P : State -> Prop) (Q : A -> State -> Prop)
      (R : B -> State -> Prop) (c : M A) (k : A -> M B) :
  triple P c Q -> (forall x, triple (Q x) (k x) R) -> triple P (bind c k) R.
Proof.
  intros Hc Hk s y s' HP H. apply bind_Ok in H. destruct H as (x & s1 & H1 & H2).
  apply (Hk x s1 y s' (Hc s x s1 HP H1) H2).
Qed.

Lemma triple_conseq {A : Type} (P P' : State -> Prop) (Q Q' : A -> State -> Prop) (c : M A) :
  (forall s, P' s -> P s) -> (forall x s, Q x s -> Q' x s) -> triple P c Q -> triple P' c Q'.
Proof. intros HP HQ Hc s x s' H1 H2. apply HQ. apply (Hc s x s'); auto. Qed.

Lemma triple_ret {A : Type} (P : State -> Prop) (x : A) :
  triple P (ret x) (fun y s => y = x /\ P s).
Proof. intros s y s' HP H. inversion H; subst. auto. Qed.

Lemma triple_throw {A : Type} (P : State -> Prop) (Q : A -> State -> Prop) (e : Error) :
  triple P (throw e) Q.
Proof. intros s y s' HP H. discriminate. Qed.

Lemma triple_gets {A : Type} (P : State -> Prop) (f : State -> A) :
  triple P (gets f) (fun x s => x = f s /\ P s).
Proof. intros s y s' HP H. inversion H; subst. auto. Qed.

Lemma triple_modify (P : State -> Prop) (g : State -> State) :
  triple P (modify g) (fun _ s' => exists s, s' = g s /\ P s).
Proof. intros s y s' HP H. inversion H; subst. eauto. Qed.

Lemma triple_pushWord (P : State -> Prop) (v : Z) :
  triple P (pushWord v)
         (fun _ s' => exists s,
              s' = set_ast (upd (ast s) (astNextPtr s) (toInt32 v))
                           (set_astNextPtr (astNextPtr s + 1) s)
              /\ 0 <= astNextPtr s < astCapacity /\ P s).
Proof.
  intros s y s' HP H. unfold pushWord, bind, gets, modify, astSet in H.
  cbn [astNextPtr set_astNextPtr ast] in H.
  destruct ((0 <=? astNextPtr s) && (astNextPtr s <? astCapacity)) eqn:E; [|discriminate].
  inversion H; subst. exists s. split; [reflexivity|]. split; [lia | exact HP].
Qed.

Lemma triple_at {A : Type} (P : State -> Prop) (c : M A) (Q : A -> State -> Prop) :
  (forall s0, P s0 -> triple (fun s => s = s0) c Q) -> triple P c Q.
Proof. intros H s x s' HP Hrun. apply (H s HP s x s'); auto. Qed.

(** A computation that leaves alone what [P] speaks about. *)
Lemma triple_keeps {A X : Type} (f : State -> X) (P : X -> Prop) (c : M A) :
  keeps f c -> triple (fun s => P (f s)) c (fun _ s' => P (f s')).
Proof. intros Hk s x s' HP H. rewrite (Hk s x s' H). exact HP. Qed.

(** A store-blind computation with a triple. *)
Lemma rel_blind {A : Type} (P : State -> Prop) (Q : A -> State -> Prop) (c : M A) :
  blind c -> triple P c Q -> rel P c Q.
Proof.
  intros Hb Ht s b HP Hag. specialize (Hb s b I Hag).
  destruct (c s) as [[x s']|e] eqn:E; [|exact Hb].
  destruct Hb as [_ Hb]. split; [apply (Ht s x s' HP E) | exact Hb].
Qed.

Lemma triple_pure {A : Type} (phi : Prop) (P : State -> Prop) (c : M A)
      (Q : A -> State -> Prop) :
  (phi -> triple P c Q) -> triple (fun s => phi /\ P s) c Q.
Proof. intros H s x s' [Hphi HP]. apply (H Hphi s x s' HP). Qed.

Lemma triple_if {A : Type} (t : bool) (P : State -> Prop) (c1 c2 : M A)
      (Q : A -> State -> Prop) :
  (t = true -> triple P c1 Q) -> (t = false -> triple P c2 Q) ->
  triple P (if t then c1 else c2) Q.
Proof. destruct t; auto. Qed.

Lemma triple_skip (P : State -> Prop) : triple P (ret tt) (fun _ => P).
Proof. intros s x s' HP H. inversion H; subst. exact HP. Qed.

Lemma triple_read {A : Type} (P : State -> Prop) (f : State -> A) :
  triple P (gets f) (fun _ => P).
Proof. intros s x s' HP H. unfold gets in H. injection H as _ <-. exact HP. Qed.

(** What the assertions on nodes look at. *)
Definition nodeView (s : State) : AstStore * list (option Z) * Z * Z :=
  (ast s, astPtrs s, astNextPtr s, stackTop s).

Lemma triple_kept {A : Type} (X : State -> Prop) (c : M A) :
  (forall s s', nodeView s' = nodeView s -> X s -> X s') ->
  keeps nodeView c -> triple X c (fun _ => X).
Proof. intros HX Hk s x s' H Hrun. apply (HX s s'); [apply (Hk s x s' Hrun) | exact H]. Qed.

Lemma toInt32_neg (x : Z) : 1 <= x <= 2 ^ 31 -> toInt32 (- x) < 0.
Proof.
  intros H. rewrite toInt32_small; [lia|].
  change (2 ^ 31) with 2147483648 in *. lia.
Qed.

Section NodeTriples.

Variable wasm : WASM.
Variable funcTypes : list FuncType.

(** The most values that the theorems below allow on the stack. *)
Definition stackBound : Z := 65535.

Definition pendingAt (t : Z) (s : State) : Prop :=
  pending wasm funcTypes s /\ stackTop s = t.

Definition buildingAt (ws : list Z) (t : Z) (s : State) : Prop :=
  building wasm funcTypes ws s /\ stackTop s = t.

Lemma pendingAt_view (t : Z) (s s' : State) :
  nodeView s' = nodeView s -> pendingAt t s -> pendingAt t s'.
Proof.
  unfold nodeView. intros E [H1 H2]. inversion E.
  split; [apply (pending_keep wasm funcTypes s s' H1); assumption | congruence].
Qed.

Lemma buildingAt_view (ws : list Z) (t : Z) (s s' : State) :
  nodeView s' = nodeView s -> buildingAt ws t s -> buildingAt ws t s'.
Proof.
  unfold nodeView. intros E [H1 H2]. inversion E.
  split; [apply (building_keep wasm funcTypes ws s s' H1); assumption | congruence].
Qed.

Lemma triple_pushPtr (t : Z) : triple (pendingAt t) pushPtr (fun _ => buildingAt [] t).
Proof.
  intros s x s' [H1 H2] Hrun. unfold pushPtr, modify in Hrun.
  injection Hrun as _ <-.
  split; [apply building_open; exact H1 | exact H2].
Qed.

Lemma triple_word (ws : list Z) (t v : Z) :
  triple (buildingAt ws t) (pushWord v) (fun _ => buildingAt (ws ++ [toInt32 v]) t).
Proof.
  intros s x s' [H1 H2] Hrun.
  unfold pushWord, bind, gets, modify, astSet in Hrun.
  cbn [astNextPtr set_astNextPtr ast] in Hrun.
  destruct ((0 <=? astNextPtr s) && (astNextPtr s <? astCapacity)) eqn:E; [|discriminate].
  injection Hrun as _ <-.
  split; [apply building_push; [exact H1 | lia] | exact H2].
Qed.

Lemma triple_top (X : Z -> State -> Prop) (t : Z) :
  (forall s, X t s -> stackTop s = t) ->
  triple (X t) (gets stackTop) (fun x s => x = t /\ X t s).
Proof.
  intros HX s x s' H Hrun. unfold gets in Hrun. injection Hrun as <- <-.
  split; [apply HX|]; exact H.
Qed.

Lemma triple_setTop (t : Z) (f : Z -> Z) :
  triple (pendingAt t) (modify (fun s => set_stackTop (f (stackTop s)) s))
         (fun _ => pendingAt (f t)).
Proof.
  intros s x s' [H1 H2] Hrun. unfold modify in Hrun. injection Hrun as _ <-.
  split; [apply (pending_keep wasm funcTypes s); auto | cbn; congruence].
Qed.

Lemma pendingAt_close (ws : list Z) (t : Z) (s : State) :
  buildingAt ws t s -> ws <> [] -> wordsOk wasm funcTypes ws -> pendingAt t s.
Proof. intros [H1 H2] Hne Hok. split; [apply (building_close _ _ ws); assumption | exact H2]. Qed.

(** A node of [n] words after the header, written one by one. *)
Lemma triple_node (t : Z) (c : M unit) (ws : list Z) :
  triple (pendingAt t) c (fun _ => buildingAt ws t) ->
  ws <> [] -> wordsOk wasm funcTypes ws ->
  triple (pendingAt t) c (fun _ => pendingAt t).
Proof.
  intros Hc Hne Hok. eapply triple_conseq; [| |exact Hc]; [auto|].
  intros x s H. apply (pendingAt_close ws); assumption.
Qed.

(** [pushUnary]. *)
Definition unaryOk (op : Z) : Prop := 0 <= op < 256 /\ fits op 1 2 = true.

Lemma fields_header (op cc slot : Z) :
  0 <= op < 256 -> 0 <= cc < 65536 ->
  opField (header op cc slot) = op /\ countField (header op cc slot) = cc.
Proof.
  intros Hop Hcc. unfold header.
  rewrite !opField_js_or, !countField_js_or.
  rewrite opField_shl8, opField_shl24, countField_shl24, countField_shl8 by exact Hcc.
  rewrite opField_small, countField_small by exact Hop.
  rewrite !Z.lor_0_r, Z.lor_0_l. auto.
Qed.

Lemma triple_pushUnary (t op slot : Z) :
  unaryOk op -> 1 <= slot <= 2 ^ 31 ->
  triple (pendingAt t) (pushUnary op slot) (fun _ => pendingAt t).
Proof.
  intros [Hop Hfits] Hslot. unfold pushUnary.
  apply (triple_node t _ [toInt32 (header op 1 slot); toInt32 (- slot)]).
  - eapply triple_bind; [apply triple_pushPtr|]. intros [].
    eapply triple_bind; [apply triple_word|]. intros [].
    apply triple_word.
  - discriminate.
  - destruct (fields_header op 1 slot Hop ltac:(lia)) as [E1 E2].
    apply wordsOk_template; rewrite ?E1, ?E2.
    + exact Hfits.
    + cbn. lia.
    + intros k Hk. replace k with 1 by lia. cbn. apply toInt32_neg. exact Hslot.
Qed.

End NodeTriples.

(** *** The table-driven instructions *)

Lemma metaTable_byte (op : Z) : metaTable op <> 0 -> 0 <= op < 256.
Proof.
  intros H.
  destruct op as [|p|p]; [lia | | exfalso; apply H; reflexivity].
  assert (Hp : (p < 256)%positive \/ (256 <= p)%positive) by lia.
  destruct Hp as [Hp|Hp]; [lia|]. exfalso. apply H.
  do 8 (destruct p as [p|p|]; [| |lia]); reflexivity.
Qed.

Lemma simple_byte (op : Z) : hasFlag (metaTable op) MetaFlag.Simple = true -> 0 <= op < 256.
Proof.
  intros H. apply metaTable_byte. intros E. rewrite E in H. discriminate.
Qed.

(** What the table promises for an opcode on the table-driven path: its
    template fits the node that the decoder writes, a comparison pushes
    its result, and a 64-bit shift has two operands. *)
Definition simpleOk (op : Z) : bool :=
  let flags := metaTable op in
  let cc := js_and flags MetaFlag.PopMask in
  negb (hasFlag flags MetaFlag.Simple)
  || ((hasFlag flags MetaFlag.Omit
       || fits op cc (1 + cc + (if hasFlag flags MetaFlag.HasIndex then 1 else 0)))
      && (negb (hasFlag flags MetaFlag.BoolToInt) || hasFlag flags MetaFlag.Push)
      && (negb (hasFlag flags MetaFlag.And63) || (cc =? 2))
      && (0 <=? cc) && (cc <=? 3)).

Lemma simpleOk_all (op : Z) : 0 <= op < 256 -> simpleOk op = true.
Proof. apply (forall_bytes simpleOk). vm_compute. reflexivity. Qed.

(** The integers [from], [from + 1], ..., [n] of them. *)
Definition zrange (from : Z) (n : nat) : list Z := map (fun k => from + Z.of_nat k) (seq 0 n).

Lemma zrange_S (from : Z) (n : nat) : zrange from (S n) = from :: zrange (from + 1) n.
Proof.
  unfold zrange. cbn [seq map]. rewrite Z.add_0_r. f_equal.
  rewrite <- seq_shift, map_map. apply map_ext. intros k. lia.
Qed.

Lemma length_zrange (from : Z) (n : nat) : List.length (zrange from n) = n.
Proof. unfold zrange. rewrite length_map, length_seq. reflexivity. Qed.

Lemma nth_zrange (from : Z) (n k : nat) (g : Z -> Z) :
  (k < n)%nat -> nth k (map g (zrange from n)) 0 = g (from + Z.of_nat k).
Proof.
  intros Hk. unfold zrange. rewrite map_map.
  rewrite nth_indep with (d' := g (from + Z.of_nat 0))
    by (rewrite length_map, length_seq; exact Hk).
  rewrite (map_nth (fun x => g (from + Z.of_nat x))), seq_nth by exact Hk. reflexivity.
Qed.

Lemma triple_forRange (P : State -> Prop) (from : Z) (n : nat) (f : Z -> M unit) :
  (forall k, from <= k < from + Z.of_nat n -> triple P (f k) (fun _ => P)) ->
  triple P (forRange from n f) (fun _ => P).
Proof.
  revert from. induction n as [|n IH]; intros from Hf; cbn [forRange].
  - apply triple_skip.
  - eapply triple_bind; [apply Hf; lia|]. intros []. apply IH. intros k Hk. apply Hf. lia.
Qed.

Section SimpleTriples.

Variable wasm : WASM.
Variable funcTypes : list FuncType.

Local Abbreviation pendingAt := (pendingAt wasm funcTypes).
Local Abbreviation buildingAt := (buildingAt wasm funcTypes).

Lemma pendingAt_top (t : Z) (s : State) : pendingAt t s -> stackTop s = t.
Proof. intros [_ H]. exact H. Qed.

Lemma buildingAt_top (ws : list Z) (t : Z) (s : State) : buildingAt ws t s -> stackTop s = t.
Proof. intros [_ H]. exact H. Qed.

(** The loop that pushes the children of a node. *)
Lemma triple_words (t : Z) (g : Z -> Z) (n : nat) :
  forall ws from,
    triple (buildingAt ws t) (forRange from n (fun i => pushWord (g i)))
           (fun _ => buildingAt (ws ++ map (fun i => toInt32 (g i)) (zrange from n)) t).
Proof.
  induction n as [|n IH]; intros ws from; cbn [forRange].
  - eapply triple_conseq; [| |apply triple_skip]; [intros s H; exact H|].
    intros x s H. unfold zrange. cbn. rewrite app_nil_r. exact H.
  - eapply triple_bind; [apply triple_word|]. intros [].
    eapply triple_conseq; [| |apply IH]; [intros s H; exact H|].
    intros x s H. rewrite zrange_S. cbn [map]. rewrite <- app_assoc in H. exact H.
Qed.

Lemma triple_view (X : State -> Prop) {A : Type} (c : M A) :
  (forall s s', nodeView s' = nodeView s -> X s -> X s') ->
  keeps nodeView c -> triple X c (fun _ => X).
Proof. apply triple_kept. Qed.

Lemma triple_skipBytes (X : State -> Prop) (n : Z) :
  (forall s s', nodeView s' = nodeView s -> X s -> X s') ->
  triple X (skipBytes n) (fun _ => X).
Proof. intros HX. apply triple_kept; [exact HX|]. apply keeps_skipBytes. reflexivity. Qed.

Lemma triple_and63 (t : Z) :
  1 <= t <= stackBound ->
  triple (pendingAt t)
         (top <- gets stackTop ;;
          pushPtr ;;
          pushWord (js_or Op.i64_const (js_shl (top + 1) Pack.OutSlotShift)) ;;
          cs <- gets constants ;;
          pushWord (Z.of_nat (List.length cs)) ;;
          modify (set_constants (cs ++ [63])) ;;
          pushPtr ;;
          pushWord (header Op.i64_and 2 top) ;;
          pushWord (- top) ;;
          pushWord (- (top + 1)))
         (fun _ => pendingAt t).
Proof.
  intros Ht. unfold stackBound in Ht.
  eapply triple_bind; [apply (triple_top pendingAt), pendingAt_top|].
  intros top. apply triple_pure. intros ->.
  eapply triple_bind; [apply triple_pushPtr|]. intros [].
  eapply triple_bind; [apply triple_word|]. intros [].
  eapply triple_bind; [apply triple_read|]. intros cs.
  eapply triple_bind; [apply triple_word|]. intros [].
  eapply triple_bind.
  { apply triple_kept; [apply buildingAt_view | apply keeps_modify; reflexivity]. }
  intros [].
  eapply triple_bind.
  { eapply triple_conseq; [| |apply (triple_pushPtr wasm funcTypes t)]; [|intros x s H; exact H].
    intros s H. refine (pendingAt_close wasm funcTypes _ t s H _ _); [discriminate|].
    apply wordsOk_template.
    - rewrite opField_js_or, countField_js_or, opField_shl24, countField_shl24.
      reflexivity.
    - rewrite countField_js_or, countField_shl24. cbn. lia.
    - rewrite countField_js_or, countField_shl24. cbn. intros k Hk. lia. }
  intros [].
  eapply triple_bind; [apply triple_word|]. intros [].
  eapply triple_bind; [apply triple_word|]. intros [].
  eapply triple_conseq; [| |apply triple_word]; [intros s H; exact H|].
  intros x s H. refine (pendingAt_close wasm funcTypes _ t s H _ _); [discriminate|].
  destruct (fields_header Op.i64_and 2 t ltac:(unfold Op.i64_and; lia) ltac:(lia)) as [E1 E2].
  apply wordsOk_template; rewrite ?E1, ?E2.
  - reflexivity.
  - cbn. lia.
  - intros k Hk. assert (Hk' : k = 1 \/ k = 2) by lia.
    destruct Hk' as [->| ->]; cbn; apply toInt32_neg; change (2 ^ 31) with 2147483648; lia.
Qed.

Lemma fields_simple (op slot cc : Z) (push : bool) :
  0 <= op < 256 -> 0 <= cc < 65536 ->
  let op' := if push then js_or op (js_shl slot Pack.OutSlotShift) else op in
  opField (js_or op' (js_shl cc Pack.ChildCountShift)) = op
  /\ countField (js_or op' (js_shl cc Pack.ChildCountShift)) = cc.
Proof.
  intros Hop Hcc. cbv zeta.
  rewrite opField_js_or, countField_js_or, opField_shl8, countField_shl8 by exact Hcc.
  destruct push.
  - rewrite opField_js_or, countField_js_or, opField_shl24, countField_shl24.
    rewrite opField_small, countField_small by exact Hop.
    rewrite !Z.lor_0_r, Z.lor_0_l. auto.
  - rewrite opField_small, countField_small by exact Hop.
    rewrite Z.lor_0_r, Z.lor_0_l. auto.
Qed.

(** The words of a node with [cc] children on the slots above [t]. *)
Lemma wordsOk_children (v t cc : Z) (extra : list Z) :
  0 <= cc -> 0 <= t -> t + cc <= 2 ^ 31 ->
  countField v = cc ->
  fits (opField v) cc (1 + cc + Z.of_nat (List.length extra)) = true ->
  wordsOk wasm funcTypes
          (toInt32 v :: map (fun i => toInt32 (- (t + i))) (zrange 1 (Z.to_nat cc)) ++ extra).
Proof.
  intros Hcc Ht Hmax Ecc Hfits.
  assert (Hlen : Z.of_nat (List.length
                   (map (fun i => toInt32 (- (t + i))) (zrange 1 (Z.to_nat cc)) ++ extra))
                 = cc + Z.of_nat (List.length extra)).
  { rewrite length_app, length_map, length_zrange. lia. }
  apply wordsOk_template; rewrite ?Ecc, ?Hlen.
  - replace (1 + (cc + Z.of_nat (List.length extra)))
      with (1 + cc + Z.of_nat (List.length extra)) by lia. exact Hfits.
  - lia.
  - intros k Hk.
    rewrite app_nth1 by (rewrite length_map, length_zrange; lia).
    rewrite (nth_zrange 1 (Z.to_nat cc) _ (fun i => toInt32 (- (t + i)))) by lia.
    apply toInt32_neg. lia.
Qed.

Lemma triple_decodeSimple (t op : Z) :
  hasFlag (metaTable op) MetaFlag.Simple = true ->
  js_and (metaTable op) MetaFlag.PopMask <= t <= stackBound ->
  triple (pendingAt t) (decodeSimple wasm op (metaTable op))
         (fun _ s => pending wasm funcTypes s).
Proof.
  intros Hsimple Ht. unfold stackBound in Ht.
  pose proof (simple_byte op Hsimple) as Hop.
  pose proof (simpleOk_all op Hop) as Hok.
  unfold simpleOk in Hok. cbv zeta in Hok. rewrite Hsimple in Hok. cbn [negb orb] in Hok.
  unfold decodeSimple. cbv zeta.
  set (flags := metaTable op) in *. set (cc := js_and flags MetaFlag.PopMask) in *.
  rewrite !andb_true_iff in Hok. destruct Hok as ((((Hfit & Hbool) & Hand) & Hcc0) & Hcc3).
  apply Z.leb_le in Hcc0, Hcc3.
  set (t1 := t - cc).
  assert (Hunary : forall op', In op' [Op.TO_U32; Op.TO_S64; Op.BOOL_TO_INT] ->
                     unaryOk op').
  { intros op' [<-|[<-|[<-|[]]]]; split; try reflexivity; unfold Op.TO_U32, Op.TO_S64, Op.BOOL_TO_INT; lia. }
  (* the constant 63 and the AND *)
  eapply triple_bind.
  { apply triple_if; intros Eand; [|apply triple_skip].
    apply triple_and63. rewrite Eand in Hand. cbn in Hand. apply Z.eqb_eq in Hand.
    unfold stackBound. lia. }
  intros [].
  eapply triple_bind; [apply (triple_setTop wasm funcTypes t (fun x => x - cc))|].
  intros []. cbv beta. fold t1.
  (* the sign conversions of the operands *)
  eapply triple_bind.
  { apply triple_if; intros Econv; [|apply triple_skip].
    eapply triple_bind; [apply (triple_top pendingAt), pendingAt_top|].
    intros top. apply triple_pure. intros ->.
    apply triple_forRange. intros k Hk. rewrite Z2Nat.id in Hk by lia.
    apply triple_pushUnary.
    - apply Hunary. destruct (hasFlag flags MetaFlag.ToU32); cbn; auto.
    - change (2 ^ 31) with 2147483648. unfold t1. lia. }
  intros [].
  (* the node of the instruction *)
  eapply triple_bind.
  { apply triple_if; intros Eomit; [|apply triple_skip].
    apply negb_true_iff in Eomit. rewrite Eomit in Hfit. cbn [orb] in Hfit.
    eapply triple_bind.
    { apply triple_if; intros _; [apply triple_skipBytes, pendingAt_view | apply triple_skip]. }
    intros [].
    eapply triple_bind; [apply triple_pushPtr|]. intros [].
    eapply triple_bind; [apply (triple_top (buildingAt [])), buildingAt_top|].
    intros top. apply triple_pure. intros ->.
    eapply triple_bind; [apply triple_word|]. intros [].
    eapply triple_bind; [apply triple_words|]. intros [].
    cbn [app].
    destruct (fields_simple op (t1 + 1) cc (hasFlag flags MetaFlag.Push) Hop ltac:(lia))
      as [E1 E2].
    destruct (hasFlag flags MetaFlag.HasIndex) eqn:Eidx.
    - eapply triple_bind.
      { apply triple_kept; [apply buildingAt_view | apply keeps_readU32LEB; reflexivity]. }
      intros index.
      eapply triple_conseq; [| |apply triple_word]; [intros s H; exact H|].
      intros x s H. refine (pendingAt_close wasm funcTypes _ t1 s H _ _); [discriminate|].
      cbn [app].
      apply wordsOk_children; rewrite ?E1; try (unfold t1; lia); [exact E2|].
      cbn [List.length app]. exact Hfit.
    - eapply triple_conseq; [| |apply triple_skip]; [intros s H; exact H|].
      intros x s H. refine (pendingAt_close wasm funcTypes _ t1 s H _ _); [discriminate|].
      rewrite <- (app_nil_r (map _ _)).
      apply wordsOk_children; rewrite ?E1; try (unfold t1; lia); [exact E2|].
      cbn [List.length]. exact Hfit. }
  intros [].
  (* the result and its conversion *)
  destruct (hasFlag flags MetaFlag.Push) eqn:Epush.
  - eapply triple_bind; [apply (triple_setTop wasm funcTypes t1 (fun x => x + 1))|].
    intros []. cbv beta.
    apply triple_if; intros Ebool.
    + eapply triple_bind; [apply (triple_top pendingAt), pendingAt_top|].
      intros top. apply triple_pure. intros ->.
      eapply triple_conseq; [| |apply triple_pushUnary];
        [intros s H; exact H | intros x s [H _]; exact H | |].
      * apply Hunary. cbn. auto.
      * change (2 ^ 31) with 2147483648. unfold t1. lia.
    + eapply triple_conseq; [| |apply triple_skip]; [intros s H; exact H|].
      intros x s [H _]. exact H.
  - eapply triple_bind; [apply triple_skip|]. intros [].
    rewrite orb_false_r in Hbool. apply negb_true_iff in Hbool. rewrite Hbool.
    eapply triple_conseq; [| |apply triple_skip]; [intros s H; exact H|].
    intros x s [H _]. exact H.
Qed.

End SimpleTriples.

(** *** The instructions with a case of their own *)

Section SpecialTriples.

Variable wasm : WASM.
Variable funcTypes : list FuncType.

Local Abbreviation pendingAt := (pendingAt wasm funcTypes).
Local Abbreviation buildingAt := (buildingAt wasm funcTypes).
Local Abbreviation pending := (pending wasm funcTypes).

Lemma fields_const (op slot : Z) :
  0 <= op < 256 ->
  opField (js_or op (js_shl slot Pack.OutSlotShift)) = op
  /\ countField (js_or op (js_shl slot Pack.OutSlotShift)) = 0.
Proof.
  intros Hop.
  rewrite opField_js_or, countField_js_or, opField_shl24, countField_shl24.
  rewrite opField_small, countField_small by exact Hop. rewrite Z.lor_0_r. auto.
Qed.

Lemma triple_pushConst (t op : Z) (payload : M Z) :
  0 <= op < 256 -> fits op 0 2 = true ->
  (forall ws t', triple (buildingAt ws t') payload (fun _ => buildingAt ws t')) ->
  triple (pendingAt t) (pushConst op payload) (fun _ s => pending s).
Proof.
  intros Hop Hfits Hpayload. unfold pushConst.
  eapply triple_bind; [apply triple_pushPtr|]. intros [].
  eapply triple_bind.
  { refine (_ : triple _ _ (fun _ => buildingAt [] (t + 1))).
    intros s x s' [H1 H2] Hrun. unfold modify in Hrun. injection Hrun as _ <-.
    split; [apply (building_keep wasm funcTypes [] s); auto | cbn; lia]. }
  intros [].
  eapply triple_bind; [apply (triple_top (buildingAt [])), buildingAt_top|].
  intros top. apply triple_pure. intros ->.
  eapply triple_bind; [apply triple_word|]. intros [].
  eapply triple_bind; [apply Hpayload|]. intros w.
  eapply triple_conseq; [| |apply triple_word]; [intros s H; exact H|].
  intros x s H.
  refine (proj1 (pendingAt_close wasm funcTypes _ (t + 1) s H _ _)); [discriminate|].
  cbn [app]. destruct (fields_const op (t + 1) Hop) as [E1 E2].
  apply wordsOk_template; rewrite ?E1, ?E2.
  - exact Hfits.
  - cbn. lia.
  - intros k Hk. lia.
Qed.

Lemma triple_pushTernary (t op c1 c2 c3 : Z) :
  0 <= op < 256 -> fits op 3 4 = true ->
  3 <= t <= stackBound -> 0 <= c1 <= 2 -> 0 <= c2 <= 2 -> 0 <= c3 <= 2 ->
  triple (pendingAt t) (pushTernary op c1 c2 c3) (fun _ s => pending s).
Proof.
  intros Hop Hfits Ht H1 H2 H3. unfold stackBound in Ht. unfold pushTernary.
  eapply triple_bind; [apply (triple_setTop wasm funcTypes t (fun x => x - 2))|].
  intros []. cbv beta.
  eapply triple_bind; [apply (triple_top pendingAt), pendingAt_top|].
  intros top. apply triple_pure. intros ->.
  eapply triple_bind; [apply triple_pushPtr|]. intros [].
  eapply triple_bind; [apply triple_word|]. intros [].
  eapply triple_bind; [apply triple_word|]. intros [].
  eapply triple_bind; [apply triple_word|]. intros [].
  eapply triple_conseq; [| |apply triple_word]; [intros s H; exact H|].
  intros x s H.
  refine (proj1 (pendingAt_close wasm funcTypes _ (t - 2) s H _ _)); [discriminate|].
  cbn [app]. destruct (fields_header op 3 (t - 2) Hop ltac:(lia)) as [E1 E2].
  apply wordsOk_template; rewrite ?E1, ?E2.
  - exact Hfits.
  - cbn. lia.
  - intros k Hk. assert (Hk' : k = 1 \/ k = 2 \/ k = 3) by lia.
    destruct Hk' as [->|[->| ->]]; cbn; apply toInt32_neg;
      change (2 ^ 31) with 2147483648; lia.
Qed.

(** [call] and [call_indirect]. *)
Lemma fields_call (op slot cc : Z) (single : bool) :
  0 <= op < 256 -> 0 <= cc < 65536 ->
  let op' := if single then js_or op (js_shl slot Pack.OutSlotShift) else op in
  opField (js_or op' (js_shl cc Pack.ChildCountShift)) = op
  /\ countField (js_or op' (js_shl cc Pack.ChildCountShift)) = cc.
Proof. apply fields_simple. Qed.

Lemma lookupZ_toInt32 {A : Type} (l : list A) (index : Z) (x y : A) :
  0 <= index < 2 ^ 32 ->
  lookupZ l index = Some x -> lookupZ l (toInt32 index) = Some y -> x = y.
Proof.
  intros Hrange Hx Hy.
  destruct (Z.lt_ge_cases index (2 ^ 31)) as [Hlt|Hge].
  - rewrite toInt32_small in Hy by (change (2 ^ 31) with 2147483648 in *; lia). congruence.
  - unfold lookupZ in Hy.
    assert (Hneg : toInt32 index < 0).
    { unfold toInt32. change (2 ^ 31) with 2147483648 in *.
      change (2 ^ 32) with 4294967296 in *.
      replace (index + 2147483648) with (index - 2147483648 + 1 * 4294967296) by lia.
      rewrite Z.mod_add by lia. rewrite Z.mod_small by lia. lia. }
    destruct (Z.ltb_spec (toInt32 index) 0); [discriminate | lia].
Qed.

Lemma triple_pushCall_direct (t index : Z) (argTypes returnTypes : list ValType) :
  lookupZ funcTypes index = Some (argTypes, returnTypes) ->
  0 <= index < 2 ^ 32 ->
  0 <= t -> t + Z.of_nat (List.length argTypes) <= stackBound ->
  triple (pendingAt t)
         (pushCall Op.call (Z.of_nat (List.length argTypes))
                   (Z.of_nat (List.length returnTypes)) false index)
         (fun _ s => pending s).
Proof.
  intros Hlook Hindex Ht Hmax. unfold stackBound in Hmax. unfold pushCall.
  set (argCount := Z.of_nat (List.length argTypes)) in *.
  set (returnCount := Z.of_nat (List.length returnTypes)) in *.
  assert (Hop : 0 <= Op.call < 256) by (unfold Op.call; lia).
  eapply triple_bind; [apply (triple_top pendingAt), pendingAt_top|].
  intros top. apply triple_pure. intros ->.
  eapply triple_bind; [apply triple_pushPtr|]. intros [].
  eapply triple_bind; [apply triple_word|]. intros [].
  eapply triple_bind; [apply triple_skip|]. intros [].
  eapply triple_bind; [apply triple_words|]. intros [].
  eapply triple_bind; [apply triple_word|]. intros [].
  cbn [app].
  destruct (fields_call Op.call (t + 1) argCount (returnCount =? 1) Hop ltac:(lia)) as [E1 E2].
  assert (Hclose : forall extra : list Z,
             ((returnCount >? 1) = true -> (1 <= List.length extra)%nat) ->
             wordsOk wasm funcTypes
               ((toInt32 (js_or (if returnCount =? 1
                                 then js_or Op.call (js_shl (t + 1) Pack.OutSlotShift)
                                 else Op.call)
                                (js_shl argCount Pack.ChildCountShift))
                 :: (map (fun i => toInt32 (- (t + i))) (zrange 1 (Z.to_nat argCount))
                     ++ (toInt32 index :: extra))))).
  { intros extra Hextra.
    assert (Hkids : List.length (map (fun i => toInt32 (- (t + i)))
                                     (zrange 1 (Z.to_nat argCount))) = Z.to_nat argCount)
      by (rewrite length_map, length_zrange; reflexivity).
    apply wordsOk_call; rewrite ?E1, ?E2.
    - reflexivity.
    - rewrite length_app, Hkids. cbn [List.length]. lia.
    - intros k Hk. rewrite app_nth1 by (rewrite Hkids; lia).
      rewrite (nth_zrange 1 (Z.to_nat argCount) _ (fun i => toInt32 (- (t + i)))) by lia.
      apply toInt32_neg. change (2 ^ 31) with 2147483648. lia.
    - rewrite app_nth2 by (rewrite Hkids; lia). rewrite Hkids.
      replace (Z.to_nat argCount - Z.to_nat argCount)%nat with 0%nat by lia. cbn [nth].
      destruct (lookupZ funcTypes (toInt32 index)) as [[argTypes' returnTypes']|] eqn:E;
        [|exact I].
      pose proof (lookupZ_toInt32 _ _ _ _ Hindex Hlook E) as Heq. inversion Heq; subst.
      intros Hr. rewrite length_app, Hkids. cbn [List.length].
      assert (Hgt : (returnCount >? 1) = true).
      { unfold returnCount. apply Z.ltb_ge in Hr. apply Z.gtb_lt. lia. }
      specialize (Hextra Hgt). lia. }
  eapply triple_bind.
  { refine (_ : triple _ _ (fun _ s => pending s)).
    destruct (returnCount >? 1) eqn:Egt.
    - eapply triple_conseq; [| |apply triple_word]; [intros s H; exact H|].
      intros x s H.
      refine (proj1 (pendingAt_close wasm funcTypes _ t s H _ _)); [discriminate|].
      cbn [app]. rewrite <- ?app_assoc. cbn [app]. apply Hclose. intros _. cbn. lia.
    - eapply triple_conseq; [| |apply triple_skip]; [intros s H; exact H|].
      intros x s H.
      refine (proj1 (pendingAt_close wasm funcTypes _ t s H _ _)); [discriminate|].
      cbn [app]. rewrite <- ?app_assoc. cbn [app]. apply Hclose. discriminate. }
  intros [].
  intros s x s' H Hrun. unfold modify in Hrun. injection Hrun as _ <-.
  apply (pending_keep wasm funcTypes s); auto.
Qed.

End SpecialTriples.

(** *** What an instruction finds on the stack *)

Definition liveb (s : State) : bool :=
  match topOf (blocks s) with
  | Some block => negb (isDead_ block)
  | None => false
  end.

(** The index that [readU32LEB] reads at [p]. *)
Definition indexAt (wasm : WASM) (p : Z) : Z := fst (u32At wasm p).

Lemma indexAt_range (wasm : WASM) (p : Z) : 0 <= indexAt wasm p < 2 ^ 32.
Proof.
  unfold indexAt, u32At. destruct (lebLoop _ _ _ _ _) as [[[v sh] b] c]. cbn [fst].
  unfold toUint32. apply Z.mod_pos_bound. reflexivity.
Qed.

(** No node is pending. *)
Definition idle (s : State) : Prop := astNextPtr s = 0 /\ astPtrs s = [].

Definition blockView (s : State) : AstStore * list (option Z) * Z :=
  (ast s, astPtrs s, astNextPtr s).

Lemma keeps_modifyTop {X : Type} (f : State -> X) (g : Block -> Block) :
  (forall v s, f (set_blocks v s) = f s) -> keeps f (modifyTop g).
Proof. intros Hf. unfold modifyTop. apply keeps_modify. intros s. apply Hf. Qed.

Ltac quiet_step :=
  lazymatch goal with
  | |- keeps _ (bind _ _) => apply keeps_bind; [|intros]
  | |- keeps _ (ret _) => apply keeps_ret
  | |- keeps _ (throw _) => apply keeps_throw
  | |- keeps _ (gets _) => apply keeps_gets
  | |- keeps _ (modify _) => apply keeps_modify; intros; reflexivity
  | |- keeps _ (emitBody _) => apply keeps_d_emitBody; intros; reflexivity
  | |- keeps _ (skipBytes _) => apply keeps_skipBytes; intros; reflexivity
  | |- keeps _ topBlock => apply keeps_topBlock
  | |- keeps _ topIsDead => apply keeps_topIsDead
  | |- keeps _ (modifyTop _) => apply keeps_modifyTop; intros; reflexivity
  | |- keeps _ (jump _) => apply keeps_jump; intros; reflexivity
  | |- keeps _ (jumpRelative _) => apply keeps_jumpRelative; intros; reflexivity
  | |- keeps _ (readU32LEB _) => apply keeps_readU32LEB; intros; reflexivity
  | |- keeps _ (readI32LEB _) => apply keeps_readI32LEB; intros; reflexivity
  | |- keeps _ (readI64LEB _) => apply keeps_readI64LEB; intros; reflexivity
  | |- keeps _ (readByteOrZero _) => apply keeps_readByteOrZero; intros; reflexivity
  | |- keeps _ (readBlockType _) => apply keeps_readBlockType; intros; reflexivity
  | |- keeps _ (typeAt _ _) => apply keeps_typeAt
  | |- keeps _ (skipSimple _ _) => apply keeps_skipSimple; intros; reflexivity
  | |- keeps _ (forRange _ _ _) => apply keeps_forRange; intros
  | |- keeps _ (if ?b then _ else _) => destruct b
  | |- keeps _ (match ?x with _ => _ end) => destruct x
  | |- keeps _ _ => assumption
  end.

Ltac quiet := repeat quiet_step.

Lemma keeps_pushBlock (wasm : WASM) (kind : BlockKind) :
  keeps blockView (pushBlock wasm kind).
Proof. unfold pushBlock. quiet. Qed.

Section Poised.

Variable wasm : WASM.
Variable funcTypes : list FuncType.

Local Abbreviation pending := (pending wasm funcTypes).
Local Abbreviation pendingAt := (pendingAt wasm funcTypes).

Lemma idle_pending (s : State) : idle s -> pending s.
Proof.
  intros [H1 H2]. split; [lia|]. exists []. rewrite H1, H2.
  split; [|split].
  - split; [intros p e [] | intros p e q e' []].
  - intros p [].
  - intros i j p Hi. destruct i; discriminate.
Qed.

(** The state at an instruction: the nodes that are pending, the
    height of the stack and whether the block is live. *)
Definition poised (t : Z) (l : bool) (s : State) : Prop :=
  pending s /\ stackTop s = t /\ liveb s = l.

Lemma poised_view (t : Z) (l : bool) (s s' : State) :
  nodeView s' = nodeView s -> blocks s' = blocks s -> poised t l s -> poised t l s'.
Proof.
  intros E Eb (H1 & H2 & H3). unfold nodeView in E. injection E as E1 E2 E3 E4.
  split; [apply (pending_keep wasm funcTypes s); auto|].
  split; [congruence|]. unfold liveb. rewrite Eb. exact H3.
Qed.

Lemma triple_dead (t : Z) (l : bool) :
  triple (poised t l) topIsDead (fun dead s => dead = negb l /\ pendingAt t s).
Proof.
  intros s x s' (H1 & H2 & H3) Hrun. unfold topIsDead, bind, topBlock in Hrun.
  unfold liveb in H3. destruct (topOf (blocks s)) as [block|]; [|discriminate].
  unfold ret in Hrun. injection Hrun as <- <-.
  split; [|split; [exact H1 | exact H2]].
  rewrite <- H3. destruct (isDead_ block); reflexivity.
Qed.

Lemma triple_u32 (t : Z) (l : bool) (p : Z) :
  triple (fun s => poised t l s /\ bytesPtr s = p) (readU32LEB wasm)
         (fun v s => v = indexAt wasm p /\ poised t l s).
Proof.
  intros s x s' [H1 H2] Hrun. unfold readU32LEB, bind, readLEB in Hrun.
  unfold indexAt, u32At. rewrite <- H2.
  destruct (lebLoop accumulate32 (bytesFrom wasm (bytesPtr s)) 0 0 0) as [[[v sh] b] c].
  cbn [fst]. unfold ret in Hrun. injection Hrun as <- <-.
  split; [reflexivity|]. apply (poised_view t l s); [reflexivity | reflexivity | exact H1].
Qed.

Lemma triple_poised {A : Type} (t : Z) (l : bool) (c : M A) :
  keeps (fun s => (nodeView s, blocks s)) c -> triple (poised t l) c (fun _ => poised t l).
Proof.
  intros Hk s x s' H Hrun. specialize (Hk s x s' Hrun).
  apply (poised_view t l s);
    [exact (f_equal fst Hk) | exact (f_equal snd Hk) | exact H].
Qed.

(** [call_indirect]: the node lists the table slot first. *)
Lemma triple_pushCall_indirect (t index : Z) (argTypes returnTypes : list ValType) :
  lookupZ (typeSection_ wasm) index = Some (argTypes, returnTypes) ->
  0 <= index < 2 ^ 32 ->
  0 <= t -> t + Z.of_nat (List.length argTypes) + 1 <= stackBound ->
  triple (pendingAt t)
         (pushCall Op.call_indirect (Z.of_nat (List.length argTypes))
                   (Z.of_nat (List.length returnTypes)) true index)
         (fun _ s => pending s).
Proof.
  intros Hlook Hindex Ht Hmax. unfold stackBound in Hmax. unfold pushCall.
  set (argCount := Z.of_nat (List.length argTypes)) in *.
  set (returnCount := Z.of_nat (List.length returnTypes)) in *.
  assert (Hop : 0 <= Op.call_indirect < 256) by (unfold Op.call_indirect; lia).
  eapply triple_bind; [apply (triple_top pendingAt), pendingAt_top|].
  intros top. apply triple_pure. intros ->.
  eapply triple_bind; [apply triple_pushPtr|]. intros [].
  eapply triple_bind; [apply triple_word|]. intros [].
  eapply triple_bind; [apply triple_word|]. intros [].
  eapply triple_bind; [apply triple_words|]. intros [].
  eapply triple_bind; [apply triple_word|]. intros [].
  cbn [app].
  destruct (fields_call Op.call_indirect (t + 1) argCount (returnCount =? 1) Hop ltac:(lia))
    as [E1 E2].
  assert (Hclose : forall extra : list Z,
             ((returnCount >? 1) = true -> (1 <= List.length extra)%nat) ->
             wordsOk wasm funcTypes
               (toInt32 (js_or (if returnCount =? 1
                                then js_or Op.call_indirect (js_shl (t + 1) Pack.OutSlotShift)
                                else Op.call_indirect)
                               (js_shl argCount Pack.ChildCountShift))
                 :: toInt32 (- (t + argCount + 1))
                 :: (map (fun i => toInt32 (- (t + i))) (zrange 1 (Z.to_nat argCount))
                     ++ (toInt32 index :: extra)))).
  { intros extra Hextra.
    assert (Hkids : List.length (map (fun i => toInt32 (- (t + i)))
                                     (zrange 1 (Z.to_nat argCount))) = Z.to_nat argCount)
      by (rewrite length_map, length_zrange; reflexivity).
    apply wordsOk_call_indirect; rewrite ?E1, ?E2.
    - reflexivity.
    - cbn [List.length]. rewrite length_app, Hkids. cbn [List.length]. lia.
    - intros k Hk. destruct (Z.eq_dec k 1) as [->|Hne].
      + cbn [Z.sub Z.to_nat nth Z.pos_sub Z.add Z.opp]. apply toInt32_neg.
        change (2 ^ 31) with 2147483648. lia.
      + replace (Z.to_nat (k - 1)) with (S (Z.to_nat (k - 2))) by lia. cbn [nth].
        rewrite app_nth1 by (rewrite Hkids; lia).
        rewrite (nth_zrange 1 (Z.to_nat argCount) _ (fun i => toInt32 (- (t + i)))) by lia.
        apply toInt32_neg. change (2 ^ 31) with 2147483648. lia.
    - replace (Z.to_nat (argCount + 1)) with (S (Z.to_nat argCount)) by lia. cbn [nth].
      rewrite app_nth2 by (rewrite Hkids; lia). rewrite Hkids.
      replace (Z.to_nat argCount - Z.to_nat argCount)%nat with 0%nat by lia. cbn [nth].
      destruct (lookupZ (typeSection_ wasm) (toInt32 index)) as [[argTypes' returnTypes']|] eqn:E;
        [|exact I].
      pose proof (lookupZ_toInt32 _ _ _ _ Hindex Hlook E) as Heq. inversion Heq; subst.
      intros Hr. cbn [List.length]. rewrite length_app, Hkids. cbn [List.length].
      assert (Hgt : (returnCount >? 1) = true).
      { unfold returnCount. apply Z.ltb_ge in Hr. apply Z.gtb_lt. lia. }
      specialize (Hextra Hgt). lia. }
  eapply triple_bind.
  { refine (_ : triple _ _ (fun _ s => pending s)).
    destruct (returnCount >? 1) eqn:Egt.
    - eapply triple_conseq; [| |apply triple_word]; [intros s H; exact H|].
      intros x s H.
      refine (proj1 (pendingAt_close wasm funcTypes _ t s H _ _)); [discriminate|].
      cbn [app]. rewrite <- ?app_assoc. cbn [app]. apply Hclose. intros _. cbn. lia.
    - eapply triple_conseq; [| |apply triple_skip]; [intros s H; exact H|].
      intros x s H.
      refine (proj1 (pendingAt_close wasm funcTypes _ t s H _ _)); [discriminate|].
      cbn [app]. rewrite <- ?app_assoc. cbn [app]. apply Hclose. discriminate. }
  intros [].
  intros s x s' H Hrun. unfold modify in Hrun. injection Hrun as _ <-.
  apply (pending_keep wasm funcTypes s); auto.
Qed.

End Poised.

(** *** One instruction *)

Ltac blind_all :=
  lazymatch goal with
  | |- blind (forRange _ _ _) => apply blind_forRange; intros
  | |- blind (pushUnary _ _) => apply blind_pushUnary
  | |- blind pushPtr => apply blind_pushPtr
  | |- blind (readU32LEB _) => apply blind_readU32LEB
  | |- blind (readI32LEB _) => apply blind_readI32LEB
  | |- blind (readI64LEB _) => apply blind_readI64LEB
  | |- blind (readByteOrZero _) => apply blind_readByteOrZero
  | |- blind (skipBytes _) => apply blind_skipBytes
  | |- blind (emitBody _) => apply blind_emitBody
  | |- blind topIsDead => apply blind_topIsDead
  | |- blind topBlock => apply blind_topBlock
  | |- blind (modifyTop _) => apply blind_modifyTop
  | |- blind (typeAt _ _) => apply blind_typeAt
  | |- blind (readBlockType _) => apply blind_readBlockType
  | |- blind (jump _) => apply blind_jump
  | |- blind (jumpRelative _) => apply blind_jumpRelative
  | |- blind (pushBlock _ _) => apply blind_pushBlock
  | |- blind (pushConst _ _) => apply blind_pushConst
  | |- blind (pushCall _ _ _ _ _) => apply blind_pushCall
  | |- blind (pushTernary _ _ _ _) => apply blind_pushTernary
  | |- blind (decodeFC _) => apply blind_decodeFC
  | |- blind (decodeSimple _ _ _) => apply blind_decodeSimple
  | |- blind (skipSimple _ _) => apply blind_skipSimple
  | |- _ => blind_step
  end.

Ltac quiet_all :=
  repeat lazymatch goal with
         | |- keeps _ (pushBlock _ _) => apply keeps_pushBlock
         | |- _ => quiet_step
         end.

Lemma rel_node {A B : Type} (P : State -> Prop) (Q : A -> State -> Prop)
      (R : B -> State -> Prop) (c : M A) (k : A -> M B) :
  blind c -> triple P c Q -> (forall x, rel (Q x) (k x) R) -> rel P (bind c k) R.
Proof. intros Hb Ht Hk. eapply rel_bind; [apply rel_blind; eassumption | exact Hk]. Qed.

Section Step.

Variable env : Env.
Variable wasm : WASM.
Variable funcTypes : list FuncType.
Variable names : list string.
Variable fuel : nat.

Hypothesis optimizer_confined : confined env wasm funcTypes.

Local Abbreviation pending := (pending wasm funcTypes).
Local Abbreviation pendingAt := (pendingAt wasm funcTypes).
Local Abbreviation buildingAt := (buildingAt wasm funcTypes).
Local Abbreviation poised := (poised wasm funcTypes).
Local Abbreviation finalize := (finalizeBasicBlock env wasm funcTypes names fuel).

Lemma rel_quiet {A : Type} (c : M A) :
  blind c -> keeps blockView c -> rel idle c (fun _ s => pending s).
Proof.
  intros Hb Hk. apply rel_blind; [exact Hb|].
  intros s x s' [H1 H2] Hrun. specialize (Hk s x s' Hrun).
  unfold blockView in Hk. injection Hk as E1 E2 E3.
  apply idle_pending. split; congruence.
Qed.

Lemma rel_finalize (popStackTop : bool) :
  rel pending (finalize popStackTop) (fun _ => idle).
Proof. apply rel_finalizeBasicBlock. exact optimizer_confined. Qed.

Lemma rel_finalizeTest :
  rel pending (finalizeTest env wasm funcTypes names fuel) (fun _ => idle).
Proof.
  unfold finalizeTest. eapply rel_bind; [apply rel_finalize|]. intros r.
  eapply rel_conseq; [| |apply rel_ret]; [intros s H; exact H|].
  intros x s [_ H]. exact H.
Qed.

(** The instructions that close the basic block first. *)
Lemma rel_closing {A : Type} (P : State -> Prop) (popStackTop : bool) (k : option string -> M A) :
  (forall s, P s -> pending s) ->
  (forall r, blind (k r)) -> (forall r, keeps blockView (k r)) ->
  rel P (bind (finalize popStackTop) k) (fun _ s => pending s).
Proof.
  intros HP Hb Hk. eapply rel_bind.
  - eapply rel_conseq; [exact HP | |apply rel_finalize]. intros x s H; exact H.
  - intros r. apply rel_quiet; auto.
Qed.

Lemma rel_testing {A : Type} (P : State -> Prop) (k : string -> M A) :
  (forall s, P s -> pending s) ->
  (forall r, blind (k r)) -> (forall r, keeps blockView (k r)) ->
  rel P (bind (finalizeTest env wasm funcTypes names fuel) k) (fun _ s => pending s).
Proof.
  intros HP Hb Hk. eapply rel_bind.
  - eapply rel_conseq; [exact HP | |apply rel_finalizeTest]. intros x s H; exact H.
  - intros r. apply rel_quiet; auto.
Qed.

(** The operands that the instruction at [p] takes from the stack when
    its block is live. *)
Definition operands (p : Z) : Z :=
  match lookupZ (bytes_ wasm) p with
  | None => 0
  | Some op =>
    if hasFlag (metaTable op) MetaFlag.Simple then js_and (metaTable op) MetaFlag.PopMask
    else if (op =? Op.if_) || (op =? Op.br_if) then 1
    else if op =? Op.call then
      match lookupZ funcTypes (indexAt wasm (p + 1)) with
      | Some (argTypes, _) => Z.of_nat (List.length argTypes)
      | None => 0
      end
    else if op =? Op.call_indirect then
      match lookupZ (typeSection_ wasm) (indexAt wasm (p + 1)) with
      | Some (argTypes, _) => Z.of_nat (List.length argTypes) + 1
      | None => 0
      end
    else if op =? Op.select then 3
    else if op =? 0xFC then
      match lookupZ (bytes_ wasm) (p + 1) with
      | Some sub => if sub <=? Op.i64_trunc_sat_f64_u then 1 else 3
      | None => 0
      end
    else 0
  end.

(** The bytecode is an array of bytes. *)
Definition byteArray : Prop :=
  forallb (fun b => (0 <=? b) && (b <? 256)) (bytes_ wasm) = true.

Lemma byteArray_lookup (p b : Z) : byteArray -> lookupZ (bytes_ wasm) p = Some b -> 0 <= b < 256.
Proof.
  unfold byteArray. intros H Hl. apply lookupZ_nth in Hl. destruct Hl as [_ Hl].
  apply nth_error_In in Hl. rewrite forallb_forall in H. specialize (H b Hl). lia.
Qed.

(** The state in which an instruction is decoded. *)
Definition startAt (t : Z) (l : bool) (p : Z) (s : State) : Prop :=
  poised t l s /\ bytesPtr s = p.

Lemma startAt_pending (t : Z) (l : bool) (p : Z) (s : State) : startAt t l p s -> pending s.
Proof. intros [[H _] _]. exact H. Qed.

Lemma startAt_poised (t : Z) (l : bool) (p : Z) (s : State) : startAt t l p s -> poised t l s.
Proof. intros [H _]. exact H. Qed.

Lemma triple_start_dead (t : Z) (l : bool) (p : Z) :
  triple (startAt t l p) topIsDead (fun dead s => dead = negb l /\ pendingAt t s).
Proof.
  eapply triple_conseq; [apply startAt_poised | |apply triple_dead]. intros x s H; exact H.
Qed.

Lemma triple_done {A : Type} (t : Z) (c : M A) :
  triple (pendingAt t) c (fun _ => pendingAt t) ->
  triple (pendingAt t) c (fun _ s => pending s).
Proof. intros H. eapply triple_conseq; [| |exact H]; [auto | intros x s [H1 _]; exact H1]. Qed.

Lemma triple_idle_node (t : Z) :
  triple (pendingAt t) (ret tt) (fun _ s => pending s).
Proof. apply triple_done, triple_skip. Qed.

Lemma bound_31 (x : Z) : 1 <= x <= stackBound -> 1 <= x <= 2 ^ 31.
Proof. unfold stackBound. change (2 ^ 31) with 2147483648. lia. Qed.

(** The test of [if] and [br_if]. *)
Lemma triple_test (t : Z) (l : bool) (op : Z) (dead : bool) :
  unaryOk op -> (l = true -> 1 <= t <= stackBound) ->
  triple (fun s => dead = negb l /\ pendingAt t s)
         (when (negb dead) then (top <- gets stackTop ;; pushUnary op top))
         (fun _ s => pending s).
Proof.
  intros Hop Ht. apply triple_pure. intros ->. destruct l; cbn [negb].
  - eapply triple_bind; [apply (triple_top pendingAt), pendingAt_top|].
    intros top. apply triple_pure. intros ->.
    apply triple_done, triple_pushUnary; [exact Hop | apply bound_31; auto].
  - apply triple_idle_node.
Qed.

Lemma triple_ptr (t : Z) (l : bool) (q : Z) :
  triple (startAt t l q) (gets bytesPtr) (fun x s => x = q /\ poised t l s).
Proof.
  intros s x s' [H1 H2] Hrun. unfold gets in Hrun. injection Hrun as <- <-. auto.
Qed.

Lemma triple_pending {A : Type} (c : M A) :
  keeps blockView c -> triple (fun s => pending s) c (fun _ s => pending s).
Proof.
  intros Hk s x s' H Hrun. specialize (Hk s x s' Hrun).
  unfold blockView in Hk. injection Hk as E1 E2 E3.
  apply (pending_keep wasm funcTypes s); assumption.
Qed.

(** A constant: the payload is read from the bytecode. *)
Lemma triple_const (t : Z) (l : bool) (op : Z) (dead : bool) (payload : M Z) :
  0 <= op < 256 -> fits op 0 2 = true -> keeps nodeView payload ->
  triple (fun s => dead = negb l /\ pendingAt t s)
         (when (negb dead) then pushConst op payload)
         (fun _ s => pending s).
Proof.
  intros Hop Hfits Hk. apply triple_pure. intros ->. destruct l; cbn [negb].
  - apply triple_pushConst; [exact Hop | exact Hfits |].
    intros ws t'. apply triple_view; [apply buildingAt_view | exact Hk].
  - apply triple_idle_node.
Qed.

Lemma rel_decodeSpecial (t : Z) (l : bool) (p op : Z) :
  byteArray ->
  lookupZ (bytes_ wasm) p = Some op ->
  hasFlag (metaTable op) MetaFlag.Simple = false ->
  (l = true -> operands p <= t <= stackBound) ->
  rel (startAt t l (p + 1)) (decodeSpecial env wasm funcTypes names fuel op)
      (fun _ s => pending s).
Proof.
  intros bytes_ok op_at op_special stack_ok.
  unfold operands in stack_ok. rewrite op_at, op_special in stack_ok.
  unfold decodeSpecial.
  destruct (op =? Op.unreachable) eqn:E0.
  { apply rel_closing; [apply startAt_pending | intros; repeat blind_all | intros; quiet_all]. }
  destruct (op =? Op.block) eqn:E1.
  { apply rel_closing; [apply startAt_pending | intros; repeat blind_all | intros; quiet_all]. }
  destruct (op =? Op.loop) eqn:E2.
  { apply rel_closing; [apply startAt_pending | intros; repeat blind_all | intros; quiet_all]. }
  destruct (op =? Op.if_) eqn:E3.
  { cbn [orb] in stack_ok.
    eapply rel_node; [apply blind_topIsDead | apply triple_start_dead |].
    intros dead. eapply rel_node.
    - repeat blind_all.
    - refine (_ : triple _ _ (fun _ s => pending s)).
      apply triple_pure. intros ->. destruct l; cbn [negb].
      + eapply triple_bind; [apply triple_read|]. intros depth.
        eapply triple_bind; [apply (triple_top pendingAt), pendingAt_top|].
        intros top. apply triple_pure. intros ->.
        apply triple_done, triple_pushUnary; [|apply bound_31; auto].
        destruct (depth <? blockDepthLimit); split; vm_compute; intuition discriminate.
      + apply triple_idle_node.
    - intros []. apply rel_testing; [auto | intros; repeat blind_all | intros; quiet_all]. }
  destruct (op =? Op.else_) eqn:E4.
  { apply rel_closing; [apply startAt_pending | intros; repeat blind_all | intros; quiet_all]. }
  destruct (op =? Op.end_) eqn:E5.
  { apply rel_closing; [apply startAt_pending | intros; repeat blind_all | intros; quiet_all]. }
  destruct (op =? Op.br) eqn:E6.
  { apply rel_closing; [apply startAt_pending | intros; repeat blind_all | intros; quiet_all]. }
  destruct (op =? Op.br_if) eqn:E7.
  { cbn [orb] in stack_ok.
    eapply rel_node; [apply blind_topIsDead | apply triple_start_dead |].
    intros dead. eapply rel_node.
    - repeat blind_all.
    - apply (triple_test t l); [split; vm_compute; intuition discriminate | exact stack_ok].
    - intros []. apply rel_testing; [auto | intros; repeat blind_all | intros; quiet_all]. }
  destruct (op =? Op.br_table) eqn:E8.
  { apply rel_testing; [apply startAt_pending | intros; repeat blind_all | intros; quiet_all]. }
  destruct (op =? Op.return_) eqn:E9.
  { apply rel_closing; [apply startAt_pending | intros; repeat blind_all | intros; quiet_all]. }
  cbn [orb] in stack_ok.
  apply rel_blind.
  { repeat lazymatch goal with
           | |- blind (if ?c then _ else _) => destruct c
           | |- blind (bind _ _) => apply blind_bind; [|intros]
           | |- _ => blind_all
           end. }
  destruct (op =? Op.call) eqn:E10.
  { apply Z.eqb_eq in E10. subst op.
    eapply triple_bind; [apply triple_u32|]. intros funcIndex.
    apply triple_pure. intros ->.
    eapply triple_bind; [apply triple_dead|]. intros dead.
    apply triple_pure. intros ->. destruct l; cbn [negb]; [|apply triple_idle_node].
    specialize (stack_ok eq_refl).
    destruct (lookupZ funcTypes (indexAt wasm (p + 1))) as [[argTypes returnTypes]|] eqn:E;
      [|apply triple_throw].
    eapply triple_bind;
      [apply (triple_setTop wasm funcTypes t
                            (fun x => x - Z.of_nat (List.length argTypes)))|].
    intros []. cbv beta.
    apply (triple_pushCall_direct wasm funcTypes _ _ argTypes returnTypes);
      [exact E | apply indexAt_range | lia | unfold stackBound in *; lia]. }
  destruct (op =? Op.call_indirect) eqn:E11.
  { apply Z.eqb_eq in E11. subst op.
    eapply triple_bind; [apply triple_u32|]. intros typeIndex.
    apply triple_pure. intros ->.
    eapply triple_bind; [apply triple_poised; quiet_all|]. intros tableIndex.
    destruct (negb (tableIndex =? 0)); [apply triple_throw|].
    eapply triple_bind; [apply triple_dead|]. intros dead.
    apply triple_pure. intros ->. destruct l; cbn [negb]; [|apply triple_idle_node].
    specialize (stack_ok eq_refl). unfold typeAt.
    destruct (lookupZ (typeSection_ wasm) (indexAt wasm (p + 1)))
      as [[argTypes returnTypes]|] eqn:E.
    2:{ apply (triple_bind _ (fun _ _ => False) _ (throw TypeError));
        [apply triple_throw | intros x s y s' []]. }
    eapply triple_bind; [apply triple_ret|]. intros x.
    apply triple_pure. intros ->.
    eapply triple_bind;
      [apply (triple_setTop wasm funcTypes t
                            (fun x => x - (Z.of_nat (List.length argTypes) + 1)))|].
    intros []. cbv beta.
    apply (triple_pushCall_indirect wasm funcTypes _ _ argTypes returnTypes);
      [exact E | apply indexAt_range | lia | unfold stackBound in *; lia]. }
  destruct (op =? Op.select) eqn:E12.
  { apply Z.eqb_eq in E12. subst op.
    eapply triple_bind; [apply triple_start_dead|]. intros dead.
    apply triple_pure. intros ->. destruct l; cbn [negb]; [|apply triple_idle_node].
    specialize (stack_ok eq_refl).
    eapply triple_bind; [apply (triple_top pendingAt), pendingAt_top|].
    intros top. apply triple_pure. intros ->.
    eapply triple_bind;
      [apply (triple_pushUnary wasm funcTypes t);
       [split; vm_compute; intuition discriminate | apply bound_31; lia]|].
    intros []. apply triple_pushTernary;
      [vm_compute; intuition discriminate | reflexivity | lia | lia | lia | lia]. }
  destruct (op =? Op.i32_const) eqn:E13.
  { apply Z.eqb_eq in E13. subst op.
    eapply triple_bind; [apply triple_start_dead|]. intros dead.
    apply triple_pure. intros ->. destruct l; cbn [negb]; cbv iota.
    - apply triple_pushConst; [vm_compute; intuition discriminate | reflexivity |].
      intros ws t'. apply triple_view; [apply buildingAt_view | quiet_all].
    - eapply triple_bind; [apply (triple_view (pendingAt t)); [apply pendingAt_view | quiet_all]|].
      intros x. apply triple_idle_node. }
  destruct (op =? Op.i64_const) eqn:E14.
  { apply Z.eqb_eq in E14. subst op.
    eapply triple_bind; [apply triple_start_dead|]. intros dead.
    apply triple_pure. intros ->. destruct l; cbn [negb]; cbv iota.
    - apply triple_pushConst; [vm_compute; intuition discriminate | reflexivity |].
      intros ws t'. apply triple_view; [apply buildingAt_view | quiet_all].
    - eapply triple_bind; [apply (triple_view (pendingAt t)); [apply pendingAt_view | quiet_all]|].
      intros x. apply triple_idle_node. }
  destruct (op =? Op.f32_const) eqn:E15.
  { apply Z.eqb_eq in E15. subst op.
    eapply triple_bind; [apply triple_start_dead|]. intros dead.
    eapply triple_bind.
    - apply (triple_const t l); [vm_compute; intuition discriminate | reflexivity | quiet_all].
    - intros []. apply triple_pending. quiet_all. }
  destruct (op =? Op.f64_const) eqn:E16.
  { apply Z.eqb_eq in E16. subst op.
    eapply triple_bind; [apply triple_start_dead|]. intros dead.
    eapply triple_bind.
    - apply (triple_const t l); [vm_compute; intuition discriminate | reflexivity | quiet_all].
    - intros []. apply triple_pending. quiet_all. }
  destruct (op =? 252) eqn:E17; [|apply triple_throw].
  unfold decodeFC.
  eapply triple_bind; [apply triple_ptr|]. intros q. apply triple_pure. intros ->.
  eapply triple_bind; [apply triple_poised; quiet_all|]. intros [].
  destruct (lookupZ (bytes_ wasm) (p + 1)) as [sub|] eqn:Esub; [|apply triple_throw].
  pose proof (byteArray_lookup _ _ bytes_ok Esub) as Hsub.
  destruct (sub <=? Op.i64_trunc_sat_f64_u) eqn:E18.
  { eapply triple_bind; [apply triple_dead|]. intros dead.
    apply (triple_test t l); [|exact stack_ok].
    apply Z.leb_le in E18. unfold Op.i64_trunc_sat_f64_u in E18.
    assert (Hcases : sub = 0 \/ sub = 1 \/ sub = 2 \/ sub = 3 \/ sub = 4 \/ sub = 5
                     \/ sub = 6 \/ sub = 7) by lia.
    split; [lia|].
    destruct Hcases as [->|[->|[->|[->|[->|[->|[->| ->]]]]]]]; reflexivity. }
  destruct (sub =? Op.memory_copy) eqn:E19.
  { apply Z.eqb_eq in E19. subst sub.
    eapply triple_bind; [apply triple_poised; quiet_all|]. intros src.
    eapply triple_bind; [apply triple_poised; quiet_all|]. intros [].
    eapply triple_bind; [apply triple_dead|]. intros dead.
    apply triple_pure. intros ->. destruct l; cbn [negb]; [|apply triple_idle_node].
    specialize (stack_ok eq_refl).
    apply triple_pushTernary;
      [vm_compute; intuition discriminate | reflexivity | lia | lia | lia | lia]. }
  destruct (sub =? Op.memory_fill) eqn:E20; [|apply triple_throw].
  apply Z.eqb_eq in E20. subst sub.
  eapply triple_bind; [apply triple_poised; quiet_all|]. intros dst.
  eapply triple_bind; [apply triple_poised; quiet_all|]. intros [].
  eapply triple_bind; [apply triple_dead|]. intros dead.
  apply triple_pure. intros ->. destruct l; cbn [negb]; [|apply triple_idle_node].
  specialize (stack_ok eq_refl).
  apply triple_pushTernary;
      [vm_compute; intuition discriminate | reflexivity | lia | lia | lia | lia].
Qed.

End Step.

(** *** The decoding loop *)

Lemma rel_pure {A : Type} (phi : Prop) (P : State -> Prop) (c : M A)
      (Q : A -> State -> Prop) :
  (phi -> rel P c Q) -> rel (fun s => phi /\ P s) c Q.
Proof. intros H s b [Hphi HP]. apply (H Hphi s b HP). Qed.

(** The result of a run from a known state is part of what it ends with. *)
Lemma rel_run {A : Type} (s0 : State) (c : M A) (Q : A -> State -> Prop) :
  rel (fun s => s = s0) c Q ->
  rel (fun s => s = s0) c (fun x s' => Q x s' /\ c s0 = Ok (x, s')).
Proof.
  intros H s b -> Hag. specialize (H s0 b eq_refl Hag).
  destruct (c s0) as [[x s']|e]; [|exact H].
  destruct H as [HQ H]. split; [split; [exact HQ | reflexivity] | exact H].
Qed.

Section Decode.

Variable env : Env.
Variable wasm : WASM.
Variable funcTypes : list FuncType.
Variable names : list string.
Variable fuel : nat.

Hypothesis optimizer_confined : confined env wasm funcTypes.
Hypothesis bytes_ok : byteArray wasm.

Local Abbreviation pending := (pending wasm funcTypes).
Local Abbreviation pendingAt := (pendingAt wasm funcTypes).
Local Abbreviation poised := (poised wasm funcTypes).
Local Abbreviation startAt := (startAt wasm funcTypes).
Local Abbreviation stepHere := (step env wasm funcTypes names fuel).
Local Abbreviation decodeHere := (decode env wasm funcTypes names fuel).

(** A live instruction finds its operands on the stack, and the stack
    is not higher than the child count of a node can tell. *)
Definition wellStacked (s : State) : Prop :=
  liveb s = true -> operands wasm funcTypes (bytesPtr s) <= stackTop s <= stackBound.

Lemma triple_fetch (t : Z) (l : bool) (p : Z) :
  triple (startAt t l p) (gets bytesPtr) (fun x s => x = p /\ startAt t l p s).
Proof.
  intros s x s' H Hrun. unfold gets in Hrun. injection Hrun as <- <-.
  split; [exact (proj2 H) | exact H].
Qed.

Lemma triple_advance (t : Z) (l : bool) (p n : Z) :
  triple (startAt t l p) (skipBytes n) (fun _ => startAt t l (p + n)).
Proof.
  intros s x s' [H1 H2] Hrun. unfold skipBytes, modify in Hrun. injection Hrun as _ <-.
  split; [apply (poised_view wasm funcTypes _ _ s); auto | cbn; congruence].
Qed.

Lemma rel_step (s0 : State) :
  pending s0 -> wellStacked s0 ->
  rel (fun s => s = s0) stepHere (fun _ s => pending s).
Proof.
  intros Hpending Hstack.
  apply (rel_conseq (startAt (stackTop s0) (liveb s0) (bytesPtr s0)) _
                    (fun _ s => pending s) (fun _ s => pending s));
    [intros s H; cbv beta in H; subst s;
     split; [split; [exact Hpending | split; reflexivity] | reflexivity]
    | auto |].
  unfold wellStacked in Hstack. unfold step.
  eapply rel_node; [repeat blind_all | apply triple_fetch |]. intros p.
  apply rel_pure. intros ->.
  eapply rel_node; [repeat blind_all | apply triple_advance |]. intros [].
  destruct (lookupZ (bytes_ wasm) (bytesPtr s0)) as [op|] eqn:Eop; [|apply rel_throw].
  cbv zeta. destruct (hasFlag (metaTable op) MetaFlag.Simple) eqn:Esimple.
  - apply rel_blind.
    { apply blind_bind; [apply blind_topIsDead|]. intros dead.
      destruct dead; [apply blind_skipSimple | apply blind_decodeSimple]. }
    eapply triple_bind; [apply triple_start_dead|]. intros dead.
    apply triple_pure. intros ->.
    destruct (liveb s0); cbn [negb]; cbv iota.
    + apply triple_decodeSimple; [exact Esimple|].
      specialize (Hstack eq_refl). unfold operands in Hstack.
      rewrite Eop, Esimple in Hstack. exact Hstack.
    + apply triple_done, triple_view; [apply pendingAt_view | quiet_all].
  - apply rel_decodeSpecial; try assumption.
Qed.

(** The states in which the loop decodes an instruction. *)
Inductive visits (codeEnd : Z) : State -> State -> Prop :=
| visits_here (s : State) : visits codeEnd s s
| visits_next (s s1 s2 : State) :
    bytesPtr s < codeEnd -> stepHere s = Ok (tt, s1) -> visits codeEnd s1 s2 ->
    visits codeEnd s s2.

Definition disciplined (codeEnd : Z) (s0 : State) : Prop :=
  forall s, visits codeEnd s0 s -> bytesPtr s < codeEnd -> wellStacked s.

Lemma rel_decode (codeEnd : Z) (n : nat) :
  forall s0, pending s0 -> disciplined codeEnd s0 ->
             rel (fun s => s = s0) (decodeHere n codeEnd) (fun _ _ => True).
Proof.
  induction n as [|n IH]; intros s0 Hpending Hstack; cbn [decode].
  - eapply rel_bind; [apply rel_gets; reflexivity|]. intros p.
    destruct (p <? codeEnd); [apply rel_throw|].
    eapply rel_conseq; [| |apply rel_ret]; [intros s H; exact H | auto].
  - eapply rel_bind; [apply rel_gets; reflexivity|]. intros p.
    destruct (p <? codeEnd) eqn:E.
    2:{ eapply rel_conseq; [| |apply rel_ret]; [intros s H; exact H | auto]. }
    apply rel_at. intros s1 [-> ->]. apply Z.ltb_lt in E.
    eapply rel_bind.
    + apply rel_run, rel_step; [exact Hpending|].
      apply Hstack; [apply visits_here | exact E].
    + intros []. apply rel_at. intros s2 [Hp2 Hrun]. apply IH; [exact Hp2|].
      intros s Hv Hlt. apply Hstack; [|exact Hlt].
      apply (visits_next codeEnd s0 s2 s); assumption.
Qed.

End Decode.

(** *** compileCode does not depend on the store it finds *)

(** The state in which [compileCode] enters its decoding loop, with the
    names of the arguments and locals, their count and the end of the
    code. *)
Definition functionStart (wasm : WASM) (codeIndex : Z) (store : AstStore)
  : option (list string * nat * State * Z) :=
  match lookupZ (functionSection_ wasm) codeIndex with
  | None => None
  | Some typeIndex =>
    match lookupZ (typeSection_ wasm) typeIndex, lookupZ (codeSection_ wasm) codeIndex with
    | Some (argTypes, returnTypes), Some (locals, codeStart, codeEnd) =>
      let argCount := List.length argTypes in
      let '(names, decls) := declareLocals locals (argNames argCount) ["L"; "T"] in
      Some (names, argCount,
            initialState store decls (Z.of_nat (List.length returnTypes)) codeStart, codeEnd)
    | _, _ => None
    end
  end.

(** The decoder's counter covers the operands: at every live
    instruction that the loop decodes, [stackTop] is at least the
    number of operands of the instruction and at most [stackBound].
    This is a condition on the decoder's own [stackTop], not on the
    function: [if], [br_if] and [br_table] lower [stackTop] in dead
    code too, so a function that passes validation can fail it, as
    [staleRead] below does. *)
Definition stackDiscipline (env : Env) (funcTypes : list FuncType) (wasm : WASM)
           (codeIndex : Z) (fuel : nat) (store : AstStore) : Prop :=
  match functionStart wasm codeIndex store with
  | Some (names, _, s0, codeEnd) => disciplined env wasm funcTypes names fuel codeEnd s0
  | None => True
  end.

(** The same, as a test that runs the loop. *)
Definition wellStackedb (wasm : WASM) (funcTypes : list FuncType) (s : State) : bool :=
  negb (liveb s)
  || ((operands wasm funcTypes (bytesPtr s) <=? stackTop s) && (stackTop s <=? stackBound)).

Fixpoint checkRun (env : Env) (wasm : WASM) (funcTypes : list FuncType)
         (names : list string) (fuel : nat) (n : nat) (codeEnd : Z) (s : State) : bool :=
  if bytesPtr s <? codeEnd then
    wellStackedb wasm funcTypes s
    && match n with
       | O => false
       | S n' =>
         match step env wasm funcTypes names fuel s with
         | Ok (_, s1) => checkRun env wasm funcTypes names fuel n' codeEnd s1
         | Err _ => true
         end
       end
  else true.

Definition checkFunction (env : Env) (funcTypes : list FuncType) (wasm : WASM)
           (codeIndex : Z) (fuel : nat) (n : nat) (store : AstStore) : bool :=
  match functionStart wasm codeIndex store with
  | Some (names, _, s0, codeEnd) => checkRun env wasm funcTypes names fuel n codeEnd s0
  | None => true
  end.

Lemma wellStackedb_spec (wasm : WASM) (funcTypes : list FuncType) (s : State) :
  wellStackedb wasm funcTypes s = true -> wellStacked wasm funcTypes s.
Proof.
  unfold wellStackedb, wellStacked. intros H Hl. rewrite Hl in H. cbn [negb orb] in H.
  apply andb_prop in H. destruct H as [H1 H2]. lia.
Qed.

Lemma checkRun_sound (env : Env) (wasm : WASM) (funcTypes : list FuncType)
      (names : list string) (fuel : nat) (codeEnd : Z) (n : nat) (s0 : State) :
  checkRun env wasm funcTypes names fuel n codeEnd s0 = true ->
  disciplined env wasm funcTypes names fuel codeEnd s0.
Proof.
  intros H s Hv. revert n H.
  induction Hv as [s|s s1 s2 Hlt Hrun Hv IH]; intros n H Hlt'.
  - destruct n; cbn [checkRun] in H; rewrite (proj2 (Z.ltb_lt _ _) Hlt') in H;
      apply andb_prop in H; apply wellStackedb_spec; exact (proj1 H).
  - destruct n; cbn [checkRun] in H; rewrite (proj2 (Z.ltb_lt _ _) Hlt) in H;
      apply andb_prop in H; destruct H as [_ H]; [discriminate|].
    rewrite Hrun in H. apply (IH n H Hlt').
Qed.

Lemma checkFunction_sound (env : Env) (funcTypes : list FuncType) (wasm : WASM)
      (codeIndex : Z) (fuel : nat) (n : nat) (store : AstStore) :
  checkFunction env funcTypes wasm codeIndex fuel n store = true ->
  stackDiscipline env funcTypes wasm codeIndex fuel store.
Proof.
  unfold checkFunction, stackDiscipline.
  destruct (functionStart wasm codeIndex store) as [[[[names argCount] s0] codeEnd]|];
    [apply checkRun_sound | auto].
Qed.

(** The optimizer without rules keeps the contract. *)
Lemma confined_plainEnv (wasm : WASM) (funcTypes : list FuncType) :
  confined plainEnv wasm funcTypes.
Proof.
  intros a b cs next ptr e L Hwf Hin Hag.
  exists a, b, cs, next, ptr, L.
  split; [reflexivity|]. split; [reflexivity|]. split; [exact Hag|].
  split; [lia|]. split; [apply incl_refl|]. split; [exact Hwf|].
  split; [exists e; exact Hin | reflexivity].
Qed.

Lemma pending_initialState (wasm : WASM) (funcTypes : list FuncType) (a : AstStore)
      (decls : list string) (returnCount codeStart : Z) :
  pending wasm funcTypes (initialState a decls returnCount codeStart).
Proof. apply idle_pending. split; reflexivity. Qed.

(** X1.  Under three conditions the text that [compileCode] produces
    for a function, or the error that stops it, does not depend on the
    contents of the AST store that the compilation finds: compiled from
    the store that an earlier compilation left behind, or from any
    other store [b], the function gets the same text as from the store
    [a].  The conditions: at every live instruction that the loop
    decodes, the decoder's counter [stackTop] is at least the number of
    operands ([stackDiscipline], which [checkFunction] tests by running
    the loop); the bytecode is an array of bytes; and the peephole
    optimizer keeps to the nodes it is given.  The first condition is
    not implied by validation, and without it the text can depend on
    the store: [compiling_twice_gives_two_texts].  In this development
    a read or write outside the 65536 cells of the store stops the
    compilation with the error [AstCapacity], where an [Int32Array]
    reads [undefined] and drops the write: of a compilation that leaves
    the store the theorem says only that it leaves it from either
    store. *)
Theorem compileCode_is_deterministic (env : Env) (funcTypes : list FuncType) (wasm : WASM)
        (codeIndex funcIndex : Z) (fuel : nat) (a b : AstStore) :
  confined env wasm funcTypes ->
  byteArray wasm ->
  stackDiscipline env funcTypes wasm codeIndex fuel a ->
  textOf (compileCode env funcTypes wasm codeIndex funcIndex fuel b)
  = textOf (compileCode env funcTypes wasm codeIndex funcIndex fuel a).
Proof.
  intros Hconfined Hbytes Hstack.
  unfold stackDiscipline, functionStart in Hstack. unfold compileCode, decodeFunction.
  destruct (lookupZ (functionSection_ wasm) codeIndex) as [typeIndex|]; [|reflexivity].
  destruct (lookupZ (typeSection_ wasm) typeIndex) as [[argTypes returnTypes]|];
    [|reflexivity].
  destruct (lookupZ (codeSection_ wasm) codeIndex) as [[[locals codeStart] codeEnd]|];
    [|reflexivity].
  cbv zeta in *.
  destruct (declareLocals locals (argNames (List.length argTypes)) ["L"; "T"])
    as [names decls].
  set (returnCount := Z.of_nat (List.length returnTypes)) in *.
  pose proof (rel_decode env wasm funcTypes names fuel Hconfined Hbytes codeEnd
                         (Z.to_nat (codeEnd - codeStart))
                         (initialState a decls returnCount codeStart)
                         (pending_initialState _ _ _ _ _ _) Hstack
                         (initialState a decls returnCount codeStart) b eq_refl) as H.
  change (set_ast b (initialState a decls returnCount codeStart))
    with (initialState b decls returnCount codeStart) in H.
  specialize (H ltac:(intros i Hi; cbn in Hi; lia)).
  destruct (decode env wasm funcTypes names fuel (Z.to_nat (codeEnd - codeStart)) codeEnd
                   (initialState a decls returnCount codeStart)) as [[[] s']|e].
  - destruct H as (_ & b' & -> & _).
    change (stackLimit (set_ast b' s')) with (stackLimit s').
    destruct (stackLimit s' >? 255); reflexivity.
  - rewrite H. reflexivity.
Qed.

(** [rotl64], compiled once more from the store that its first
    compilation left. *)
Definition storeAfter (r : Res (string * AstStore)) : AstStore :=
  match r with Ok (_, a) => a | Err _ => freshStore end.

Lemma compileCode_is_deterministic_witness :
  textOf (compileCode plainEnv [] rotl64 0 0 100
                      (storeAfter (compileCode plainEnv [] rotl64 0 0 100 freshStore)))
  = textOf (compileCode plainEnv [] rotl64 0 0 100 freshStore).
Proof.
  apply compileCode_is_deterministic.
  - apply confined_plainEnv.
  - vm_compute. reflexivity.
  - apply (checkFunction_sound plainEnv [] rotl64 0 100 10 freshStore).
    vm_compute. reflexivity.
Defined.

(** [br 0; br_if 0 (four times); if; i32.const 5; i32.eqz; drop; end;
    end], a function without arguments and results that passes
    validation: everything after [br 0] is unreachable.  The four dead
    [br_if] and the dead [if] lower [stackTop] from 0 to -5; the [if]
    opens a live frame there, so [i32.const] writes to slot -4 and the
    child of [i32.eqz] is the word 4, which is not the negation of a
    slot but the pointer to cell 4, a cell that this compilation never
    writes. *)
Definition staleRead : WASM :=
  oneFunction ([], []) []
              [0x0C; 0x00; 0x0D; 0x00; 0x0D; 0x00; 0x0D; 0x00; 0x0D; 0x00;
               0x04; 0x40; 0x41; 0x05; 0x45; 0x1A; 0x0B; 0x0B].

(** [i32.const 7; drop; i32.const 8; drop; i32.const 9; drop; end]: its
    compilation leaves the node of the third constant in cell 4. *)
Definition threeConsts : WASM :=
  oneFunction ([], []) [] [0x41; 0x07; 0x1A; 0x41; 0x08; 0x1A; 0x41; 0x09; 0x1A; 0x0B].

(** C9 fails of the code.  [staleRead] is compiled from a fresh store,
    then [threeConsts] from the store that this leaves, then
    [staleRead] once more from the store that that leaves.  The two
    texts of [staleRead] differ in the operand of [i32.eqz]: the first
    compilation reads it from the zeros of the fresh store, the second
    from the node that [threeConsts] left in cell 4. *)
Lemma compiling_twice_gives_two_texts :
  let before :=
    "return{" +++ dquote +++ "wasm:function[0]" +++ dquote +++ "(){var L,T,"
    +++ join "," (slotRange 1 252)
    +++ ";b0:{return;if(s0){}if(s-1){}if(s-2){}if(s-3){}b1:if(s-4){s252=5;s252=(" in
  let after :=
    ")?0:1;break b1;}}}}[" +++ dquote +++ "wasm:function[0]" +++ dquote +++ "]" in
  let first := before +++ "l.i32_trunc_sat_s_((5))" +++ after in
  let second := before +++ "9" +++ after in
  exists store1 text store2 store3,
    compileCode plainEnv [] staleRead 0 0 100 freshStore = Ok (first, store1)
    /\ compileCode plainEnv [] threeConsts 0 0 100 store1 = Ok (text, store2)
    /\ compileCode plainEnv [] staleRead 0 0 100 store2 = Ok (second, store3)
    /\ first <> second
    /\ checkFunction plainEnv [] staleRead 0 100 100 freshStore = false.
Proof.
  cbv zeta. eexists. eexists. eexists. eexists.
  split; [vm_compute; reflexivity|].
  split; [vm_compute; reflexivity|].
  split; [vm_compute; reflexivity|].
  split; [|vm_compute; reflexivity].
  apply String.eqb_neq. vm_compute. reflexivity.
Qed.

(** ** The nodes between two block ends *)

Section NodesInvariant.

Variable env : Env.
Variable wasm : WASM.
Variable funcTypes : list FuncType.
Variable names : list string.
Variable fuel : nat.

Hypothesis optimizer_confined : confined env wasm funcTypes.
Hypothesis bytes_ok : byteArray wasm.

Local Abbreviation pendingHere := (pending wasm funcTypes).
Local Abbreviation visitsHere := (visits env wasm funcTypes names fuel).
Local Abbreviation disciplinedHere := (disciplined env wasm funcTypes names fuel).

Lemma pending_step (s0 s1 : State) :
  pendingHere s0 -> wellStacked wasm funcTypes s0 ->
  step env wasm funcTypes names fuel s0 = Ok (tt, s1) -> pendingHere s1.
Proof.
  intros Hp Hw Hrun.
  pose proof (rel_step env wasm funcTypes names fuel optimizer_confined bytes_ok s0 Hp Hw
                       s0 (ast s0) eq_refl (fun i _ => eq_refl)) as H.
  rewrite Hrun in H. exact (proj1 H).
Qed.

Lemma pending_visits (codeEnd : Z) (s0 s : State) :
  visitsHere codeEnd s0 s -> pendingHere s0 -> disciplinedHere codeEnd s0 -> pendingHere s.
Proof.
  induction 1 as [s|s s1 s2 Hlt Hrun Hv IH]; intros Hp Hd; [exact Hp|].
  apply IH.
  - apply (pending_step s s1); [exact Hp | apply Hd; [constructor | exact Hlt] | exact Hrun].
  - intros s' Hv' Hlt'. apply Hd; [|exact Hlt'].
    apply (visits_next env wasm funcTypes names fuel codeEnd s s1 s'); assumption.
Qed.

Lemma decode_visits (codeEnd : Z) (n : nat) :
  forall s s', decode env wasm funcTypes names fuel n codeEnd s = Ok (tt, s') ->
               visitsHere codeEnd s s'.
Proof.
  induction n as [|n IH]; intros s s' H; cbn [decode] in H.
  - inv_bind H as p s1 H1. inv_ret H1.
    destruct (bytesPtr s <? codeEnd); [discriminate|]. inv_ret H. constructor.
  - inv_bind H as p s1 H1. inv_ret H1.
    destruct (bytesPtr s <? codeEnd) eqn:E; [|inv_ret H; constructor].
    inv_bind H as u s2 H2. destruct u. apply Z.ltb_lt in E.
    apply (visits_next env wasm funcTypes names fuel codeEnd s s2 s');
      [exact E | exact H2 | apply IH; exact H].
Qed.

End NodesInvariant.

(** X2.  Four conditions are asked: the peephole optimizer
    [optimizeNode], whose source is not part of this development, keeps
    to the nodes it is given ([confined]); the bytecode is an array of
    bytes; at every live instruction that the loop decodes, the
    decoder's counter [stackTop] is at least the number of operands of
    the instruction and at most [stackBound]; and the loop returns,
    which in this development says also that no cell outside the 65536
    cells of the store was read or written (such an access is an error
    here, where an [Int32Array] reads [undefined] and drops the write).
    Then the nodes that wait for the end of the basic block are well
    formed after the loop: the top-level pointers name nodes that lie
    below the bump pointer and do not overlap, no pointer is listed
    twice, and every cell that the optimizer or the emitter reads for a
    node --- its children, its index or payload word --- lies inside
    that node, a child being a negated stack slot or a pointer to a
    node of the block.  The condition on [stackTop] is one on the
    decoder, not on the function: validation does not imply it, and in
    [staleRead], which fails it, a child is a pointer to a cell that an
    earlier compilation left in the store. *)
Theorem decoder_keeps_nodes_well_formed
        (env : Env) (wasm : WASM) (funcTypes : list FuncType) (names : list string)
        (fuel : nat) (codeEnd : Z) (n : nat) (s0 s : State) :
  confined env wasm funcTypes ->
  byteArray wasm ->
  pending wasm funcTypes s0 ->
  disciplined env wasm funcTypes names fuel codeEnd s0 ->
  decode env wasm funcTypes names fuel n codeEnd s0 = Ok (tt, s) ->
  pending wasm funcTypes s.
Proof.
  intros Hconfined Hbytes Hp Hd Hrun.
  apply (pending_visits env wasm funcTypes names fuel Hconfined Hbytes codeEnd s0 s);
    [|exact Hp | exact Hd].
  apply (decode_visits env wasm funcTypes names fuel codeEnd n). exact Hrun.
Qed.

Lemma decoder_keeps_nodes_well_formed_witness : pending rotl64 [] beforeRotl.
Proof.
  apply (decoder_keeps_nodes_well_formed plainEnv rotl64 [] ["a0"; "a1"] 100 4 2
           (initialState freshStore ["L"; "T"] 1 0) beforeRotl).
  - apply confined_plainEnv.
  - vm_compute. reflexivity.
  - apply pending_initialState.
  - apply (checkRun_sound plainEnv rotl64 [] ["a0"; "a1"] 100 4 10). vm_compute. reflexivity.
  - vm_compute. reflexivity.
Defined.

(** ** The header of a node *)

Lemma testbit_byte (x n : Z) (w : Z) :
  0 <= x < 2 ^ w -> 0 <= w <= n -> Z.testbit x n = false.
Proof.
  intros Hx Hn. destruct (Z.eq_dec x 0) as [->|Hne]; [apply Z.bits_0|].
  apply Z.bits_above_log2; [lia|].
  apply Z.log2_lt_pow2; [lia|].
  apply Z.lt_le_trans with (2 ^ w); [lia|]. apply Z.pow_le_mono_r; lia.
Qed.

Lemma outSlot_header (op cc slot : Z) :
  0 <= op < 256 -> 0 <= cc < 65536 ->
  nodeOutSlot (header op cc slot) = slot mod 256.
Proof.
  intros Hop Hcc.
  unfold nodeOutSlot, js_ushr, toUint32, header, Pack.OutSlotShift, Pack.ChildCountShift.
  change (24 mod 32) with 24. change 256 with (2 ^ 8).
  apply Z.bits_inj'. intros n Hn.
  rewrite Z.shiftr_spec by lia.
  destruct (Z.ltb_spec n 8) as [Hlt|Hge].
  - rewrite !Z.mod_pow2_bits_low by lia.
    unfold js_or. rewrite testbit_toInt32 by lia. rewrite Z.lor_spec.
    rewrite testbit_toInt32 by lia. rewrite Z.lor_spec.
    rewrite (testbit_byte op (n + 24) 8) by (change (2 ^ 8) with 256; lia).
    unfold js_shl. change (8 mod 32) with 8. change (24 mod 32) with 24.
    rewrite !testbit_toInt32 by lia. rewrite !Z.shiftl_spec by lia.
    rewrite (testbit_byte cc (n + 24 - 8) 16) by (change (2 ^ 16) with 65536; lia).
    cbn [orb]. f_equal. lia.
  - rewrite !Z.mod_pow2_bits_high by lia. reflexivity.
Qed.

(** X3.  The header word packs the opcode into bits 0 to 7, the child
    count into bits 8 to 23 and the output stack slot into bits 24 to
    31, and the three accessors that the emitter and the optimizer use
    read them back: the opcode and the child count as they were packed,
    the stack slot modulo 256.  A slot above 255 does not survive the
    round trip. *)
Theorem header_round_trip (op cc slot : Z) :
  0 <= op < 256 -> 0 <= cc < 65536 ->
  nodeOp (header op cc slot) = op
  /\ nodeChildCount (header op cc slot) = cc
  /\ nodeOutSlot (header op cc slot) = slot mod 256.
Proof.
  intros Hop Hcc. destruct (fields_header op cc slot Hop Hcc) as [E1 E2].
  split; [rewrite nodeOp_field; exact E1|].
  split; [|apply outSlot_header; assumption].
  unfold header in *. unfold js_or at 1. rewrite nodeChildCount_field.
  unfold js_or at 1 in E2. rewrite countField_toInt32 in E2. exact E2.
Qed.

Lemma header_round_trip_witness :
  nodeOp (header Op.i32_add 2 257) = Op.i32_add
  /\ nodeChildCount (header Op.i32_add 2 257) = 2
  /\ nodeOutSlot (header Op.i32_add 2 257) = 257 mod 256.
Proof. apply header_round_trip; [unfold Op.i32_add; lia | lia]. Defined.

(** ** The table of the decoder and the cases of the emitter *)

(** X4.  Every opcode that the meta table sends down the table-driven
    path of the decoder, and does not omit, has a case in
    [emitUnwrapped], and that case reads nothing but the cells of the
    node that the decoder writes for it: the children counted by the
    table's pop count, and the index word when the table says the opcode
    has one. *)
Theorem table_driven_opcodes_have_emitter_cases (op : Z) :
  0 <= op < 256 ->
  hasFlag (metaTable op) MetaFlag.Simple = true ->
  hasFlag (metaTable op) MetaFlag.Omit = false ->
  let childCount := js_and (metaTable op) MetaFlag.PopMask in
  let size := 1 + childCount + (if hasFlag (metaTable op) MetaFlag.HasIndex then 1 else 0) in
  0 <= childCount <= 3
  /\ fits op childCount size = true
  /\ (storeTemplate op <> None \/ template op <> None
      \/ op = Op.memory_size \/ op = Op.memory_grow).
Proof.
  intros Hop Hsimple Homit. cbv zeta.
  assert (H : forall x, 0 <= x < 256 ->
            (fun op => negb (hasFlag (metaTable op) MetaFlag.Simple)
                       || hasFlag (metaTable op) MetaFlag.Omit
                       || (simpleOk op
                           && (match storeTemplate op, template op with
                               | None, None => (op =? Op.memory_size) || (op =? Op.memory_grow)
                               | _, _ => true
                               end))) x = true).
  { apply forall_bytes. vm_compute. reflexivity. }
  specialize (H op Hop). cbv beta in H. rewrite Hsimple, Homit in H. cbn [negb orb] in H.
  apply andb_prop in H. destruct H as [Hok Hcase].
  unfold simpleOk in Hok. cbv zeta in Hok. rewrite Hsimple, Homit in Hok.
  cbn [negb orb] in Hok.
  repeat (apply andb_prop in Hok; destruct Hok as [Hok ?]).
  split; [lia|]. split; [exact Hok|].
  destruct (storeTemplate op); [left; discriminate|].
  destruct (template op); [right; left; discriminate|].
  apply orb_prop in Hcase. destruct Hcase as [E|E]; apply Z.eqb_eq in E; auto.
Qed.

Lemma table_driven_opcodes_have_emitter_cases_witness :
  let childCount := js_and (metaTable Op.i32_load) MetaFlag.PopMask in
  let size := 1 + childCount
              + (if hasFlag (metaTable Op.i32_load) MetaFlag.HasIndex then 1 else 0) in
  0 <= childCount <= 3
  /\ fits Op.i32_load childCount size = true
  /\ (storeTemplate Op.i32_load <> None \/ template Op.i32_load <> None
      \/ Op.i32_load = Op.memory_size \/ Op.i32_load = Op.memory_grow).
Proof.
  apply table_driven_opcodes_have_emitter_cases;
    [unfold Op.i32_load; lia | reflexivity | reflexivity].
Defined.

(** ** LEB128 numbers *)

(** The unsigned LEB128 encoding of [n]: seven bits a byte, the low
    ones first, bit 7 set on every byte but the last.  [fuel] bounds the
    number of continuation bytes. *)
Fixpoint leb128 (fuel : nat) (n : Z) : list Z :=
  match fuel with
  | O => [n]
  | S fuel' => if n <? 128 then [n] else (n mod 128 + 128) :: leb128 fuel' (n / 128)
  end.

Lemma byte_bits (b : Z) :
  0 <= b < 256 ->
  if b <? 128 then js_and b 0x80 = 0 /\ js_and b 0x7F = b
  else js_and b 0x80 <> 0 /\ js_and b 0x7F = b - 128.
Proof.
  intros Hb.
  pose proof (forall_bytes
                (fun b => if b <? 128
                          then (js_and b 0x80 =? 0) && (js_and b 0x7F =? b)
                          else negb (js_and b 0x80 =? 0) && (js_and b 0x7F =? b - 128))
                ltac:(vm_compute; reflexivity) b Hb) as H.
  cbv beta in H. destruct (b <? 128); apply andb_prop in H; destruct H as [H1 H2].
  - split; [apply Z.eqb_eq, H1 | apply Z.eqb_eq, H2].
  - split; [apply Z.eqb_neq; destruct (js_and b 128 =? 0); [discriminate | reflexivity]
           | apply Z.eqb_eq, H2].
Qed.

Lemma lor_mod32 (a b : Z) :
  Z.lor a b mod 2 ^ 32 = Z.lor (a mod 2 ^ 32) (b mod 2 ^ 32).
Proof. rewrite <- !Z.land_ones by lia. apply Z.land_lor_distr_l. Qed.

Lemma accumulate32_mod (value low7 shift : Z) :
  0 <= shift < 32 ->
  accumulate32 value low7 shift mod 2 ^ 32
  = Z.lor (value mod 2 ^ 32) (Z.shiftl low7 shift mod 2 ^ 32).
Proof.
  intros Hs. unfold accumulate32, js_or, js_shl.
  rewrite toInt32_mod, lor_mod32, toInt32_mod. rewrite (Z.mod_small shift 32) by lia.
  reflexivity.
Qed.

(** Seven bits, and the rest above them. *)
Lemma split7 (n : Z) : n = Z.lor (n mod 128) (Z.shiftl (n / 128) 7).
Proof.
  apply Z.bits_inj'. intros i Hi. rewrite Z.lor_spec.
  change 128 with (2 ^ 7). rewrite <- Z.shiftr_div_pow2 by lia.
  destruct (Z.ltb_spec i 7) as [Hlt|Hge].
  - rewrite Z.mod_pow2_bits_low by lia. rewrite Z.shiftl_spec_low by lia.
    rewrite orb_false_r. reflexivity.
  - rewrite Z.mod_pow2_bits_high by lia. rewrite Z.shiftl_spec by lia.
    rewrite Z.shiftr_spec by lia. cbn [orb]. f_equal. lia.
Qed.

Lemma lebLoop_leb128 (rest : list Z) (k : nat) :
  forall n value shift count,
    0 <= n < 128 ^ (Z.of_nat k + 1) -> 0 <= shift -> shift + 7 * Z.of_nat k < 32 ->
    exists value' shift' byte',
      lebLoop accumulate32 (leb128 k n ++ rest) value shift count
      = (value', shift', byte', count + Z.of_nat (List.length (leb128 k n)))
      /\ value' mod 2 ^ 32 = Z.lor (value mod 2 ^ 32) (Z.shiftl n shift mod 2 ^ 32).
Proof.
  assert (Hlast : forall n value shift count,
             0 <= n < 128 -> 0 <= shift < 32 ->
             exists value' shift' byte',
               lebLoop accumulate32 ([n] ++ rest) value shift count
               = (value', shift', byte', count + Z.of_nat (List.length [n]))
               /\ value' mod 2 ^ 32 = Z.lor (value mod 2 ^ 32) (Z.shiftl n shift mod 2 ^ 32)).
  { intros n value shift count Hn Hs. cbn [app lebLoop List.length].
    pose proof (byte_bits n ltac:(lia)) as Hb.
    destruct (Z.ltb_spec n 128); [|lia]. destruct Hb as [-> ->]. cbn [Z.eqb].
    eexists _, _, _. split; [reflexivity|]. apply accumulate32_mod. exact Hs. }
  induction k as [|k IH]; intros n value shift count Hn Hshift Hk; cbn [leb128].
  - apply Hlast; [|lia]. change (128 ^ (Z.of_nat 0 + 1)) with 128 in Hn. exact Hn.
  - destruct (Z.ltb_spec n 128) as [Hlt|Hge]; [apply Hlast; lia|].
    cbn [app lebLoop List.length].
    pose proof (Z.mod_pos_bound n 128 ltac:(lia)) as Hm.
    pose proof (byte_bits (n mod 128 + 128) ltac:(lia)) as Hb.
    destruct (Z.ltb_spec (n mod 128 + 128) 128); [lia|]. destruct Hb as [H80 H7F].
    rewrite H7F. destruct (Z.eqb_spec (js_and (n mod 128 + 128) 128) 0) as [E|_]; [contradiction|].
    replace (n mod 128 + 128 - 128) with (n mod 128) by lia.
    assert (Hdiv : 0 <= n / 128 < 128 ^ (Z.of_nat k + 1)).
    { split; [apply Z.div_pos; lia|]. apply Z.div_lt_upper_bound; [lia|].
      replace (Z.of_nat (S k) + 1) with (Z.succ (Z.of_nat k + 1)) in Hn by lia.
      rewrite Z.pow_succ_r in Hn by lia. lia. }
    destruct (IH (n / 128) (accumulate32 value (n mod 128) shift) (shift + 7) (count + 1)
                 Hdiv ltac:(lia) ltac:(lia)) as (v' & sh' & b' & Hrun & Hval).
    exists v', sh', b'. split.
    + rewrite Hrun. f_equal. lia.
    + rewrite Hval, accumulate32_mod by lia. rewrite <- Z.lor_assoc. f_equal.
      rewrite <- lor_mod32. f_equal.
      rewrite (split7 n) at 3. rewrite Z.shiftl_lor, Z.shiftl_shiftl by lia.
      f_equal. f_equal. lia.
Qed.

Section ReadLEB.

Variable wasm : WASM.

(** X5.  [readU32LEB] reads unsigned LEB128: when the bytes at
    [bytesPtr] are the encoding of a number below 2^32 in at most five
    bytes, it returns that number and leaves [bytesPtr] after the
    encoding. *)
Theorem readU32LEB_reads_leb128 (s : State) (n : Z) (rest : list Z) :
  0 <= n < 2 ^ 32 ->
  bytesFrom wasm (bytesPtr s) = leb128 4 n ++ rest ->
  readU32LEB wasm s
  = Ok (n, set_bytesPtr (bytesPtr s + Z.of_nat (List.length (leb128 4 n))) s).
Proof.
  intros Hn Hbytes. unfold readU32LEB, readLEB, bind. rewrite Hbytes.
  destruct (lebLoop_leb128 rest 4 n 0 0 0) as (v & sh & b & Hrun & Hval).
  - change (2 ^ 32) with 4294967296 in Hn. change (128 ^ (Z.of_nat 4 + 1)) with 34359738368.
    lia.
  - lia.
  - cbn. lia.
  - rewrite Hrun. unfold ret, toUint32. rewrite Hval.
    rewrite Z.shiftl_0_r. change (0 mod 2 ^ 32) with 0. rewrite Z.lor_0_l.
    rewrite Z.mod_small by exact Hn. reflexivity.
Qed.

Lemma lebLoop_advances (accumulate : Z -> Z -> Z -> Z) (bs : list Z) :
  forall value shift count,
    let '(_, _, _, count') := lebLoop accumulate bs value shift count in
    count + 1 <= count' <= count + Z.of_nat (List.length bs) + 1.
Proof.
  induction bs as [|b bs IH]; intros value shift count; cbn [lebLoop List.length].
  - lia.
  - destruct (js_and b 128 =? 0); [lia|].
    specialize (IH (accumulate value (js_and b 127) shift) (shift + 7) (count + 1)).
    destruct (lebLoop accumulate bs _ _ _) as [[[v sh] b'] c]. lia.
Qed.

(** X6.  [readU32LEB] always returns: its result is an unsigned
    32-bit number, and it moves [bytesPtr] forward by at least one byte
    and at most one byte past the end of the bytecode.  At the end of
    the bytecode, where [bytes[bytesPtr]] is [undefined], it returns 0
    and still moves [bytesPtr] by one. *)
Theorem readU32LEB_advances (s : State) :
  exists value count,
    readU32LEB wasm s = Ok (value, set_bytesPtr (bytesPtr s + count) s)
    /\ 0 <= value < 2 ^ 32
    /\ 1 <= count <= Z.of_nat (List.length (bytesFrom wasm (bytesPtr s))) + 1
    /\ (bytesFrom wasm (bytesPtr s) = [] -> value = 0 /\ count = 1).
Proof.
  unfold readU32LEB, readLEB, bind.
  pose proof (lebLoop_advances accumulate32 (bytesFrom wasm (bytesPtr s)) 0 0 0) as Hc.
  destruct (lebLoop accumulate32 (bytesFrom wasm (bytesPtr s)) 0 0 0)
    as [[[v sh] b] c] eqn:E.
  exists (toUint32 v), c. split; [reflexivity|].
  split; [unfold toUint32; apply Z.mod_pos_bound; reflexivity|].
  split; [lia|].
  intros Hnil. rewrite Hnil in E. cbn in E. injection E as <- _ _ <-.
  split; reflexivity.
Qed.

End ReadLEB.

Lemma readU32LEB_reads_leb128_witness :
  readU32LEB (oneFunction ([], []) [] [0xE5; 0x8E; 0x26; 0x0B])
             (initialState freshStore [] 0 0)
  = Ok (624485, set_bytesPtr 3 (initialState freshStore [] 0 0)).
Proof.
  exact (readU32LEB_reads_leb128 (oneFunction ([], []) [] [0xE5; 0x8E; 0x26; 0x0B])
                                 (initialState freshStore [] 0 0) 624485 [0x0B]
                                 ltac:(lia) eq_refl).
Defined.

(** ** The decoding loop ends *)

(** [forward c]: a successful run of [c] does not move [bytesPtr] back. *)
Definition forward {A : Type} (c : M A) : Prop :=
  forall s a s', c s = Ok (a, s') -> bytesPtr s <= bytesPtr s'.

Lemma forward_bind {A B : Type} (c : M A) (k : A -> M B) :
  forward c -> (forall a, forward (k a)) -> forward (bind c k).
Proof.
  intros Hc Hk s b s' H. apply bind_Ok in H. destruct H as (a & s1 & H1 & H2).
  specialize (Hc _ _ _ H1). specialize (Hk _ _ _ _ H2). lia.
Qed.

Lemma forward_keeps {A : Type} (c : M A) : keeps bytesPtr c -> forward c.
Proof. intros Hk s a s' H. rewrite (Hk _ _ _ H). lia. Qed.

Lemma forward_skipBytes (n : Z) : 0 <= n -> forward (skipBytes n).
Proof. intros Hn s a s' H. unfold skipBytes, modify in H. injection H as _ <-. cbn. lia. Qed.

Lemma forward_readLEB (wasm : WASM) (accumulate : Z -> Z -> Z -> Z) :
  forward (readLEB wasm accumulate).
Proof.
  intros s a s' H. unfold readLEB in H.
  pose proof (lebLoop_advances accumulate (bytesFrom wasm (bytesPtr s)) 0 0 0) as Hc.
  destruct (lebLoop accumulate (bytesFrom wasm (bytesPtr s)) 0 0 0) as [[[v sh] b] c].
  injection H as _ <-. cbn. lia.
Qed.

Lemma forward_readByteOrZero (wasm : WASM) : forward (readByteOrZero wasm).
Proof. intros s a s' H. unfold readByteOrZero in H. injection H as _ <-. cbn. lia. Qed.

Lemma forward_forRange (from : Z) (n : nat) (f : Z -> M unit) :
  (forall k, forward (f k)) -> forward (forRange from n f).
Proof.
  intros Hf. revert from. induction n as [|n IH]; intros from; cbn [forRange].
  - apply forward_keeps, keeps_ret.
  - apply forward_bind; [apply Hf | intros; apply IH].
Qed.

Ltac forward_step :=
  lazymatch goal with
  | |- forward (bind _ _) => apply forward_bind; [|intros]
  | |- forward (skipBytes _) => apply forward_skipBytes; lia
  | |- forward (readLEB _ _) => apply forward_readLEB
  | |- forward (readByteOrZero _) => apply forward_readByteOrZero
  | |- forward (readU32LEB _) => unfold readU32LEB
  | |- forward (readI32LEB _) => unfold readI32LEB
  | |- forward (readI64LEB _) => unfold readI64LEB
  | |- forward (readBlockType _) => unfold readBlockType
  | |- forward (pushBlock _ _) => unfold pushBlock
  | |- forward (jumpRelative _) => unfold jumpRelative
  | |- forward (pushConst _ _) => unfold pushConst
  | |- forward (decodeFC _) => unfold decodeFC
  | |- forward (decodeSimple _ _ _) => unfold decodeSimple
  | |- forward (skipSimple _ _) => unfold skipSimple
  | |- forward (forRange _ _ _) => apply forward_forRange; intros
  | |- forward (ret _) => apply forward_keeps, keeps_ret
  | |- forward (throw _) => apply forward_keeps, keeps_throw
  | |- forward (gets _) => apply forward_keeps, keeps_gets
  | |- forward (modify _) => apply forward_keeps, keeps_modify; intros; reflexivity
  | |- forward (emitBody _) => apply forward_keeps, keeps_d_emitBody; intros; reflexivity
  | |- forward (pushWord _) => apply forward_keeps, keeps_pushWord; intros; reflexivity
  | |- forward pushPtr => apply forward_keeps, keeps_pushPtr; intros; reflexivity
  | |- forward (pushUnary _ _) => apply forward_keeps, keeps_pushUnary; intros; reflexivity
  | |- forward (pushCall _ _ _ _ _) => apply forward_keeps, keeps_pushCall; intros; reflexivity
  | |- forward (pushTernary _ _ _ _) =>
    apply forward_keeps, keeps_pushTernary; intros; reflexivity
  | |- forward topBlock => apply forward_keeps, keeps_topBlock
  | |- forward topIsDead => apply forward_keeps, keeps_topIsDead
  | |- forward (modifyTop _) => apply forward_keeps, keeps_modifyTop; intros; reflexivity
  | |- forward (typeAt _ _) => apply forward_keeps, keeps_typeAt
  | |- forward (jump _) => apply forward_keeps, keeps_jump; intros; reflexivity
  | |- forward (finalizeBasicBlock _ _ _ _ _ _) =>
    apply forward_keeps, keeps_d_finalizeBasicBlock; intros; reflexivity
  | |- forward (finalizeTest _ _ _ _ _) =>
    apply forward_keeps, keeps_finalizeTest; intros; reflexivity
  | |- forward (if ?b then _ else _) => destruct b
  | |- forward (match ?x with _ => _ end) => destruct x
  end.

Section Progress.

Variable env : Env.
Variable wasm : WASM.
Variable funcTypes : list FuncType.
Variable names : list string.
Variable fuel : nat.

Local Abbreviation stepHere := (step env wasm funcTypes names fuel).
Local Abbreviation decodeHere := (decode env wasm funcTypes names fuel).

Lemma forward_decodeSpecial (op : Z) :
  forward (decodeSpecial env wasm funcTypes names fuel op).
Proof. unfold decodeSpecial. repeat forward_step. Qed.

(** Every instruction takes its opcode byte at least. *)
Lemma step_advances (s s' : State) :
  stepHere s = Ok (tt, s') -> bytesPtr s + 1 <= bytesPtr s'.
Proof.
  unfold step. intros H.
  inv_bind H as p s1 H1. inv_ret H1.
  inv_bind H as u s2 H2. unfold skipBytes in H2. inv_ret H2.
  assert (Hf : forward (match lookupZ (bytes_ wasm) (bytesPtr s) with
                        | Some op =>
                          let flags := metaTable op in
                          if hasFlag flags MetaFlag.Simple
                          then dead <- topIsDead ;;
                               (if dead then skipSimple wasm flags
                                else decodeSimple wasm op flags)
                          else decodeSpecial env wasm funcTypes names fuel op
                        | None => throw TypeError
                        end)).
  { destruct (lookupZ (bytes_ wasm) (bytesPtr s)) as [op|]; [|forward_step].
    cbv zeta. destruct (hasFlag (metaTable op) MetaFlag.Simple);
      [repeat forward_step | apply forward_decodeSpecial]. }
  specialize (Hf _ _ _ H). cbn in Hf. lia.
Qed.

(** With a bound that is not smaller than the number of bytes left,
    the loop is the repetition of [step] while [bytesPtr] is below
    [codeEnd]. *)
Lemma decode_runs_the_steps (codeEnd : Z) (n : nat) :
  forall s, codeEnd - bytesPtr s <= Z.of_nat n ->
    match decode env wasm funcTypes names fuel n codeEnd s with
    | Ok (_, s') => visits env wasm funcTypes names fuel codeEnd s s' /\ codeEnd <= bytesPtr s'
    | Err e =>
      exists s1, visits env wasm funcTypes names fuel codeEnd s s1
                 /\ bytesPtr s1 < codeEnd /\ stepHere s1 = Err e
    end.
Proof.
  induction n as [|n IH]; intros s Hn; cbn [decode]; unfold bind at 1, gets.
  - destruct (Z.ltb_spec (bytesPtr s) codeEnd); [lia|].
    split; [constructor | lia].
  - destruct (Z.ltb_spec (bytesPtr s) codeEnd) as [Hlt|Hge].
    2:{ split; [constructor | lia]. }
    unfold bind. destruct (stepHere s) as [[[] s1]|e] eqn:Hstep.
    + pose proof (step_advances s s1 Hstep) as Hadv.
      specialize (IH s1 ltac:(lia)).
      destruct (decode env wasm funcTypes names fuel n codeEnd s1) as [[u s']|e].
      * destruct IH as [Hv Hend]. split; [|exact Hend].
        apply (visits_next env wasm funcTypes names fuel codeEnd s s1 s'); assumption.
      * destruct IH as (s2 & Hv & Hlt2 & Herr). exists s2.
        split; [|split; assumption].
        apply (visits_next env wasm funcTypes names fuel codeEnd s s1 s2); assumption.
    + exists s. split; [constructor|]. split; assumption.
Qed.

(** X7.  The loop [while (bytesPtr < codeEnd)] ends.  Every
    instruction that is decoded moves [bytesPtr] forward by one byte at
    least.  So a bound on the number of iterations that is not smaller
    than the number of bytes left is never reached: the loop decodes
    instruction after instruction while [bytesPtr] is below [codeEnd]
    and then returns with [bytesPtr] at [codeEnd] or past it, unless an
    instruction fails, and then the error of the loop is the error of
    that instruction.  Any larger bound gives the same result. *)
Theorem decoding_loop_ends (codeEnd : Z) (n : nat) (s : State) :
  codeEnd - bytesPtr s <= Z.of_nat n ->
  (forall s1 s2, step env wasm funcTypes names fuel s1 = Ok (tt, s2) ->
                 bytesPtr s1 + 1 <= bytesPtr s2)
  /\ match decode env wasm funcTypes names fuel n codeEnd s with
     | Ok (_, s') => visits env wasm funcTypes names fuel codeEnd s s' /\ codeEnd <= bytesPtr s'
     | Err e =>
       exists s1, visits env wasm funcTypes names fuel codeEnd s s1
                  /\ bytesPtr s1 < codeEnd
                  /\ step env wasm funcTypes names fuel s1 = Err e
     end
  /\ (forall k, decode env wasm funcTypes names fuel (n + k) codeEnd s
                = decode env wasm funcTypes names fuel n codeEnd s).
Proof.
  intros Hn. split; [exact step_advances|]. split; [apply decode_runs_the_steps; exact Hn|].
  intros k. revert s Hn. induction n as [|n IH]; intros s Hn.
  - assert (E : (bytesPtr s <? codeEnd) = false) by (apply Z.ltb_ge; lia).
    destruct k; cbn [decode Nat.add]; unfold bind, gets; rewrite E; reflexivity.
  - cbn [decode Nat.add]. unfold bind at 1 3, gets.
    destruct (bytesPtr s <? codeEnd) eqn:E; [|reflexivity].
    unfold bind. destruct (stepHere s) as [[[] s1]|e] eqn:Hstep; [|reflexivity].
    apply IH. pose proof (step_advances s s1 Hstep). lia.
Qed.

End Progress.

Lemma decoding_loop_ends_witness :
  (forall s1 s2, step plainEnv rotl64 [] ["a0"; "a1"] 100 s1 = Ok (tt, s2) ->
                 bytesPtr s1 + 1 <= bytesPtr s2)
  /\ (visits plainEnv rotl64 [] ["a0"; "a1"] 100 6
             (initialState freshStore ["L"; "T"] 1 0) (decoded rotl64 ["a0"; "a1"] 1 6 6)
      /\ 6 <= bytesPtr (decoded rotl64 ["a0"; "a1"] 1 6 6))
  /\ (forall k,
        decode plainEnv rotl64 [] ["a0"; "a1"] 100 (6 + k) 6
               (initialState freshStore ["L"; "T"] 1 0)
        = decode plainEnv rotl64 [] ["a0"; "a1"] 100 6 6
                 (initialState freshStore ["L"; "T"] 1 0)).
Proof.
  pose proof (decoding_loop_ends plainEnv rotl64 [] ["a0"; "a1"] 100 6 6
                (initialState freshStore ["L"; "T"] 1 0) ltac:(cbn; lia)) as (H1 & H2 & H3).
  split; [exact H1|]. split; [|exact H3].
  assert (E : decode plainEnv rotl64 [] ["a0"; "a1"] 100 6 6
                     (initialState freshStore ["L"; "T"] 1 0)
              = Ok (tt, decoded rotl64 ["a0"; "a1"] 1 6 6)) by (vm_compute; reflexivity).
  rewrite E in H2. exact H2.
Defined.

(** ** The declared stack slots *)

(** The two variables that [stackSlotName] updates. *)
Definition slotsView (s : State) : Z * list string := (stackLimit s, decls s).

(** After the declarations [base] come [s1], ..., [sN], with [N] the
    value of [stackLimit]. *)
Definition declared (base : list string) (v : Z * list string) : Prop :=
  0 <= fst v /\ snd v = base ++ slotRange 1 (Z.to_nat (fst v)).

Lemma map_seq_shift {A : Type} (f g : nat -> A) (n : nat) :
  forall a b, (forall i, (i < n)%nat -> f (a + i)%nat = g (b + i)%nat) ->
              map f (seq a n) = map g (seq b n).
Proof.
  induction n as [|n IH]; intros a b H; cbn [seq map]; [reflexivity|].
  f_equal.
  - specialize (H 0%nat ltac:(lia)). rewrite !Nat.add_0_r in H. exact H.
  - apply IH. intros i Hi. specialize (H (S i) ltac:(lia)).
    rewrite !Nat.add_succ_r in H. exact H.
Qed.

Lemma slotRange_app (count more : nat) :
  slotRange 1 (count + more)
  = slotRange 1 count
    ++ map (fun k => "s" +++ showZ (Z.of_nat count + Z.of_nat k)) (seq 1 more).
Proof.
  unfold slotRange. rewrite seq_app, map_app. f_equal.
  apply map_seq_shift. intros i Hi. f_equal. f_equal. lia.
Qed.

Section Slots.

Variable env : Env.
Variable wasm : WASM.
Variable funcTypes : list FuncType.
Variable names : list string.
Variable fuel : nat.
Variable base : list string.

Local Abbreviation Declared := (fun s : State => declared base (slotsView s)).

Lemma pres_stackSlotName (stackSlot : Z) : pres Declared (stackSlotName stackSlot).
Proof.
  intros s a s' H [H0 Hd]. unfold stackSlotName in H. injection H as _ <-.
  unfold declared, slotsView in *. cbn [fst snd stackLimit decls set_decls set_stackLimit] in *.
  split; [lia|]. rewrite Hd, <- app_assoc. f_equal.
  destruct (Z.le_gt_cases stackSlot (stackLimit s)) as [Hle|Hgt].
  - rewrite Z.max_l by lia. replace (Z.to_nat (stackSlot - stackLimit s)) with 0%nat by lia.
    cbn [seq map]. apply app_nil_r.
  - rewrite Z.max_r by lia.
    replace (Z.to_nat stackSlot)
      with (Z.to_nat (stackLimit s) + Z.to_nat (stackSlot - stackLimit s))%nat by lia.
    rewrite slotRange_app. rewrite Z2Nat.id by lia. reflexivity.
Qed.

Ltac kept_slots :=
  apply (pres_of_keeps slotsView (declared base)).

Ltac slots_step :=
  lazymatch goal with
  | |- pres _ (bind _ _) => apply pres_bind; [|intros]
  | |- pres _ (stackSlotName _) => apply pres_stackSlotName
  | |- pres _ (ret _) => kept_slots; apply keeps_ret
  | |- pres _ (throw _) => kept_slots; apply keeps_throw
  | |- pres _ (gets _) => kept_slots; apply keeps_gets
  | |- pres _ (modify _) => kept_slots; apply keeps_modify; intros; reflexivity
  | |- pres _ (astGet _) => kept_slots; apply keeps_astGet
  | |- pres _ (emitBody _) => kept_slots; apply keeps_d_emitBody; intros; reflexivity
  | |- pres _ (skipBytes _) => kept_slots; apply keeps_skipBytes; intros; reflexivity
  | |- pres _ (pushWord _) => kept_slots; apply keeps_pushWord; intros; reflexivity
  | |- pres _ pushPtr => kept_slots; apply keeps_pushPtr; intros; reflexivity
  | |- pres _ (pushUnary _ _) => kept_slots; apply keeps_pushUnary; intros; reflexivity
  | |- pres _ (pushCall _ _ _ _ _) => kept_slots; apply keeps_pushCall; intros; reflexivity
  | |- pres _ (pushTernary _ _ _ _) =>
    kept_slots; apply keeps_pushTernary; intros; reflexivity
  | |- pres _ (pushConst _ _) => unfold pushConst
  | |- pres _ (decodeSimple _ _ _) =>
    kept_slots; apply keeps_decodeSimple; intros; reflexivity
  | |- pres _ (skipSimple _ _) => kept_slots; apply keeps_skipSimple; intros; reflexivity
  | |- pres _ (decodeFC _) => kept_slots; apply keeps_decodeFC; intros; reflexivity
  | |- pres _ (readU32LEB _) => kept_slots; apply keeps_readU32LEB; intros; reflexivity
  | |- pres _ (readI32LEB _) => kept_slots; apply keeps_readI32LEB; intros; reflexivity
  | |- pres _ (readI64LEB _) => kept_slots; apply keeps_readI64LEB; intros; reflexivity
  | |- pres _ (readByteOrZero _) =>
    kept_slots; apply keeps_readByteOrZero; intros; reflexivity
  | |- pres _ (readBlockType _) => kept_slots; apply keeps_readBlockType; intros; reflexivity
  | |- pres _ (pushBlock _ _) => unfold pushBlock
  | |- pres _ topBlock => kept_slots; apply keeps_topBlock
  | |- pres _ topIsDead => kept_slots; apply keeps_topIsDead
  | |- pres _ (modifyTop _) => kept_slots; apply keeps_modifyTop; intros; reflexivity
  | |- pres _ (typeAt _ _) => kept_slots; apply keeps_typeAt
  | |- pres _ (jump _) => kept_slots; apply keeps_jump; intros; reflexivity
  | |- pres _ (jumpRelative _) => kept_slots; apply keeps_jumpRelative; intros; reflexivity
  | |- pres _ (forRange _ _ _) => kept_slots; apply keeps_forRange; intros; quiet_all
  | |- pres _ (if ?b then _ else _) => destruct b
  | |- pres _ (match ?x with _ => _ end) => destruct x
  | |- pres _ _ => solve [auto]
  end.

Lemma pres_emitPieces (emit : Z -> M string) (ptr : Z) (value : string) (ps : list piece) :
  (forall p, pres Declared (emit p)) ->
  pres Declared (emitPieces env names emit ptr value ps).
Proof.
  intros He. induction ps as [|p ps IH]; cbn [emitPieces]; repeat slots_step.
Qed.

Lemma pres_emitKids (emit : Z -> M string) (n : nat) :
  (forall p, pres Declared (emit p)) ->
  forall base', pres Declared (emitKids emit base' n).
Proof.
  intros He. induction n as [|n IH]; intros base'; cbn [emitKids]; repeat slots_step.
Qed.

Lemma pres_slotNames (n : nat) : forall slot, pres Declared (slotNames slot n).
Proof. induction n as [|n IH]; intros slot; cbn [slotNames]; repeat slots_step. Qed.

Lemma pres_callResult (code : string) (returnTypes : list ValType) (slotAt : Z) :
  pres Declared (callResult code returnTypes slotAt).
Proof.
  unfold callResult. destruct (_ <? 2); [slots_step|].
  apply pres_bind; [slots_step|]. intros slot.
  apply pres_bind; [apply pres_slotNames|]. intros. slots_step.
Qed.

Lemma pres_emitUnwrapped (budget : nat) :
  forall ptr, pres Declared (emitUnwrapped env wasm funcTypes names budget ptr).
Proof.
  induction budget as [|budget IH]; intros ptr; [cbn [emitUnwrapped]; slots_step|].
  assert (He : forall p, pres Declared
                           (if p <? 0 then stackSlotName (- p)
                            else (t <- emitUnwrapped env wasm funcTypes names budget p ;;
                                  ret ("(" +++ t +++ ")")))).
  { intros p. repeat slots_step. }
  cbn [emitUnwrapped].
  repeat lazymatch goal with
         | |- pres _ (emitPieces _ _ _ _ _ _) => apply pres_emitPieces; exact He
         | |- pres _ (emitKids _ _ _) => apply pres_emitKids; exact He
         | |- pres _ (callResult _ _ _) => apply pres_callResult
         | |- pres _ (if _ <? 0 then _ else _) => apply He
         | |- _ => slots_step
         end.
Qed.

Lemma pres_emitStatements (entries : list (option Z)) :
  pres Declared (emitStatements env wasm funcTypes names fuel entries).
Proof.
  induction entries as [|[ptr|] rest IH]; cbn [emitStatements]; [slots_step| |exact IH].
  repeat lazymatch goal with
         | |- pres _ (emitUnwrapped _ _ _ _ _ _) => apply pres_emitUnwrapped
         | |- _ => slots_step
         end.
Qed.

Lemma pres_finalizeBasicBlock (popStackTop : bool) :
  pres Declared (finalizeBasicBlock env wasm funcTypes names fuel popStackTop).
Proof.
  unfold finalizeBasicBlock.
  repeat lazymatch goal with
         | |- pres _ (optimizeAll _ _ _ _) => kept_slots; apply keeps_optimizeAll; ign
         | |- pres _ (emitUnwrapped _ _ _ _ _ _) => apply pres_emitUnwrapped
         | |- pres _ (emitStatements _ _ _ _ _ _) => apply pres_emitStatements
         | |- _ => slots_step
         end.
Qed.

Lemma pres_slots_step : pres Declared (step env wasm funcTypes names fuel).
Proof.
  unfold step, decodeSpecial, finalizeTest.
  repeat lazymatch goal with
         | |- pres _ (finalizeBasicBlock _ _ _ _ _ _) => apply pres_finalizeBasicBlock
         | |- _ => slots_step
         end.
Qed.

Lemma pres_slots_decode (codeEnd : Z) (n : nat) :
  pres Declared (decode env wasm funcTypes names fuel n codeEnd).
Proof.
  induction n as [|n IH]; cbn [decode]; repeat slots_step.
  apply pres_slots_step.
Qed.

End Slots.

(** X8.  When [compileCode] succeeds, the [var] list of the function it
    returns is the list it started with --- [L], [T] and the locals ---
    followed by the stack slots [s1], ..., [sN], each once and in this
    order, where [N] is the highest slot that [stackSlotName] was asked
    for; and [N] is at most 255.  The rest of the text is the body that
    the decoder appended to. *)
Theorem compiled_function_declares_its_slots (env : Env) (funcTypes : list FuncType)
        (wasm : WASM) (codeIndex funcIndex : Z) (fuel : nat) (store : AstStore)
        (text : string) :
  textOf (compileCode env funcTypes wasm codeIndex funcIndex fuel store) = Ok text ->
  exists names argCount s0 codeEnd s,
    functionStart wasm codeIndex store = Some (names, argCount, s0, codeEnd)
    /\ text = wrapBody env wasm codeIndex funcIndex names argCount s
    /\ decls s = decls s0 ++ slotRange 1 (Z.to_nat (stackLimit s))
    /\ 0 <= stackLimit s <= 255.
Proof.
  unfold compileCode, decodeFunction, functionStart. intros H.
  destruct (lookupZ (functionSection_ wasm) codeIndex) as [typeIndex|]; [|discriminate].
  destruct (lookupZ (typeSection_ wasm) typeIndex) as [[argTypes returnTypes]|];
    [|discriminate].
  destruct (lookupZ (codeSection_ wasm) codeIndex) as [[[locals codeStart] codeEnd]|];
    [|discriminate].
  cbv zeta in *.
  destruct (declareLocals locals (argNames (List.length argTypes)) ["L"; "T"])
    as [names decls0].
  set (s0 := initialState store decls0 (Z.of_nat (List.length returnTypes)) codeStart) in *.
  destruct (decode env wasm funcTypes names fuel (Z.to_nat (codeEnd - codeStart)) codeEnd s0)
    as [[[] s]|e] eqn:Hrun; [|discriminate].
  destruct (stackLimit s >? 255) eqn:Hlimit; [discriminate|].
  cbn [textOf] in H. injection H as <-.
  exists names, (List.length argTypes), s0, codeEnd, s.
  split; [reflexivity|]. split; [reflexivity|].
  assert (Hd : declared decls0 (slotsView s)).
  { apply (pres_slots_decode env wasm funcTypes names fuel decls0 codeEnd _ s0 tt s Hrun).
    split; [cbn; lia | cbn; symmetry; apply app_nil_r]. }
  destruct Hd as [H0 Hd]. cbn [fst snd slotsView] in *.
  split; [exact Hd|]. rewrite Z.gtb_ltb in Hlimit. apply Z.ltb_ge in Hlimit. lia.
Qed.

Lemma compiled_function_declares_its_slots_witness :
  exists names argCount s0 codeEnd s,
    functionStart rotl64 0 freshStore = Some (names, argCount, s0, codeEnd)
    /\ "return{" +++ dquote +++ "wasm:function[0]" +++ dquote
       +++ "(a0,a1){var L,T,s1;b0:{s1=l.i64_rotl_((a0),((a1)&(63n)));return s1;}}}["
       +++ dquote +++ "wasm:function[0]" +++ dquote +++ "]"
       = wrapBody plainEnv rotl64 0 0 names argCount s
    /\ decls s = decls s0 ++ slotRange 1 (Z.to_nat (stackLimit s))
    /\ 0 <= stackLimit s <= 255.
Proof.
  apply (compiled_function_declares_its_slots plainEnv [] rotl64 0 0 100 freshStore).
  vm_compute. reflexivity.
Defined.

(** ** The length of an instruction *)







Section Lengths.

Variable env : Env.
Variable wasm : WASM.
Variable funcTypes : list FuncType.
Variable names : list string.
Variable fuel : nat.








Ltac same := first [reflexivity | lia].











End Lengths.


(** ** The names of the arguments and of the locals *)

(** The types of the locals, one entry a local: the groups of the code
    section, each repeated [count] times. *)
Definition localTypes (locals : list (Z * ValType)) : list ValType :=
  flat_map (fun group => repeat (snd group) (Z.to_nat (fst group))) locals.

(** What [compileCode] declares for a local of type [type] when [k]
    declarations precede it. *)
Definition localName (k : nat) : string := "t" +++ showZ (Z.of_nat k).
Definition localDecl (k : nat) (type : ValType) : string :=
  localName k +++ match type with I64 => "=0n" | _ => "=0" end.

(** The declarations of locals of the types [types], [k] being the
    number of declarations before them. *)
Fixpoint localDecls (k : nat) (types : list ValType) : list string :=
  match types with
  | [] => []
  | type :: rest => localDecl k type :: localDecls (S k) rest
  end.

Lemma localDecls_app (types more : list ValType) :
  forall k, localDecls k (types ++ more)
            = localDecls k types ++ localDecls (k + List.length types) more.
Proof.
  induction types as [|t types IH]; intros k; cbn [app localDecls List.length].
  - rewrite Nat.add_0_r. reflexivity.
  - rewrite IH. do 3 f_equal. lia.
Qed.

Lemma declareGroup_spec (count : nat) (type : ValType) :
  forall names decls,
    declareGroup count type names decls
    = (names ++ map localName (seq (List.length decls) count),
       decls ++ localDecls (List.length decls) (repeat type count)).
Proof.
  induction count as [|count IH]; intros names decls;
    cbn [declareGroup seq map repeat localDecls].
  - rewrite !app_nil_r. reflexivity.
  - rewrite IH. rewrite <- !app_assoc. cbn [app].
    rewrite length_app. cbn [List.length]. rewrite Nat.add_1_r. reflexivity.
Qed.

Lemma declareLocals_spec (locals : list (Z * ValType)) :
  forall names decls,
    declareLocals locals names decls
    = (names ++ map localName (seq (List.length decls) (List.length (localTypes locals))),
       decls ++ localDecls (List.length decls) (localTypes locals)).
Proof.
  induction locals as [|[count type] rest IH]; intros names decls;
    cbn [declareLocals localTypes flat_map fst snd].
  - cbn. rewrite !app_nil_r. reflexivity.
  - rewrite declareGroup_spec. rewrite IH. fold (localTypes rest).
    rewrite <- !app_assoc.
    assert (Hlen : forall k types, List.length (localDecls k types) = List.length types).
    { intros k types. revert k. induction types as [|t types IHt]; intros k;
        cbn [localDecls List.length]; [reflexivity | rewrite IHt; reflexivity]. }
    rewrite !length_app, Hlen, repeat_length.
    rewrite seq_app, map_app, localDecls_app, repeat_length. reflexivity.
Qed.

Lemma nth_error_localDecls (types : list ValType) (i : nat) (type : ValType) :
  forall k, nth_error types i = Some type ->
            nth_error (localDecls k types) i = Some (localDecl (k + i) type).
Proof.
  revert i. induction types as [|t types IH]; intros i k H; [destruct i; discriminate|].
  destruct i as [|i]; cbn [nth_error localDecls] in *.
  - injection H as ->. rewrite Nat.add_0_r. reflexivity.
  - rewrite (IH i (S k) H). do 2 f_equal. lia.
Qed.

Lemma nth_error_argNames (argCount i : nat) :
  (i < argCount)%nat ->
  nth_error (argNames argCount) i = Some ("a" +++ showZ (Z.of_nat i)).
Proof.
  intros Hi. unfold argNames.
  rewrite nth_error_map, nth_error_seq.
  destruct (Nat.ltb_spec i argCount); [reflexivity | lia].
Qed.

(** X10.  The variables of a function: argument number [i] is named
    [a<i>], and the local number [i] of the code section --- the groups
    of locals counted one local at a time --- is named [t<i+2>] whatever
    the number of arguments, sits in [names] after the arguments, and
    is declared in the [var] list after [L] and [T] with the initial
    value [0], or [0n] when its type is [i64]. *)
Theorem locals_are_named_and_initialised (locals : list (Z * ValType)) (argCount : nat) :
  let '(names, decls) := declareLocals locals (argNames argCount) ["L"; "T"] in
  List.length names = (argCount + List.length (localTypes locals))%nat
  /\ List.length decls = (2 + List.length (localTypes locals))%nat
  /\ (forall i, (i < argCount)%nat ->
                nth_error names i = Some ("a" +++ showZ (Z.of_nat i)))
  /\ (forall i type,
        nth_error (localTypes locals) i = Some type ->
        nth_error names (argCount + i) = Some ("t" +++ showZ (Z.of_nat (i + 2)))
        /\ nth_error decls (2 + i)
           = Some ("t" +++ showZ (Z.of_nat (i + 2))
                   +++ match type with I64 => "=0n" | _ => "=0" end)).
Proof.
  rewrite declareLocals_spec. cbn [List.length].
  assert (Hargs : List.length (argNames argCount) = argCount)
    by (unfold argNames; rewrite length_map, length_seq; reflexivity).
  assert (Hlen : forall k types, List.length (localDecls k types) = List.length types).
  { intros k types. revert k. induction types as [|t types IHt]; intros k;
      cbn [localDecls List.length]; [reflexivity | rewrite IHt; reflexivity]. }
  split; [rewrite length_app, length_map, length_seq, Hargs; reflexivity|].
  split; [rewrite length_app, Hlen; reflexivity|].
  split.
  - intros i Hi. rewrite nth_error_app1 by lia. apply nth_error_argNames. exact Hi.
  - intros i type Hi.
    assert (Hlt : (i < List.length (localTypes locals))%nat)
      by (apply nth_error_Some; rewrite Hi; discriminate).
    split.
    + rewrite nth_error_app2 by lia. rewrite Hargs.
      replace (argCount + i - argCount)%nat with i by lia.
      rewrite nth_error_map, nth_error_seq.
      destruct (Nat.ltb_spec i (List.length (localTypes locals))); [|lia].
      cbn [option_map List.length]. unfold localName.
      replace (2 + i)%nat with (i + 2)%nat by lia. reflexivity.
    + change (2 + i)%nat with (List.length ["L"; "T"] + i)%nat.
      rewrite nth_error_app2 by lia.
      replace (List.length ["L"; "T"] + i - List.length ["L"; "T"])%nat with i by lia.
      rewrite (nth_error_localDecls _ i type _ Hi). cbn [List.length].
      unfold localDecl, localName.
      replace (2 + i)%nat with (i + 2)%nat by lia. reflexivity.
Qed.

(** ** The height of the stack *)

(** [topsAt bs t c t']: in a state with the block stack [bs] and
    [stackTop] at [t], a successful run of [c] leaves the block stack as
    it is and [stackTop] at [t']. *)
Definition topsAt {A : Type} (bs : list Block) (t : Z) (c : M A) (t' : Z) : Prop :=
  forall s a s', stackTop s = t -> blocks s = bs -> c s = Ok (a, s') ->
                 stackTop s' = t' /\ blocks s' = bs.

Definition heightView (s : State) : Z * list Block := (stackTop s, blocks s).

Lemma topsAt_bind {A B : Type} (bs : list Block) (t t1 t' : Z) (c : M A) (k : A -> M B) :
  topsAt bs t c t1 -> (forall a, topsAt bs t1 (k a) t') -> topsAt bs t (bind c k) t'.
Proof.
  intros Hc Hk s b s' Ht Hb H. apply bind_Ok in H. destruct H as (a & s1 & H1 & H2).
  destruct (Hc s a s1 Ht Hb H1) as [Ht1 Hb1]. apply (Hk a s1 b s' Ht1 Hb1 H2).
Qed.

Lemma topsAt_assoc {A B C : Type} (bs : list Block) (t t' : Z)
      (c : M A) (k : A -> M B) (k' : B -> M C) :
  topsAt bs t (bind c (fun a => bind (k a) k')) t' -> topsAt bs t (bind (bind c k) k') t'.
Proof. intros H s a s' Ht Hb Hrun. rewrite bind_assoc in Hrun. apply (H s a s' Ht Hb Hrun). Qed.

Lemma topsAt_keeps {A : Type} (bs : list Block) (t t' : Z) (c : M A) :
  keeps heightView c -> t = t' -> topsAt bs t c t'.
Proof.
  intros Hk <- s a s' Ht Hb H. specialize (Hk _ _ _ H). unfold heightView in Hk.
  injection Hk as -> ->. auto.
Qed.

Lemma topsAt_throw {A : Type} (bs : list Block) (t t' : Z) (e : Error) :
  topsAt bs t (@throw A e) t'.
Proof. intros s a s' _ _ H. discriminate. Qed.

Lemma topsAt_modify (bs : list Block) (t t' : Z) (f : State -> State) :
  (forall s, stackTop s = t -> stackTop (f s) = t' /\ blocks (f s) = blocks s) ->
  topsAt bs t (modify f) t'.
Proof.
  intros Hf s a s' Ht Hb H. unfold modify in H. injection H as _ <-.
  destruct (Hf s Ht) as [H1 H2]. rewrite H2. auto.
Qed.

Lemma topsAt_live {B : Type} (bs : list Block) (current : Block) (t t' : Z)
      (k : bool -> M B) :
  topOf bs = Some current -> topsAt bs t (k (isDead_ current)) t' ->
  topsAt bs t (bind topIsDead k) t'.
Proof.
  intros Htop Hk s b s' Ht Hb H. unfold bind, topIsDead, topBlock in H.
  unfold bind in H. rewrite Hb, Htop in H. apply (Hk s b s' Ht Hb H).
Qed.

Lemma topsAt_ret_bind {A B : Type} (bs : list Block) (t t' : Z) (x : A) (k : A -> M B) :
  topsAt bs t (k x) t' -> topsAt bs t (bind (ret x) k) t'.
Proof. intros H s b s' Ht Hb Hrun. apply (H s b s' Ht Hb Hrun). Qed.

Ltac same := first [reflexivity | lia].

Ltac level_step :=
  lazymatch goal with
  | |- keeps _ (bind _ _) => apply keeps_bind; [|intros]
  | |- keeps _ (ret _) => apply keeps_ret
  | |- keeps _ (throw _) => apply keeps_throw
  | |- keeps _ (gets _) => apply keeps_gets
  | |- keeps _ (modify _) => apply keeps_modify; intros; reflexivity
  | |- keeps _ (emitBody _) => apply keeps_d_emitBody; intros; reflexivity
  | |- keeps _ (skipBytes _) => apply keeps_skipBytes; intros; reflexivity
  | |- keeps _ (pushWord _) => apply keeps_pushWord; intros; reflexivity
  | |- keeps _ pushPtr => apply keeps_pushPtr; intros; reflexivity
  | |- keeps _ (pushUnary _ _) => apply keeps_pushUnary; intros; reflexivity
  | |- keeps _ (readU32LEB _) => apply keeps_readU32LEB; intros; reflexivity
  | |- keeps _ (readI32LEB _) => apply keeps_readI32LEB; intros; reflexivity
  | |- keeps _ (readI64LEB _) => apply keeps_readI64LEB; intros; reflexivity
  | |- keeps _ (readByteOrZero _) => apply keeps_readByteOrZero; intros; reflexivity
  | |- keeps _ (typeAt _ _) => apply keeps_typeAt
  | |- keeps _ (forRange _ _ _) => apply keeps_forRange; intros
  | |- keeps _ (if ?b then _ else _) => destruct b
  | |- keeps _ (match ?x with _ => _ end) => destruct x
  end.

Ltac level := solve [repeat level_step].

Ltac tops_head :=
  lazymatch goal with
  | |- topsAt _ _ (throw _) _ => apply topsAt_throw
  | |- topsAt _ _ _ _ =>
    first [ apply topsAt_keeps; [level | same]
          | apply topsAt_modify;
            let s := fresh "s" in
            let Hs := fresh "Hs" in
            intros s Hs; cbn [stackTop blocks set_stackTop set_constants];
            rewrite ?Hs; split; [same | reflexivity] ]
  end.

Ltac tops_step :=
  lazymatch goal with
  | |- topsAt _ _ (bind (bind _ _) _) _ => apply topsAt_assoc
  | |- topsAt _ _ (bind (ret _) _) _ => apply topsAt_ret_bind
  | |- topsAt _ _ (bind (if ?b then _ else _) _) _ => destruct b
  | |- topsAt _ _ (bind (match ?x with _ => _ end) _) _ => destruct x
  | |- topsAt _ _ (bind (pushConst _ _) _) _ => unfold pushConst
  | |- topsAt _ _ (bind (pushTernary _ _ _ _) _) _ => unfold pushTernary
  | |- topsAt _ _ (bind (pushCall _ _ _ _ _) _) _ => unfold pushCall
  | |- topsAt _ _ (bind _ _) _ => eapply topsAt_bind; [tops_head | intros]
  | |- topsAt _ _ (if ?b then _ else _) _ => destruct b
  | |- topsAt _ _ (match ?x with _ => _ end) _ => destruct x
  | |- topsAt _ _ (pushConst _ _) _ => unfold pushConst
  | |- topsAt _ _ (pushTernary _ _ _ _) _ => unfold pushTernary
  | |- topsAt _ _ (pushCall _ _ _ _ _) _ => unfold pushCall
  | |- topsAt _ _ _ _ => tops_head
  end.

Ltac tops := repeat tops_step.

Section Heights.

Variable env : Env.
Variable wasm : WASM.
Variable funcTypes : list FuncType.
Variable names : list string.
Variable fuel : nat.

(** By how much an instruction that neither branches nor opens or
    closes a block moves [stackTop] in a live block; [q] is the position
    after the opcode. *)
Definition stackEffect (op q : Z) : option Z :=
  let flags := metaTable op in
  if hasFlag flags MetaFlag.Simple then
    Some ((if hasFlag flags MetaFlag.Push then 1 else 0) - js_and flags MetaFlag.PopMask)
  else if op =? Op.call then
    match lookupZ funcTypes (fst (u32At wasm q)) with
    | Some (argTypes, returnTypes) =>
      Some (Z.of_nat (List.length returnTypes) - Z.of_nat (List.length argTypes))
    | None => None
    end
  else if op =? Op.call_indirect then
    match lookupZ (typeSection_ wasm) (fst (u32At wasm q)) with
    | Some (argTypes, returnTypes) =>
      Some (Z.of_nat (List.length returnTypes) - (Z.of_nat (List.length argTypes) + 1))
    | None => None
    end
  else if op =? Op.select then Some (-2)
  else if (op =? Op.i32_const) || (op =? Op.i64_const)
          || (op =? Op.f32_const) || (op =? Op.f64_const) then Some 1
  else if op =? 0xFC then
    match lookupZ (bytes_ wasm) q with
    | Some sub =>
      if sub <=? Op.i64_trunc_sat_f64_u then Some 0
      else if (sub =? Op.memory_copy) || (sub =? Op.memory_fill) then Some (-2)
      else None
    | None => None
    end
  else None.

Lemma topsAt_decodeSimple (bs : list Block) (t op : Z) :
  topsAt bs t (decodeSimple wasm op (metaTable op))
         (t + ((if hasFlag (metaTable op) MetaFlag.Push then 1 else 0)
               - js_and (metaTable op) MetaFlag.PopMask)).
Proof.
  unfold decodeSimple. cbv zeta.
  destruct (hasFlag (metaTable op) MetaFlag.Push); tops.
Qed.

Lemma height_decodeSpecial (bs : list Block) (current : Block) (op q d : Z) :
  topOf bs = Some current -> isDead_ current = false ->
  hasFlag (metaTable op) MetaFlag.Simple = false ->
  stackEffect op q = Some d ->
  forall s s', blocks s = bs -> bytesPtr s = q ->
               decodeSpecial env wasm funcTypes names fuel op s = Ok (tt, s') ->
               stackTop s' = stackTop s + d /\ blocks s' = bs.
Proof.
  intros Htop Hlive Hsimple Heffect s s' Hb Hq Hrun.
  unfold stackEffect in Heffect. rewrite Hsimple in Heffect. cbv zeta in Heffect.
  assert (Hfinish : forall (c : M unit) (s1 : State),
             topsAt bs (stackTop s) c (stackTop s + d) ->
             stackTop s1 = stackTop s -> blocks s1 = bs -> c s1 = Ok (tt, s') ->
             stackTop s' = stackTop s + d /\ blocks s' = bs).
  { intros c s1 Hc Ht1 Hb1 Hc1. apply (Hc s1 tt s' Ht1 Hb1 Hc1). }
  revert Hrun Heffect. unfold decodeSpecial.
  destruct (Z.eqb_spec op Op.unreachable) as [->|_]; [intros _ H; vm_compute in H; discriminate|].
  destruct (Z.eqb_spec op Op.block) as [->|_]; [intros _ H; vm_compute in H; discriminate|].
  destruct (Z.eqb_spec op Op.loop) as [->|_]; [intros _ H; vm_compute in H; discriminate|].
  destruct (Z.eqb_spec op Op.if_) as [->|_]; [intros _ H; vm_compute in H; discriminate|].
  destruct (Z.eqb_spec op Op.else_) as [->|_]; [intros _ H; vm_compute in H; discriminate|].
  destruct (Z.eqb_spec op Op.end_) as [->|_]; [intros _ H; vm_compute in H; discriminate|].
  destruct (Z.eqb_spec op Op.br) as [->|_]; [intros _ H; vm_compute in H; discriminate|].
  destruct (Z.eqb_spec op Op.br_if) as [->|_]; [intros _ H; vm_compute in H; discriminate|].
  destruct (Z.eqb_spec op Op.br_table) as [->|_]; [intros _ H; vm_compute in H; discriminate|].
  destruct (Z.eqb_spec op Op.return_) as [->|_]; [intros _ H; vm_compute in H; discriminate|].
  destruct (Z.eqb_spec op Op.call) as [->|_].
  { intros Hrun Heffect. unfold bind at 1 in Hrun. rewrite readU32LEB_run, Hq in Hrun.
    destruct (lookupZ funcTypes (fst (u32At wasm q))) as [[argTypes returnTypes]|];
      [|discriminate].
    injection Heffect as <-.
    eapply Hfinish; [| | |exact Hrun]; [|reflexivity|exact Hb].
    apply (topsAt_live bs current); [exact Htop|]. rewrite Hlive. cbn [negb]. cbv iota.
    tops. }
  destruct (Z.eqb_spec op Op.call_indirect) as [->|_].
  { intros Hrun Heffect. unfold bind at 1 in Hrun. rewrite readU32LEB_run, Hq in Hrun.
    destruct (lookupZ (typeSection_ wasm) (fst (u32At wasm q)))
      as [[argTypes returnTypes]|] eqn:Etype; [|discriminate].
    injection Heffect as <-.
    eapply Hfinish; [| | |exact Hrun]; [|reflexivity|exact Hb].
    eapply topsAt_bind; [apply topsAt_keeps; [level | reflexivity]|]. intros tableIndex.
    destruct (negb (tableIndex =? 0)); [apply topsAt_throw|].
    apply (topsAt_live bs current); [exact Htop|]. rewrite Hlive. cbn [negb]. cbv iota.
    unfold typeAt. rewrite Etype. tops. }
  destruct (Z.eqb_spec op Op.select) as [->|_].
  { intros Hrun Heffect. injection Heffect as <-.
    eapply Hfinish; [| | |exact Hrun]; [|reflexivity|exact Hb].
    apply (topsAt_live bs current); [exact Htop|]. rewrite Hlive. cbn [negb]. cbv iota.
    tops. }
  destruct (Z.eqb_spec op Op.i32_const) as [->|_].
  { intros Hrun Heffect. injection Heffect as <-.
    eapply Hfinish; [| | |exact Hrun]; [|reflexivity|exact Hb].
    apply (topsAt_live bs current); [exact Htop|]. rewrite Hlive. cbv iota.
    tops. }
  destruct (Z.eqb_spec op Op.i64_const) as [->|_].
  { intros Hrun Heffect. injection Heffect as <-.
    eapply Hfinish; [| | |exact Hrun]; [|reflexivity|exact Hb].
    apply (topsAt_live bs current); [exact Htop|]. rewrite Hlive. cbv iota.
    tops. }
  destruct (Z.eqb_spec op Op.f32_const) as [->|_].
  { intros Hrun Heffect. injection Heffect as <-.
    eapply Hfinish; [| | |exact Hrun]; [|reflexivity|exact Hb].
    apply (topsAt_live bs current); [exact Htop|]. rewrite Hlive. cbn [negb]. cbv iota.
    tops. }
  destruct (Z.eqb_spec op Op.f64_const) as [->|_].
  { intros Hrun Heffect. injection Heffect as <-.
    eapply Hfinish; [| | |exact Hrun]; [|reflexivity|exact Hb].
    apply (topsAt_live bs current); [exact Htop|]. rewrite Hlive. cbn [negb]. cbv iota.
    tops. }
  destruct (Z.eqb_spec op 0xFC) as [->|_]; [|intros _ H; cbn in H; discriminate].
  cbn [orb]. intros Hrun Heffect. unfold decodeFC in Hrun.
  unfold bind at 1 in Hrun. unfold gets at 1 in Hrun. rewrite Hq in Hrun.
  unfold bind at 1 in Hrun. unfold skipBytes at 1, modify at 1 in Hrun.
  destruct (lookupZ (bytes_ wasm) q) as [sub|]; [|discriminate].
  destruct (sub <=? Op.i64_trunc_sat_f64_u).
  { injection Heffect as <-.
    eapply Hfinish; [| | |exact Hrun]; [|reflexivity|exact Hb].
    apply (topsAt_live bs current); [exact Htop|]. rewrite Hlive. cbn [negb]. cbv iota.
    tops. }
  destruct (sub =? Op.memory_copy).
  { injection Heffect as <-.
    eapply Hfinish; [| | |exact Hrun]; [|reflexivity|exact Hb].
    eapply topsAt_bind; [apply topsAt_keeps; [level | reflexivity]|]. intros src.
    eapply topsAt_bind; [apply topsAt_keeps; [level | reflexivity]|]. intros [].
    apply (topsAt_live bs current); [exact Htop|]. rewrite Hlive. cbn [negb]. cbv iota.
    tops. }
  destruct (sub =? Op.memory_fill); [|discriminate].
  injection Heffect as <-.
  eapply Hfinish; [| | |exact Hrun]; [|reflexivity|exact Hb].
  eapply topsAt_bind; [apply topsAt_keeps; [level | reflexivity]|]. intros dst.
  eapply topsAt_bind; [apply topsAt_keeps; [level | reflexivity]|]. intros [].
  apply (topsAt_live bs current); [exact Htop|]. rewrite Hlive. cbn [negb]. cbv iota.
  tops.
Qed.

(** X11.  In a live block an instruction that neither branches nor
    opens or closes a block leaves the block stack alone and moves
    [stackTop] by a fixed amount: an instruction of the meta table by
    its push flag minus its pop count, a constant by one, [select] by
    minus two, a call by the number of results minus the number of
    arguments (one more for the table slot of [call_indirect]), a
    saturating truncation by nothing, and [memory.copy] and
    [memory.fill], which take three operands, by minus two. *)
Theorem stack_height_follows_the_instruction (s s' : State) (current : Block) (op d : Z) :
  lookupZ (bytes_ wasm) (bytesPtr s) = Some op ->
  topOf (blocks s) = Some current -> isDead_ current = false ->
  stackEffect op (bytesPtr s + 1) = Some d ->
  step env wasm funcTypes names fuel s = Ok (tt, s') ->
  stackTop s' = stackTop s + d /\ blocks s' = blocks s.
Proof.
  intros Hop Htop Hlive Heffect Hrun.
  destruct (hasFlag (metaTable op) MetaFlag.Simple) eqn:Hsimple.
  - rewrite (step_simple env wasm funcTypes names fuel s op Hop Hsimple) in Hrun.
    unfold stackEffect in Heffect. rewrite Hsimple in Heffect. cbv zeta in Heffect.
    injection Heffect as <-.
    assert (Hc : topsAt (blocks s) (stackTop s)
                        (dead <- topIsDead ;;
                         if dead then skipSimple wasm (metaTable op)
                         else decodeSimple wasm op (metaTable op))
                        (stackTop s
                         + ((if hasFlag (metaTable op) MetaFlag.Push then 1 else 0)
                            - js_and (metaTable op) MetaFlag.PopMask))).
    { apply (topsAt_live (blocks s) current); [exact Htop|]. rewrite Hlive.
      apply topsAt_decodeSimple. }
    apply (Hc (set_bytesPtr (bytesPtr s + 1) s) tt s'); [reflexivity | reflexivity | exact Hrun].
  - rewrite (step_special env wasm funcTypes names fuel s op Hop Hsimple) in Hrun.
    apply (height_decodeSpecial (blocks s) current op (bytesPtr s + 1) d Htop Hlive Hsimple
                                Heffect (set_bytesPtr (bytesPtr s + 1) s) s');
      [reflexivity | reflexivity | exact Hrun].
Qed.

End Heights.

Lemma stack_height_follows_the_instruction_witness :
  stackTop (decoded rotl64 ["a0"; "a1"] 1 3 5) = stackTop beforeRotl + -1
  /\ blocks (decoded rotl64 ["a0"; "a1"] 1 3 5) = blocks beforeRotl.
Proof.
  apply (stack_height_follows_the_instruction
           plainEnv rotl64 [] ["a0"; "a1"] 100 beforeRotl _
           (mkBlock 0 false Normal (-1) (-1) 0 1) Op.i64_rotl);
    [reflexivity | reflexivity | reflexivity | reflexivity | vm_compute; reflexivity].
Defined.

(** ** Signed LEB128 numbers *)

(** The signed LEB128 encoding of [n]: the groups of seven bits of the
    two's complement of [n], the low ones first, as many as it takes
    for bit 6 of the last group to be the sign.  [fuel] bounds the
    number of continuation bytes. *)
Fixpoint sleb128 (fuel : nat) (n : Z) : list Z :=
  match fuel with
  | O => [n mod 128]
  | S fuel' =>
    if (-64 <=? n) && (n <? 64) then [n mod 128]
    else (n mod 128 + 128) :: sleb128 fuel' (n / 128)
  end.

Lemma byte_sign (b : Z) :
  0 <= b < 128 -> (js_and b 0x40 =? 0) = (b <? 64).
Proof.
  intros Hb.
  pose proof (forall_bytes
                (fun b => (128 <=? b) || Bool.eqb (js_and b 0x40 =? 0) (b <? 64))
                ltac:(vm_compute; reflexivity) b ltac:(lia)) as H.
  cbv beta in H. destruct (Z.leb_spec 128 b); [lia|]. cbn [orb] in H.
  apply Bool.eqb_prop in H. exact H.
Qed.

(** The low [7 + m] bits are the low seven and the low [m] of the rest. *)
Lemma split7_mod (n m : Z) :
  0 <= m ->
  n mod 2 ^ (7 + m) = Z.lor (n mod 128) (Z.shiftl ((n / 128) mod 2 ^ m) 7).
Proof.
  intros Hm. apply Z.bits_inj'. intros i Hi. rewrite Z.lor_spec.
  change 128 with (2 ^ 7). rewrite <- Z.shiftr_div_pow2 by lia.
  destruct (Z.ltb_spec i 7) as [Hlt|Hge].
  - rewrite !Z.mod_pow2_bits_low by lia. rewrite Z.shiftl_spec_low by lia.
    rewrite orb_false_r. reflexivity.
  - rewrite (Z.mod_pow2_bits_high n 7) by lia. rewrite Z.shiftl_spec by lia. cbn [orb].
    destruct (Z.ltb_spec i (7 + m)) as [Hlt'|Hge'].
    + rewrite !Z.mod_pow2_bits_low by lia. rewrite Z.shiftr_spec by lia. f_equal. lia.
    + rewrite !Z.mod_pow2_bits_high by lia. reflexivity.
Qed.

Lemma lebLoop_sleb128 (rest : list Z) (k : nat) :
  forall n value shift count,
    - (64 * 128 ^ Z.of_nat k) <= n < 64 * 128 ^ Z.of_nat k ->
    0 <= shift -> shift + 7 * Z.of_nat k < 32 ->
    let len := Z.of_nat (List.length (sleb128 k n)) in
    exists value' byte',
      lebLoop accumulate32 (sleb128 k n ++ rest) value shift count
      = (value', shift + 7 * len, byte', count + len)
      /\ value' mod 2 ^ 32
         = Z.lor (value mod 2 ^ 32) (Z.shiftl (n mod 2 ^ (7 * len)) shift mod 2 ^ 32)
      /\ - 2 ^ 31 <= value' < 2 ^ 31
      /\ (js_and byte' 0x40 =? 0) = (0 <=? n)
      /\ - 2 ^ (7 * len - 1) <= n < 2 ^ (7 * len - 1)
      /\ 1 <= len <= Z.of_nat k + 1.
Proof.
  assert (Hlast : forall n value shift count,
             -64 <= n < 64 -> 0 <= shift < 32 ->
             exists value' byte',
               lebLoop accumulate32 ([n mod 128] ++ rest) value shift count
               = (value', shift + 7 * 1, byte', count + 1)
               /\ value' mod 2 ^ 32
                  = Z.lor (value mod 2 ^ 32) (Z.shiftl (n mod 2 ^ (7 * 1)) shift mod 2 ^ 32)
               /\ - 2 ^ 31 <= value' < 2 ^ 31
               /\ (js_and byte' 0x40 =? 0) = (0 <=? n)
               /\ - 2 ^ (7 * 1 - 1) <= n < 2 ^ (7 * 1 - 1)).
  { intros n value shift count Hn Hs. cbn [app lebLoop].
    pose proof (Z.mod_pos_bound n 128 ltac:(lia)) as Hm.
    pose proof (byte_bits (n mod 128) ltac:(lia)) as Hb.
    destruct (Z.ltb_spec (n mod 128) 128); [|lia]. destruct Hb as [-> ->]. cbn [Z.eqb].
    eexists _, _. split; [reflexivity|].
    split; [apply accumulate32_mod; exact Hs|].
    split; [unfold accumulate32, js_or; apply toInt32_range|].
    split; [|change (2 ^ (7 * 1 - 1)) with 64; lia].
    rewrite byte_sign by lia.
    destruct (Z.leb_spec 0 n) as [Hpos|Hneg].
    - rewrite Z.mod_small by lia. apply Z.ltb_lt. lia.
    - replace (n mod 128) with (n + 128)
        by (apply Z.mod_unique with (q := -1); lia).
      apply Z.ltb_ge. lia. }
  induction k as [|k IH]; intros n value shift count Hn Hshift Hk; cbn [sleb128].
  - change (128 ^ Z.of_nat 0) with 1 in Hn. cbn [List.length].
    destruct (Hlast n value shift count ltac:(lia) ltac:(lia))
      as (v' & b' & H1 & H2 & H3 & H4 & H5).
    exists v', b'. cbv zeta. change (Z.of_nat 1) with 1. repeat split; try assumption; try lia.
  - destruct ((-64 <=? n) && (n <? 64)) eqn:Esmall.
    { apply andb_prop in Esmall. destruct Esmall as [E1 E2].
      apply Z.leb_le in E1. apply Z.ltb_lt in E2. cbn [List.length].
      destruct (Hlast n value shift count ltac:(lia) ltac:(lia))
        as (v' & b' & H1 & H2 & H3 & H4 & H5).
      exists v', b'. cbv zeta. change (Z.of_nat 1) with 1.
      repeat split; try assumption; try lia. }
    cbn [app lebLoop List.length].
    pose proof (Z.mod_pos_bound n 128 ltac:(lia)) as Hm.
    pose proof (byte_bits (n mod 128 + 128) ltac:(lia)) as Hb.
    destruct (Z.ltb_spec (n mod 128 + 128) 128); [lia|]. destruct Hb as [H80 H7F].
    rewrite H7F. destruct (Z.eqb_spec (js_and (n mod 128 + 128) 128) 0) as [E|_]; [contradiction|].
    replace (n mod 128 + 128 - 128) with (n mod 128) by lia.
    assert (Hpow : 128 ^ Z.of_nat (S k) = 128 * 128 ^ Z.of_nat k).
    { rewrite Nat2Z.inj_succ, Z.pow_succ_r by lia. reflexivity. }
    assert (Hdiv : - (64 * 128 ^ Z.of_nat k) <= n / 128 < 64 * 128 ^ Z.of_nat k).
    { rewrite Hpow in Hn. split.
      - apply Z.div_le_lower_bound; lia.
      - apply Z.div_lt_upper_bound; lia. }
    destruct (IH (n / 128) (accumulate32 value (n mod 128) shift) (shift + 7) (count + 1)
                 Hdiv ltac:(lia) ltac:(lia)) as (v' & b' & Hrun & Hval & Hrange & Hsign & Hn' & Hlen).
    cbv zeta in *.
    set (len := Z.of_nat (List.length (sleb128 k (n / 128)))) in *.
    exists v', b'.
    replace (Z.of_nat (S (List.length (sleb128 k (n / 128))))) with (len + 1)
      by (unfold len; lia).
    split.
    { rewrite Hrun.
      replace (shift + 7 + 7 * len) with (shift + 7 * (len + 1)) by lia.
      replace (count + 1 + len) with (count + (len + 1)) by lia. reflexivity. }
    split.
    { rewrite Hval, accumulate32_mod by lia. rewrite <- Z.lor_assoc. f_equal.
      rewrite <- lor_mod32. f_equal.
      replace (7 * (len + 1)) with (7 + 7 * len) by lia.
      rewrite (split7_mod n (7 * len)) by lia.
      rewrite Z.shiftl_lor, Z.shiftl_shiftl by lia. f_equal. f_equal. lia. }
    split; [exact Hrange|].
    split.
    { rewrite Hsign. destruct (Z.leb_spec 0 n) as [Hpos|Hneg].
      - apply Z.leb_le. apply Z.div_pos; lia.
      - apply Z.leb_gt. apply Z.div_lt_upper_bound; lia. }
    split; [|lia].
    replace (7 * (len + 1) - 1) with (Z.succ (Z.succ (Z.succ (Z.succ (Z.succ (Z.succ (Z.succ (7 * len - 1)))))))) by lia.
    rewrite !Z.pow_succ_r by lia.
    pose proof (Z.div_mod n 128 ltac:(lia)) as Hdm. lia.
Qed.

Lemma int32_eq (a b : Z) :
  - 2 ^ 31 <= a < 2 ^ 31 -> - 2 ^ 31 <= b < 2 ^ 31 -> a mod 2 ^ 32 = b mod 2 ^ 32 -> a = b.
Proof.
  intros Ha Hb H. rewrite <- (toInt32_small a), <- (toInt32_small b) by lia.
  unfold toInt32. f_equal.
  rewrite <- (Zplus_mod_idemp_l a), <- (Zplus_mod_idemp_l b), H. reflexivity.
Qed.

Lemma mod_mod_pow2 (n m : Z) : 32 <= m -> (n mod 2 ^ m) mod 2 ^ 32 = n mod 2 ^ 32.
Proof.
  intros Hm. apply Z.bits_inj'. intros i Hi.
  destruct (Z.ltb_spec i 32).
  - rewrite !Z.mod_pow2_bits_low by lia. reflexivity.
  - rewrite !Z.mod_pow2_bits_high by lia. reflexivity.
Qed.

(** The sign extension of a negative number of [m] bits. *)
Lemma sign_extension (n m : Z) :
  0 < m < 32 -> - 2 ^ (m - 1) <= n < 0 ->
  Z.lor (n mod 2 ^ m) (Z.shiftl (-1) m mod 2 ^ 32) = n mod 2 ^ 32.
Proof.
  intros Hm Hn. apply Z.bits_inj'. intros i Hi. rewrite Z.lor_spec.
  destruct (Z.ltb_spec i 32) as [Hlt|Hge].
  - rewrite (Z.mod_pow2_bits_low _ 32) by lia. rewrite (Z.mod_pow2_bits_low n 32) by lia.
    destruct (Z.ltb_spec i m) as [Hlow|Hhigh].
    + rewrite Z.mod_pow2_bits_low by lia. rewrite Z.shiftl_spec_low by lia.
      apply orb_false_r.
    + rewrite Z.mod_pow2_bits_high by lia. rewrite Z.shiftl_spec by lia.
      cbn [orb]. rewrite Z.bits_m1 by lia. symmetry.
      apply Z.bits_above_log2_neg; [lia|].
      destruct (Z.eq_dec n (-1)) as [->|Hne]; [cbn; lia|].
      apply Z.log2_lt_pow2; [lia|].
      apply Z.lt_le_trans with (2 ^ (m - 1)); [lia|]. apply Z.pow_le_mono_r; lia.
  - rewrite !Z.mod_pow2_bits_high by lia. reflexivity.
Qed.

Section ReadSignedLEB.

Variable wasm : WASM.

(** X12.  [readI32LEB] reads signed LEB128: when the bytes at
    [bytesPtr] are the encoding (at most five bytes) of a number that
    fits 32 bits, negative or not, it returns that number and leaves
    [bytesPtr] after the encoding. *)
Theorem readI32LEB_reads_sleb128 (s : State) (n : Z) (rest : list Z) :
  - 2 ^ 31 <= n < 2 ^ 31 ->
  bytesFrom wasm (bytesPtr s) = sleb128 4 n ++ rest ->
  readI32LEB wasm s
  = Ok (n, set_bytesPtr (bytesPtr s + Z.of_nat (List.length (sleb128 4 n))) s).
Proof.
  intros Hn Hbytes. unfold readI32LEB, readLEB, bind. rewrite Hbytes.
  destruct (lebLoop_sleb128 rest 4 n 0 0 0)
    as (v & b & Hrun & Hval & Hrange & Hsign & Hbits & Hlen).
  - change (2 ^ 31) with 2147483648 in Hn. change (128 ^ Z.of_nat 4) with 268435456. lia.
  - lia.
  - cbn. lia.
  - cbv zeta in *. set (len := Z.of_nat (List.length (sleb128 4 n))) in *.
    rewrite Hrun. unfold ret. rewrite Hsign. f_equal. f_equal.
    change (0 mod 2 ^ 32) with 0 in Hval. rewrite Z.lor_0_l, Z.shiftl_0_r in Hval.
    change (0 + 7 * len) with (7 * len).
    destruct (Z.leb_spec 0 n) as [Hpos|Hneg]; cbn [negb]; rewrite ?andb_false_r.
    + apply int32_eq; [exact Hrange | exact Hn|].
      rewrite Hval. rewrite (Z.mod_small n (2 ^ (7 * len))); [reflexivity|].
      split; [lia|]. apply Z.lt_le_trans with (2 ^ (7 * len - 1)); [lia|].
      apply Z.pow_le_mono_r; lia.
    + rewrite andb_true_r. destruct (Z.ltb_spec (7 * len) 32) as [Hshort|Hlong].
      * apply int32_eq; [unfold js_or; apply toInt32_range | exact Hn|].
        unfold js_or, js_shl. rewrite toInt32_mod, lor_mod32, toInt32_mod.
        rewrite (Z.mod_small (7 * len) 32) by lia. rewrite Hval.
        rewrite (Z.mod_small (n mod 2 ^ (7 * len)) (2 ^ 32)).
        { apply sign_extension; lia. }
        pose proof (Z.mod_pos_bound n (2 ^ (7 * len)) ltac:(apply Z.pow_pos_nonneg; lia)).
        split; [lia|]. apply Z.lt_le_trans with (2 ^ (7 * len)); [lia|].
        apply Z.pow_le_mono_r; lia.
      * apply int32_eq; [exact Hrange | exact Hn|].
        rewrite Hval. apply mod_mod_pow2. lia.
Qed.

End ReadSignedLEB.

Lemma readI32LEB_reads_sleb128_witness :
  readI32LEB (oneFunction ([], []) [] [0xC0; 0xBB; 0x78; 0x0B])
             (initialState freshStore [] 0 0)
  = Ok (-123456, set_bytesPtr 3 (initialState freshStore [] 0 0)).
Proof.
  exact (readI32LEB_reads_sleb128 (oneFunction ([], []) [] [0xC0; 0xBB; 0x78; 0x0B])
                                  (initialState freshStore [] 0 0) (-123456) [0x0B]
                                  ltac:(lia) eq_refl).
Defined.

(** ** Signed LEB128 numbers of 64 bits *)

(** The encoding is the shortest one. *)
Lemma sleb128_length (k : nat) :
  forall (j : nat) n,
    - (64 * 128 ^ Z.of_nat j) <= n < 64 * 128 ^ Z.of_nat j ->
    (List.length (sleb128 k n) <= j + 1)%nat.
Proof.
  induction k as [|k IH]; intros j n Hn; cbn [sleb128]; [cbn; lia|].
  destruct ((-64 <=? n) && (n <? 64)) eqn:Esmall; [cbn; lia|].
  destruct j as [|j].
  { change (128 ^ Z.of_nat 0) with 1 in Hn.
    apply andb_false_iff in Esmall. destruct Esmall as [E|E];
      [apply Z.leb_gt in E | apply Z.ltb_ge in E]; lia. }
  cbn [List.length].
  assert (Hpow : 128 ^ Z.of_nat (S j) = 128 * 128 ^ Z.of_nat j).
  { rewrite Nat2Z.inj_succ, Z.pow_succ_r by lia. reflexivity. }
  rewrite Hpow in Hn.
  assert (Hdiv : - (64 * 128 ^ Z.of_nat j) <= n / 128 < 64 * 128 ^ Z.of_nat j).
  { split; [apply Z.div_le_lower_bound | apply Z.div_lt_upper_bound]; lia. }
  specialize (IH j (n / 128) Hdiv). lia.
Qed.

Lemma lebLoop64_sleb128 (rest : list Z) (k : nat) :
  forall n value shift count,
    - (64 * 128 ^ Z.of_nat k) <= n < 64 * 128 ^ Z.of_nat k ->
    0 <= shift ->
    let len := Z.of_nat (List.length (sleb128 k n)) in
    exists byte',
      lebLoop accumulate64 (sleb128 k n ++ rest) value shift count
      = (Z.lor value (Z.shiftl (n mod 2 ^ (7 * len)) shift), shift + 7 * len, byte', count + len)
      /\ (js_and byte' 0x40 =? 0) = (0 <=? n)
      /\ - 2 ^ (7 * len - 1) <= n < 2 ^ (7 * len - 1)
      /\ 1 <= len <= Z.of_nat k + 1.
Proof.
  assert (Hlast : forall n value shift count,
             -64 <= n < 64 -> 0 <= shift ->
             exists byte',
               lebLoop accumulate64 ([n mod 128] ++ rest) value shift count
               = (Z.lor value (Z.shiftl (n mod 2 ^ (7 * 1)) shift), shift + 7 * 1, byte',
                  count + 1)
               /\ (js_and byte' 0x40 =? 0) = (0 <=? n)
               /\ - 2 ^ (7 * 1 - 1) <= n < 2 ^ (7 * 1 - 1)).
  { intros n value shift count Hn Hs. cbn [app lebLoop].
    pose proof (Z.mod_pos_bound n 128 ltac:(lia)) as Hm.
    pose proof (byte_bits (n mod 128) ltac:(lia)) as Hb.
    destruct (Z.ltb_spec (n mod 128) 128); [|lia]. destruct Hb as [-> ->]. cbn [Z.eqb].
    eexists. split; [reflexivity|].
    split; [|change (2 ^ (7 * 1 - 1)) with 64; lia].
    rewrite byte_sign by lia.
    destruct (Z.leb_spec 0 n) as [Hpos|Hneg].
    - rewrite Z.mod_small by lia. apply Z.ltb_lt. lia.
    - replace (n mod 128) with (n + 128)
        by (apply Z.mod_unique with (q := -1); lia).
      apply Z.ltb_ge. lia. }
  induction k as [|k IH]; intros n value shift count Hn Hshift; cbn [sleb128].
  - change (128 ^ Z.of_nat 0) with 1 in Hn. cbn [List.length].
    destruct (Hlast n value shift count ltac:(lia) ltac:(lia)) as (b' & H1 & H2 & H3).
    exists b'. cbv zeta. change (Z.of_nat 1) with 1. repeat split; try assumption; try lia.
  - destruct ((-64 <=? n) && (n <? 64)) eqn:Esmall.
    { apply andb_prop in Esmall. destruct Esmall as [E1 E2].
      apply Z.leb_le in E1. apply Z.ltb_lt in E2. cbn [List.length].
      destruct (Hlast n value shift count ltac:(lia) ltac:(lia)) as (b' & H1 & H2 & H3).
      exists b'. cbv zeta. change (Z.of_nat 1) with 1.
      repeat split; try assumption; try lia. }
    cbn [app lebLoop List.length].
    pose proof (Z.mod_pos_bound n 128 ltac:(lia)) as Hm.
    pose proof (byte_bits (n mod 128 + 128) ltac:(lia)) as Hb.
    destruct (Z.ltb_spec (n mod 128 + 128) 128); [lia|]. destruct Hb as [H80 H7F].
    rewrite H7F. destruct (Z.eqb_spec (js_and (n mod 128 + 128) 128) 0) as [E|_]; [contradiction|].
    replace (n mod 128 + 128 - 128) with (n mod 128) by lia.
    assert (Hpow : 128 ^ Z.of_nat (S k) = 128 * 128 ^ Z.of_nat k).
    { rewrite Nat2Z.inj_succ, Z.pow_succ_r by lia. reflexivity. }
    assert (Hdiv : - (64 * 128 ^ Z.of_nat k) <= n / 128 < 64 * 128 ^ Z.of_nat k).
    { rewrite Hpow in Hn. split.
      - apply Z.div_le_lower_bound; lia.
      - apply Z.div_lt_upper_bound; lia. }
    destruct (IH (n / 128) (accumulate64 value (n mod 128) shift) (shift + 7) (count + 1)
                 Hdiv ltac:(lia)) as (b' & Hrun & Hsign & Hn' & Hlen).
    cbv zeta in *.
    set (len := Z.of_nat (List.length (sleb128 k (n / 128)))) in *.
    exists b'.
    replace (Z.of_nat (S (List.length (sleb128 k (n / 128))))) with (len + 1)
      by (unfold len; lia).
    split.
    { rewrite Hrun.
      replace (shift + 7 + 7 * len) with (shift + 7 * (len + 1)) by lia.
      replace (count + 1 + len) with (count + (len + 1)) by lia.
      f_equal. f_equal. f_equal.
      unfold accumulate64. rewrite <- Z.lor_assoc. f_equal.
      replace (7 * (len + 1)) with (7 + 7 * len) by lia.
      rewrite (split7_mod n (7 * len)) by lia.
      rewrite Z.shiftl_lor, Z.shiftl_shiftl by lia. f_equal. f_equal. lia. }
    split.
    { rewrite Hsign. destruct (Z.leb_spec 0 n) as [Hpos|Hneg].
      - apply Z.leb_le. apply Z.div_pos; lia.
      - apply Z.leb_gt. apply Z.div_lt_upper_bound; lia. }
    split; [|lia].
    replace (7 * (len + 1) - 1) with (Z.succ (Z.succ (Z.succ (Z.succ (Z.succ (Z.succ (Z.succ (7 * len - 1)))))))) by lia.
    rewrite !Z.pow_succ_r by lia.
    pose proof (Z.div_mod n 128 ltac:(lia)) as Hdm. lia.
Qed.

(** On BigInts nothing wraps: the sign extension of a negative number
    of [m] bits is the number. *)
Lemma sign_extension64 (n m : Z) :
  0 < m -> - 2 ^ (m - 1) <= n < 0 -> Z.lor (n mod 2 ^ m) (Z.shiftl (-1) m) = n.
Proof.
  intros Hm Hn. apply Z.bits_inj'. intros i Hi. rewrite Z.lor_spec.
  destruct (Z.ltb_spec i m) as [Hlow|Hhigh].
  - rewrite Z.mod_pow2_bits_low by lia. rewrite Z.shiftl_spec_low by lia.
    apply orb_false_r.
  - rewrite Z.mod_pow2_bits_high by lia. rewrite Z.shiftl_spec by lia.
    cbn [orb]. rewrite Z.bits_m1 by lia. symmetry.
    apply Z.bits_above_log2_neg; [lia|].
    destruct (Z.eq_dec n (-1)) as [->|Hne]; [cbn; lia|].
    apply Z.log2_lt_pow2; [lia|].
    apply Z.lt_le_trans with (2 ^ (m - 1)); [lia|]. apply Z.pow_le_mono_r; lia.
Qed.

Section ReadSignedLEB64.

Variable wasm : WASM.

(** X13.  [readI64LEB] on the signed LEB128 encoding (at most ten
    bytes) of a 64-bit number [n] leaves [bytesPtr] after the encoding
    and returns [n], except for [n] below [-2^62], whose ten-byte
    encoding it returns without the sign, as [n + 2^70]; in both cases
    the mask the emitter applies gives the two's complement of [n]. *)
Theorem readI64LEB_reads_sleb128 (s : State) (n : Z) (rest : list Z) :
  - 2 ^ 63 <= n < 2 ^ 63 ->
  bytesFrom wasm (bytesPtr s) = sleb128 9 n ++ rest ->
  let value := if n <? - 2 ^ 62 then n + 2 ^ 70 else n in
  readI64LEB wasm s
  = Ok (value, set_bytesPtr (bytesPtr s + Z.of_nat (List.length (sleb128 9 n))) s)
  /\ Z.land value 0xFFFFFFFFFFFFFFFF = n mod 2 ^ 64.
Proof.
  intros Hn Hbytes. cbv zeta. split.
  - unfold readI64LEB, readLEB, bind. rewrite Hbytes.
    destruct (lebLoop64_sleb128 rest 9 n 0 0 0) as (b & Hrun & Hsign & Hbits & Hlen).
    { change (2 ^ 63) with 9223372036854775808 in Hn.
      change (128 ^ Z.of_nat 9) with 9223372036854775808. lia. }
    { lia. }
    cbv zeta in *. pose proof (sleb128_length 9 8 n) as Hshort.
    set (len := Z.of_nat (List.length (sleb128 9 n))) in *.
    rewrite Hrun. unfold ret. rewrite Hsign. f_equal. f_equal.
    rewrite Z.lor_0_l, Z.shiftl_0_r. change (0 + 7 * len) with (7 * len).
    assert (Hpow : 0 < 2 ^ (7 * len)) by (apply Z.pow_pos_nonneg; lia).
    assert (Hhalf : 2 ^ (7 * len) = 2 * 2 ^ (7 * len - 1)).
    { rewrite <- Z.pow_succ_r by lia. f_equal. lia. }
    destruct (Z.leb_spec 0 n) as [Hpos|Hneg]; cbn [negb]; rewrite ?andb_false_r.
    + destruct (Z.ltb_spec n (- 2 ^ 62)); [lia|]. apply Z.mod_small. lia.
    + rewrite andb_true_r. destruct (Z.ltb_spec (7 * len) 64) as [Hlt|Hge].
      * rewrite sign_extension64 by lia.
        destruct (Z.ltb_spec n (- 2 ^ 62)) as [Hbig|]; [|reflexivity].
        exfalso. assert (Hle : 7 * len - 1 <= 62) by lia.
        pose proof (Z.pow_le_mono_r 2 (7 * len - 1) 62 ltac:(lia) Hle). lia.
      * assert (Hten : len = 10) by lia. rewrite Hten in *.
        destruct (Z.ltb_spec n (- 2 ^ 62)) as [Hbig|Hsmall].
        { symmetry. apply Z.mod_unique with (q := -1); [left|]; lia. }
        exfalso. change (Z.of_nat 8) with 8 in Hshort.
        change (64 * 128 ^ 8) with (2 ^ 62) in Hshort.
        specialize (Hshort ltac:(lia)). unfold len in Hten. lia.
  - change 0xFFFFFFFFFFFFFFFF with (Z.ones 64). rewrite Z.land_ones by lia.
    destruct (n <? - 2 ^ 62); [|reflexivity].
    change (2 ^ 70) with (64 * 2 ^ 64). apply Z_mod_plus_full.
Qed.

End ReadSignedLEB64.

Lemma readI64LEB_reads_sleb128_witness :
  readI64LEB (oneFunction ([], []) [] [0x80; 0x80; 0x80; 0x80; 0x80; 0x80; 0x80; 0x80; 0x80; 0x7F; 0x0B])
             (initialState freshStore [] 0 0)
  = Ok (- 2 ^ 63 + 2 ^ 70, set_bytesPtr 10 (initialState freshStore [] 0 0))
  /\ Z.land (- 2 ^ 63 + 2 ^ 70) 0xFFFFFFFFFFFFFFFF = (- 2 ^ 63) mod 2 ^ 64.
Proof.
  exact (readI64LEB_reads_sleb128
           (oneFunction ([], []) [] [0x80; 0x80; 0x80; 0x80; 0x80; 0x80; 0x80; 0x80; 0x80; 0x7F; 0x0B])
           (initialState freshStore [] 0 0) (- 2 ^ 63) [0x0B]
           ltac:(cbn; lia) eq_refl).
Defined.

(** ** Opening and closing blocks *)

Lemma topOf_snoc (front : list Block) (b : Block) : topOf (front ++ [b]) = Some b.
Proof.
  induction front as [|x front IH]; [reflexivity|].
  change (topOf (x :: (front ++ [b])) = Some b).
  destruct (front ++ [b]) eqn:E; [destruct front; discriminate|]. exact IH.
Qed.

Lemma updTop_snoc (f : Block -> Block) (front : list Block) (b : Block) :
  updTop f (front ++ [b]) = front ++ [f b].
Proof.
  induction front as [|x front IH]; [reflexivity|].
  change (updTop f (x :: (front ++ [b])) = x :: (front ++ [f b])).
  destruct (front ++ [b]) eqn:E; [destruct front; discriminate|].
  change (x :: updTop f (b0 :: l) = x :: (front ++ [f b])). rewrite IH. reflexivity.
Qed.

Lemma topOf_last (l : list Block) (b : Block) :
  topOf l = Some b -> exists front, l = front ++ [b].
Proof.
  induction l as [|x l IH]; [discriminate|].
  destruct l as [|y l].
  - intros H. injection H as ->. exists []. reflexivity.
  - intros H. destruct (IH H) as [front E]. exists (x :: front). rewrite E. reflexivity.
Qed.

(** What the instructions of structured control flow work on. *)
Definition frameView (s : State) : Z * list Block * Z := (stackTop s, blocks s, bytesPtr s).

Ltac frame_step :=
  lazymatch goal with
  | |- keeps _ topBlock => apply keeps_topBlock
  | |- keeps _ topIsDead => apply keeps_topIsDead
  | |- keeps _ (jump _) => apply keeps_jump; intros; reflexivity
  | |- keeps _ (readBlockType _) => apply keeps_readBlockType; intros; reflexivity
  | |- keeps _ _ => level_step
  end.

Ltac frame := solve [repeat frame_step].

(** [kept_in H f]: the run [H] leaves the projection [f] as it is. *)
Ltac kept_in H f :=
  lazymatch type of H with
  | ?c ?s = Ok _ =>
    let K := fresh "K" in
    let E := fresh "E" in
    assert (K : keeps f c) by frame;
    pose proof (K _ _ _ H) as E; cbv beta in E; clear K
  end.

(** The bytes that stand for a value type: i32, i64, f32, f64, v128,
    funcref and externref. *)
Definition isValueType (byte : Z) : bool :=
  (byte =? 0x7F) || (byte =? 0x7E) || (byte =? 0x7D) || (byte =? 0x7C)
  || (byte =? 0x7B) || (byte =? 0x70) || (byte =? 0x6F).

(** The argument and result counts of the block type at [p] as the
    binary format writes it, a signed LEB128 number of 33 bits: the
    byte 0x40 is the empty type, the byte of a value type is one result
    of that type, and a number that is not negative is the index of a
    function type of the type section.  Anything else is no block
    type. *)
Definition blockTypeOf (wasm : WASM) (p : Z) : option (Z * Z) :=
  let byte := byteOrZero wasm p in
  if byte =? 0x40 then Some (0, 0)
  else if isValueType byte then Some (0, 1)
  else
    let '(_, shift, last, _) := lebLoop accumulate32 (bytesFrom wasm p) 0 0 0 in
    if (if shift <? 35 then js_and last 0x40 =? 0
        else (shift =? 35) && (js_and last 0x70 =? 0))
    then match lookupZ (typeSection_ wasm) (indexAt wasm p) with
         | Some (argTypes, returnTypes) =>
           Some (Z.of_nat (List.length argTypes), Z.of_nat (List.length returnTypes))
         | None => None
         end
    else None.

Lemma isValueType_bits (byte : Z) :
  isValueType byte = true
  -> (js_and byte 0x40 =? 0) = false /\ (js_and byte 0x80 =? 0) = true.
Proof.
  unfold isValueType. rewrite !orb_true_iff, !Z.eqb_eq.
  intros [[[[[[-> | ->] | ->] | ->] | ->] | ->] | ->]; split; reflexivity.
Qed.

Section Frames.

Variable env : Env.
Variable wasm : WASM.
Variable funcTypes : list FuncType.
Variable names : list string.
Variable fuel : nat.

(** The block type that [readBlockType] reads is a matter of
    [bytesPtr] alone. *)
Lemma readBlockType_at (s0 s2 s1 : State) (r : Z * Z) :
  bytesPtr s0 = bytesPtr s2 -> readBlockType wasm s0 = Ok (r, s1) ->
  exists s3, readBlockType wasm s2 = Ok (r, s3).
Proof.
  intros E H. unfold readBlockType in *.
  inv_bind H as p sa Ha. inv_ret Ha.
  unfold bind at 1. unfold gets at 1. rewrite <- E.
  destruct (_ =? 0x40).
  { inv_bind H as u sb Hb. inv_ret H. eexists. unfold bind, skipBytes, modify, ret. reflexivity. }
  destruct (negb _).
  { inv_bind H as u sb Hb. inv_ret H. eexists. unfold bind, skipBytes, modify, ret. reflexivity. }
  inv_bind H as typeIndex sb Hb. rewrite readU32LEB_run in Hb. injection Hb as <- <-.
  unfold bind at 1. rewrite readU32LEB_run. rewrite <- E.
  inv_bind H as t sc Hc. unfold typeAt in *.
  destruct (lookupZ (typeSection_ wasm) _) as [[argTypes returnTypes]|]; [|discriminate].
  inv_ret Hc. inv_ret H. eexists. unfold bind, ret. reflexivity.
Qed.

(** The counts that [readBlockType] returns are those of the block
    type, unless it misreads it: then they are those of a value type. *)
Lemma readBlockType_format (s s1 : State) (counts type : Z * Z) :
  0 <= bytesPtr s ->
  readBlockType wasm s = Ok (counts, s1) ->
  blockTypeOf wasm (bytesPtr s) = Some type ->
  counts = (if misreadsBlockType wasm (bytesPtr s) then (0, 1) else type).
Proof.
  intros Hp H Hfmt. unfold readBlockType in H.
  inv_bind H as p sa Ha. inv_ret Ha.
  unfold blockTypeOf, misreadsBlockType in *. cbv zeta in *.
  change (match lookupZ (bytes_ wasm) (bytesPtr s) with Some b => b | None => 0 end)
    with (byteOrZero wasm (bytesPtr s)) in H.
  destruct (Z.eqb_spec (byteOrZero wasm (bytesPtr s)) 0x40) as [E|_].
  { inv_bind H as u sb Hb. inv_ret H. rewrite E. cbn [negb andb].
    injection Hfmt as <-. reflexivity. }
  destruct (js_and (byteOrZero wasm (bytesPtr s)) 0x40 =? 0) eqn:Hsix; cbn [negb] in *.
  - rewrite andb_false_r.
    destruct (isValueType (byteOrZero wasm (bytesPtr s))) eqn:Hval.
    { apply isValueType_bits in Hval. rewrite Hsix in Hval. destruct Hval; discriminate. }
    inv_bind H as typeIndex sb Hb. rewrite readU32LEB_run in Hb. injection Hb as <- <-.
    inv_bind H as t sc Hc. unfold typeAt in Hc.
    destruct (lebLoop accumulate32 (bytesFrom wasm (bytesPtr s)) 0 0 0) as [[[v shift] last] c].
    destruct (if shift <? 35 then _ else _); [|discriminate].
    unfold indexAt in Hfmt.
    destruct (lookupZ (typeSection_ wasm) _) as [[argTypes returnTypes]|]; [|discriminate].
    inv_ret Hc. inv_ret H. injection Hfmt as <-. reflexivity.
  - inv_bind H as u sb Hb. inv_ret H. rewrite andb_true_r.
    destruct (js_and (byteOrZero wasm (bytesPtr s)) 0x80 =? 0) eqn:Hseven; cbn [negb];
      [|reflexivity].
    destruct (isValueType (byteOrZero wasm (bytesPtr s))); [injection Hfmt as <-; reflexivity|].
    rewrite (bytesFrom_head wasm _ Hp) in Hfmt. unfold byteOrZero in *.
    destruct (lookupZ (bytes_ wasm) (bytesPtr s)) as [b|]; [|discriminate].
    cbn [lebLoop] in Hfmt. rewrite Hseven in Hfmt.
    change (0 + 7 <? 35) with true in Hfmt. cbv iota in Hfmt.
    rewrite Hsix in Hfmt. discriminate.
Qed.

Lemma pushBlock_frame (kind : BlockKind) (s s' : State) (label : Z) :
  pushBlock wasm kind s = Ok (label, s') ->
  exists frame s1,
    blocks s' = blocks s ++ [frame] /\ stackTop s' = stackTop s
    /\ isDead_ frame = false /\ kind_ frame = kind
    /\ parentStackTop_ frame = stackTop s - argCount_ frame
    /\ readBlockType wasm s = Ok ((argCount_ frame, returnCount_ frame), s1).
Proof.
  unfold pushBlock. intros H.
  inv_bind H as depth s1 H1. inv_ret H1.
  inv_bind H as u s2 H2. kept_in H2 frameView.
  inv_bind H as labelBreak s3 H3. kept_in H3 frameView.
  inv_bind H as labelContinueOrElse s4 H4. kept_in H4 frameView.
  inv_bind H as type s5 H5. destruct type as [argCount returnCount].
  kept_in H5 heightView.
  inv_bind H as u6 s6 H6. inv_ret H6. inv_ret H.
  unfold frameView in *. unfold heightView in *.
  injection E as Et Eb Ep. injection E0 as Et0 Eb0 Ep0. injection E1 as Et1 Eb1 Ep1.
  injection E2 as Et2 Eb2.
  destruct (readBlockType_at s4 s s5 (argCount, returnCount)) as [s7 Hs7];
    [congruence | exact H5 |].
  eexists (mkBlock argCount false kind _ _ _ returnCount), s7.
  cbn [blocks stackTop set_blocks isDead_ kind_ parentStackTop_ argCount_ returnCount_].
  split; [rewrite Eb2, Eb1, Eb0, Eb; reflexivity|].
  split; [congruence|]. split; [reflexivity|]. split; [reflexivity|].
  split; [congruence | exact Hs7].
Qed.

End Frames.

(** The kind of the frame that [block], [loop] and [if] push. *)
Definition frameKind (op : Z) : BlockKind :=
  if op =? Op.block then Normal else if op =? Op.loop then Loop else IfElse.

(** [pick op H]: decide the tests of the [switch] for the opcode [op]. *)
Ltac pick op H :=
  repeat match type of H with
         | context [op =? ?b] =>
           let v := eval vm_compute in (op =? b) in change (op =? b) with v in H
         end;
  cbv iota in H.

Section Control.

Variable env : Env.
Variable wasm : WASM.
Variable funcTypes : list FuncType.
Variable names : list string.
Variable fuel : nat.

(** The frame that [block], [loop] and [if] push, with the counts that
    [readBlockType] returns. *)
Lemma block_entry_frame (s s' : State) (op : Z) :
  op = Op.block \/ op = Op.loop \/ op = Op.if_ ->
  lookupZ (bytes_ wasm) (bytesPtr s) = Some op ->
  step env wasm funcTypes names fuel s = Ok (tt, s') ->
  exists frame s1,
    blocks s' = blocks s ++ [frame]
    /\ isDead_ frame = false
    /\ kind_ frame = frameKind op
    /\ stackTop s' = stackTop s - (if op =? Op.if_ then 1 else 0)
    /\ parentStackTop_ frame = stackTop s' - argCount_ frame
    /\ readBlockType wasm (set_bytesPtr (bytesPtr s + 1) s)
       = Ok ((argCount_ frame, returnCount_ frame), s1).
Proof.
  intros Hcase Hop Hrun.
  assert (Hfinish : forall (s1 s2 s3 : State) (kind : BlockKind) (label d : Z) (c : M unit),
             frameView s1 = (stackTop s - d, blocks s, bytesPtr s + 1) ->
             pushBlock wasm kind s1 = Ok (label, s2) ->
             keeps frameView c -> c s2 = Ok (tt, s') ->
             exists frame s4,
               blocks s' = blocks s ++ [frame]
               /\ isDead_ frame = false
               /\ kind_ frame = kind
               /\ stackTop s' = stackTop s - d
               /\ parentStackTop_ frame = stackTop s' - argCount_ frame
               /\ readBlockType wasm (set_bytesPtr (bytesPtr s + 1) s)
                  = Ok ((argCount_ frame, returnCount_ frame), s4)).
  { intros s1 s2 s3 kind label d c Hview Hpush Hc Hlast.
    apply pushBlock_frame in Hpush.
    destruct Hpush as (frame & s4 & Hblocks & Htop & Hdead & Hkind & Hparent & Hread).
    pose proof (Hc _ _ _ Hlast) as E. unfold frameView in *.
    injection Hview as Ht1 Hb1 Hp1. injection E as Et Eb Ep.
    destruct (readBlockType_at wasm s1 (set_bytesPtr (bytesPtr s + 1) s) s4 _ Hp1 Hread)
      as [s5 Hs5].
    exists frame, s5.
    split; [rewrite Eb, Hblocks, Hb1; reflexivity|].
    split; [exact Hdead|]. split; [exact Hkind|].
    split; [lia|]. split; [lia | exact Hs5]. }
  destruct Hcase as [-> | [-> | ->]];
    rewrite (step_special env wasm funcTypes names fuel s _ Hop eq_refl) in Hrun;
    unfold decodeSpecial in Hrun.
  - pick Op.block Hrun.
    inv_bind Hrun as u s1 H1. apply finalize_height in H1. destruct H1 as (Ht1 & Hb1 & Hp1).
    inv_bind Hrun as label s2 H2.
    change (Op.block =? Op.if_) with false. cbv iota.
    refine (Hfinish s1 s2 s2 Normal label 0 _ _ H2 _ Hrun); [|frame].
    unfold frameView. rewrite Ht1, Hb1, Hp1. cbn [stackTop blocks bytesPtr set_bytesPtr].
    rewrite Z.sub_0_r. reflexivity.
  - pick Op.loop Hrun.
    inv_bind Hrun as u s1 H1. apply finalize_height in H1. destruct H1 as (Ht1 & Hb1 & Hp1).
    inv_bind Hrun as label s2 H2.
    change (Op.loop =? Op.if_) with false. cbv iota.
    refine (Hfinish s1 s2 s2 Loop label 0 _ _ H2 _ Hrun); [|frame].
    unfold frameView. rewrite Ht1, Hb1, Hp1. cbn [stackTop blocks bytesPtr set_bytesPtr].
    rewrite Z.sub_0_r. reflexivity.
  - pick Op.if_ Hrun.
    inv_bind Hrun as dead s1 H1. kept_in H1 frameView.
    inv_bind Hrun as u s2 H2. kept_in H2 frameView.
    inv_bind Hrun as test s3 H3. unfold finalizeTest in H3.
    inv_bind H3 as r s4 H4. apply finalize_height in H4. destruct H4 as (Ht4 & Hb4 & Hp4).
    inv_ret H3.
    inv_bind Hrun as label s5 H5.
    change (Op.if_ =? Op.if_) with true. cbv iota.
    refine (Hfinish s4 s5 s5 IfElse label 1 _ _ H5 _ Hrun); [|frame].
    unfold frameView in *. injection E as Et Eb Ep. injection E0 as Et0 Eb0 Ep0.
    rewrite Ht4, Hb4, Hp4, Et0, Eb0, Ep0, Et, Eb, Ep. reflexivity.
Qed.

(** X14.  [block], [loop] and [if] push one frame and touch no other:
    the new frame is live, also when the instruction itself is in dead
    code, it has the kind of the instruction, and it records the height
    of the stack below the block's arguments.  [if] takes its condition
    off the stack first; [block] and [loop] leave [stackTop] alone.
    The argument and result counts of the frame are those of the block
    type that the binary format puts after the opcode --- none for the
    empty type, one result for a value type, the counts of the function
    type for a type index --- with one exception: a type index whose
    first byte has bits 6 and 7 set (64 to 127 and so on) is taken for
    a value type, and the frame gets no argument and one result
    whatever the function type is. *)
Theorem block_entry_pushes_a_live_frame (s s' : State) (op : Z) :
  op = Op.block \/ op = Op.loop \/ op = Op.if_ ->
  lookupZ (bytes_ wasm) (bytesPtr s) = Some op ->
  step env wasm funcTypes names fuel s = Ok (tt, s') ->
  exists frame s1,
    blocks s' = blocks s ++ [frame]
    /\ isDead_ frame = false
    /\ kind_ frame = frameKind op
    /\ stackTop s' = stackTop s - (if op =? Op.if_ then 1 else 0)
    /\ parentStackTop_ frame = stackTop s' - argCount_ frame
    /\ (forall type, blockTypeOf wasm (bytesPtr s + 1) = Some type ->
          (argCount_ frame, returnCount_ frame)
          = (if misreadsBlockType wasm (bytesPtr s + 1) then (0, 1) else type))
    /\ readBlockType wasm (set_bytesPtr (bytesPtr s + 1) s)
       = Ok ((argCount_ frame, returnCount_ frame), s1).
Proof.
  intros Hcase Hop Hrun.
  assert (Hq : 0 <= bytesPtr s + 1).
  { unfold lookupZ in Hop. destruct (Z.ltb_spec (bytesPtr s) 0); [discriminate | lia]. }
  destruct (block_entry_frame s s' op Hcase Hop Hrun)
    as (frame & s1 & Hblocks & Hlive & Hkind & Htop & Hparent & Hread).
  exists frame, s1. repeat (split; [assumption|]). split; [|exact Hread].
  intros type Htype.
  exact (readBlockType_format wasm (set_bytesPtr (bytesPtr s + 1) s) s1 _ type Hq Hread Htype).
Qed.

(** X15.  [else] starts the second branch where the first one started:
    the frame on top becomes live again, whether or not the first
    branch ended in dead code, its kind becomes that of a plain block,
    and [stackTop] goes back to the height recorded at the [if] plus
    the arguments of the block; the frames below are not touched. *)
Theorem else_restarts_the_frame (s s' : State) (current : Block) :
  lookupZ (bytes_ wasm) (bytesPtr s) = Some Op.else_ ->
  topOf (blocks s) = Some current ->
  step env wasm funcTypes names fuel s = Ok (tt, s') ->
  topOf (blocks s')
  = Some (mkBlock (argCount_ current) false Normal (labelBreak_ current)
                  (labelContinueOrElse_ current) (parentStackTop_ current)
                  (returnCount_ current))
  /\ removelast (blocks s') = removelast (blocks s)
  /\ stackTop s' = parentStackTop_ current + argCount_ current.
Proof.
  intros Hop Htop Hrun.
  rewrite (step_special env wasm funcTypes names fuel s _ Hop eq_refl) in Hrun.
  unfold decodeSpecial in Hrun. pick Op.else_ Hrun.
  destruct (topOf_last _ _ Htop) as [front Hfront].
  inv_bind Hrun as u s1 H1. apply finalize_height in H1. destruct H1 as (Ht1 & Hb1 & Hp1).
  cbn [blocks set_bytesPtr] in Hb1.
  inv_bind Hrun as index s2 H2. inv_ret H2.
  inv_bind Hrun as block s3 H3. unfold topBlock in H3. rewrite Hb1, Htop in H3.
  injection H3 as <- <-.
  inv_bind Hrun as u4 s4 H4. kept_in H4 frameView.
  inv_bind Hrun as u5 s5 H5. kept_in H5 frameView.
  inv_bind Hrun as u6 s6 H6. inv_ret H6.
  inv_bind Hrun as u7 s7 H7. inv_ret H7. inv_ret Hrun.
  unfold frameView in *. injection E as Et Eb Ep. injection E0 as Et0 Eb0 Ep0.
  cbn [blocks stackTop set_blocks set_stackTop].
  rewrite Eb0, Eb, Hb1, Hfront, !updTop_snoc, topOf_snoc, !removelast_last.
  split; [reflexivity|]. split; reflexivity.
Qed.

(** X16.  [end] pops exactly the frame on top and leaves [stackTop] at
    the height recorded when the block was entered plus the number of
    results of the block, whatever the height was at the [end] and
    whether or not the block ended in dead code. *)
Theorem end_closes_the_frame (s s' : State) (current : Block) :
  lookupZ (bytes_ wasm) (bytesPtr s) = Some Op.end_ ->
  topOf (blocks s) = Some current ->
  step env wasm funcTypes names fuel s = Ok (tt, s') ->
  blocks s' = removelast (blocks s)
  /\ stackTop s' = parentStackTop_ current + returnCount_ current.
Proof.
  intros Hop Htop Hrun.
  rewrite (step_special env wasm funcTypes names fuel s _ Hop eq_refl) in Hrun.
  unfold decodeSpecial in Hrun. pick Op.end_ Hrun.
  destruct (topOf_last _ _ Htop) as [front Hfront].
  inv_bind Hrun as u s1 H1. apply finalize_height in H1. destruct H1 as (Ht1 & Hb1 & Hp1).
  cbn [blocks set_bytesPtr] in Hb1.
  inv_bind Hrun as index s2 H2. inv_ret H2.
  inv_bind Hrun as old s3 H3. unfold topBlock in H3. rewrite Hb1, Htop in H3.
  injection H3 as <- <-.
  inv_bind Hrun as u4 s4 H4.
  assert (E4 : exists g, blocks s4 = front ++ [g current]
                         /\ parentStackTop_ (g current) = parentStackTop_ current
                         /\ returnCount_ (g current) = returnCount_ current).
  { destruct (negb (BlockKind_eqb (kind_ current) IfElse)).
    - inv_ret H4. exists (set_labelContinueOrElse 0).
      cbn [blocks set_blocks]. rewrite Hb1, Hfront, updTop_snoc. repeat split.
    - inv_ret H4. exists (fun b => b). rewrite Hb1, Hfront. repeat split. }
  destruct E4 as (g & Eb4 & Eparent & Ereturn).
  inv_bind Hrun as u5 s5 H5. inv_ret H5.
  inv_bind Hrun as u6 s6 H6. kept_in H6 frameView.
  inv_bind Hrun as block s7 H7. unfold topBlock in H7.
  unfold frameView in E. injection E as Et Eb Ep.
  cbn [blocks set_blocks] in Eb. rewrite Eb4, updTop_snoc in Eb.
  rewrite Eb, topOf_snoc in H7. injection H7 as <- <-.
  inv_bind Hrun as u8 s8 H8. kept_in H8 frameView.
  inv_bind Hrun as u9 s9 H9. inv_ret H9. inv_ret Hrun.
  unfold frameView in E. injection E as Et8 Eb8 Ep8.
  cbn [blocks stackTop set_blocks set_stackTop parentStackTop_ returnCount_ set_kind].
  rewrite Eb8, Eb, Hfront, !removelast_last, Eparent, Ereturn.
  split; reflexivity.
Qed.

End Control.

(** [i32.const 0; if (result i32) i32.const 1 else i32.const 2 end] as
    the body of a function without arguments. *)
Definition ifElse : WASM :=
  oneFunction ([], [I32]) []
              [0x41; 0x00; 0x04; 0x7F; 0x41; 0x01; 0x05; 0x41; 0x02; 0x0B; 0x0B].

Lemma block_entry_pushes_a_live_frame_witness :
  blockTypeOf ifElse (bytesPtr (decoded ifElse [] 1 1 2) + 1) = Some (0, 1)
  /\ exists frame,
       blocks (decoded ifElse [] 1 2 4) = blocks (decoded ifElse [] 1 1 2) ++ [frame]
       /\ isDead_ frame = false
       /\ kind_ frame = IfElse
       /\ stackTop (decoded ifElse [] 1 2 4) = stackTop (decoded ifElse [] 1 1 2) - 1
       /\ parentStackTop_ frame = stackTop (decoded ifElse [] 1 2 4) - argCount_ frame
       /\ (argCount_ frame, returnCount_ frame) = (0, 1).
Proof.
  split; [reflexivity|].
  destruct (block_entry_pushes_a_live_frame
              plainEnv ifElse [] [] 100 (decoded ifElse [] 1 1 2) (decoded ifElse [] 1 2 4)
              Op.if_)
    as (frame & s1 & Hblocks & Hlive & Hkind & Htop & Hparent & Htype & _);
    [right; right; reflexivity | reflexivity | vm_compute; reflexivity |].
  exists frame. repeat (split; [assumption|]). exact (Htype (0, 1) eq_refl).
Defined.

(** [block (type 64) end] in a module whose type 64 has two results:
    the index is written C0 00, and the frame is pushed with one
    result. *)
Definition block64 : WASM :=
  mkWASM [0x02; 0xC0; 0x00; 0x0B; 0x0B] (fun _ => "0") (fun _ => "0")
         [([], 0, 5)] [0] (fun _ => None) (repeat ([], []) 64 ++ [([], [I32; I32])]).

Lemma block_type_64_is_taken_for_a_value :
  blockTypeOf block64 1 = Some (0, 2)
  /\ misreadsBlockType block64 1 = true
  /\ exists frame,
       blocks (decoded block64 [] 0 1 1) = blocks (initialState freshStore ["L"; "T"] 0 0) ++ [frame]
       /\ (argCount_ frame, returnCount_ frame) = (0, 1).
Proof.
  split; [vm_compute; reflexivity|]. split; [vm_compute; reflexivity|].
  eexists. split; vm_compute; reflexivity.
Qed.

Lemma else_restarts_the_frame_witness :
  topOf (blocks (decoded ifElse [] 1 4 7)) = Some (mkBlock 0 false Normal (-1) (-1) 0 1)
  /\ removelast (blocks (decoded ifElse [] 1 4 7))
     = removelast (blocks (decoded ifElse [] 1 3 6))
  /\ stackTop (decoded ifElse [] 1 4 7) = 0 + 0.
Proof.
  apply (else_restarts_the_frame
           plainEnv ifElse [] [] 100 (decoded ifElse [] 1 3 6) (decoded ifElse [] 1 4 7)
           (mkBlock 0 false IfElse (-1) (-1) 0 1));
    [reflexivity | reflexivity | vm_compute; reflexivity].
Defined.

Lemma end_closes_the_frame_witness :
  blocks (decoded ifElse [] 1 6 10) = removelast (blocks (decoded ifElse [] 1 5 9))
  /\ stackTop (decoded ifElse [] 1 6 10) = 0 + 1.
Proof.
  apply (end_closes_the_frame
           plainEnv ifElse [] [] 100 (decoded ifElse [] 1 5 9) (decoded ifElse [] 1 6 10)
           (mkBlock 0 false Normal (-1) (-1) 0 1));
    [reflexivity | reflexivity | vm_compute; reflexivity].
Defined.

(** ** Branches *)

Ltac branch_step :=
  lazymatch goal with
  | |- keeps _ (jumpRelative _) => apply keeps_jumpRelative; intros; reflexivity
  | |- keeps _ _ => frame_step
  end.

(** [kept_at H f]: as [kept_in], over computations that branch. *)
Ltac kept_at H f :=
  lazymatch type of H with
  | ?c ?s = Ok _ =>
    let K := fresh "K" in
    let E := fresh "E" in
    assert (K : keeps f c) by (solve [repeat branch_step]);
    pose proof (K _ _ _ H) as E; cbv beta in E; clear K
  end.

Lemma set_isDead_dead (b : Block) : isDead_ b = true -> set_isDead true b = b.
Proof. destruct b. cbn. intros ->. reflexivity. Qed.

(** The end of [br], [br_table] and [return]. *)
Lemma kill_top (front : list Block) (current : Block) (s s' : State) :
  blocks s = front ++ [current] ->
  (topBlock ;; modifyTop (set_isDead true)) s = Ok (tt, s') ->
  stackTop s' = stackTop s /\ blocks s' = front ++ [set_isDead true current].
Proof.
  intros Hb H. inv_bind H as b s1 H1. kept_in H1 frameView. inv_ret H.
  unfold frameView in E. injection E as Et Eb Ep.
  cbn [stackTop blocks set_blocks]. rewrite Eb, Hb, updTop_snoc. auto.
Qed.

Section Branches.

Variable env : Env.
Variable wasm : WASM.
Variable funcTypes : list FuncType.
Variable names : list string.
Variable fuel : nat.

(** X17.  A branch changes nothing of the block stack but the liveness
    of the frame on top: [unreachable], [br], [br_table] and [return]
    mark it dead, [br_if] leaves it as it is, and no frame is pushed or
    popped.  [br_if] and [br_table] take their operand off the stack,
    in a dead frame too; the others leave [stackTop] alone. *)
Theorem branch_only_kills_the_frame (s s' : State) (current : Block) (op : Z) :
  op = Op.unreachable \/ op = Op.br \/ op = Op.br_if \/ op = Op.br_table \/ op = Op.return_ ->
  lookupZ (bytes_ wasm) (bytesPtr s) = Some op ->
  topOf (blocks s) = Some current ->
  step env wasm funcTypes names fuel s = Ok (tt, s') ->
  topOf (blocks s') = Some (if op =? Op.br_if then current else set_isDead true current)
  /\ removelast (blocks s') = removelast (blocks s)
  /\ stackTop s' = stackTop s - (if (op =? Op.br_if) || (op =? Op.br_table) then 1 else 0).
Proof.
  intros Hcase Hop Htop Hrun.
  destruct (topOf_last _ _ Htop) as [front Hfront].
  assert (Hshape : forall (b : Block) (d : Z),
             stackTop s' = stackTop s - d /\ blocks s' = front ++ [b] ->
             topOf (blocks s') = Some b
             /\ removelast (blocks s') = removelast (blocks s)
             /\ stackTop s' = stackTop s - d).
  { intros b d [Ht Hb]. rewrite Hb, Hfront, topOf_snoc, !removelast_last. auto. }
  destruct Hcase as [-> | [-> | [-> | [-> | ->]]]];
    rewrite (step_special env wasm funcTypes names fuel s _ Hop eq_refl) in Hrun;
    unfold decodeSpecial in Hrun.
  - pick Op.unreachable Hrun.
    change (Op.unreachable =? Op.br_if) with false.
    change (Op.unreachable =? Op.br_table) with false. cbv iota. cbn [orb]. cbv iota.
    apply Hshape.
    inv_bind Hrun as u s1 H1. apply finalize_height in H1. destruct H1 as (Ht1 & Hb1 & Hp1).
    cbn [stackTop blocks set_bytesPtr] in Ht1, Hb1.
    inv_bind Hrun as block s2 H2. unfold topBlock in H2. rewrite Hb1, Htop in H2.
    injection H2 as <- <-.
    destruct (isDead_ current) eqn:Hdead; cbn [negb] in Hrun.
    + inv_ret Hrun. rewrite set_isDead_dead by exact Hdead.
      split; [lia | congruence].
    + inv_bind Hrun as u3 s3 H3. kept_in H3 frameView. inv_ret Hrun.
      unfold frameView in E. injection E as Et Eb Ep.
      cbn [stackTop blocks set_blocks]. rewrite Eb, Hb1, Hfront, updTop_snoc.
      split; [lia | reflexivity].
  - pick Op.br Hrun.
    change (Op.br =? Op.br_if) with false.
    change (Op.br =? Op.br_table) with false. cbv iota. cbn [orb]. cbv iota.
    apply Hshape.
    inv_bind Hrun as u s1 H1. apply finalize_height in H1. destruct H1 as (Ht1 & Hb1 & Hp1).
    cbn [stackTop blocks set_bytesPtr] in Ht1, Hb1.
    inv_bind Hrun as u2 s2 H2. kept_at H2 heightView.
    unfold heightView in E. injection E as Et Eb.
    destruct (kill_top front current s2 s' ltac:(congruence) Hrun) as [Ht Hb].
    split; [lia | exact Hb].
  - pick Op.br_if Hrun.
    change (Op.br_if =? Op.br_if) with true. cbv iota. cbn [orb]. cbv iota.
    apply Hshape.
    inv_bind Hrun as dead s1 H1. kept_in H1 heightView.
    inv_bind Hrun as u s2 H2. kept_in H2 heightView.
    inv_bind Hrun as test s3 H3. unfold finalizeTest in H3.
    inv_bind H3 as r s4 H4. apply finalize_height in H4. destruct H4 as (Ht4 & Hb4 & Hp4).
    inv_ret H3.
    kept_at Hrun heightView.
    unfold heightView in *. injection E as Et Eb. injection E0 as Et0 Eb0.
    injection E1 as Et1 Eb1. cbn [stackTop blocks set_bytesPtr] in *.
    split; [lia | congruence].
  - pick Op.br_table Hrun.
    change (Op.br_table =? Op.br_if) with false.
    change (Op.br_table =? Op.br_table) with true. cbv iota. cbn [orb]. cbv iota.
    apply Hshape.
    inv_bind Hrun as test s3 H3. unfold finalizeTest in H3.
    inv_bind H3 as r s4 H4. apply finalize_height in H4. destruct H4 as (Ht4 & Hb4 & Hp4).
    inv_ret H3. cbn [stackTop blocks set_bytesPtr] in Ht4, Hb4.
    inv_bind Hrun as u5 s5 H5. kept_at H5 heightView.
    inv_bind Hrun as tableCount s6 H6. kept_at H6 heightView.
    inv_bind Hrun as u7 s7 H7. kept_at H7 heightView.
    inv_bind Hrun as u8 s8 H8. kept_at H8 heightView.
    inv_bind Hrun as u9 s9 H9. kept_at H9 heightView.
    inv_bind Hrun as u10 s10 H10. kept_at H10 heightView.
    unfold heightView in *. injection E as Et Eb. injection E0 as Et0 Eb0.
    injection E1 as Et1 Eb1. injection E2 as Et2 Eb2. injection E3 as Et3 Eb3.
    injection E4 as Et4 Eb4.
    destruct (kill_top front current s10 s' ltac:(congruence) Hrun) as [Ht Hb].
    split; [lia | exact Hb].
  - pick Op.return_ Hrun.
    change (Op.return_ =? Op.br_if) with false.
    change (Op.return_ =? Op.br_table) with false. cbv iota. cbn [orb]. cbv iota.
    apply Hshape.
    inv_bind Hrun as u s1 H1. apply finalize_height in H1. destruct H1 as (Ht1 & Hb1 & Hp1).
    cbn [stackTop blocks set_bytesPtr] in Ht1, Hb1.
    inv_bind Hrun as u2 s2 H2. kept_at H2 heightView.
    unfold heightView in E. injection E as Et Eb.
    destruct (kill_top front current s2 s' ltac:(congruence) Hrun) as [Ht Hb].
    split; [lia | exact Hb].
Qed.

End Branches.

Lemma branch_only_kills_the_frame_witness :
  topOf (blocks (decoded deadBrIf [] 0 1 2))
  = Some (if Op.br =? Op.br_if then mkBlock 0 false Normal (-1) (-1) 0 0
          else set_isDead true (mkBlock 0 false Normal (-1) (-1) 0 0))
  /\ removelast (blocks (decoded deadBrIf [] 0 1 2))
     = removelast (blocks (decoded deadBrIf [] 0 0 0))
  /\ stackTop (decoded deadBrIf [] 0 1 2)
     = stackTop (decoded deadBrIf [] 0 0 0)
       - (if (Op.br =? Op.br_if) || (Op.br =? Op.br_table) then 1 else 0).
Proof.
  apply (branch_only_kills_the_frame
           plainEnv deadBrIf [] [] 100 (decoded deadBrIf [] 0 0 0) (decoded deadBrIf [] 0 1 2)
           (mkBlock 0 false Normal (-1) (-1) 0 0) Op.br);
    [right; left; reflexivity | reflexivity | reflexivity | vm_compute; reflexivity].
Defined.

(** ** The emitted text *)

Lemma append_empty (t : string) : t +++ "" = t.
Proof. induction t as [|c t IH]; cbn; [reflexivity | rewrite IH; reflexivity]. Qed.

Lemma append_append (a b c : string) : (a +++ b) +++ c = a +++ (b +++ c).
Proof. induction a as [|x a IH]; cbn; [reflexivity | rewrite IH; reflexivity]. Qed.

(** [grows c]: all that a successful run of [c] does to the text of the
    function body is to append to it. *)
Definition grows {A : Type} (c : M A) : Prop :=
  forall s a s', c s = Ok (a, s') -> exists text, body s' = body s +++ text.

Lemma grows_bind {A B : Type} (c : M A) (k : A -> M B) :
  grows c -> (forall a, grows (k a)) -> grows (bind c k).
Proof.
  intros Hc Hk s b s' H. apply bind_Ok in H. destruct H as (a & s1 & H1 & H2).
  destruct (Hc _ _ _ H1) as [t1 E1]. destruct (Hk _ _ _ _ H2) as [t2 E2].
  exists (t1 +++ t2). rewrite E2, E1. apply append_append.
Qed.

Lemma grows_keeps {A : Type} (c : M A) : keeps body c -> grows c.
Proof. intros Hk s a s' H. exists "". rewrite (Hk _ _ _ H). symmetry. apply append_empty. Qed.

Lemma grows_emitBody (text : string) : grows (emitBody text).
Proof. intros s a s' H. unfold emitBody, modify in H. injection H as _ <-. exists text. reflexivity. Qed.

Lemma grows_forRange (from : Z) (n : nat) (f : Z -> M unit) :
  (forall k, grows (f k)) -> grows (forRange from n f).
Proof.
  intros Hf. revert from. induction n as [|n IH]; intros from; cbn [forRange].
  - apply grows_keeps, keeps_ret.
  - apply grows_bind; [apply Hf | intros; apply IH].
Qed.

Ltac silent_step :=
  lazymatch goal with
  | |- keeps _ (modifyTop _) => apply keeps_modifyTop; intros; reflexivity
  | |- keeps _ (readBlockType _) => apply keeps_readBlockType; intros; reflexivity
  | |- keeps _ topBlock => apply keeps_topBlock
  | |- keeps _ topIsDead => apply keeps_topIsDead
  | |- keeps _ (pushConst _ _) => apply keeps_pushConst; intros; try reflexivity
  | |- keeps _ (pushTernary _ _ _ _) => apply keeps_pushTernary; intros; reflexivity
  | |- keeps _ (pushCall _ _ _ _ _) => apply keeps_pushCall; intros; reflexivity
  | |- keeps _ (decodeSimple _ _ _) => apply keeps_decodeSimple; intros; reflexivity
  | |- keeps _ (skipSimple _ _) => apply keeps_skipSimple; intros; reflexivity
  | |- keeps _ (decodeFC _) => apply keeps_decodeFC; intros; reflexivity
  | |- keeps _ _ => level_step
  end.

Ltac silent := solve [repeat silent_step].

Ltac grows_step :=
  lazymatch goal with
  | |- grows (bind _ _) => apply grows_bind; [|intros]
  | |- grows (emitBody _) => apply grows_emitBody
  | |- grows (forRange _ _ _) => apply grows_forRange; intros
  | |- grows (finalizeTest _ _ _ _ _) => unfold finalizeTest
  | |- grows (jumpRelative _) => unfold jumpRelative
  | |- grows (jump _) => unfold jump
  | |- grows (copySlots _ _ _) => unfold copySlots
  | |- grows (pushBlock _ _) => unfold pushBlock
  | |- grows (if ?b then _ else _) => destruct b
  | |- grows (match ?x with _ => _ end) => destruct x
  | |- grows _ => first [assumption | apply grows_keeps; silent]
  end.

Section Text.

Variable env : Env.
Variable wasm : WASM.
Variable funcTypes : list FuncType.
Variable names : list string.
Variable fuel : nat.

Lemma grows_finalize (pop : bool) :
  grows (finalizeBasicBlock env wasm funcTypes names fuel pop).
Proof.
  unfold finalizeBasicBlock.
  apply grows_bind; [grows_step|]. intros len.
  apply grows_bind; [apply grows_keeps, keeps_optimizeAll; ign|]. intros _.
  apply grows_bind; [grows_step|]. intros ptrs.
  apply grows_bind.
  { apply grows_keeps. destruct pop; [|silent].
    apply keeps_bind; [silent|]. intros top.
    apply keeps_bind; [|intros; silent].
    destruct (lookupZ ptrs (len - 1)) as [[ptr|]|]; [|silent|silent].
    apply keeps_bind; [apply keeps_astGet|]. intros node.
    destruct (nodeOutSlot node =? top); [|silent].
    apply keeps_bind; [apply keeps_emitUnwrapped; ign | intros; silent]. }
  intros [result i].
  apply grows_bind; [apply grows_keeps, keeps_emitStatements; ign|]. intros parts.
  repeat grows_step.
Qed.

Lemma grows_decodeSpecial (op : Z) : grows (decodeSpecial env wasm funcTypes names fuel op).
Proof.
  pose proof grows_finalize as Hfinal.
  unfold decodeSpecial.
  repeat lazymatch goal with
         | |- grows (bind (finalizeBasicBlock _ _ _ _ _ _) _) =>
           apply grows_bind; [apply Hfinal | intros]
         | |- grows (finalizeBasicBlock _ _ _ _ _ _) => apply Hfinal
         | |- _ => grows_step
         end.
Qed.

Lemma grows_instruction : grows (step env wasm funcTypes names fuel).
Proof.
  unfold step.
  apply grows_bind; [grows_step|]. intros p.
  apply grows_bind; [grows_step|]. intros _.
  destruct (lookupZ (bytes_ wasm) p) as [op|]; [|grows_step].
  cbv zeta. destruct (hasFlag (metaTable op) MetaFlag.Simple).
  - repeat grows_step.
  - apply grows_decodeSpecial.
Qed.

(** X18.  The decoder writes the body of the function in one pass: a
    run of the decoding loop, over any number of instructions, only
    appends to the text emitted so far, so what was emitted for an
    instruction is never revised by a later one. *)
Theorem emitted_text_only_grows (codeEnd : Z) (n : nat) (s s' : State) :
  decode env wasm funcTypes names fuel n codeEnd s = Ok (tt, s') ->
  exists text, body s' = body s +++ text.
Proof.
  revert s. induction n as [|n IH]; intros s H; cbn [decode] in H.
  - inv_bind H as p s1 H1. inv_ret H1.
    destruct (bytesPtr s <? codeEnd); [discriminate|]. inv_ret H.
    exists "". symmetry. apply append_empty.
  - inv_bind H as p s1 H1. inv_ret H1.
    destruct (bytesPtr s <? codeEnd).
    + inv_bind H as u s2 H2. destruct (grows_instruction _ _ _ H2) as [t1 E1].
      destruct (IH _ H) as [t2 E2]. exists (t1 +++ t2). rewrite E2, E1.
      apply append_append.
    + inv_ret H. exists "". symmetry. apply append_empty.
Qed.

End Text.

Lemma emitted_text_only_grows_witness :
  exists text,
    body (decoded ifElse [] 1 6 10) = body (initialState freshStore ["L"; "T"] 1 0) +++ text.
Proof.
  apply (emitted_text_only_grows plainEnv ifElse [] [] 100 10 6
                                 (initialState freshStore ["L"; "T"] 1 0)
                                 (decoded ifElse [] 1 6 10)).
  vm_compute. reflexivity.
Defined.
